(** * d3-dag: a shallow embedding of the layered (sugiyama) layout operators

    The TypeScript sources are embedded function by function:

    - [Stratify]    : src/dag/stratify.ts (the [stratify] builder)
    - [LongestPath] : sugiyama/layering/longest-path.ts
    - [Simplex]     : sugiyama/layering/simplex.ts
    - [Opt]         : sugiyama/decross/opt.ts
    - [Quad]        : sugiyama/coord/quad.ts
    - [Sugiyama]    : sugiyama/index.ts

    JavaScript exceptions are values of the [res] error monad; operator
    objects (closures over an [options] object) live in an explicit object
    store so that aliasing between an operator and its configured copies is
    visible. *)

From Stdlib Require Import ZArith QArith Lia Lqa Ascii.
From stdpp Require Import base option list strings gmap pretty sorting.

Local Open Scope Z_scope.
Local Open Scope list_scope.

(** ** Exceptions *)

(** The [Error]s thrown by the embedded sources, one constructor per
    [throw new Error(...)] site (the message text is kept in the comment). *)
Inductive Error : Type :=
  | EmptyData                (* "can't stratify empty data" *)
  | DuplicateId (id : string) (* `found a duplicate id: ${id}` *)
  | MissingId (pid : string)  (* `missing id: ${pid}` *)
  | InvalidId (id : string)   (* thrown by verifyId *)
  | InvalidDag                (* thrown by verifyDag *)
  | GotArguments              (* `got arguments to f(...)` *)
  | TooLargeCrash             (* opt: "... will likely crash instead of complete" *)
  | TooLargeStall             (* opt: "... will likely not complete" *)
  | IllDefinedConstraints     (* simplex: "could not find a feasible simplex layout ..." *)
  | Infeasible                (* thrown by the linear-program solver *)
  | AssertionFailed           (* utils.assert on a falsy value *)
  | NegativeConst             (* "const accessors should return non-negative values" *)
  | NegativeWeights           (* `weights must be non-negative, but were ...` *)
  | NonPositiveWeight        (* `weight must be positive, but was ...` *)
  | UnexpectedUndefined       (* thrown by def of utils.ts on undefined *)
  | TypeError.               (* of the runtime: using an object that is not the
                                expected operator, writing to a property of
                                undefined *)

Inductive res (A : Type) : Type :=
  | Ok (a : A)
  | Throw (e : Error).
Arguments Ok {A} a.
Arguments Throw {A} e.

Definition res_bind {A B : Type} (m : res A) (k : A -> res B) : res B :=
  match m with
  | Ok a => k a
  | Throw e => Throw e
  end.

Declare Scope res_scope.
Delimit Scope res_scope with res.
Notation "'do' x <- m ; k" := (res_bind m (fun x => k))
  (at level 10, x name, m at level 100, k at level 200) : res_scope.
Notation "'do' ' p <- m ; k" := (res_bind m (fun x => match x with p => k end))
  (at level 10, p pattern, m at level 100, k at level 200) : res_scope.
Local Open Scope res_scope.

Definition throws {A : Type} (r : res A) : Prop := exists e, r = Throw e.

(** ** dag/stratify.ts *)
Module Stratify.
Section Stratify.
(** [N] is the node datum, [L] the link datum. *)
Context {N L : Type}.

(** A [LayoutDagNode]: its datum and its [dataChildren] array of
    [LayoutChildLink (child, linkData)]; nodes are named by their
    allocation index. *)
Record LayoutDagNode : Type := {
  data : N;
  dataChildren : list (nat * L);
}.

(** What [stratify] returns: [new LayoutDagRoot(roots)] or [roots[0]]
    ([None] is JavaScript's [undefined]), together with the node objects. *)
Inductive DagHandle : Type :=
  | LayoutDagRoot (roots : list nat)
  | RootNode (r : option nat).

Record Dag : Type := {
  nodes : list LayoutDagNode;
  handle : DagHandle;
}.

(** The operator's accessors; an accessor may raise.  [parentDataOp]
    may return [undefined] ([None]). *)
Variable idOp : N -> nat -> res string.
Variable parentDataOp : N -> nat -> res (option (list (string * L))).

(** [verifyId] and [verifyDag] come from dag/verify.ts, which is not part
    of the sources at hand: [verifyId] returns its argument or throws,
    [verifyDag] throws or returns nothing. *)
Variable valid_id : string -> bool.
Variable verifyDag_ok : list LayoutDagNode -> list nat -> bool.

Definition verifyId (id : string) : res string :=
  if valid_id id then Ok id else Throw (InvalidId id).

Definition verifyDag (ns : list LayoutDagNode) (roots : list nat) : res unit :=
  if verifyDag_ok ns roots then Ok tt else Throw InvalidDag.

(** [mapping : Map<string, [DagNode, pdata]>]; a JavaScript [Map] iterates
    in insertion order and no key is ever overwritten here, so it is an
    association list in insertion order. *)
Definition Mapping : Type := list (string * (nat * list (string * L))).

Fixpoint mapping_get (m : Mapping) (id : string) : option (nat * list (string * L)) :=
  match m with
  | [] => None
  | (k, v) :: m' => if String.eqb k id then Some v else mapping_get m' id
  end.

Definition mapping_has (m : Mapping) (id : string) : bool :=
  match mapping_get m id with Some _ => true | None => false end.

(** First loop: [for (const [i, datum] of data.entries())]. The node
    created for [datum] number [i] is node [i]. *)
Fixpoint fill_mapping (data : list N) (i : nat) (mapping : Mapping) : res Mapping :=
  match data with
  | [] => Ok mapping
  | datum :: rest =>
      do raw <- idOp datum i;
      do id <- verifyId raw;
      do pd <- parentDataOp datum i;
      let pdata := match pd with Some l => l | None => [] end in
      if mapping_has mapping id then Throw (DuplicateId id)
      else fill_mapping rest (S i) (mapping ++ [(id, (i, pdata))])
  end.

(** [par.dataChildren.push(x)] on the node store. *)
Definition push_child (ns : list LayoutDagNode) (par : nat) (x : nat * L)
  : list LayoutDagNode :=
  match ns !! par with
  | Some p => <[par := {| data := data p; dataChildren := dataChildren p ++ [x] |}]> ns
  | None => ns
  end.

(** Inner loop: [for (const [pid, linkData] of pdata)]. *)
Fixpoint link_parents (mapping : Mapping) (node : nat) (pdata : list (string * L))
    (ns : list LayoutDagNode) : res (list LayoutDagNode) :=
  match pdata with
  | [] => Ok ns
  | (pid, linkData) :: rest =>
      match mapping_get mapping pid with
      | None => Throw (MissingId pid)
      | Some (par, _) => link_parents mapping node rest (push_child ns par (node, linkData))
      end
  end.

(** Second loop: [for (const [node, pdata] of mapping.values())]. *)
Fixpoint link_all (mapping : Mapping) (todo : Mapping)
    (ns : list LayoutDagNode) (roots : list nat) : res (list LayoutDagNode * list nat) :=
  match todo with
  | [] => Ok (ns, roots)
  | (_, (node, pdata)) :: rest =>
      do ns' <- link_parents mapping node pdata ns;
      link_all mapping rest ns'
        (match pdata with [] => roots ++ [node] | _ => roots end)
  end.

Definition stratify (data : list N) : res Dag :=
  match data with
  | [] => Throw EmptyData
  | _ =>
      do mapping <- fill_mapping data 0%nat [];
      let ns := map (fun d => {| data := d; dataChildren := [] |}) data in
      do '(ns', roots) <- link_all mapping mapping ns [];
      do _ <- verifyDag ns' roots;
      Ok {| nodes := ns';
            handle := if (1 <? length roots)%nat then LayoutDagRoot roots
                      else RootNode (head roots) |}
  end.

(** *** Specification predicates *)

(** Two distinct data elements produce the same id. *)
Definition duplicate_id (data : list N) : Prop :=
  exists i j di dj s,
    i <> j /\ data !! i = Some di /\ data !! j = Some dj /\
    idOp di i = Ok s /\ idOp dj j = Ok s.

(** Some datum names a parent id that no data element produces. *)
Definition unknown_parent (data : list N) : Prop :=
  exists i d pdata pid ld,
    data !! i = Some d /\ parentDataOp d i = Ok (Some pdata) /\
    (pid, ld) ∈ pdata /\
    forall j dj, data !! j = Some dj -> idOp dj j <> Ok pid.

End Stratify.
End Stratify.

(** ** The dag model shared by the layering operators *)

(** A JavaScript number as the layering code uses it: an integer or [NaN]
    ([undefined + 1], and anything computed from it). *)
Inductive num : Type :=
  | Num (z : Z)
  | NaN.

(** [v + k] where [v] is a [value?: number] field ([None] is [undefined]). *)
Definition num_add (v : option num) (k : Z) : num :=
  match v with
  | Some (Num z) => Num (z + k)
  | _ => NaN
  end.

(** [a - v] with the same convention. *)
Definition num_sub (a : num) (v : option num) : num :=
  match a, v with
  | Num x, Some (Num y) => Num (x - y)
  | _, _ => NaN
  end.

(** [Math.max(a, b)]: [NaN] if either argument is. *)
Definition num_max (a b : num) : num :=
  match a, b with
  | Num x, Num y => Num (Z.max x y)
  | _, _ => NaN
  end.

(** [Math.max(0, ...xs)]. *)
Definition math_max0 (xs : list num) : num := fold_left num_max xs (Num 0).

(** A JavaScript number as the checks on weights and sizes see it: a
    finite number, an infinity or [NaN].  No arithmetic is done on these
    numbers, so the finite ones are rationals. *)
Inductive jsnum : Type :=
  | JsNum (q : Q)
  | JsInfinity (negative : bool)
  | JsNaN.

(** [x < 0], which is false on [NaN]. *)
Definition jsnum_negative (x : jsnum) : bool :=
  match x with
  | JsNum q => negb (Qle_bool 0 q)
  | JsInfinity negative => negative
  | JsNaN => false
  end.

Module Dag.
Section Dag.
Context {N : Type}.

(** A dag node: its datum and [ichildrenCounts()], the [child, count]
    pairs (count is the number of parallel links to that child).  Nodes
    are named by their position in the iteration [for (const node of dag)]. *)
Record DagNode : Type := {
  data : N;
  ichildrenCounts : list (nat * Z);
}.

Definition Dag : Type := list DagNode.

Definition children (dag : Dag) (node : nat) : list (nat * Z) :=
  match dag !! node with
  | Some n => ichildrenCounts n
  | None => []
  end.

(** Every child is a node of the dag. *)
Definition wf (dag : Dag) : Prop :=
  forall node child count,
    (child, count) ∈ children dag node -> (child < length dag)%nat.

Definition is_leaf (dag : Dag) (node : nat) : Prop :=
  (node < length dag)%nat /\ children dag node = [].

Definition is_root (dag : Dag) (node : nat) : Prop :=
  (node < length dag)%nat /\
  forall par count, (node, count) ∉ children dag par.

(** All links [(parent, child, count)] in the order of the nested loop
    [for (const node of dag) for (const [child, count] of node.ichildrenCounts())]. *)
Definition links_from (i : nat) (dag : Dag) : list (nat * nat * Z) :=
  concat (imap (fun k n => map (fun '(c, cnt) => ((i + k)%nat, c, cnt)) (ichildrenCounts n)) dag).

Definition links (dag : Dag) : list (nat * nat * Z) := links_from 0 dag.

(** Modelled from the spec: dag/utils.ts ([getParentCounts]) is not among
    the sources.  It maps every node that has parents to its
    [parent, count] pairs ("max over parents p of layer(p) + span(p→n)");
    a node without parents has no entry. *)
Definition getParentCounts (dag : Dag) : gmap nat (list (nat * Z)) :=
  fold_left
    (fun parents '(par, child, count) =>
       <[child := default [] (parents !! child) ++ [(par, count)]]> parents)
    (links dag) ∅.

(** The two traversal orders of [dag.idescendants(style)]. *)
Inductive Style : Type := before | after.

End Dag.
Arguments DagNode N : clear implicits.
Arguments Dag N : clear implicits.
End Dag.

(** ** Operator objects

    Every operator of the library is a function object whose methods close
    over one [options] object; [buildOperator(options)] makes a new one.
    The options objects live in a store, and an operator is the address of
    its options object: two operators are the same object exactly when
    their addresses are equal. *)

Definition ref : Type := nat.

(** The result of calling a fluent getter/setter [f(val?)]: the current
    value when [val] is [undefined], the operator built otherwise. *)
Inductive Fluent (A : Type) : Type :=
  | Got (a : A)
  | Built (op : ref).
Arguments Got {A} a.
Arguments Built {A} op.

Module Options.

(** longest-path.ts: [{ topDown: boolean }] *)
Record LongestPath : Type := { topDown : bool }.

(** opt.ts: [type LargeHandling = "small" | "medium" | "large"] *)
Inductive LargeHandling : Type := Small | Medium | Large.

Record Opt : Type := { large : LargeHandling }.

Section Options.
Context {N L : Type}.

Record DagLink : Type := {
  source : nat;
  target : nat;
  link_data : L;
}.

(** [SugiNode.data] is [{ node }] for a real node and [{ link }] for a
    dummy node. *)
Inductive SugiData : Type :=
  | SugiReal (node : Dag.DagNode N)
  | SugiDummy (link : DagLink).

Record SugiNode : Type := { sugi_data : SugiData }.

(** layering/simplex.ts: [RankAccessor] and [GroupAccessor] return a
    number (a string) or [undefined]. *)
Record Simplex : Type := {
  rank : Dag.DagNode N -> option Q;
  group : Dag.DagNode N -> option string;
}.

(** A weight accessor of coord/quad.ts: a function that may carry a
    numeric [value] property (then it is a [ConstAccessor]). *)
Record Accessor (A : Type) : Type := {
  call : A -> Q;
  value : option Q;
}.

Record Quad : Type := {
  vertWeak : Accessor DagLink;
  vertStrong : Accessor DagLink;
  linkCurve : Accessor DagLink;
  nodeCurve : Accessor (Dag.DagNode N);
  comp : Q;
}.

(** sugiyama/index.ts: [NodeSizeAccessor] takes a node or [undefined];
    a [SugiNodeSizeAccessor] may carry the accessor it wraps. *)
Definition NodeSizeAccessor : Type := option (Dag.DagNode N) -> Q * Q.

Record SugiNodeSizeAccessor : Type := {
  sugi_size : SugiNode -> Q * Q;
  wrapped : option NodeSizeAccessor;
}.

(** [Operators & { size }]; the three operators are objects. *)
Record Sugiyama : Type := {
  layering : ref;
  decross : ref;
  coord : ref;
  size : option (Q * Q);
  nodeSize : option NodeSizeAccessor;
  sugiNodeSize : SugiNodeSizeAccessor;
}.

(** What an address of the store holds.  [twoLayer()] (decross/two-layer.ts)
    and the coordinate operator [simplex()] (coord/simplex.ts) are not
    among the sources: their operators are opaque objects. *)
Inductive Object : Type :=
  | LongestPathOp (o : LongestPath)
  | SimplexOp (o : Simplex)
  | OptOp (o : Opt)
  | QuadOp (o : Quad)
  | SugiyamaOp (o : Sugiyama)
  | TwoLayerOp
  | CoordSimplexOp.

End Options.
Arguments DagLink L : clear implicits.
Arguments SugiData N L : clear implicits.
Arguments SugiNode N L : clear implicits.
Arguments Simplex N : clear implicits.
Arguments Accessor A : clear implicits.
Arguments call {A} _ _.
Arguments value {A} _.
Arguments Quad N L : clear implicits.
Arguments NodeSizeAccessor N : clear implicits.
Arguments SugiNodeSizeAccessor N L : clear implicits.
Arguments Sugiyama N L : clear implicits.
Arguments Object N L : clear implicits.
End Options.

(** ** The store monad: state passing over the object store, with
    exceptions *)
Module Store.

(** The store: the objects allocated so far, by address. *)
Abbreviation store N L := (list (Options.Object N L)).

Section Store.
Context {N L : Type}.

Definition M (A : Type) : Type := store N L -> res (A * store N L).

Definition ret {A : Type} (a : A) : M A := fun h => Ok (a, h).

Definition bind {A B : Type} (m : M A) (k : A -> M B) : M B :=
  fun h => match m h with
           | Ok (a, h') => k a h'
           | Throw e => Throw e
           end.

Definition throw {A : Type} (e : Error) : M A := fun _ => Throw e.

Definition lift {A : Type} (r : res A) : M A :=
  fun h => match r with Ok a => Ok (a, h) | Throw e => Throw e end.

(** A new object gets the next free address. *)
Definition alloc (o : Options.Object N L) : M ref :=
  fun h => Ok (length h, h ++ [o]).

(** Reading the object behind an operator; using something that is not an
    operator of the expected kind is a [TypeError]. *)
Definition deref (r : ref) : M (Options.Object N L) :=
  fun h => match h !! r with
           | Some o => Ok (o, h)
           | None => Throw TypeError
           end.

(** Every object of [h] is still there, unchanged, in [h']. *)
Definition preserves (h h' : store N L) : Prop :=
  forall (r : ref) o, h !! r = Some o -> h' !! r = Some o.

(** A computation that writes to no existing object. *)
Definition only_allocates {A : Type} (m : M A) : Prop :=
  forall h a h', m h = Ok (a, h') -> preserves h h'.

(** What is said of a fluent getter/setter [f] called on [self] with the
    value [val]: it returns a new operator, on which the getter gives
    [carried]; every object of the store is as before, and the getter on
    [self] gives after the call what it gave before. *)
Definition independent {A B : Type} (f : ref -> option A -> M (Fluent B))
    (self : ref) (val : A) (carried : B) (h : store N L) : Prop :=
  exists op h',
    f self (Some val) h = Ok (Built op, h') /\
    h !! op = None /\
    f op None h' = Ok (Got carried, h') /\
    preserves h h' /\
    exists old, f self None h = Ok (Got old, h) /\ f self None h' = Ok (Got old, h').

End Store.
Arguments M N L A : clear implicits.
End Store.

Declare Scope store_scope.
Delimit Scope store_scope with store.
Notation "'let!' x ':=' m 'in' k" := (Store.bind m (fun x => k))
  (at level 10, x name, m at level 100, k at level 200) : store_scope.
Local Open Scope store_scope.

(** ** sugiyama/layering/longest-path.ts *)
Module LongestPath.
Section LongestPath.
Context {N : Type}.

(** [dag.idescendants(style)] is defined by the dag implementation, which
    is not among the sources; it yields nodes. *)
Variable idescendants : Dag.Dag N -> Dag.Style -> list nat.

(** [count > 1 ? 2 : 1] *)
Definition span (count : Z) : Z := if 1 <? count then 2 else 1.

(** Body of the top-down loop: one assignment to [node.value]. *)
Definition visit_down (parents : gmap nat (list (nat * Z)))
    (value : gmap nat num) (node : nat) : gmap nat num :=
  <[node := math_max0
              (map (fun '(par, count) => num_add (value !! par) (span count))
                   (default [] (parents !! node)))]> value.

(** Body of the bottom-up loop, on the pair [(node.value, maxHeight)]. *)
Definition visit_up (dag : Dag.Dag N) (st : gmap nat num * num) (node : nat)
  : gmap nat num * num :=
  let '(value, maxHeight) := st in
  let v := math_max0
             (map (fun '(child, count) => num_add (value !! child) (span count))
                  (Dag.children dag node)) in
  (<[node := v]> value, num_max maxHeight v).

(** [for (const node of dag) node.value = maxHeight - node.value!] *)
Definition flip (maxHeight : num) (value : gmap nat num) (node : nat)
  : gmap nat num :=
  <[node := num_sub maxHeight (value !! node)]> value.

(** [longestPathCall], closed over [options].  [value] holds the [value]
    field of every node when the call starts (a node that was never laid
    out has none); the result holds them when it returns. *)
Definition longestPathCall (options : Options.LongestPath) (dag : Dag.Dag N)
    (value : gmap nat num) : gmap nat num :=
  if Options.topDown options then
    let parents := Dag.getParentCounts dag in
    fold_left (visit_down parents) (idescendants dag Dag.before) value
  else
    let '(value', maxHeight) :=
      fold_left (visit_up dag) (idescendants dag Dag.after) (value, Num 0) in
    fold_left (flip maxHeight) (seq 0 (length dag)) value'.

(** What the theorems assume of the traversal, for the dag at
    hand: it reaches every node, and in [after] order a node comes after
    all of its children. *)
Definition reaches_all (dag : Dag.Dag N) (style : Dag.Style) : Prop :=
  forall node, (node < length dag)%nat -> node ∈ idescendants dag style.

Definition children_first (dag : Dag.Dag N) : Prop :=
  forall pre node suf child count,
    idescendants dag Dag.after = pre ++ node :: suf ->
    (child, count) ∈ Dag.children dag node -> child ∈ pre.

(** Bottom-up loop invariant: the nodes seen so far carry heights between
    0 and [maxHeight], and the leaves among them height 0. *)
Definition heights_ok (dag : Dag.Dag N) (seen : list nat) (st : gmap nat num * num) : Prop :=
  exists M, st.2 = Num M /\ 0 <= M /\
    forall n, n ∈ seen ->
      exists z, st.1 !! n = Some (Num z) /\ 0 <= z <= M /\
                (Dag.children dag n = [] -> z = 0).

End LongestPath.
End LongestPath.

(** *** The operator object of longest-path.ts *)
Module LongestPathOperator.
Section LongestPathOperator.
Context {N L : Type}.
Local Abbreviation M := (Store.M N L).

(** [buildOperator(options)]: the new operator closes over [options]. *)
Definition buildOperator (options : Options.LongestPath) : M ref :=
  Store.alloc (Options.LongestPathOp options).

(** The [options] a method of operator [self] closes over. *)
Definition options_of (self : ref) : M Options.LongestPath :=
  let! o := Store.deref self in
  match o with
  | Options.LongestPathOp options => Store.ret options
  | _ => Store.throw TypeError
  end.

(** [topDown(val?)] *)
Definition topDown (self : ref) (val : option bool) : M (Fluent bool) :=
  let! options := options_of self in
  match val with
  | None => Store.ret (Got (Options.topDown options))
  | Some v =>
      let! op := buildOperator {| Options.topDown := v |} in
      Store.ret (Built op)
  end.

(** [longestPath(...args)] *)
Definition longestPath {X : Type} (args : list X) : M ref :=
  match args with
  | [] => buildOperator {| Options.topDown := true |}
  | _ => Store.throw GotArguments
  end.

End LongestPathOperator.
End LongestPathOperator.

(** ** sugiyama/layering/simplex.ts *)

(** Modelled from the spec: [bigrams] of utils.ts, which is not among the
    sources, iterates over the pairs of neighbours of a sequence
    ("pair/bigram iteration"). *)
Fixpoint bigrams {A : Type} (l : list A) : list (A * A) :=
  match l with
  | a :: (b :: _) as rest => (a, b) :: bigrams rest
  | _ => []
  end.

(** Modelled from the spec: [assert] of utils.ts, which is not among the
    sources, raises an internal error on a falsy value ("otherwise this is
    an internal error"). *)
Definition assert (statement : bool) : res unit :=
  if statement then Ok tt else Throw AssertionFailed.

Module Simplex.

(** A [Constraint] of the linear program: [{ min?, max? }]. *)
Record Constraint : Type := {
  min : option Z;
  max : option Z;
}.

(** The three records handed to the solver: [variables] maps a variable
    name to its coefficients (keyed by ["opt"] and by constraint names),
    [constraints] a constraint name to its bounds, [ints] marks the
    integer variables. *)
Record Model : Type := {
  variables : gmap string (gmap string Z);
  constraints : gmap string Constraint;
  ints : gmap string Z;
}.

Section Simplex.
Context {N : Type}.

(** [solve(optimize, opType, variables, constraints, ints)] of simplex.ts
    (the solver adapter, not among the sources): an assignment of the
    variables, or an exception. *)
Variable solve : string -> string -> gmap string (gmap string Z) ->
                 gmap string Constraint -> gmap string Z -> res (gmap string Z).

(** [n(node)]: the id of a node is its index in the dag, as a string. *)
Definition n (node : nat) : string := pretty node.

(** [before(prefix, first, second, diff = 1)] *)
Definition before (prefix : string) (first second : nat) (diff : Z) (m : Model) : Model :=
  let cons := prefix +:+ ": " +:+ n first +:+ " -> " +:+ n second in
  {| constraints := <[cons := {| min := Some diff; max := None |}]> (constraints m);
     variables :=
       alter (fun svar => <[cons := 1]> svar) (n second)
         (alter (fun fvar => <[cons := -1]> fvar) (n first) (variables m));
     ints := ints m |}.

(** [equal(prefix, first, second)] *)
Definition equal (prefix : string) (first second : nat) (m : Model) : Model :=
  before (prefix +:+ " after") second first 0
    (before (prefix +:+ " before") first second 0 m).

(** [variable(node).opt += d] *)
Definition add_opt (node : nat) (d : Z) (m : Model) : Model :=
  {| constraints := constraints m;
     variables :=
       alter (fun var => <["opt" := default 0 (var !! "opt") + d]> var) (n node) (variables m);
     ints := ints m |}.

(** [groups : Map<string, DagNode[]>], in insertion order. *)
Fixpoint groups_push (groups : list (string * list nat)) (g : string) (node : nat)
  : list (string * list nat) :=
  match groups with
  | [] => [(g, [node])]
  | (k, existing) :: rest =>
      if String.eqb k g then (k, existing ++ [node]) :: rest
      else (k, existing) :: groups_push rest g node
  end.

(** The state of the first loop. *)
Record Collected : Type := {
  model : Model;
  ranks : list (Q * nat);
  groups : list (string * list nat);
}.

(** "Add node variables and fetch ranks": the body of the first loop, for
    node number [i]. *)
Definition add_node (options : Options.Simplex N) (st : Collected)
    (i : nat) (node : Dag.DagNode N) : Collected :=
  let nid := n i in
  let m := model st in
  {| model := {| constraints := constraints m;
                 variables := <[nid := {["opt" := 0]}]> (variables m);
                 ints := <[nid := 1]> (ints m) |};
     ranks := match Options.rank options node with
              | Some r => ranks st ++ [(r, i)]
              | None => ranks st
              end;
     groups := match Options.group options node with
               | Some g => groups_push (groups st) g i
               | None => groups st
               end |}.

Fixpoint add_nodes (options : Options.Simplex N) (st : Collected)
    (i : nat) (dag : list (Dag.DagNode N)) : Collected :=
  match dag with
  | [] => st
  | node :: rest => add_nodes options (add_node options st i node) (S i) rest
  end.

(** "Add link constraints": the body of the second (nested) loop. *)
Definition add_link (m : Model) (l : nat * nat * Z) : Model :=
  let '(node, child, count) := l in
  add_opt child (- count)
    (add_opt node count
       (before "link" node child (if 1 <? count then 2 else 1) m)).

(** [ranks.sort(([a], [b]) => a - b)]: a stable sort by rank. *)
Fixpoint insert_rank (x : Q * nat) (sorted : list (Q * nat)) : list (Q * nat) :=
  match sorted with
  | [] => [x]
  | y :: rest =>
      if Qle_bool (fst y) (fst x) then y :: insert_rank x rest
      else x :: y :: rest
  end.

Definition sort_ranks (rs : list (Q * nat)) : list (Q * nat) :=
  fold_left (fun sorted x => insert_rank x sorted) rs [].

(** "Add rank constraints" *)
Definition add_rank (m : Model) (p : (Q * nat) * (Q * nat)) : Model :=
  let '((frank, fnode), (srank, snode)) := p in
  if negb (Qle_bool srank frank) then before "rank" fnode snode 1 m
  else equal "rank" fnode snode m.

(** "group constraints" *)
Definition add_group (m : Model) (group : string * list nat) : Model :=
  fold_left (fun m '(first, second) => equal "group" first second m)
            (bigrams (snd group)) m.

(** Everything before the [try]: the linear program and the ranks and
    groups that were found. *)
Definition program (options : Options.Simplex N) (dag : Dag.Dag N) : Collected :=
  let st := add_nodes options
              {| model := {| variables := ∅; constraints := ∅; ints := ∅ |};
                 ranks := []; groups := [] |} 0%nat dag in
  let m1 := fold_left add_link (Dag.links dag) (model st) in
  let m2 := fold_left add_rank (bigrams (sort_ranks (ranks st))) m1 in
  let m3 := fold_left add_group (groups st) m2 in
  {| model := m3; ranks := ranks st; groups := groups st |}.

(** [simplexCall], closed over [options]; the result is [node.value] for
    every node of the dag, in order. *)
Definition simplexCall (options : Options.Simplex N) (dag : Dag.Dag N) : res (list Z) :=
  let st := program options dag in
  let m := model st in
  match solve "opt" "max" (variables m) (constraints m) (ints m) with
  | Ok assignment =>
      Ok (imap (fun i _ => default 0 (assignment !! n i)) dag)
  | Throw _ =>
      do _ <- assert (negb (length (ranks st) =? 0)%nat || negb (length (groups st) =? 0)%nat);
      Throw IllDefinedConstraints
  end.

(** [defaultAccessor] *)
Definition defaultAccessor {A B : Type} (_ : A) : option B := None.

(** The objective the solver optimizes ([optimize = "opt"]): the sum over
    the variables of their ["opt"] coefficient times their value. *)
Definition objective (optimize : string) (vars : gmap string (gmap string Z))
    (x : string -> Z) : Z :=
  map_fold (fun name var acc => acc + default 0 (var !! optimize) * x name) 0 vars.

(** The total weighted edge span of a layer assignment. *)
Definition total_span (dag : Dag.Dag N) (layer : nat -> Z) : Z :=
  foldr (fun '(node, child, count) acc => (layer child - layer node) * count + acc)
        0 (Dag.links dag).

(** Sum of the counts of the links leaving [i] minus those entering it. *)
Definition out_minus_in (ls : list (nat * nat * Z)) (i : nat) : Z :=
  foldr (fun '(node, child, count) acc =>
           (if decide (node = i) then count else 0)
           - (if decide (child = i) then count else 0) + acc)
        0 ls.

Definition constrained (options : Options.Simplex N) (dag : Dag.Dag N) : Prop :=
  exists i node, dag !! i = Some node /\
    (Options.rank options node <> None \/ Options.group options node <> None).

(** The ["opt"] coefficient of the variable of node [i]. *)
Definition opt_coeff (vars : gmap string (gmap string Z)) (i : nat) : Z :=
  default 0 (vars !! n i ≫= (.!! "opt")).

(** [m'] has the variables of [m] with the same objective coefficients. *)
Definition same_objective (x : string -> Z) (m m' : Model) : Prop :=
  objective "opt" (variables m') x = objective "opt" (variables m) x /\
  (forall i, opt_coeff (variables m') i = opt_coeff (variables m) i) /\
  (forall k, is_Some (variables m !! k) -> is_Some (variables m' !! k)).

(** After the first loop has seen the nodes below [i]: exactly their
    variables exist, each with objective coefficient 0. *)
Definition fresh_variables (x : string -> Z) (st : Collected) (i : nat) : Prop :=
  (forall k v, variables (model st) !! k = Some v ->
     exists j, (j < i)%nat /\ k = n j /\ v !! "opt" = Some 0) /\
  (forall j, (j < i)%nat -> is_Some (variables (model st) !! n j)) /\
  objective "opt" (variables (model st)) x = 0.

End Simplex.
End Simplex.

(** *** The operator object of layering/simplex.ts *)
Module SimplexOperator.
Section SimplexOperator.
Context {N L : Type}.
Local Abbreviation M := (Store.M N L).

Definition buildOperator (options : Options.Simplex N) : M ref :=
  Store.alloc (Options.SimplexOp options).

Definition options_of (self : ref) : M (Options.Simplex N) :=
  let! o := Store.deref self in
  match o with
  | Options.SimplexOp options => Store.ret options
  | _ => Store.throw TypeError
  end.

(** [rank(newRank?)] *)
Definition rank (self : ref) (newRank : option (Dag.DagNode N -> option Q))
  : M (Fluent (Dag.DagNode N -> option Q)) :=
  let! options := options_of self in
  match newRank with
  | None => Store.ret (Got (Options.rank options))
  | Some r =>
      let! op := buildOperator {| Options.rank := r; Options.group := Options.group options |} in
      Store.ret (Built op)
  end.

(** [group(newGroup?)] *)
Definition group (self : ref) (newGroup : option (Dag.DagNode N -> option string))
  : M (Fluent (Dag.DagNode N -> option string)) :=
  let! options := options_of self in
  match newGroup with
  | None => Store.ret (Got (Options.group options))
  | Some g =>
      let! op := buildOperator {| Options.rank := Options.rank options; Options.group := g |} in
      Store.ret (Built op)
  end.

(** [simplex(...args)] *)
Definition simplex {X : Type} (args : list X) : M ref :=
  match args with
  | [] => buildOperator {| Options.rank := Simplex.defaultAccessor;
                           Options.group := Simplex.defaultAccessor |}
  | _ => Store.throw GotArguments
  end.

End SimplexOperator.
End SimplexOperator.

(** ** sugiyama/decross/opt.ts *)
Module Opt.

(** A node of a layer, as far as [optCall]'s size check looks at it: its
    children in the next layer. *)
Record LayerNode : Type := { ichildren : list nat }.

Definition Layers : Type := list (list LayerNode).

Definition is_large (l : Options.LargeHandling) : bool :=
  match l with Options.Large => true | _ => false end.

Definition is_medium (l : Options.LargeHandling) : bool :=
  match l with Options.Medium => true | _ => false end.

(** [layers.reduce((t, l) => t + (l.length * Math.max(l.length - 1, 0)) / 2, 0)];
    the product of two neighbouring integers is even, so the division is
    exact. *)
Definition numVars (layers : Layers) : Z :=
  fold_left
    (fun t l => t + (Z.of_nat (length l) * Z.max (Z.of_nat (length l) - 1) 0) / 2)
    layers 0.

(** [layers.reduce((t, l) => t + l.reduce((s, n) => s + n.ichildren().length, 0), 0)] *)
Definition numEdges (layers : Layers) : Z :=
  fold_left
    (fun t l => t + fold_left (fun s n => s + Z.of_nat (length (ichildren n))) l 0)
    layers 0.

(** "check for large input": the two [throw]s at the head of [optCall]. *)
Definition checkLarge (options : Options.Opt) (layers : Layers) : res unit :=
  let large := Options.large options in
  if negb (is_large large) && (1200 <? numVars layers) then
    Throw TooLargeCrash
  else if negb (is_large large) && negb (is_medium large) &&
          ((400 <? numVars layers) || (100 <? numEdges layers)) then
    Throw TooLargeStall
  else Ok tt.

(** The rest of [optCall] builds the integer program ([OptModel.model]
    below), hands it to the solver and sorts the layers: see
    [OptModel.optCall]. *)

(** The number of ordering variables the specification counts: the sum
    over the layers of [k * (k - 1) / 2], [k] the size of the layer. *)
Definition pair_vars (layers : Layers) : Z :=
  foldr (fun l acc => Z.of_nat (length l) * (Z.of_nat (length l) - 1) / 2 + acc)
        0 layers.

(** The size errors of the operator. *)
Definition size_error {A : Type} (r : res A) : Prop :=
  r = Throw TooLargeCrash \/ r = Throw TooLargeStall.

End Opt.

(** *** The operator object of decross/opt.ts *)
Module OptOperator.
Section OptOperator.
Context {N L : Type}.
Local Abbreviation M := (Store.M N L).

Definition buildOperator (options : Options.Opt) : M ref :=
  Store.alloc (Options.OptOp options).

Definition options_of (self : ref) : M Options.Opt :=
  let! o := Store.deref self in
  match o with
  | Options.OptOp options => Store.ret options
  | _ => Store.throw TypeError
  end.

(** [large(val?)] *)
Definition large (self : ref) (val : option Options.LargeHandling)
  : M (Fluent Options.LargeHandling) :=
  let! options := options_of self in
  match val with
  | None => Store.ret (Got (Options.large options))
  | Some v =>
      let! op := buildOperator {| Options.large := v |} in
      Store.ret (Built op)
  end.

(** [opt(...args)] *)
Definition opt {X : Type} (args : list X) : M ref :=
  match args with
  | [] => buildOperator {| Options.large := Options.Small |}
  | _ => Store.throw GotArguments
  end.

End OptOperator.
End OptOperator.

(** ** sugiyama/coord/quad.ts (configuration) *)
Module Quad.
Section Quad.
Context {N L : Type}.
Local Abbreviation M := (Store.M N L).

(** [x < 0] on numbers *)
Definition negative (x : Q) : bool := negb (Qle_bool 0 x).

(** [createConstAccessor(value)] *)
Definition createConstAccessor {A : Type} (value : Q) : res (Options.Accessor A) :=
  if negative value then Throw NegativeConst
  else Ok {| Options.call := fun _ => value; Options.value := Some value |}.

(** [isConstAccessor(acc)]: ["value" in acc && typeof acc.value === "number"] *)
Definition isConstAccessor {A : Type} (acc : Options.Accessor A) : bool :=
  match Options.value acc with Some _ => true | None => false end.

(** [acc.value] once [isConstAccessor(acc)] holds (a number). *)
Definition const_value {A : Type} (acc : Options.Accessor A) : Q :=
  default 0%Q (Options.value acc).

Definition buildOperator (opts : Options.Quad N L) : M ref :=
  Store.alloc (Options.QuadOp opts).

Definition options_of (self : ref) : M (Options.Quad N L) :=
  let! o := Store.deref self in
  match o with
  | Options.QuadOp opts => Store.ret opts
  | _ => Store.throw TypeError
  end.

(** [curve(val?)] *)
Definition curve (self : ref) (val : option (Q * Q)) : M (Fluent (option (Q * Q))) :=
  let! opts := options_of self in
  match val with
  | None =>
      let linkCurve := Options.linkCurve opts in
      let nodeCurve := Options.nodeCurve opts in
      if isConstAccessor linkCurve && isConstAccessor nodeCurve then
        Store.ret (Got (Some (const_value nodeCurve, const_value linkCurve)))
      else Store.ret (Got None)
  | Some (curveNode, curveDummy) =>
      if negative curveNode || negative curveDummy then Store.throw NegativeWeights
      else
        let! lc := Store.lift (createConstAccessor curveDummy) in
        let! nc := Store.lift (createConstAccessor curveNode) in
        let! op := buildOperator
                     {| Options.vertWeak := Options.vertWeak opts;
                        Options.vertStrong := Options.vertStrong opts;
                        Options.linkCurve := lc;
                        Options.nodeCurve := nc;
                        Options.comp := Options.comp opts |} in
        Store.ret (Built op)
  end.

(** [vertical(val?)] *)
Definition vertical (self : ref) (val : option (Q * Q)) : M (Fluent (option (Q * Q))) :=
  let! opts := options_of self in
  match val with
  | None =>
      let vertWeak := Options.vertWeak opts in
      let vertStrong := Options.vertStrong opts in
      if isConstAccessor vertWeak && isConstAccessor vertStrong then
        Store.ret (Got (Some (const_value vertWeak, const_value vertStrong)))
      else Store.ret (Got None)
  | Some (vertNode, vertDummy) =>
      if negative vertNode || negative vertDummy then Store.throw NegativeWeights
      else
        let! vw := Store.lift (createConstAccessor vertNode) in
        let! vs := Store.lift (createConstAccessor vertDummy) in
        let! op := buildOperator
                     {| Options.vertWeak := vw;
                        Options.vertStrong := vs;
                        Options.linkCurve := Options.linkCurve opts;
                        Options.nodeCurve := Options.nodeCurve opts;
                        Options.comp := Options.comp opts |} in
        Store.ret (Built op)
  end.

(** [vertWeak(val?)] *)
Definition vertWeak (self : ref) (val : option (Options.Accessor (Options.DagLink L)))
  : M (Fluent (Options.Accessor (Options.DagLink L))) :=
  let! opts := options_of self in
  match val with
  | None => Store.ret (Got (Options.vertWeak opts))
  | Some acc =>
      let! op := buildOperator
                   {| Options.vertWeak := acc;
                      Options.vertStrong := Options.vertStrong opts;
                      Options.linkCurve := Options.linkCurve opts;
                      Options.nodeCurve := Options.nodeCurve opts;
                      Options.comp := Options.comp opts |} in
      Store.ret (Built op)
  end.

(** [vertStrong(val?)] *)
Definition vertStrong (self : ref) (val : option (Options.Accessor (Options.DagLink L)))
  : M (Fluent (Options.Accessor (Options.DagLink L))) :=
  let! opts := options_of self in
  match val with
  | None => Store.ret (Got (Options.vertStrong opts))
  | Some acc =>
      let! op := buildOperator
                   {| Options.vertWeak := Options.vertWeak opts;
                      Options.vertStrong := acc;
                      Options.linkCurve := Options.linkCurve opts;
                      Options.nodeCurve := Options.nodeCurve opts;
                      Options.comp := Options.comp opts |} in
      Store.ret (Built op)
  end.

(** [linkCurve(val?)] *)
Definition linkCurve (self : ref) (val : option (Options.Accessor (Options.DagLink L)))
  : M (Fluent (Options.Accessor (Options.DagLink L))) :=
  let! opts := options_of self in
  match val with
  | None => Store.ret (Got (Options.linkCurve opts))
  | Some acc =>
      let! op := buildOperator
                   {| Options.vertWeak := Options.vertWeak opts;
                      Options.vertStrong := Options.vertStrong opts;
                      Options.linkCurve := acc;
                      Options.nodeCurve := Options.nodeCurve opts;
                      Options.comp := Options.comp opts |} in
      Store.ret (Built op)
  end.

(** [nodeCurve(val?)] *)
Definition nodeCurve (self : ref) (val : option (Options.Accessor (Dag.DagNode N)))
  : M (Fluent (Options.Accessor (Dag.DagNode N))) :=
  let! opts := options_of self in
  match val with
  | None => Store.ret (Got (Options.nodeCurve opts))
  | Some acc =>
      let! op := buildOperator
                   {| Options.vertWeak := Options.vertWeak opts;
                      Options.vertStrong := Options.vertStrong opts;
                      Options.linkCurve := Options.linkCurve opts;
                      Options.nodeCurve := acc;
                      Options.comp := Options.comp opts |} in
      Store.ret (Built op)
  end.

(** [component(val?)] *)
Definition component (self : ref) (val : option Q) : M (Fluent Q) :=
  let! opts := options_of self in
  match val with
  | None => Store.ret (Got (Options.comp opts))
  | Some v =>
      if Qle_bool v 0 then Store.throw NonPositiveWeight
      else
        let! op := buildOperator
                     {| Options.vertWeak := Options.vertWeak opts;
                        Options.vertStrong := Options.vertStrong opts;
                        Options.linkCurve := Options.linkCurve opts;
                        Options.nodeCurve := Options.nodeCurve opts;
                        Options.comp := v |} in
        Store.ret (Built op)
  end.

(** [quad(...args)] *)
Definition quad {X : Type} (args : list X) : M ref :=
  match args with
  | [] =>
      let! vw := Store.lift (createConstAccessor 1) in
      let! vs := Store.lift (createConstAccessor 0) in
      let! lc := Store.lift (createConstAccessor 1) in
      let! nc := Store.lift (createConstAccessor 0) in
      buildOperator {| Options.vertWeak := vw; Options.vertStrong := vs;
                       Options.linkCurve := lc; Options.nodeCurve := nc;
                       Options.comp := 1 |}
  | _ => Store.throw GotArguments
  end.

End Quad.
End Quad.

(** ** sugiyama/index.ts (configuration) *)
Module Sugiyama.
Section Sugiyama.
Context {N L : Type}.
Local Abbreviation M := (Store.M N L).

(** [wrapNodeSizeAccessor(acc)] *)
Definition wrapNodeSizeAccessor (acc : Options.NodeSizeAccessor N)
  : Options.SugiNodeSizeAccessor N L :=
  let empty := acc None in
  {| Options.sugi_size := fun node =>
       match Options.sugi_data node with
       | Options.SugiReal n => acc (Some n)
       | Options.SugiDummy _ => empty
       end;
     Options.wrapped := Some acc |}.

(** [defaultNodeSize(node?)]: [[+(node !== undefined), 1]] *)
Definition defaultNodeSize (node : option (Dag.DagNode N)) : Q * Q :=
  ((match node with Some _ => 1 | None => 0 end)%Q, 1%Q).

(** The coordinate operator [simplex()] of coord/simplex.ts and
    [twoLayer()] of decross/two-layer.ts, which are not among the sources:
    each call makes a new operator object. *)
Definition coordSimplex : M ref := Store.alloc Options.CoordSimplexOp.
Definition twoLayer : M ref := Store.alloc Options.TwoLayerOp.

Definition buildOperator (options : Options.Sugiyama N L) : M ref :=
  Store.alloc (Options.SugiyamaOp options).

Definition options_of (self : ref) : M (Options.Sugiyama N L) :=
  let! o := Store.deref self in
  match o with
  | Options.SugiyamaOp options => Store.ret options
  | _ => Store.throw TypeError
  end.

(** [layering(layer?)] *)
Definition layering (self : ref) (layer : option ref) : M (Fluent ref) :=
  let! options := options_of self in
  match layer with
  | None => Store.ret (Got (Options.layering options))
  | Some l =>
      let! op := buildOperator
                   {| Options.layering := l;
                      Options.decross := Options.decross options;
                      Options.coord := Options.coord options;
                      Options.size := Options.size options;
                      Options.nodeSize := Options.nodeSize options;
                      Options.sugiNodeSize := Options.sugiNodeSize options |} in
      Store.ret (Built op)
  end.

(** [decross(dec?)] *)
Definition decross (self : ref) (dec : option ref) : M (Fluent ref) :=
  let! options := options_of self in
  match dec with
  | None => Store.ret (Got (Options.decross options))
  | Some d =>
      let! op := buildOperator
                   {| Options.layering := Options.layering options;
                      Options.decross := d;
                      Options.coord := Options.coord options;
                      Options.size := Options.size options;
                      Options.nodeSize := Options.nodeSize options;
                      Options.sugiNodeSize := Options.sugiNodeSize options |} in
      Store.ret (Built op)
  end.

(** [coord(crd?)] *)
Definition coord (self : ref) (crd : option ref) : M (Fluent ref) :=
  let! options := options_of self in
  match crd with
  | None => Store.ret (Got (Options.coord options))
  | Some c =>
      let! op := buildOperator
                   {| Options.layering := Options.layering options;
                      Options.decross := Options.decross options;
                      Options.coord := c;
                      Options.size := Options.size options;
                      Options.nodeSize := Options.nodeSize options;
                      Options.sugiNodeSize := Options.sugiNodeSize options |} in
      Store.ret (Built op)
  end.

(** [size(sz?)]: [sz] is [undefined] (outer [None]), [null] or a pair. *)
Definition size (self : ref) (sz : option (option (Q * Q))) : M (Fluent (option (Q * Q))) :=
  let! options := options_of self in
  match sz with
  | Some sz =>
      let! op := buildOperator
                   {| Options.layering := Options.layering options;
                      Options.decross := Options.decross options;
                      Options.coord := Options.coord options;
                      Options.size := sz;
                      Options.nodeSize := Options.nodeSize options;
                      Options.sugiNodeSize := Options.sugiNodeSize options |} in
      Store.ret (Built op)
  | None => Store.ret (Got (Options.size options))
  end.

(** [nodeSize(sz?)] *)
Definition nodeSize (self : ref) (sz : option (Options.NodeSizeAccessor N))
  : M (Fluent (option (Options.NodeSizeAccessor N))) :=
  let! options := options_of self in
  match sz with
  | Some sz =>
      let! op := buildOperator
                   {| Options.layering := Options.layering options;
                      Options.decross := Options.decross options;
                      Options.coord := Options.coord options;
                      Options.size := Options.size options;
                      Options.nodeSize := Some sz;
                      Options.sugiNodeSize := wrapNodeSizeAccessor sz |} in
      Store.ret (Built op)
  | None => Store.ret (Got (Options.nodeSize options))
  end.

(** [sugiNodeSize(sz?)] *)
Definition sugiNodeSize (self : ref) (sz : option (Options.SugiNodeSizeAccessor N L))
  : M (Fluent (Options.SugiNodeSizeAccessor N L)) :=
  let! options := options_of self in
  match sz with
  | Some sz =>
      let! op := buildOperator
                   {| Options.layering := Options.layering options;
                      Options.decross := Options.decross options;
                      Options.coord := Options.coord options;
                      Options.size := Options.size options;
                      Options.nodeSize := None;
                      Options.sugiNodeSize := sz |} in
      Store.ret (Built op)
  | None => Store.ret (Got (Options.sugiNodeSize options))
  end.

(** [sugiyama(...args)] *)
Definition sugiyama {X : Type} (args : list X) : M ref :=
  match args with
  | [] =>
      let! layerSimplex := SimplexOperator.simplex (@nil X) in
      let! twoLayer := twoLayer in
      let! coordSimplex := coordSimplex in
      buildOperator
        {| Options.layering := layerSimplex;
           Options.decross := twoLayer;
           Options.coord := coordSimplex;
           Options.size := None;
           Options.nodeSize := Some defaultNodeSize;
           Options.sugiNodeSize := wrapNodeSizeAccessor defaultNodeSize |}
  | _ => Store.throw GotArguments
  end.

(** What kind of operator an address holds. *)
Definition is_quad (h : Store.store N L) (r : ref) : Prop :=
  exists opts, h !! r = Some (Options.QuadOp opts).

Definition is_coord_simplex (h : Store.store N L) (r : ref) : Prop :=
  h !! r = Some Options.CoordSimplexOp.

End Sugiyama.
End Sugiyama.

(** ** Concrete inputs *)
Module Examples.

(** Two layers of 11 and 10 nodes, every node of the first linked to every
    node of the second: 100 ordering variables, 110 edges. *)
Definition dense_layers : Opt.Layers :=
  [ repeat {| Opt.ichildren := seq 11 10 |} 11;
    repeat {| Opt.ichildren := [] |} 10 ].

(** The dag [0 -> 1 -> 2] with a double link [0 => 2]. *)
Definition dag3 : Dag.Dag unit :=
  [ {| Dag.data := tt; Dag.ichildrenCounts := [(1%nat, 1); (2%nat, 2)] |};
    {| Dag.data := tt; Dag.ichildrenCounts := [(2%nat, 1)] |};
    {| Dag.data := tt; Dag.ichildrenCounts := [] |} ].

(** Its traversals: parents first, and children first. *)
Definition walk3 (_ : Dag.Dag unit) (style : Dag.Style) : list nat :=
  match style with
  | Dag.before => [0; 1; 2]%nat
  | Dag.after => [2; 1; 0]%nat
  end.

(** Data for [stratify]: an id and the parent ids. *)
Definition id_of (d : string * list string) (_ : nat) : res string := Ok (fst d).

Definition parents_of (d : string * list string) (_ : nat)
  : res (option (list (string * unit))) :=
  Ok (Some (map (fun p => (p, tt)) (snd d))).

Definition twins : list (string * list string) := [("a", []); ("a", [])].

(** A solver that finds nothing, and a rank accessor that ranks every node. *)
Definition no_solution (_ _ : string) (_ : gmap string (gmap string Z))
    (_ : gmap string Simplex.Constraint) (_ : gmap string Z) : res (gmap string Z) :=
  Throw Infeasible.

Definition all_ranked : Options.Simplex unit :=
  {| Options.rank := fun _ => Some 0%Q; Options.group := Simplex.defaultAccessor |}.

(** The store after [sugiyama()], [opt()] and [quad()]: the simplex
    layering operator is object 0, the sugiyama operator object 3, the
    opt operator object 4 and the quad operator object 5. *)
Definition operators : Store.store unit unit :=
  match (let! _ := Sugiyama.sugiyama (@nil unit) in
         let! _ := OptOperator.opt (@nil unit) in
         Quad.quad (@nil unit)) [] with
  | Ok (_, h) => h
  | Throw _ => []
  end.

End Examples.

(** ** What [stratify] is expected to build *)
Module StratifySpec.
Section StratifySpec.
Context {N L : Type}.
Variable idOp : N -> nat -> res string.
Variable parentDataOp : N -> nat -> res (option (list (string * L))).

(** Both accessors return (do not raise) on every data element. *)
Definition accessors_return (data : list N) : Prop :=
  forall i d, data !! i = Some d ->
    (exists s, idOp d i = Ok s) /\ (exists p, parentDataOp d i = Ok p).

(** Data element [i] has id [s]. *)
Definition has_id (data : list N) (i : nat) (s : string) : Prop :=
  exists d, data !! i = Some d /\ idOp d i = Ok s.

(** Data element [j] names the parent id [pid], with link datum [ld]. *)
Definition names_parent (data : list N) (j : nat) (pid : string) (ld : L) : Prop :=
  exists d p, data !! j = Some d /\ parentDataOp d j = Ok p /\ (pid, ld) ∈ default [] p.

(** Data element [j] names no parent. *)
Definition parentless (data : list N) (j : nat) : Prop :=
  exists d p, data !! j = Some d /\ parentDataOp d j = Ok p /\ default [] p = [].

(** The [dataChildren] of node [i] of a node store. *)
Definition children_of (ns : list (@Stratify.LayoutDagNode N L)) (i : nat) : list (nat * L) :=
  match ns !! i with
  | Some n => Stratify.dataChildren n
  | None => []
  end.

(** The nodes pushed to [roots] while the entries [todo] are linked. *)
Definition new_roots (todo : @Stratify.Mapping L) : list nat :=
  flat_map (fun '(_, (node, pdata)) => match pdata with [] => [node] | _ => [] end) todo.

End StratifySpec.
End StratifySpec.

(** ** What a layering is expected to satisfy *)
Module Layering.
Section Layering.
Context {N : Type}.
Variable idescendants : Dag.Dag N -> Dag.Style -> list nat.

(** In [before] order a node comes after all of its parents. *)
Definition parents_first (dag : Dag.Dag N) : Prop :=
  forall pre node suf par count,
    idescendants dag Dag.before = pre ++ node :: suf ->
    (node, count) ∈ Dag.children dag par -> par ∈ pre.

(** Every node has a non-negative integer layer, and every link goes down
    by at least its span (2 for a multi-link, 1 otherwise). *)
Definition valid_layering (dag : Dag.Dag N) (value : gmap nat num) : Prop :=
  (forall n, (n < length dag)%nat -> exists z, value !! n = Some (Num z) /\ 0 <= z) /\
  forall par child count,
    (child, count) ∈ Dag.children dag par ->
    exists a b, value !! par = Some (Num a) /\ value !! child = Some (Num b) /\
                a + LongestPath.span count <= b.

(** A node's layer is 0 or one of its parents' layers plus the span of
    the link. *)
Definition tight_layering (dag : Dag.Dag N) (value : gmap nat num) : Prop :=
  forall n z, (n < length dag)%nat -> value !! n = Some (Num z) ->
    z = 0 \/
    exists par count a, (n, count) ∈ Dag.children dag par /\
                        value !! par = Some (Num a) /\ z = a + LongestPath.span count.

(** Bottom-up, a node's layer is the largest layer or one of its
    children's layers minus the span of the link. *)
Definition tight_from_below (dag : Dag.Dag N) (maxLayer : Z) (value : gmap nat num) : Prop :=
  forall n z, (n < length dag)%nat -> value !! n = Some (Num z) ->
    z = maxLayer \/
    exists child count b, (child, count) ∈ Dag.children dag n /\
                          value !! child = Some (Num b) /\ z = b - LongestPath.span count.

(** Top-down loop invariant. *)
Definition down_ok (dag : Dag.Dag N) (seen : list nat) (value : gmap nat num) : Prop :=
  forall n, n ∈ seen ->
    exists z, value !! n = Some (Num z) /\ 0 <= z /\
      (forall par count, (n, count) ∈ Dag.children dag par ->
         par ∈ seen /\ exists a, value !! par = Some (Num a) /\
                                 a + LongestPath.span count <= z) /\
      (z = 0 \/ exists par count a, (n, count) ∈ Dag.children dag par /\
                  value !! par = Some (Num a) /\ z = a + LongestPath.span count).

(** Bottom-up loop invariant, on [(node.value, maxHeight)]. *)
Definition up_ok (dag : Dag.Dag N) (seen : list nat) (st : gmap nat num * num) : Prop :=
  exists M, st.2 = Num M /\ 0 <= M /\
    forall n, n ∈ seen ->
      exists z, st.1 !! n = Some (Num z) /\ 0 <= z <= M /\
        forall child count, (child, count) ∈ Dag.children dag n ->
          child ∈ seen /\ exists a, st.1 !! child = Some (Num a) /\
                                    a + LongestPath.span count <= z.

(** Bottom-up loop invariant: a height is 0 or that of a child plus the
    span of the link. *)
Definition up_tight (dag : Dag.Dag N) (seen : list nat) (st : gmap nat num * num) : Prop :=
  forall n z, n ∈ seen -> st.1 !! n = Some (Num z) ->
    z = 0 \/
    exists child count a, (child, count) ∈ Dag.children dag n /\
                          st.1 !! child = Some (Num a) /\ z = a + LongestPath.span count.

End Layering.
End Layering.

(** ** The rows of the layering program *)
Module SimplexSpec.

(** The name [before] gives its constraint:
    [`${prefix}: ${n(first)} -> ${n(second)}`]. *)
Definition name (prefix : string) (first second : nat) : string :=
  prefix +:+ ": " +:+ Simplex.n first +:+ " -> " +:+ Simplex.n second.

(** The left-hand side of the constraint [cons] at the assignment [x]: the
    sum over the variables of their coefficient for [cons] times their
    value. *)
Definition row (cons : string) (vars : gmap string (gmap string Z)) (x : string -> Z) : Z :=
  Simplex.objective cons vars x.

(** No variable has a coefficient for [cons] yet. *)
Definition unset (cons : string) (vars : gmap string (gmap string Z)) : Prop :=
  forall k var, vars !! k = Some var -> var !! cons = None.

(** The elementary updates [simplexCall] makes to its model. *)
Inductive Step : Type :=
  | Before (prefix : string) (first second : nat) (diff : Z)
  | AddOpt (node : nat) (d : Z).

Definition step (m : Simplex.Model) (s : Step) : Simplex.Model :=
  match s with
  | Before prefix first second diff => Simplex.before prefix first second diff m
  | AddOpt node d => Simplex.add_opt node d m
  end.

Definition run (steps : list Step) (m : Simplex.Model) : Simplex.Model :=
  fold_left step steps m.

Definition link_steps (l : nat * nat * Z) : list Step :=
  let '(node, child, count) := l in
  [Before "link" node child (if 1 <? count then 2 else 1);
   AddOpt node count; AddOpt child (- count)].

Definition equal_steps (prefix : string) (first second : nat) : list Step :=
  [Before (prefix +:+ " before") first second 0;
   Before (prefix +:+ " after") second first 0].

Definition rank_steps (p : (Q * nat) * (Q * nat)) : list Step :=
  let '((frank, fnode), (srank, snode)) := p in
  if negb (Qle_bool srank frank) then [Before "rank" fnode snode 1]
  else equal_steps "rank" fnode snode.

Definition group_steps (g : string * list nat) : list Step :=
  flat_map (fun '(first, second) => equal_steps "group" first second) (bigrams (snd g)).

(** The constraint names a list of steps writes. *)
Definition names (steps : list Step) : list string :=
  flat_map (fun s => match s with
                     | Before prefix first second _ => [name prefix first second]
                     | AddOpt _ _ => []
                     end) steps.

(** The string [s] does not contain the character [c]. *)
Fixpoint avoids (c : ascii) (s : string) : Prop :=
  match s with
  | EmptyString => True
  | String c' s' => c' <> c /\ avoids c s'
  end.

(** The meaning the solver gives to the model: the assignment [x] keeps the
    left-hand side of every constraint within its [min] and [max]. *)
Definition satisfies (m : Simplex.Model) (x : string -> Z) : Prop :=
  forall cons c, Simplex.constraints m !! cons = Some c ->
    (forall d, Simplex.min c = Some d -> d <= row cons (Simplex.variables m) x) /\
    (forall d, Simplex.max c = Some d -> row cons (Simplex.variables m) x <= d).

Section Program.
Context {N : Type}.

(** The state after the first loop of [simplexCall] ("Add node variables
    and fetch ranks"). *)
Definition collected (options : Options.Simplex N) (dag : Dag.Dag N) : Simplex.Collected :=
  Simplex.add_nodes options
    {| Simplex.model := {| Simplex.variables := ∅; Simplex.constraints := ∅;
                           Simplex.ints := ∅ |};
       Simplex.ranks := []; Simplex.groups := [] |} 0%nat dag.

(** The updates of the three later loops, in the order they are made. *)
Definition steps (options : Options.Simplex N) (dag : Dag.Dag N) : list Step :=
  let st := collected options dag in
  flat_map link_steps (Dag.links dag)
  ++ flat_map rank_steps (bigrams (Simplex.sort_ranks (Simplex.ranks st)))
  ++ flat_map group_steps (Simplex.groups st).

End Program.

(** No two links join the same pair of nodes, and none joins a node to
    itself. *)
Definition simple {N : Type} (dag : Dag.Dag N) : Prop :=
  NoDup (Dag.links dag).*1 /\ forall node count, (node, count) ∉ Dag.children dag node.

End SimplexSpec.


(** * sugiyama/index.ts: the exported steps of the layout *)
Module Steps.

(** The numbers [coordVertical] computes with when its sums and halves
    are exact: the sizes are finite, and [Math.max()] of no argument is
    [-Infinity]. *)
Inductive number : Type :=
  | NegInfinity
  | Finite (q : Q).

(** [a + b] *)
Definition number_add (a b : number) : number :=
  match a, b with
  | Finite x, Finite y => Finite (x + y)
  | _, _ => NegInfinity
  end.

(** [a / 2] *)
Definition number_half (a : number) : number :=
  match a with
  | Finite x => Finite (x / 2)
  | NegInfinity => NegInfinity
  end.

Definition number_max (a b : number) : number :=
  match a, b with
  | NegInfinity, _ => b
  | _, NegInfinity => a
  | Finite x, Finite y => Finite (if Qle_bool x y then y else x)
  end.

(** [Math.max(...xs)] *)
Definition math_max (xs : list Q) : number :=
  fold_left (fun acc x => number_max acc (Finite x)) xs NegInfinity.

(** The error of [cachedNodeSize]: "all node sizes must be non-negative,
    but got width ... and height ...". *)
Inductive sized (A : Type) : Type :=
  | Sized (a : A)
  | NegativeSize (width height : jsnum).
Arguments Sized {A} a.
Arguments NegativeSize {A} width height.

Section Steps.
(** Sugi nodes, compared as the keys of a [Map] are; [World] is whatever
    a call of the user's accessor may change. *)
Context {Node : Type} `{EqDecision Node} {World : Type}.

(** [cache : Map<SugiNode, readonly [number, number]>], in insertion order. *)
Definition Cache : Type := list (Node * (jsnum * jsnum)).

Fixpoint cache_get (cache : Cache) (node : Node) : option (jsnum * jsnum) :=
  match cache with
  | [] => None
  | (k, val) :: rest => if decide (k = node) then Some val else cache_get rest node
  end.

(** [cache.set(node, val)], for a node that has no entry. *)
Definition cache_set (cache : Cache) (node : Node) (val : jsnum * jsnum) : Cache :=
  cache ++ [(node, val)].

Variable nodeSize : Node -> World -> (jsnum * jsnum) * World.
Variable check : bool.

(** [cached(node)] of [cachedNodeSize(nodeSize, check)], on the cache and
    the world. *)
Definition cached (node : Node) (st : Cache * World)
  : sized ((jsnum * jsnum) * (Cache * World)) :=
  let '(cache, w) := st in
  match cache_get cache node with
  | Some val => Sized (val, (cache, w))
  | None =>
      let '(val, w') := nodeSize node w in
      let '(width, height) := val in
      if check && (jsnum_negative width || jsnum_negative height) then
        NegativeSize width height
      else Sized (val, (cache_set cache node val, w'))
  end.

(** [cachedX] and [cachedY] *)
Definition cachedX (node : Node) (st : Cache * World) : sized (jsnum * (Cache * World)) :=
  match cached node st with
  | Sized (val, st') => Sized (fst val, st')
  | NegativeSize width height => NegativeSize width height
  end.

Definition cachedY (node : Node) (st : Cache * World) : sized (jsnum * (Cache * World)) :=
  match cached node st with
  | Sized (val, st') => Sized (snd val, st')
  | NegativeSize width height => NegativeSize width height
  end.

(** No size in the cache is negative. *)
Definition cache_ok (cache : Cache) : Prop :=
  forall node width height, cache_get cache node = Some (width, height) ->
    jsnum_negative width = false /\ jsnum_negative height = false.

(** [coordVertical(layers, size)] from the running [height]: the [y] given
    to the nodes, layer by layer, and the total height. *)
Fixpoint coordVertical_from (height : number) (layers : list (list Node)) (size : Node -> Q)
  : list (list number) * number :=
  match layers with
  | [] => ([], height)
  | layer :: rest =>
      let layerHeight := math_max (map size layer) in
      let ys := map (fun _ => number_add height (number_half layerHeight)) layer in
      let '(yss, total) := coordVertical_from (number_add height layerHeight) rest size in
      (ys :: yss, total)
  end.

Definition coordVertical (layers : list (list Node)) (size : Node -> Q)
  : list (list number) * number :=
  coordVertical_from (Finite 0) layers size.

(** The node at position [p] of layer [k]. *)
Definition at_position {A : Type} (layers : list (list A)) (k p : nat) : option A :=
  layers !! k ≫= (.!! p).

End Steps.

(** [coordVertical] over numbers of any kind, for what does not depend on
    sums and halves being exact: [zero] is [0], [add] is [+], [half] is
    [/ 2] and [max_of xs] is [Math.max(...xs)], each with whatever rounding
    the numbers have. *)
Module Rounded.
Section Rounded.
Context {Node Num : Type}.
Variable zero : Num.
Variable add : Num -> Num -> Num.
Variable half : Num -> Num.
Variable max_of : list Num -> Num.

Fixpoint coordVertical_from (height : Num) (layers : list (list Node)) (size : Node -> Num)
  : list (list Num) * Num :=
  match layers with
  | [] => ([], height)
  | layer :: rest =>
      let layerHeight := max_of (map size layer) in
      let ys := map (fun _ => add height (half layerHeight)) layer in
      let '(yss, total) := coordVertical_from (add height layerHeight) rest size in
      (ys :: yss, total)
  end.

Definition coordVertical (layers : list (list Node)) (size : Node -> Num)
  : list (list Num) * Num :=
  coordVertical_from zero layers size.

End Rounded.
End Rounded.
End Steps.

(** * dag/stratify.ts: the operator and its accessors *)
Module StratifyOperator.
Section StratifyOperator.
Context {N : Type}.

(** The three accessors [buildOperator] closes over; the link datum [L]
    is [undefined] ([unit]) for an operator built by [parentIds]. *)
Record Operator (L : Type) : Type := {
  idOp : N -> nat -> res string;
  parentIdsOp : N -> nat -> res (option (list string));
  parentDataOp : N -> nat -> res (option (list (string * L)));
}.
Arguments idOp {L} _.
Arguments parentIdsOp {L} _.
Arguments parentDataOp {L} _.

(** [wrapParentIds(parentIds)]:
    [(parentIds(d, i) || []).map((id) => [id, undefined])] *)
Definition wrapParentIds (parentIds : N -> nat -> res (option (list string)))
  : N -> nat -> res (option (list (string * unit))) :=
  fun d i =>
    do ids <- parentIds d i;
    Ok (Some (map (fun id => (id, tt)) (default [] ids))).

(** [wrapParentData(parentData)]:
    [(parentData(d, i) || []).map(([id]) => id)] *)
Definition wrapParentData {L : Type}
    (parentData : N -> nat -> res (option (list (string * L))))
  : N -> nat -> res (option (list string)) :=
  fun d i =>
    do pd <- parentData d i;
    Ok (Some (map fst (default [] pd))).

(** The setters [id(idGet)], [parentData(data)] and [parentIds(ids)]; the
    getters are the fields of the record. *)
Definition id {L : Type} (op : Operator L) (idGet : N -> nat -> res string) : Operator L :=
  {| idOp := idGet; parentIdsOp := parentIdsOp op; parentDataOp := parentDataOp op |}.

Definition parentData {L NL : Type} (op : Operator L)
    (data : N -> nat -> res (option (list (string * NL)))) : Operator NL :=
  {| idOp := idOp op; parentIdsOp := wrapParentData data; parentDataOp := data |}.

Definition parentIds {L : Type} (op : Operator L)
    (ids : N -> nat -> res (option (list string))) : Operator unit :=
  {| idOp := idOp op; parentIdsOp := ids; parentDataOp := wrapParentIds ids |}.

(** Calling the operator: [stratify(data)] with its accessors. *)
Definition call {L : Type} (valid_id : string -> bool)
    (verifyDag_ok : list (@Stratify.LayoutDagNode N L) -> list nat -> bool)
    (op : Operator L) (data : list N) : res (@Stratify.Dag N L) :=
  Stratify.stratify (idOp op) (parentDataOp op) valid_id verifyDag_ok data.

End StratifyOperator.
Arguments idOp {N L} _.
Arguments parentIdsOp {N L} _.
Arguments parentDataOp {N L} _.
End StratifyOperator.

(** * coord/quad.ts: cached weight accessors *)
Module QuadCache.

(** What a call of a cached accessor gives: a weight, or one of the errors
    "link weights must be non-negative" and "node weights must be
    non-negative". *)
Inductive weighed (A : Type) : Type :=
  | Weighed (a : A)
  | NegativeLinkWeight
  | NegativeNodeWeight.
Arguments Weighed {A} a.
Arguments NegativeLinkWeight {A}.
Arguments NegativeNodeWeight {A}.

(** A weight accessor as the caches get it: a function to numbers that may
    carry a numeric [value] property. *)
Record Accessor (A : Type) : Type := {
  call : A -> jsnum;
  value : option jsnum;
}.
Arguments call {A} _ _.
Arguments value {A} _.

(** [isConstAccessor(acc)]: ["value" in acc && typeof acc.value === "number"] *)
Definition isConstAccessor {A : Type} (acc : Accessor A) : bool :=
  match value acc with Some _ => true | None => false end.

(** [cache : Map<DagNode, Map<DagNode, number>>]: a weight per source and
    target; nodes are named by their index. *)
Abbreviation LinkCache := (gmap (nat * nat) jsnum).

(** [cache : Map<DagNode, number>] *)
Abbreviation NodeCache := (gmap nat jsnum).

Section QuadCache.
Context {L : Type}.

(** The accessor [cacheLinkWeightAccessor(accessor)] returns, applied to
    [link] with the cache as it is. *)
Definition cacheLinkWeightAccessor (accessor : Accessor (Options.DagLink L))
    (link : Options.DagLink L) (cache : LinkCache) : weighed (jsnum * LinkCache) :=
  if isConstAccessor accessor then Weighed (call accessor link, cache)
  else
    let key := (Options.source link, Options.target link) in
    match cache !! key with
    | None =>
        let val := call accessor link in
        if jsnum_negative val then NegativeLinkWeight
        else Weighed (val, <[key := val]> cache)
    | Some cached => Weighed (cached, cache)
    end.

(** The accessor [cacheNodeWeightAccessor(accessor)] returns, applied to
    the node [node] with the cache as it is. *)
Definition cacheNodeWeightAccessor (accessor : Accessor nat)
    (node : nat) (cache : NodeCache) : weighed (jsnum * NodeCache) :=
  if isConstAccessor accessor then Weighed (call accessor node, cache)
  else
    match cache !! node with
    | None =>
        let val := call accessor node in
        if jsnum_negative val then NegativeNodeWeight
        else Weighed (val, <[node := val]> cache)
    | Some cached => Weighed (cached, cache)
    end.

(** No cached weight is negative. *)
Definition weights_ok {K : Type} `{Countable K} (cache : gmap K jsnum) : Prop :=
  forall k v, cache !! k = Some v -> jsnum_negative v = false.

End QuadCache.
End QuadCache.

(** * sugiyama/decross/opt.ts: the integer program *)
Module OptModel.

(** How building the model may end: with a value, with the exception of
    [def] on an [undefined] id, or with the [TypeError] of writing to
    [model.variables[name]] when there is no such variable. *)
Inductive outcome (A : Type) : Type :=
  | Done (a : A)
  | UndefinedValue
  | NoVariable (name : string).
Arguments Done {A} a.
Arguments UndefinedValue {A}.
Arguments NoVariable {A} name.

Definition bind {A B : Type} (o : outcome A) (k : A -> outcome B) : outcome B :=
  match o with
  | Done a => k a
  | UndefinedValue => UndefinedValue
  | NoVariable name => NoVariable name
  end.

(** A loop whose body may throw. *)
Fixpoint foldM {A B : Type} (f : A -> B -> outcome A) (l : list B) (a : A) : outcome A :=
  match l with
  | [] => Done a
  | b :: rest => bind (f a b) (foldM f rest)
  end.

Fixpoint mapM {A B : Type} (f : A -> outcome B) (l : list A) : outcome (list B) :=
  match l with
  | [] => Done []
  | a :: rest => bind (f a) (fun b => bind (mapM f rest) (fun bs => Done (b :: bs)))
  end.

(** A constraint [{ min?, max? }] and the [Model] of javascript-lp-solver. *)
Record Constraint : Type := {
  min : option Q;
  max : option Q;
}.

Record Model : Type := {
  optimize : string;
  opType : string;
  constraints : gmap string Constraint;
  variables : gmap string (gmap string Q);
  ints : gmap string Q;
}.

(** [ids.sort((a, b) => a - b)] *)
Fixpoint insert_id (x : nat) (sorted : list nat) : list nat :=
  match sorted with
  | [] => [x]
  | y :: rest => if (y <=? x)%nat then y :: insert_id x rest else x :: y :: rest
  end.

Definition sort_ids (ids : list nat) : list nat :=
  fold_left (fun sorted x => insert_id x sorted) ids [].

(** [strings.join(sep)] *)
Fixpoint join (sep : string) (strings : list string) : string :=
  match strings with
  | [] => EmptyString
  | [s] => s
  | s :: rest => s +:+ sep +:+ join sep rest
  end.

Section OptModel.
(** Nodes are named by their id: the position in the iteration over the
    layers, which is what [ids] maps them to when the nodes of the layers
    are different objects; the numbers of [ichildren] are read as such ids.
    [total] is the number of nodes, a number from [total] on names a node
    that is in no layer. *)
Variable total : nat.

(** Modelled from the spec: [def] of utils.ts is not among the sources; it
    returns its argument unless that is [undefined], and throws then.  This
    is [def(ids.get(n))]. *)
Definition id_of (node : nat) : outcome nat :=
  if (node <? total)%nat then Done node else UndefinedValue.

(** [key(...nodes)] *)
Definition key (nodes : list nat) : outcome string :=
  bind (mapM id_of nodes) (fun ids => Done (join " => " (map pretty (sort_ids ids)))).

(** [model.variables[name][cons] = coeff] *)
Definition set_coeff (name cons : string) (coeff : Q) (model : Model) : outcome Model :=
  match variables model !! name with
  | Some var =>
      Done {| optimize := optimize model; opType := opType model;
              constraints := constraints model;
              variables := <[name := <[cons := coeff]> var]> (variables model);
              ints := ints model |}
  | None => NoVariable name
  end.

(** [model.constraints[cons] = c] *)
Definition set_constraint (cons : string) (c : Constraint) (model : Model) : Model :=
  {| optimize := optimize model; opType := opType model;
     constraints := <[cons := c]> (constraints model);
     variables := variables model;
     ints := ints model |}.

(** The pairs [n1, n2] of the first loops of [perms] and of [cross]:
    [n1] from [layer.slice(0, layer.length - 1)] at index [i], [n2] from
    [layer.slice(i + 1)]. *)
Definition pairs {A : Type} (layer : list A) : list (A * A) :=
  concat (imap (fun i n1 => map (fun n2 => (n1, n2)) (drop (i + 1) layer))
               (take (length layer - 1) layer)).

(** The triples of the second loops of [perms]: [n2] from
    [layer.slice(i + 1)] at index [j], [n3] from [layer.slice(i + j + 2)]. *)
Definition triples {A : Type} (layer : list A) : list (A * A * A) :=
  concat (imap (fun i n1 =>
                  concat (imap (fun j n2 =>
                                  map (fun n3 => (n1, n2, n3)) (drop (i + j + 2) layer))
                               (drop (i + 1) layer)))
               (take (length layer - 1) layer)).

Variable numVars : Z.

(** The body of the first loops of [perms]. *)
Definition add_pair (model : Model) (p : nat * nat) : outcome Model :=
  let '(n1, n2) := p in
  bind (key [n1; n2]) (fun pair =>
  Done {| optimize := optimize model; opType := opType model;
          constraints := <[pair := {| min := None; max := Some 1%Q |}]> (constraints model);
          variables :=
            <[pair := <[pair := 1%Q]> {[ "opt" := ((-1) / inject_Z (numVars + 1))%Q ]}]>
              (variables model);
          ints := <[pair := 1%Q]> (ints model) |}).

(** The body of the second loops of [perms]. *)
Definition add_triangle (model : Model) (t : nat * nat * nat) : outcome Model :=
  let '(n1, n2, n3) := t in
  bind (key [n1; n2]) (fun pair1 =>
  bind (key [n1; n3]) (fun pair2 =>
  bind (key [n2; n3]) (fun pair3 =>
  bind (key [n1; n2; n3]) (fun triangle =>
  let triangleUp := triangle +:+ "+" in
  let model := set_constraint triangleUp {| min := None; max := Some 1%Q |} model in
  bind (set_coeff pair1 triangleUp 1 model) (fun model =>
  bind (set_coeff pair2 triangleUp (-1) model) (fun model =>
  bind (set_coeff pair3 triangleUp 1 model) (fun model =>
  let triangleDown := triangle +:+ "-" in
  let model := set_constraint triangleDown {| min := Some 0%Q; max := None |} model in
  bind (set_coeff pair1 triangleDown 1 model) (fun model =>
  bind (set_coeff pair2 triangleDown (-1) model) (fun model =>
  set_coeff pair3 triangleDown 1 model))))))))).

(** [perms(model, layer)] *)
Definition perms (model : Model) (layer : list nat) : outcome Model :=
  bind (foldM add_pair (pairs layer) model) (foldM add_triangle (triples layer)).

(** [Math.sign(a - b)] on ids. *)
Definition sign (a b : nat) : Q :=
  match (a ?= b)%nat with
  | Lt => (-1)%Q
  | Eq => 0%Q
  | Gt => 1%Q
  end.

(** [Math.max(a, b)] *)
Definition math_max (a b : Q) : Q := if Qle_bool a b then b else a.

(** The body of the innermost loop of [cross], for the parents [p1] and
    [p2] and the children [c1] of [p1] and [c2] of [p2]. *)
Definition add_slack (pairp : string) (model : Model) (c : nat * nat) : outcome Model :=
  let '(c1, c2) := c in
  if decide (c1 = c2) then Done model
  else
    bind (key [c1; c2]) (fun pairc =>
    let slack := "slack (" +:+ pairp +:+ ") (" +:+ pairc +:+ ")" in
    let slackUp := slack +:+ " +" in
    let slackDown := slack +:+ " -" in
    let model :=
      {| optimize := optimize model; opType := opType model;
         constraints := constraints model;
         variables :=
           <[slack := <[slackDown := 1%Q]> (<[slackUp := 1%Q]> {[ "opt" := 1%Q ]})]>
             (variables model);
         ints := ints model |} in
    bind (id_of c1) (fun i1 =>
    bind (id_of c2) (fun i2 =>
    let sgn := sign i1 i2 in
    let flip := math_max sgn 0 in
    let model := set_constraint slackUp {| min := Some flip; max := None |} model in
    bind (set_coeff pairp slackUp 1 model) (fun model =>
    bind (set_coeff pairc slackUp sgn model) (fun model =>
    let model := set_constraint slackDown {| min := Some (- flip)%Q; max := None |} model in
    bind (set_coeff pairp slackDown (-1) model) (fun model =>
    set_coeff pairc slackDown (- sgn) model)))))).

(** [cross(model, layer)]; a node of the layer is its id with its
    [ichildren()]. *)
Definition cross (model : Model) (layer : list (nat * list nat)) : outcome Model :=
  foldM (fun model '((p1, children1), (p2, children2)) =>
           bind (key [p1; p2]) (fun pairp =>
           foldM (add_slack pairp)
                 (flat_map (fun c1 => map (fun c2 => (c1, c2)) children2) children1)
                 model))
        (pairs layer) model.

End OptModel.

(** The ids of the nodes, layer by layer, from [i]. *)
Fixpoint number (i : nat) (layers : Opt.Layers) : list (list (nat * list nat)) :=
  match layers with
  | [] => []
  | layer :: rest =>
      imap (fun k node => ((i + k)%nat, Opt.ichildren node)) layer
      :: number (i + length layer) rest
  end.

(** The model [optCall] hands to [Solve]: "initialize model", "add
    variables and permutation invariants", "add crossing minimization". *)
Definition model (layers : Opt.Layers) : outcome Model :=
  let numVars := Opt.numVars layers in
  let total := length (concat layers) in
  let numbered := number 0 layers in
  let model := {| optimize := "opt"; opType := "min";
                  constraints := ∅; variables := ∅; ints := ∅ |} in
  bind (foldM (fun model layer => perms total numVars model (map fst layer)) numbered model)
       (foldM (cross total) (take (length numbered - 1) numbered)).

(** The key of the ids [a < b]: [`${a} => ${b}`]. *)
Definition pair_name (a b : nat) : string := pretty a +:+ " => " +:+ pretty b.

(** The ids of the nodes of layer [l]. *)
Definition ids_of_layer (layers : Opt.Layers) (l : nat) : list nat :=
  match number 0 layers !! l with
  | Some layer => map fst layer
  | None => []
  end.

Definition same_layer (layers : Opt.Layers) (a b : nat) : Prop :=
  exists l, a ∈ ids_of_layer layers l /\ b ∈ ids_of_layer layers l.

(** The children of the nodes of a layer are nodes of the next layer. *)
Definition proper (layers : Opt.Layers) : Prop :=
  forall l layer p children c,
    number 0 layers !! l = Some layer -> (p, children) ∈ layer -> c ∈ children ->
    c ∈ ids_of_layer layers (S l).

(** [model.variables[v][cons]], [None] for [undefined]. *)
Definition coefficient (model : Model) (v cons : string) : option Q :=
  match variables model !! v with
  | Some var => var !! cons
  | None => None
  end.

(** Constraint [cons] of the model is [c] ([None]: there is none), and
    [row] gives the coefficient every variable has in it. *)
Definition has_row (model : Model) (cons : string) (c : option Constraint)
    (row : string -> option Q) : Prop :=
  constraints model !! cons = c /\ forall v, coefficient model v cons = row v.

(** The key of the ids [a < b < c]: [`${a} => ${b} => ${c}`]. *)
Definition triangle_name (a b c : nat) : string :=
  pretty a +:+ " => " +:+ pretty b +:+ " => " +:+ pretty c.

(** The left-hand side [x(a,b) - x(a,c) + x(b,c)] of a triangle constraint. *)
Definition triangle_row (a b c : nat) (v : string) : option Q :=
  if decide (v = pair_name a b) then Some 1%Q
  else if decide (v = pair_name a c) then Some (-1)%Q
  else if decide (v = pair_name b c) then Some 1%Q
  else None.

(** Node [i] of layer [l]: its id and its children. *)
Definition node_at (layers : Opt.Layers) (l i : nat) : option (nat * list nat) :=
  match number 0 layers !! l with
  | Some layer => layer !! i
  | None => None
  end.

(** [`slack (${pairp}) (${pairc})`] *)
Definition slack_name (pairp pairc : string) : string :=
  "slack (" +:+ pairp +:+ ") (" +:+ pairc +:+ ")".

(** The left-hand side [slack + cp * x(pairp) + cc * x(pairc)] of a slack
    constraint; where the two pairs are the same, the later write of
    [cross], that of [cc], stands. *)
Definition slack_row (slack pairp pairc : string) (cp cc : Q) (v : string) : option Q :=
  if decide (v = slack) then Some 1%Q
  else if decide (v = pairc) then Some cc
  else if decide (v = pairp) then Some cp
  else None.

(** All pairs of nodes of one layer, in the order [perms] makes their
    variables. *)
Definition all_pairs (numbered : list (list (nat * list nat))) : list (nat * nat) :=
  flat_map (fun layer => pairs (map fst layer)) numbered.

Section OptCall.
(** [Solve] of javascript-lp-solver and the sort of every layer by the
    ordering it finds are not among the sources; the comparator of the sort
    asks [key] for two nodes of one layer, which have ids.  The two together
    are a function of the model and the layers. *)
Variable solveAndSort : Model -> Opt.Layers -> Opt.Layers.

(** [optCall] after the size check: "initialize model" to "sort layers".
    Building the model may throw: [def] on a child that is in no layer,
    and the [TypeError] of writing a coefficient of a variable that was
    never made. *)
Definition solveLayers (layers : Opt.Layers) : res Opt.Layers :=
  match model layers with
  | Done m => Ok (solveAndSort m layers)
  | UndefinedValue => Throw UnexpectedUndefined
  | NoVariable _ => Throw TypeError
  end.

(** [optCall(layers)], closed over [options]. *)
Definition optCall (options : Options.Opt) (layers : Opt.Layers) : res Opt.Layers :=
  do _ <- Opt.checkLarge options layers;
  solveLayers layers.

End OptCall.

End OptModel.

(** * Sample inputs *)
Module Samples.

(** Data for [stratify]: "a" is a root, "b" its child, "c" a child of both. *)
Definition chain : list (string * list string) :=
  [("a", []); ("b", ["a"]); ("c", ["b"; "a"])].

(** A [parentIds] accessor for such data. *)
Definition ids_of (d : string * list string) (_ : nat) : res (option (list string)) :=
  Ok (Some (snd d)).

Definition by_ids : StratifyOperator.Operator (N:=string * list string) unit :=
  {| StratifyOperator.idOp := Examples.id_of;
     StratifyOperator.parentIdsOp := ids_of;
     StratifyOperator.parentDataOp := StratifyOperator.wrapParentIds ids_of |}.

(** The dag [0 -> 1] with a third, unlinked node; the datum of a node is
    its rank. *)
Definition ranked : Dag.Dag Q :=
  [ {| Dag.data := 0%Q; Dag.ichildrenCounts := [(1%nat, 1)] |};
    {| Dag.data := 1%Q; Dag.ichildrenCounts := [] |};
    {| Dag.data := 1%Q; Dag.ichildrenCounts := [] |} ].

Definition by_rank : Options.Simplex Q :=
  {| Options.rank := fun node => Some (Dag.data node);
     Options.group := Simplex.defaultAccessor |}.

(** The same shape; the datum of a node is its group. *)
Definition grouped : Dag.Dag string :=
  [ {| Dag.data := "g"; Dag.ichildrenCounts := [(1%nat, 1)] |};
    {| Dag.data := "h"; Dag.ichildrenCounts := [] |};
    {| Dag.data := "h"; Dag.ichildrenCounts := [] |} ].

Definition by_group : Options.Simplex string :=
  {| Options.rank := Simplex.defaultAccessor;
     Options.group := fun node => Some (Dag.data node) |}.

(** Node 0 on layer 0, the others on layer 1. *)
Definition two_layers (name : string) : Z := if String.eqb name "0" then 0 else 1.

(** No ranks and no groups, the layers 0, 1, 2 for the nodes of
    [Examples.dag3], and a solver that answers with these layers, leaving
    out the 0. *)
Definition unranked : Options.Simplex unit :=
  {| Options.rank := Simplex.defaultAccessor; Options.group := Simplex.defaultAccessor |}.

Definition three_layers (name : string) : Z :=
  if String.eqb name "0" then 0 else if String.eqb name "1" then 1 else 2.

Definition solved (_ _ : string) (_ : gmap string (gmap string Z))
    (_ : gmap string Simplex.Constraint) (_ : gmap string Z) : res (gmap string Z) :=
  Ok {[ "1" := 1; "2" := 2 ]}.

(** One layer of 50 nodes (1225 ordering variables), and one of 2. *)
Definition wide : Opt.Layers := [repeat {| Opt.ichildren := [] |} 50].
Definition narrow : Opt.Layers := [repeat {| Opt.ichildren := [] |} 2].

(** A node size accessor on numbered nodes that counts its calls. *)
Definition square (node : nat) (calls : nat) : (jsnum * jsnum) * nat :=
  ((JsNum (inject_Z (Z.of_nat node)), JsNum (inject_Z (Z.of_nat node))), S calls).

(** One that gives node 0 the width [NaN] and node 1 the width -1. *)
Definition odd_sizes (node : nat) (calls : nat) : (jsnum * jsnum) * nat :=
  (match node with
   | O => (JsNaN, JsNum 1)
   | 1%nat => (JsNum (-1), JsNum 1)
   | _ => (JsNum 1, JsNum 1)
   end, S calls).

(** Two layers of numbered nodes; the height of a node is its number. *)
Definition rows : list (list nat) := [[1; 2]; [3]]%nat.

(** Whole numbers as sizes: a half is rounded down. *)
Definition floor_half (a : nat) : nat := a / 2.
Definition greatest (xs : list nat) : nat := fold_left Nat.max xs 0%nat.
Definition own_size (node : nat) : nat := node.

(** Weight accessors that are not constant: the datum of the link, and the
    number of the node. *)
Definition by_datum : QuadCache.Accessor (Options.DagLink jsnum) :=
  {| QuadCache.call := fun link => Options.link_data link; QuadCache.value := None |}.

Definition by_number : QuadCache.Accessor nat :=
  {| QuadCache.call := fun node => JsNum (inject_Z (Z.of_nat node));
     QuadCache.value := None |}.

Definition by_node : Options.Accessor (Dag.DagNode unit) :=
  {| Options.call := fun node => inject_Z (Z.of_nat (length (Dag.ichildrenCounts node)));
     Options.value := None |}.

Definition by_unit : Options.Accessor (Options.DagLink unit) :=
  {| Options.call := fun link => inject_Z (Z.of_nat (Options.target link));
     Options.value := None |}.

(** Two layers of two nodes: node 0 with the children 2 and 3, node 1 with
    the child 2. *)
Definition crossing : Opt.Layers :=
  [ [ {| Opt.ichildren := [2; 3]%nat |}; {| Opt.ichildren := [2]%nat |} ];
    [ {| Opt.ichildren := [] |}; {| Opt.ichildren := [] |} ] ].

(** One node above a layer of three: node 0 with the children 1, 2 and 3. *)
Definition fan : Opt.Layers :=
  [ [ {| Opt.ichildren := [1; 2; 3]%nat |} ];
    [ {| Opt.ichildren := [] |}; {| Opt.ichildren := [] |}; {| Opt.ichildren := [] |} ] ].

End Samples.

(* ====================================================================== *)
(** * Properties *)
(* ====================================================================== *)

(** ** The error monad *)

Lemma res_bind_ok {A B : Type} (m : res A) (k : A -> res B) (b : B) :
  res_bind m k = Ok b -> exists a, m = Ok a /\ k a = Ok b.
Proof. destruct m as [a|e]; simpl; [eauto | discriminate]. Qed.

Lemma throws_not_ok {A : Type} (r : res A) :
  throws r <-> forall a, r <> Ok a.
Proof.
  split.
  - intros [e ->] a; discriminate.
  - intros H. destruct r as [a|e]; [destruct (H a); reflexivity | exists e; reflexivity].
Qed.

Ltac bind_ok H :=
  let a := fresh "a" in
  let Ha := fresh "Hbind" in
  apply res_bind_ok in H; destruct H as (a & Ha & H).

(** ** stratify *)
Section StratifyFacts.
Context {N L : Type}.
Variable idOp : N -> nat -> res string.
Variable parentDataOp : N -> nat -> res (option (list (string * L))).
Variable valid_id : string -> bool.
Variable verifyDag_ok : list (@Stratify.LayoutDagNode N L) -> list nat -> bool.

Local Abbreviation fill_mapping := (Stratify.fill_mapping idOp parentDataOp valid_id).
Local Abbreviation stratify := (Stratify.stratify idOp parentDataOp valid_id verifyDag_ok).
Local Abbreviation Mapping := (@Stratify.Mapping L).

Lemma mapping_get_app (m : Mapping) k v id :
  Stratify.mapping_get (m ++ [(k, v)]) id =
  match Stratify.mapping_get m id with
  | Some x => Some x
  | None => if String.eqb k id then Some v else None
  end.
Proof.
  induction m as [|[k' v'] m IH]; simpl; [reflexivity|].
  destruct (String.eqb k' id); [reflexivity | exact IH].
Qed.

Lemma mapping_has_app (m : Mapping) k v id :
  Stratify.mapping_has (m ++ [(k, v)]) id =
  Stratify.mapping_has m id || String.eqb k id.
Proof.
  unfold Stratify.mapping_has. rewrite mapping_get_app.
  destruct (Stratify.mapping_get m id); [reflexivity|].
  destruct (String.eqb k id); reflexivity.
Qed.

Lemma mapping_get_elem (m : Mapping) id v :
  Stratify.mapping_get m id = Some v -> (id, v) ∈ m.
Proof.
  induction m as [|[k' v'] m IH]; simpl; [discriminate|].
  destruct (String.eqb k' id) eqn:E.
  - apply String.eqb_eq in E. intros [= ->]. subst. left.
  - intros H. right. auto.
Qed.

(** One step of the first loop, inverted. *)
Lemma fill_mapping_cons d rest i (m m' : Mapping) :
  fill_mapping (d :: rest) i m = Ok m' ->
  exists id pd,
    idOp d i = Ok id /\ parentDataOp d i = Ok pd /\
    Stratify.mapping_has m id = false /\
    fill_mapping rest (S i) (m ++ [(id, (i, default [] pd))]) = Ok m'.
Proof.
  simpl. intros H.
  bind_ok H. bind_ok H. bind_ok H.
  unfold Stratify.verifyId in Hbind0.
  destruct (valid_id a); [|discriminate]. injection Hbind0 as <-.
  destruct (Stratify.mapping_has m a) eqn:E; [discriminate|].
  exists a, a1. repeat split; assumption.
Qed.

(** Keys already present stay present. *)
Lemma fill_mapping_mono data : forall i (m m' : Mapping) s,
  fill_mapping data i m = Ok m' ->
  Stratify.mapping_has m s = true -> Stratify.mapping_has m' s = true.
Proof.
  induction data as [|d rest IH]; intros i m m' s H Hs.
  - simpl in H. injection H as <-. exact Hs.
  - apply fill_mapping_cons in H as (id & pd & _ & _ & _ & H).
    eapply IH; [exact H|]. rewrite mapping_has_app, Hs. reflexivity.
Qed.

(** An id produced by the data is fresh when its datum is reached, and
    is a key of the final mapping. *)
Lemma fill_mapping_ids data : forall i (m m' : Mapping) k dk s,
  fill_mapping data i m = Ok m' ->
  data !! k = Some dk -> idOp dk (i + k)%nat = Ok s ->
  Stratify.mapping_has m s = false /\ Stratify.mapping_has m' s = true.
Proof.
  induction data as [|d rest IH]; intros i m m' k dk s H Hk Hs.
  - discriminate.
  - apply fill_mapping_cons in H as (id & pd & Hid & _ & Hfresh & H).
    destruct k as [|k]; simpl in Hk.
    + injection Hk as <-. rewrite Nat.add_0_r in Hs.
      rewrite Hid in Hs. injection Hs as <-. split; [exact Hfresh|].
      eapply fill_mapping_mono; [exact H|].
      rewrite mapping_has_app, String.eqb_refl, orb_true_r. reflexivity.
    + replace (i + S k)%nat with (S i + k)%nat in Hs by lia.
      destruct (IH _ _ _ _ _ _ H Hk Hs) as [Hf Ht]. split; [|exact Ht].
      rewrite mapping_has_app in Hf. apply orb_false_iff in Hf. tauto.
Qed.

(** Every key of the final mapping was there before or is produced by
    some data element. *)
Lemma fill_mapping_keys data : forall i (m m' : Mapping) s,
  fill_mapping data i m = Ok m' ->
  Stratify.mapping_has m' s = true ->
  Stratify.mapping_has m s = true \/
  exists k dk, data !! k = Some dk /\ idOp dk (i + k)%nat = Ok s.
Proof.
  induction data as [|d rest IH]; intros i m m' s H Hs.
  - simpl in H. injection H as <-. left; exact Hs.
  - apply fill_mapping_cons in H as (id & pd & Hid & _ & _ & H).
    destruct (IH _ _ _ _ H Hs) as [Hin | (k & dk & Hk & Hidk)].
    + rewrite mapping_has_app in Hin. apply orb_true_iff in Hin as [Hin|Heq].
      * left; exact Hin.
      * apply String.eqb_eq in Heq. subst s. right.
        exists 0%nat, d. rewrite Nat.add_0_r. split; [reflexivity | exact Hid].
    + right. exists (S k), dk.
      replace (i + S k)%nat with (S i + k)%nat by lia. split; assumption.
Qed.

(** The entry of every datum is in the final mapping. *)
Lemma fill_mapping_entries data : forall i (m m' : Mapping),
  fill_mapping data i m = Ok m' ->
  (forall e, e ∈ m -> e ∈ m') /\
  forall k dk pd, data !! k = Some dk -> parentDataOp dk (i + k)%nat = Ok pd ->
    exists id, (id, ((i + k)%nat, default [] pd)) ∈ m'.
Proof.
  induction data as [|d rest IH]; intros i m m' H.
  - simpl in H. injection H as <-. split; [auto|]. intros k dk pd Hk; discriminate.
  - apply fill_mapping_cons in H as (id & pd0 & _ & Hpd & _ & H).
    destruct (IH _ _ _ H) as [Hsub Hent]. split.
    + intros e He. apply Hsub. apply elem_of_app. left; exact He.
    + intros k dk pd Hk Hp. destruct k as [|k]; simpl in Hk.
      * injection Hk as <-. rewrite Nat.add_0_r in *.
        rewrite Hpd in Hp. injection Hp as <-.
        exists id. apply Hsub. apply elem_of_app. right. left.
      * replace (i + S k)%nat with (S i + k)%nat in * by lia.
        eapply Hent; eassumption.
Qed.

(** Distinct data elements that pass the first loop have distinct ids. *)
Lemma fill_mapping_distinct data : forall i (m m' : Mapping) j k dj dk s,
  fill_mapping data i m = Ok m' ->
  data !! j = Some dj -> data !! k = Some dk ->
  idOp dj (i + j)%nat = Ok s -> idOp dk (i + k)%nat = Ok s -> j = k.
Proof.
  induction data as [|d rest IH]; intros i m m' j k dj dk s H Hj Hk Hsj Hsk.
  - discriminate.
  - pose proof H as H0.
    apply fill_mapping_cons in H as (id & pd & Hid & _ & Hfresh & H).
    assert (Hclash : forall n dn, rest !! n = Some dn ->
               idOp dn (S i + n)%nat = Ok id -> False).
    { intros n dn Hn Hidn.
      destruct (fill_mapping_ids _ _ _ _ _ _ _ H Hn Hidn) as [Hf _].
      rewrite mapping_has_app, String.eqb_refl, orb_true_r in Hf. discriminate. }
    destruct j as [|j], k as [|k]; simpl in Hj, Hk; [reflexivity| | |].
    + exfalso. injection Hj as <-. rewrite Nat.add_0_r in Hsj.
      rewrite Hid in Hsj. injection Hsj as <-.
      apply (Hclash k dk Hk). rewrite <- Hsk. f_equal. lia.
    + exfalso. injection Hk as <-. rewrite Nat.add_0_r in Hsk.
      rewrite Hid in Hsk. injection Hsk as <-.
      apply (Hclash j dj Hj). rewrite <- Hsj. f_equal. lia.
    + f_equal.
      replace (i + S j)%nat with (S i + j)%nat in Hsj by lia.
      replace (i + S k)%nat with (S i + k)%nat in Hsk by lia.
      eapply IH; eassumption.
Qed.

(** The inner loop succeeds only if every parent id is a key. *)
Lemma link_parents_ok (mapping : Mapping) node pdata :
  forall (ns ns' : list (@Stratify.LayoutDagNode N L)),
  Stratify.link_parents mapping node pdata ns = Ok ns' ->
  forall pid ld, (pid, ld) ∈ pdata -> Stratify.mapping_has mapping pid = true.
Proof.
  induction pdata as [|[p l] rest IH]; intros ns ns' H pid ld Hin.
  - inversion Hin.
  - simpl in H. destruct (Stratify.mapping_get mapping p) as [[par x]|] eqn:E;
      [|discriminate].
    apply elem_of_cons in Hin as [Heq|Hin].
    + injection Heq as -> ->. unfold Stratify.mapping_has. rewrite E. reflexivity.
    + eapply IH; eassumption.
Qed.

Lemma link_all_ok (mapping : Mapping) todo :
  forall (ns : list (@Stratify.LayoutDagNode N L)) roots out,
  Stratify.link_all mapping todo ns roots = Ok out ->
  forall id node pdata pid ld,
    (id, (node, pdata)) ∈ todo -> (pid, ld) ∈ pdata ->
    Stratify.mapping_has mapping pid = true.
Proof.
  induction todo as [|[k [n pd]] rest IH]; intros ns roots out H id node pdata pid ld Hin Hp.
  - inversion Hin.
  - simpl in H. bind_ok H.
    apply elem_of_cons in Hin as [Heq|Hin].
    + injection Heq as -> -> ->. eapply link_parents_ok; eassumption.
    + eapply IH; eassumption.
Qed.

(** C9: [stratify] throws when two data elements produce the same id,
    and when a datum names a parent id that no data element produces;
    in both cases no dag is returned. *)
Theorem stratify_rejects_duplicate_and_unknown_parent (data : list N) :
  Stratify.duplicate_id idOp data \/ Stratify.unknown_parent idOp parentDataOp data ->
  throws (stratify data) /\ forall dag, stratify data <> Ok dag.
Proof.
  intros Hbad.
  assert (Hno : forall dag, stratify data <> Ok dag).
  { intros dag Hok. unfold Stratify.stratify in Hok.
    destruct data as [|d0 rest] eqn:Edata.
    { discriminate. }
    rewrite <- Edata in *. clear Edata d0 rest.
    bind_ok Hok. rename a into mapping. bind_ok Hok. destruct a as [ns' roots].
    destruct Hbad as [(i & j & di & dj & s & Hne & Hi & Hj & Hsi & Hsj)
                     |(i & d & pdata & pid & ld & Hi & Hpd & Hin & Hnone)].
    - apply Hne. eapply (fill_mapping_distinct data 0%nat); eassumption.
    - destruct (fill_mapping_entries _ _ _ _ Hbind) as [_ Hent].
      destruct (Hent i d (Some pdata) Hi Hpd) as [id Hid]. simpl in Hid.
      pose proof (link_all_ok _ _ _ _ _ Hbind0 _ _ _ _ _ Hid Hin) as Hkey.
      destruct (fill_mapping_keys _ _ _ _ _ Hbind Hkey) as [Habs|(k & dk & Hk & Hidk)].
      + discriminate.
      + exact (Hnone k dk Hk Hidk). }
  split; [apply throws_not_ok|]; exact Hno.
Qed.

(** C10: on an empty data array [stratify] throws "can't stratify empty
    data", whatever the accessors are. *)
Theorem stratify_empty_throws : stratify [] = Throw EmptyData.
Proof. reflexivity. Qed.

End StratifyFacts.

(** ** The dag model *)
Section DagFacts.
Context {N : Type}.
Implicit Types dag : Dag.Dag N.

Lemma links_from_cons i (n : Dag.DagNode N) dag :
  Dag.links_from i (n :: dag) =
  map (fun '(c, cnt) => (i, c, cnt)) (Dag.ichildrenCounts n) ++ Dag.links_from (S i) dag.
Proof.
  unfold Dag.links_from. rewrite imap_cons. simpl. f_equal.
  - rewrite Nat.add_0_r. reflexivity.
  - f_equal. apply imap_ext. intros k x _. simpl.
    replace (i + S k)%nat with (S (i + k)) by lia. reflexivity.
Qed.

Lemma elem_of_links_from dag : forall i par child count,
  (par, child, count) ∈ Dag.links_from i dag ->
  exists k, par = (i + k)%nat /\ (child, count) ∈ Dag.children dag k.
Proof.
  induction dag as [|n dag IH]; intros i par child count H.
  - inversion H.
  - rewrite links_from_cons in H. apply elem_of_app in H as [H|H].
    + apply list_elem_of_fmap in H as ([c cnt] & Heq & Hin).
      injection Heq as -> -> ->. exists 0%nat. split; [lia | exact Hin].
    + apply IH in H as (k & -> & Hin). exists (S k). split; [lia | exact Hin].
Qed.

Lemma elem_of_links dag par child count :
  (par, child, count) ∈ Dag.links dag -> (child, count) ∈ Dag.children dag par.
Proof. intros H. apply elem_of_links_from in H as (k & -> & H). exact H. Qed.

Lemma getParentCounts_root dag r :
  Dag.is_root dag r -> Dag.getParentCounts dag !! r = None.
Proof.
  intros [_ Hroot]. unfold Dag.getParentCounts.
  assert (Hl : forall p c cnt, (p, c, cnt) ∈ Dag.links dag -> c <> r).
  { intros p c cnt Hin ->. apply elem_of_links in Hin. exact (Hroot _ _ Hin). }
  assert (Hgen : forall ls (acc : gmap nat (list (nat * Z))),
             (forall p c cnt, (p, c, cnt) ∈ ls -> c <> r) -> acc !! r = None ->
             fold_left (fun parents '(par, child, count) =>
                <[child := default [] (parents !! child) ++ [(par, count)]]> parents)
               ls acc !! r = None).
  { induction ls as [|[[p c] cnt] ls IH]; intros acc Hls Hacc; simpl; [exact Hacc|].
    apply IH.
    - intros p' c' cnt' Hin. eapply Hls. right. exact Hin.
    - rewrite lookup_insert_ne; [exact Hacc|]. eapply Hls. left. }
  apply Hgen; [exact Hl | apply lookup_empty].
Qed.
End DagFacts.

(** ** Longest path layering *)
Section LongestPathFacts.
Context {N : Type}.
Variable idescendants : Dag.Dag N -> Dag.Style -> list nat.
Implicit Types (dag : Dag.Dag N) (value : gmap nat num).

Local Abbreviation longestPathCall := (LongestPath.longestPathCall idescendants).

Lemma span_pos count : 0 < LongestPath.span count.
Proof. unfold LongestPath.span. destruct (1 <? count); lia. Qed.

Lemma fold_num_max_Num xs : forall a,
  Forall (fun x => exists z, x = Num z) xs ->
  exists r, fold_left num_max xs (Num a) = Num r /\ a <= r.
Proof.
  induction xs as [|x xs IH]; intros a Hall; simpl.
  - exists a. split; [reflexivity | lia].
  - inversion Hall as [|? ? [z ->] Hall']; subst. simpl.
    destruct (IH (Z.max a z) Hall') as (r & Hr & Hle).
    exists r. split; [exact Hr | lia].
Qed.

(** Top-down: once a root has been visited its value is 0 for good. *)
Lemma visit_down_root dag r order : forall value,
  Dag.is_root dag r ->
  r ∈ order \/ value !! r = Some (Num 0) ->
  fold_left (LongestPath.visit_down (Dag.getParentCounts dag)) order value !! r
    = Some (Num 0).
Proof.
  induction order as [|n order IH]; intros value Hroot Hr; simpl.
  - destruct Hr as [Hr|Hr]; [inversion Hr | exact Hr].
  - apply IH; [exact Hroot|].
    destruct (decide (n = r)) as [->|Hne].
    + right. unfold LongestPath.visit_down.
      rewrite (getParentCounts_root _ _ Hroot). simpl.
      apply lookup_insert_eq.
    + destruct Hr as [Hr|Hr].
      * left. apply elem_of_cons in Hr as [->|Hr]; [congruence | exact Hr].
      * right. unfold LongestPath.visit_down. rewrite lookup_insert_ne; assumption.
Qed.

Lemma visit_up_ok dag seen st node :
  LongestPath.heights_ok dag seen st ->
  (forall child count, (child, count) ∈ Dag.children dag node -> child ∈ seen) ->
  LongestPath.heights_ok dag (seen ++ [node]) (LongestPath.visit_up dag st node).
Proof.
  intros (M & HM & HM0 & Hseen) Hch. destruct st as [value mh]. simpl in *. subst mh.
  set (xs := map (fun '(child, count) => num_add (value !! child) (LongestPath.span count))
                 (Dag.children dag node)).
  assert (Hxs : Forall (fun x => exists z, x = Num z /\ 0 <= z) xs).
  { apply Forall_forall. intros x Hx.
    apply list_elem_of_fmap in Hx as ([c cnt] & -> & Hin).
    destruct (Hseen c (Hch _ _ Hin)) as (z & -> & Hz & _). simpl.
    pose proof (span_pos cnt). eexists; split; [reflexivity | lia]. }
  destruct (fold_num_max_Num xs 0) as (r & Hr & Hr0).
  { eapply Forall_impl; [exact Hxs|]. intros x (z & -> & _). eauto. }
  fold (math_max0 xs) in Hr.
  exists (Z.max M r). simpl. fold xs. rewrite Hr. simpl.
  split; [reflexivity|]. split; [lia|].
  intros n Hn. destruct (decide (n = node)) as [->|Hne].
  - exists r. rewrite lookup_insert_eq. split; [reflexivity|]. split; [lia|].
    intros Hleaf. subst xs. rewrite Hleaf in Hr. simpl in Hr.
    injection Hr as <-. reflexivity.
  - apply elem_of_app in Hn as [Hn|Hn].
    + destruct (Hseen n Hn) as (z & Hz & Hb & Hl). exists z.
      rewrite lookup_insert_ne by congruence. split; [exact Hz|]. split; [lia | exact Hl].
    + apply list_elem_of_singleton in Hn. congruence.
Qed.

Lemma bottom_up_ok dag value order :
  (forall pre node suf child count, order = pre ++ node :: suf ->
     (child, count) ∈ Dag.children dag node -> child ∈ pre) ->
  LongestPath.heights_ok dag order (fold_left (LongestPath.visit_up dag) order (value, Num 0)).
Proof.
  induction order as [|node order IH] using rev_ind; intros Hpost.
  - simpl. exists 0. split; [reflexivity|]. split; [lia|]. intros n Hn. inversion Hn.
  - rewrite fold_left_app. simpl. apply visit_up_ok.
    + apply IH. intros pre n suf c cnt Heq.
      apply (Hpost pre n (suf ++ [node])). rewrite Heq, <- app_assoc. reflexivity.
    + intros c cnt. apply (Hpost order node []). reflexivity.
Qed.

Lemma flip_all mh : forall k a value i,
  fold_left (LongestPath.flip mh) (seq a k) value !! i =
  if decide (a <= i < a + k)%nat then Some (num_sub mh (value !! i)) else value !! i.
Proof.
  induction k as [|k IH]; intros a value i; simpl.
  - case_decide; [lia | reflexivity].
  - rewrite IH. unfold LongestPath.flip.
    destruct (decide (a = i)) as [->|Hne].
    + rewrite lookup_insert_eq. repeat case_decide; try lia; reflexivity.
    + rewrite lookup_insert_ne by exact Hne. repeat case_decide; try lia; reflexivity.
Qed.

End LongestPathFacts.

(** ** Optimal decrossing: the size check *)
Section OptFacts.
Variable solveAndSort : OptModel.Model -> Opt.Layers -> Opt.Layers.

Local Abbreviation optCall := (OptModel.optCall solveAndSort).

Lemma pair_term_max (k : nat) :
  Z.of_nat k * Z.max (Z.of_nat k - 1) 0 / 2 = Z.of_nat k * (Z.of_nat k - 1) / 2.
Proof.
  destruct k as [|k].
  - reflexivity.
  - rewrite Z.max_l by lia. reflexivity.
Qed.

(** The division by two in [numVars] is exact. *)
Lemma pair_term_exact (k : nat) :
  2 * (Z.of_nat k * Z.max (Z.of_nat k - 1) 0 / 2) = Z.of_nat k * Z.max (Z.of_nat k - 1) 0.
Proof.
  rewrite pair_term_max.
  destruct k as [|k]; [reflexivity|].
  rewrite Z.max_l by lia.
  replace (Z.of_nat (S k) - 1) with (Z.of_nat k) by lia.
  induction k as [|k IH]; [reflexivity|].
  replace (Z.of_nat (S (S k)) * Z.of_nat (S k))
    with (Z.of_nat (S k) * Z.of_nat k + Z.of_nat (S k) * 2) by lia.
  rewrite Z.div_add by lia. lia.
Qed.

Lemma numVars_from (layers : Opt.Layers) : forall t,
  fold_left
    (fun t l => t + (Z.of_nat (length l) * Z.max (Z.of_nat (length l) - 1) 0) / 2)
    layers t = t + Opt.pair_vars layers.
Proof.
  induction layers as [|l layers IH]; intros t; simpl.
  - lia.
  - rewrite IH, pair_term_max. lia.
Qed.

(** [numVars] is the number of pairwise ordering variables. *)
Lemma numVars_pair_vars (layers : Opt.Layers) :
  Opt.numVars layers = Opt.pair_vars layers.
Proof. unfold Opt.numVars. rewrite numVars_from. lia. Qed.

(** What comes after the size check raises no size error. *)
Lemma solveLayers_no_size_error layers :
  ~ Opt.size_error (OptModel.solveLayers solveAndSort layers).
Proof.
  unfold OptModel.solveLayers, Opt.size_error.
  destruct (OptModel.model layers); intros [H|H]; discriminate H.
Qed.

Lemma optCall_checked options layers :
  optCall options layers
  = match Opt.checkLarge options layers with
    | Ok _ => OptModel.solveLayers solveAndSort layers
    | Throw e => Throw e
    end.
Proof. unfold OptModel.optCall. destruct (Opt.checkLarge options layers); reflexivity. Qed.

(** C3, as the code has it: under "small" the operator raises its size
    error exactly when there are more than 400 ordering variables or more
    than 100 edges, under "medium" exactly when there are more than 1200
    ordering variables, and never under "large".  Whatever else it raises
    comes from building the integer program, after the check has passed:
    it throws exactly when the check raises its size error or the model
    cannot be built. *)
Theorem opt_size_gate (layers : Opt.Layers) :
  (Opt.size_error (optCall {| Options.large := Options.Small |} layers) <->
     400 < Opt.pair_vars layers \/ 100 < Opt.numEdges layers) /\
  (Opt.size_error (optCall {| Options.large := Options.Medium |} layers) <->
     1200 < Opt.pair_vars layers) /\
  (~ Opt.size_error (optCall {| Options.large := Options.Large |} layers)) /\
  (forall options,
     throws (optCall options layers) <->
     Opt.size_error (optCall options layers) \/
     (Opt.checkLarge options layers = Ok tt /\
      forall model, OptModel.model layers <> OptModel.Done model)).
Proof.
  pose proof (solveLayers_no_size_error layers) as Hafter.
  split; [|split; [|split]].
  - rewrite optCall_checked. unfold Opt.checkLarge. simpl.
    rewrite ?numVars_pair_vars.
    destruct (1200 <? Opt.pair_vars layers) eqn:E1; simpl.
    + apply Z.ltb_lt in E1. split; [intros _; left; lia | intros _; left; reflexivity].
    + destruct (400 <? Opt.pair_vars layers) eqn:E2; simpl.
      * apply Z.ltb_lt in E2. split; [intros _; left; exact E2 | intros _; right; reflexivity].
      * destruct (100 <? Opt.numEdges layers) eqn:E3; simpl.
        -- apply Z.ltb_lt in E3.
           split; [intros _; right; exact E3 | intros _; right; reflexivity].
        -- apply Z.ltb_ge in E2. apply Z.ltb_ge in E3.
           split; [intros H; contradiction | lia].
  - rewrite optCall_checked. unfold Opt.checkLarge. simpl.
    rewrite ?numVars_pair_vars.
    destruct (1200 <? Opt.pair_vars layers) eqn:E1; simpl.
    + apply Z.ltb_lt in E1. split; [intros _; exact E1 | intros _; left; reflexivity].
    + apply Z.ltb_ge in E1. split; [intros H; contradiction | lia].
  - rewrite optCall_checked. unfold Opt.checkLarge. simpl. exact Hafter.
  - intros options. rewrite optCall_checked.
    destruct (Opt.checkLarge options layers) as [[]|e] eqn:Echeck.
    + unfold OptModel.solveLayers, throws, Opt.size_error.
      destruct (OptModel.model layers) as [m| |name]; split.
      * intros [e He]. discriminate He.
      * intros [[H|H]|[_ H]]; [discriminate H | discriminate H | destruct (H m eq_refl)].
      * intros _. right. split; [reflexivity | discriminate].
      * intros _. eexists. reflexivity.
      * intros _. right. split; [reflexivity | discriminate].
      * intros _. eexists. reflexivity.
    + split.
      * intros _. left. unfold Opt.checkLarge in Echeck.
        destruct (_ && _) in Echeck; [injection Echeck as <-; left; reflexivity|].
        destruct (_ && _) in Echeck; [injection Echeck as <-; right; reflexivity|].
        discriminate Echeck.
      * intros _. exists e. reflexivity.
Qed.

End OptFacts.

(** C3 as stated fails: under "small" the operator raises its size error
    on [Examples.dense_layers], which has only 100 ordering variables. *)
Lemma opt_small_gate_counterexample :
  ~ (Opt.size_error (OptModel.optCall (fun _ l => l) {| Options.large := Options.Small |}
                       Examples.dense_layers)
     <-> 400 < Opt.pair_vars Examples.dense_layers).
Proof.
  intros [H _].
  assert (Hle : Opt.pair_vars Examples.dense_layers = 100) by (vm_compute; reflexivity).
  rewrite Hle in H. enough (400 < 100) by lia. apply H.
  right. vm_compute. reflexivity.
Qed.

(** ** Simplex layering *)
Section SimplexFacts.
Context {N : Type}.
Implicit Types (vars : gmap string (gmap string Z)) (m : Simplex.Model).

Lemma string_length_app (s1 s2 : string) :
  String.length (s1 +:+ s2) = (String.length s1 + String.length s2)%nat.
Proof. induction s1 as [|c s1 IH]; simpl; [reflexivity | rewrite IH; reflexivity]. Qed.

(** A constraint name is never the objective key. *)
Lemma constraint_name_not_opt (prefix a b : string) :
  prefix +:+ ": " +:+ a +:+ " -> " +:+ b <> "opt".
Proof.
  intros H. apply (f_equal String.length) in H.
  rewrite !string_length_app in H. simpl in H. lia.
Qed.

Section Objective.
Variable x : string -> Z.

Local Abbreviation obj vars := (Simplex.objective "opt" vars x).

Lemma objective_delete vars k v :
  vars !! k = Some v ->
  obj vars = obj (delete k vars) + default 0 (v !! "opt") * x k.
Proof.
  intros Hk. unfold Simplex.objective.
  rewrite (map_fold_delete_L _ _ k v vars); [reflexivity | | exact Hk].
  intros. lia.
Qed.

Lemma objective_insert_fresh vars k v :
  vars !! k = None ->
  obj (<[k := v]> vars) = obj vars + default 0 (v !! "opt") * x k.
Proof.
  intros Hk. unfold Simplex.objective.
  rewrite map_fold_insert_L; [reflexivity | | exact Hk].
  intros. lia.
Qed.

Lemma objective_alter vars k v (f : gmap string Z -> gmap string Z) :
  vars !! k = Some v ->
  obj (alter f k vars) =
  obj vars - default 0 (v !! "opt") * x k + default 0 (f v !! "opt") * x k.
Proof.
  intros Hk.
  rewrite (objective_delete (alter f k vars) k (f v)).
  - rewrite delete_alter_eq, (objective_delete vars k v Hk). lia.
  - rewrite lookup_alter_eq, Hk. reflexivity.
Qed.

Lemma opt_coeff_alter vars k f i :
  Simplex.opt_coeff (alter f k vars) i =
  if decide (k = Simplex.n i)
  then default 0 ((f <$> vars !! k) ≫= (.!! "opt"))
  else Simplex.opt_coeff vars i.
Proof.
  unfold Simplex.opt_coeff. case_decide as E.
  - subst k. rewrite lookup_alter_eq. reflexivity.
  - rewrite lookup_alter_ne by exact E. reflexivity.
Qed.

Lemma same_objective_refl m : Simplex.same_objective x m m.
Proof. repeat split; auto. Qed.

Lemma same_objective_trans m1 m2 m3 :
  Simplex.same_objective x m1 m2 -> Simplex.same_objective x m2 m3 ->
  Simplex.same_objective x m1 m3.
Proof.
  intros (H1 & H2 & H3) (K1 & K2 & K3). repeat split.
  - congruence.
  - intros i. rewrite K2. apply H2.
  - auto.
Qed.

(** Changing coefficients other than ["opt"] in one variable. *)
Lemma alter_same_objective m k (f : gmap string Z -> gmap string Z) :
  (forall v, f v !! "opt" = v !! "opt") ->
  Simplex.same_objective x m
    {| Simplex.constraints := Simplex.constraints m;
       Simplex.variables := alter f k (Simplex.variables m);
       Simplex.ints := Simplex.ints m |}.
Proof.
  intros Hf. repeat split; simpl.
  - destruct (Simplex.variables m !! k) as [v|] eqn:Hk.
    + rewrite (objective_alter _ _ v f Hk), Hf. lia.
    + rewrite alter_id' by exact Hk. reflexivity.
  - intros i. rewrite opt_coeff_alter. case_decide as E; [|reflexivity].
    subst k. unfold Simplex.opt_coeff.
    destruct (Simplex.variables m !! Simplex.n i) as [v|]; simpl; [|reflexivity].
    rewrite Hf. reflexivity.
  - intros k' Hk'. apply lookup_alter_is_Some. exact Hk'.
Qed.

Lemma before_same_objective prefix first second diff m :
  Simplex.same_objective x m (Simplex.before prefix first second diff m).
Proof.
  unfold Simplex.before.
  set (cons := prefix +:+ ": " +:+ Simplex.n first +:+ " -> " +:+ Simplex.n second).
  assert (Hc : cons <> "opt") by apply constraint_name_not_opt.
  eapply same_objective_trans.
  - apply (alter_same_objective m (Simplex.n first) (fun fvar => <[cons := -1]> fvar)).
    intros v. apply lookup_insert_ne. exact Hc.
  - pose proof (alter_same_objective
      {| Simplex.constraints := Simplex.constraints m;
         Simplex.variables := alter (fun fvar => <[cons := -1]> fvar) (Simplex.n first)
                                (Simplex.variables m);
         Simplex.ints := Simplex.ints m |}
      (Simplex.n second) (fun svar => <[cons := 1]> svar)) as H.
    simpl in H. destruct H as (H1 & H2 & H3).
    { intros v. apply lookup_insert_ne. exact Hc. }
    repeat split; simpl; assumption.
Qed.

Lemma equal_same_objective prefix first second m :
  Simplex.same_objective x m (Simplex.equal prefix first second m).
Proof.
  unfold Simplex.equal.
  eapply same_objective_trans; apply before_same_objective.
Qed.

Lemma fold_same_objective {A : Type} (step : Simplex.Model -> A -> Simplex.Model) (l : list A) :
  (forall m a, Simplex.same_objective x m (step m a)) ->
  forall m, Simplex.same_objective x m (fold_left step l m).
Proof.
  intros Hstep. induction l as [|a l IH]; intros m; simpl.
  - apply same_objective_refl.
  - eapply same_objective_trans; [apply Hstep | apply IH].
Qed.

Lemma add_rank_same_objective m p : Simplex.same_objective x m (Simplex.add_rank m p).
Proof.
  destruct p as [[frank fnode] [srank snode]]. simpl.
  destruct (negb (Qle_bool srank frank)).
  - apply before_same_objective.
  - apply equal_same_objective.
Qed.

Lemma add_group_same_objective m g : Simplex.same_objective x m (Simplex.add_group m g).
Proof.
  unfold Simplex.add_group. apply fold_same_objective.
  intros m' [first second]. apply equal_same_objective.
Qed.

(** [variable(node).opt += d] on an existing variable. *)
Lemma add_opt_spec node d m :
  is_Some (Simplex.variables m !! Simplex.n node) ->
  obj (Simplex.variables (Simplex.add_opt node d m))
    = obj (Simplex.variables m) + d * x (Simplex.n node) /\
  (forall i, Simplex.opt_coeff (Simplex.variables (Simplex.add_opt node d m)) i
             = Simplex.opt_coeff (Simplex.variables m) i
               + (if decide (node = i) then d else 0)) /\
  (forall k, is_Some (Simplex.variables m !! k) ->
             is_Some (Simplex.variables (Simplex.add_opt node d m) !! k)).
Proof.
  intros [v Hv]. unfold Simplex.add_opt. simpl. repeat split.
  - rewrite (objective_alter _ _ v _ Hv), lookup_insert_eq. simpl. lia.
  - intros i. rewrite opt_coeff_alter. case_decide as E.
    + apply (inj Simplex.n) in E. subst i. rewrite decide_True by reflexivity.
      unfold Simplex.opt_coeff. rewrite Hv. simpl. rewrite lookup_insert_eq. reflexivity.
    + rewrite decide_False; [lia|]. intros ->. apply E. reflexivity.
  - intros k Hk. apply lookup_alter_is_Some. exact Hk.
Qed.

(** The sum the objective changes by when the links [ls] are added. *)
Lemma add_link_spec m node child count :
  is_Some (Simplex.variables m !! Simplex.n node) ->
  is_Some (Simplex.variables m !! Simplex.n child) ->
  let m' := Simplex.add_link m (node, child, count) in
  obj (Simplex.variables m')
    = obj (Simplex.variables m) - (x (Simplex.n child) - x (Simplex.n node)) * count /\
  (forall i, Simplex.opt_coeff (Simplex.variables m') i
             = Simplex.opt_coeff (Simplex.variables m) i
               + ((if decide (node = i) then count else 0)
                  - (if decide (child = i) then count else 0))) /\
  (forall k, is_Some (Simplex.variables m !! k) -> is_Some (Simplex.variables m' !! k)).
Proof.
  intros Hn Hc m'. subst m'. unfold Simplex.add_link.
  set (m1 := Simplex.before "link" node child (if 1 <? count then 2 else 1) m).
  destruct (before_same_objective "link" node child (if 1 <? count then 2 else 1) m)
    as (B1 & B2 & B3). fold m1 in B1, B2, B3.
  destruct (add_opt_spec node count m1 (B3 _ Hn)) as (P1 & P2 & P3).
  destruct (add_opt_spec child (- count) (Simplex.add_opt node count m1) (P3 _ (B3 _ Hc)))
    as (Q1 & Q2 & Q3).
  repeat split.
  - rewrite Q1, P1, B1. lia.
  - intros i. rewrite Q2, P2, B2. destruct (decide (child = i)); lia.
  - intros k Hk. auto.
Qed.

Lemma out_minus_in_cons node child count ls i :
  Simplex.out_minus_in ((node, child, count) :: ls) i =
  (if decide (node = i) then count else 0) - (if decide (child = i) then count else 0)
  + Simplex.out_minus_in ls i.
Proof. reflexivity. Qed.

Lemma add_links_spec (len : nat) ls : forall m,
  (forall j, (j < len)%nat -> is_Some (Simplex.variables m !! Simplex.n j)) ->
  (forall node child count, (node, child, count) ∈ ls -> (node < len)%nat /\ (child < len)%nat) ->
  obj (Simplex.variables (fold_left Simplex.add_link ls m))
    = obj (Simplex.variables m)
      - foldr (fun '(node, child, count) acc =>
                 (x (Simplex.n child) - x (Simplex.n node)) * count + acc) 0 ls /\
  (forall i, Simplex.opt_coeff (Simplex.variables (fold_left Simplex.add_link ls m)) i
             = Simplex.opt_coeff (Simplex.variables m) i + Simplex.out_minus_in ls i) /\
  (forall j, (j < len)%nat ->
             is_Some (Simplex.variables (fold_left Simplex.add_link ls m) !! Simplex.n j)).
Proof.
  induction ls as [|[[node child] count] ls IH]; intros m Hkeys Hin.
  - simpl. repeat split; [lia | intros; unfold Simplex.out_minus_in; simpl; lia | exact Hkeys].
  - destruct (Hin node child count) as [Hn Hc]; [left|].
    destruct (add_link_spec m node child count (Hkeys _ Hn) (Hkeys _ Hc)) as (A1 & A2 & A3).
    destruct (IH (Simplex.add_link m (node, child, count))) as (I1 & I2 & I3).
    + intros j Hj. apply A3, Hkeys, Hj.
    + intros a b c Hl. apply (Hin a b c). right. exact Hl.
    + cbn [fold_left foldr]. repeat split.
      * rewrite I1, A1. lia.
      * intros i. rewrite I2, A2, out_minus_in_cons. lia.
      * exact I3.
Qed.

Lemma add_nodes_fresh (options : Options.Simplex N) (dag : list (Dag.DagNode N)) :
  forall st i,
    Simplex.fresh_variables x st i ->
    Simplex.fresh_variables x (Simplex.add_nodes options st i dag) (i + length dag).
Proof.
  induction dag as [|node dag IH]; intros st i Hst; simpl.
  - rewrite Nat.add_0_r. exact Hst.
  - replace (i + S (length dag))%nat with (S i + length dag)%nat by lia.
    apply IH. destruct Hst as (H1 & H2 & H3).
    assert (Hfresh : Simplex.variables (Simplex.model st) !! Simplex.n i = None).
    { destruct (Simplex.variables (Simplex.model st) !! Simplex.n i) as [v|] eqn:E;
        [|reflexivity].
      destruct (H1 _ _ E) as (j & Hj & Heq & _).
      apply (inj Simplex.n) in Heq. lia. }
    unfold Simplex.fresh_variables, Simplex.add_node. simpl. repeat split.
    + intros k v Hk. destruct (decide (Simplex.n i = k)) as [<-|Hne].
      * rewrite lookup_insert_eq in Hk. injection Hk as <-.
        exists i. split; [lia|]. split; [reflexivity|]. apply lookup_singleton_eq.
      * rewrite lookup_insert_ne in Hk by exact Hne.
        destruct (H1 _ _ Hk) as (j & Hj & Heq & Hv). exists j.
        split; [lia|]. split; assumption.
    + intros j Hj. destruct (decide (j = i)) as [->|Hne].
      * rewrite lookup_insert_eq. eauto.
      * rewrite lookup_insert_ne; [apply H2; lia|].
        intros Heq. apply (inj Simplex.n) in Heq. congruence.
    + rewrite (objective_insert_fresh _ _ _ Hfresh), H3, lookup_singleton_eq. simpl. lia.
Qed.

Lemma fresh_variables_coeff st i j :
  Simplex.fresh_variables x st i ->
  Simplex.opt_coeff (Simplex.variables (Simplex.model st)) j = 0.
Proof.
  intros (H1 & _ & _). unfold Simplex.opt_coeff.
  destruct (Simplex.variables (Simplex.model st) !! Simplex.n j) as [v|] eqn:E;
    [|reflexivity].
  destruct (H1 _ _ E) as (_ & _ & _ & Hv). simpl. rewrite Hv. reflexivity.
Qed.

End Objective.

Lemma total_span_links (dag : Dag.Dag N) (x : string -> Z) :
  Simplex.total_span dag (fun i => x (Simplex.n i)) =
  foldr (fun '(node, child, count) acc =>
           (x (Simplex.n child) - x (Simplex.n node)) * count + acc) 0 (Dag.links dag).
Proof. reflexivity. Qed.

Lemma links_in_range (dag : Dag.Dag N) node child count :
  Dag.wf dag -> (node, child, count) ∈ Dag.links dag ->
  (node < length dag)%nat /\ (child < length dag)%nat.
Proof.
  intros Hwf Hin. apply elem_of_links in Hin. split.
  - unfold Dag.children in Hin. destruct (dag !! node) eqn:E.
    + eapply lookup_lt_Some. exact E.
    + inversion Hin.
  - eapply Hwf. exact Hin.
Qed.

(** C4: each node's objective coefficient is the sum of the counts of
    its outgoing links minus the sum of the counts of its incoming links,
    and the objective handed to the solver is, at every assignment, the
    negation of the total weighted edge span; so a larger objective is a
    smaller total span. *)
Theorem simplex_objective_is_negated_span
    (options : Options.Simplex N) (dag : Dag.Dag N) (x : string -> Z) :
  Dag.wf dag ->
  let vars := Simplex.variables (Simplex.model (Simplex.program options dag)) in
  let layer := fun i => x (Simplex.n i) in
  (forall i, (i < length dag)%nat ->
     Simplex.opt_coeff vars i = Simplex.out_minus_in (Dag.links dag) i) /\
  Simplex.objective "opt" vars x = - Simplex.total_span dag layer /\
  (forall y, Simplex.objective "opt" vars x <= Simplex.objective "opt" vars y <->
             Simplex.total_span dag (fun i => y (Simplex.n i)) <= Simplex.total_span dag layer).
Proof.
  intros Hwf vars layer.
  assert (Hmain : forall z : string -> Z,
    (forall i, Simplex.opt_coeff vars i = Simplex.out_minus_in (Dag.links dag) i) /\
    Simplex.objective "opt" vars z = - Simplex.total_span dag (fun i => z (Simplex.n i))).
  { intros z. subst vars. unfold Simplex.program. simpl.
    set (st0 := {| Simplex.model := {| Simplex.variables := ∅; Simplex.constraints := ∅;
                                        Simplex.ints := ∅ |};
                   Simplex.ranks := []; Simplex.groups := [] |}).
    set (st := Simplex.add_nodes options st0 0 dag).
    assert (Hst : Simplex.fresh_variables z st (length dag)).
    { apply (add_nodes_fresh z options dag st0 0%nat).
      unfold Simplex.fresh_variables, st0. simpl. repeat split.
      - intros k v Hk. rewrite lookup_empty in Hk. discriminate.
      - intros j Hj. lia. }
    destruct (add_links_spec z (length dag) (Dag.links dag) (Simplex.model st))
      as (L1 & L2 & L3).
    { apply Hst. }
    { intros a b c Hl. eapply links_in_range; eassumption. }
    set (m1 := fold_left Simplex.add_link (Dag.links dag) (Simplex.model st)) in *.
    pose proof (fold_same_objective z Simplex.add_rank
                  (bigrams (Simplex.sort_ranks (Simplex.ranks st)))
                  (add_rank_same_objective z) m1) as (R1 & R2 & _).
    set (m2 := fold_left Simplex.add_rank _ m1) in *.
    pose proof (fold_same_objective z Simplex.add_group (Simplex.groups st)
                  (add_group_same_objective z) m2) as (G1 & G2 & _).
    split.
    - intros i. rewrite G2, R2, L2, (fresh_variables_coeff z st (length dag) i Hst). lia.
    - rewrite G1, R1, L1, total_span_links.
      destruct Hst as (_ & _ & ->). lia. }
  split; [|split].
  - intros i _. apply (Hmain x).
  - apply (Hmain x).
  - intros y. destruct (Hmain x) as [_ ->]. destruct (Hmain y) as [_ ->]. fold layer. lia.
Qed.

End SimplexFacts.

(** ** Simplex layering: the failure branch *)
Section SimplexFailure.
Context {N : Type}.
Variable solve : string -> string -> gmap string (gmap string Z) ->
                 gmap string Simplex.Constraint -> gmap string Z -> res (gmap string Z).

Local Abbreviation simplexCall := (Simplex.simplexCall solve).

(** What the solver is called on. *)
Local Abbreviation solved options dag :=
  (let m := Simplex.model (Simplex.program options dag) in
   solve "opt" "max" (Simplex.variables m) (Simplex.constraints m) (Simplex.ints m)).

Lemma groups_push_not_nil groups g node : Simplex.groups_push groups g node <> [].
Proof.
  destruct groups as [|[k existing] rest]; simpl; [discriminate|].
  destruct (String.eqb k g); discriminate.
Qed.

Lemma add_nodes_ranks (options : Options.Simplex N) (dag : list (Dag.DagNode N)) :
  forall st i,
    Simplex.ranks (Simplex.add_nodes options st i dag) = [] <->
    Simplex.ranks st = [] /\ forall node, node ∈ dag -> Options.rank options node = None.
Proof.
  induction dag as [|node dag IH]; intros st i; simpl.
  - split; [intros H; split; [exact H | intros node Hn; inversion Hn] | tauto].
  - rewrite IH. unfold Simplex.add_node. simpl. split.
    + intros [Hr Hall]. destruct (Options.rank options node) as [r|] eqn:E.
      * destruct (Simplex.ranks st); discriminate.
      * split; [exact Hr|]. intros n' Hn'.
        apply elem_of_cons in Hn' as [->|Hn']; [exact E | apply Hall, Hn'].
    + intros [Hr Hall]. rewrite (Hall node) by left. split; [exact Hr|].
      intros n' Hn'. apply Hall. right. exact Hn'.
Qed.

Lemma add_nodes_groups (options : Options.Simplex N) (dag : list (Dag.DagNode N)) :
  forall st i,
    Simplex.groups (Simplex.add_nodes options st i dag) = [] <->
    Simplex.groups st = [] /\ forall node, node ∈ dag -> Options.group options node = None.
Proof.
  induction dag as [|node dag IH]; intros st i; simpl.
  - split; [intros H; split; [exact H | intros node Hn; inversion Hn] | tauto].
  - rewrite IH. unfold Simplex.add_node. simpl. split.
    + intros [Hg Hall]. destruct (Options.group options node) as [g|] eqn:E.
      * exfalso. exact (groups_push_not_nil _ _ _ Hg).
      * split; [exact Hg|]. intros n' Hn'.
        apply elem_of_cons in Hn' as [->|Hn']; [exact E | apply Hall, Hn'].
    + intros [Hg Hall]. rewrite (Hall node) by left. split; [exact Hg|].
      intros n' Hn'. apply Hall. right. exact Hn'.
Qed.

(** [ranks.length || groups.size] is truthy exactly when some node has a
    rank or a group. *)
Lemma has_constraints_iff (options : Options.Simplex N) (dag : Dag.Dag N) :
  let st := Simplex.program options dag in
  negb (length (Simplex.ranks st) =? 0)%nat || negb (length (Simplex.groups st) =? 0)%nat = true
  <-> Simplex.constrained options dag.
Proof.
  simpl.
  set (st0 := {| Simplex.model := _; Simplex.ranks := []; Simplex.groups := [] |}).
  pose proof (add_nodes_ranks options dag st0 0%nat) as Hr.
  pose proof (add_nodes_groups options dag st0 0%nat) as Hg.
  unfold Simplex.constrained. split.
  - intros H. apply orb_true_iff in H as [H|H]; apply negb_true_iff, Nat.eqb_neq in H.
    + destruct (decide (Forall (fun node => Options.rank options node = None) dag))
        as [Hall|Hex].
      * exfalso. apply H. apply length_zero_iff_nil, Hr. split; [reflexivity|].
        intros node Hn. eapply Forall_forall in Hall; eassumption.
      * apply not_Forall_Exists in Hex; [|intros node; apply _].
        apply Exists_exists in Hex as (node & Hin & Hnode).
        apply list_elem_of_lookup in Hin as [i Hi]. exists i, node. split; [exact Hi|].
        left. exact Hnode.
    + destruct (decide (Forall (fun node => Options.group options node = None) dag))
        as [Hall|Hex].
      * exfalso. apply H. apply length_zero_iff_nil, Hg. split; [reflexivity|].
        intros node Hn. eapply Forall_forall in Hall; eassumption.
      * apply not_Forall_Exists in Hex; [|intros node; apply _].
        apply Exists_exists in Hex as (node & Hin & Hnode).
        apply list_elem_of_lookup in Hin as [i Hi]. exists i, node. split; [exact Hi|].
        right. exact Hnode.
  - intros (i & node & Hi & Hc). apply orb_true_iff.
    assert (Hin : node ∈ dag) by (apply list_elem_of_lookup; eauto).
    destruct Hc as [Hc|Hc]; [left|right]; apply negb_true_iff, Nat.eqb_neq;
      intros Hlen; apply length_zero_iff_nil in Hlen; apply Hc.
    + apply Hr in Hlen as [_ Hall]. apply Hall, Hin.
    + apply Hg in Hlen as [_ Hall]. apply Hall, Hin.
Qed.

(** C5: when the solver fails and some node has a rank or a group the
    operator raises the ill-defined-constraints error (without any rank or
    group the failure is the internal assertion error instead); the
    ill-defined-constraints error is raised only on a solver failure with
    a rank or a group present, so never with the default accessors; and
    after a successful solve every node the solver left unassigned has
    layer 0. *)
Theorem simplex_failure_branch (options : Options.Simplex N) (dag : Dag.Dag N) :
  (throws (solved options dag) -> Simplex.constrained options dag ->
   simplexCall options dag = Throw IllDefinedConstraints) /\
  (throws (solved options dag) -> ~ Simplex.constrained options dag ->
   simplexCall options dag = Throw AssertionFailed) /\
  (simplexCall options dag = Throw IllDefinedConstraints ->
   throws (solved options dag) /\ Simplex.constrained options dag) /\
  (simplexCall {| Options.rank := Simplex.defaultAccessor;
                  Options.group := Simplex.defaultAccessor |} dag
   <> Throw IllDefinedConstraints) /\
  (forall assignment, solved options dag = Ok assignment ->
   exists layers,
     simplexCall options dag = Ok layers /\ length layers = length dag /\
     forall i, (i < length dag)%nat ->
       layers !! i = Some (default 0 (assignment !! Simplex.n i))).
Proof.
  assert (Hthrow : forall opts,
    simplexCall opts dag = Throw IllDefinedConstraints ->
    throws (solved opts dag) /\ Simplex.constrained opts dag).
  { intros opts H. unfold Simplex.simplexCall in H.
    destruct (solve _ _ _ _ _) as [a|e] eqn:E; [discriminate|].
    split; [exists e; reflexivity|].
    apply has_constraints_iff.
    destruct (negb _ || negb _); [reflexivity | discriminate]. }
  split; [|split; [|split; [|split]]].
  - intros [e He] Hc. unfold Simplex.simplexCall. cbv zeta in *. rewrite He.
    apply has_constraints_iff in Hc. cbv zeta in Hc. rewrite Hc. reflexivity.
  - intros [e He] Hc. unfold Simplex.simplexCall. cbv zeta in *. rewrite He.
    destruct (negb _ || negb _) eqn:E; [|reflexivity].
    exfalso. apply Hc. apply has_constraints_iff. exact E.
  - apply Hthrow.
  - intros H. apply Hthrow in H as [_ (i & node & _ & [Hc|Hc])]; apply Hc; reflexivity.
  - intros assignment Hs. unfold Simplex.simplexCall. cbv zeta in *. rewrite Hs.
    eexists. split; [reflexivity|]. split; [apply length_imap|].
    intros i Hi. rewrite list_lookup_imap.
    destruct (lookup_lt_is_Some_2 dag i Hi) as [node ->]. reflexivity.
Qed.

End SimplexFailure.

(** ** Operator objects: what a setter does to the store *)
Section StoreFacts.
Context {N L : Type}.
Implicit Types (h : Store.store N L) (o : Options.Object N L).

Lemma alloc_new h o : (h ++ [o]) !! length h = Some o.
Proof. apply list_lookup_middle. reflexivity. Qed.

Lemma alloc_old h o (r : ref) o' : h !! r = Some o' -> (h ++ [o]) !! r = Some o'.
Proof. intros H. rewrite lookup_app_l; [exact H | eapply lookup_lt_Some; exact H]. Qed.

Lemma alloc_fresh h o' (r : ref) : h !! r = Some o' -> r <> length h.
Proof. intros H. apply lookup_lt_Some in H. lia. Qed.

End StoreFacts.

Ltac store_step :=
  unfold Store.bind, Store.ret, Store.deref, Store.alloc, Store.throw, Store.lift; simpl.

(** ** The quadratic coordinate operator: curve weights *)
Section QuadFacts.
Context {N L : Type}.
Implicit Types (h : Store.store N L).

Lemma negative_false (a : Q) : (0 <= a)%Q -> Quad.negative a = false.
Proof.
  intros H. unfold Quad.negative. apply negb_false_iff, Qle_bool_iff. exact H.
Qed.

(** C7: on non-negative [a] and [b], [curve([a, b])] builds an operator
    whose [nodeCurve] is the constant accessor [a] and whose [linkCurve]
    is the constant accessor [b], and [curve()] on that operator returns
    [[a, b]]. *)
Theorem quad_curve_round_trip h (self : ref) (opts : Options.Quad N L) (a b : Q) :
  h !! self = Some (Options.QuadOp opts) ->
  (0 <= a)%Q -> (0 <= b)%Q ->
  exists op h',
    Quad.curve self (Some (a, b)) h = Ok (Built op, h') /\
    (exists nc, Quad.nodeCurve op None h' = Ok (Got nc, h') /\
                Options.value nc = Some a /\ forall node, Options.call nc node = a) /\
    (exists lc, Quad.linkCurve op None h' = Ok (Got lc, h') /\
                Options.value lc = Some b /\ forall link, Options.call lc link = b) /\
    Quad.curve op None h' = Ok (Got (Some (a, b)), h').
Proof.
  intros Hself Ha Hb.
  eexists (length h), _. split.
  - unfold Quad.curve, Quad.options_of, Quad.buildOperator, Quad.createConstAccessor.
    store_step. rewrite Hself. simpl.
    rewrite (negative_false a Ha), (negative_false b Hb). simpl. reflexivity.
  - split; [|split].
    + eexists. unfold Quad.nodeCurve, Quad.options_of. store_step.
      rewrite alloc_new. simpl. split; [reflexivity|]. split; reflexivity.
    + eexists. unfold Quad.linkCurve, Quad.options_of. store_step.
      rewrite alloc_new. simpl. split; [reflexivity|]. split; reflexivity.
    + unfold Quad.curve, Quad.options_of. store_step.
      rewrite alloc_new. simpl. reflexivity.
Qed.

End QuadFacts.

(** ** Setters build independent operators *)
Section SetterFacts.
Context {N L : Type}.
Implicit Types (h : Store.store N L).

Local Abbreviation M := (Store.M N L).

Lemma preserves_refl h : Store.preserves h h.
Proof. intros r o H. exact H. Qed.

Lemma preserves_trans h1 h2 h3 :
  Store.preserves h1 h2 -> Store.preserves h2 h3 -> Store.preserves h1 h3.
Proof. intros H1 H2 r o H. apply H2, H1, H. Qed.

Lemma only_allocates_ret {A : Type} (a : A) : Store.only_allocates (Store.ret a : M A).
Proof. intros h a' h' [= _ <-]. apply preserves_refl. Qed.

Lemma only_allocates_throw {A : Type} e : Store.only_allocates (Store.throw e : M A).
Proof. intros h a h' H. discriminate. Qed.

Lemma only_allocates_lift {A : Type} (r : res A) : Store.only_allocates (Store.lift r : M A).
Proof.
  intros h a h' H. unfold Store.lift in H. destruct r; [|discriminate].
  injection H as _ <-. apply preserves_refl.
Qed.

Lemma only_allocates_alloc o : Store.only_allocates (Store.alloc o : M ref).
Proof. intros h a h' [= _ <-] r o' H. apply alloc_old, H. Qed.

Lemma only_allocates_deref r : Store.only_allocates (Store.deref r : M _).
Proof.
  intros h a h' H. unfold Store.deref in H. destruct (h !! r); [|discriminate].
  injection H as _ <-. apply preserves_refl.
Qed.

Lemma only_allocates_bind {A B : Type} (m : M A) (k : A -> M B) :
  Store.only_allocates m -> (forall a, Store.only_allocates (k a)) ->
  Store.only_allocates (Store.bind m k).
Proof.
  intros Hm Hk h b h' H. unfold Store.bind in H.
  destruct (m h) as [[a h1]|e] eqn:E; [|discriminate].
  eapply preserves_trans; [eapply Hm, E | eapply Hk, H].
Qed.

End SetterFacts.

Ltac only_allocates :=
  repeat first
    [ apply only_allocates_ret
    | apply only_allocates_throw
    | apply only_allocates_lift
    | apply only_allocates_alloc
    | apply only_allocates_deref
    | apply only_allocates_bind; [|intros ?]
    | match goal with
      | |- Store.only_allocates (match ?x with _ => _ end) => destruct x
      | |- Store.only_allocates (if ?x then _ else _) => destruct x
      end ].

Section SetterTheorems.
Context {N L : Type}.
Implicit Types (h : Store.store N L).

Lemma sugiyama_setters_only_allocate (self : ref) :
  (forall v, Store.only_allocates (Sugiyama.layering (N:=N) (L:=L) self v)) /\
  (forall v, Store.only_allocates (Sugiyama.decross (N:=N) (L:=L) self v)) /\
  (forall v, Store.only_allocates (Sugiyama.coord (N:=N) (L:=L) self v)) /\
  (forall v, Store.only_allocates (Sugiyama.size (N:=N) (L:=L) self v)) /\
  (forall v, Store.only_allocates (Sugiyama.nodeSize (N:=N) (L:=L) self v)) /\
  (forall v, Store.only_allocates (Sugiyama.sugiNodeSize (N:=N) (L:=L) self v)).
Proof.
  repeat split; intros v;
    unfold Sugiyama.layering, Sugiyama.decross, Sugiyama.coord, Sugiyama.size,
      Sugiyama.nodeSize, Sugiyama.sugiNodeSize, Sugiyama.options_of,
      Sugiyama.buildOperator;
    only_allocates.
Qed.

Lemma layering_setters_only_allocate (self : ref) :
  (forall v, Store.only_allocates (SimplexOperator.rank (N:=N) (L:=L) self v)) /\
  (forall v, Store.only_allocates (SimplexOperator.group (N:=N) (L:=L) self v)) /\
  (forall v, Store.only_allocates (LongestPathOperator.topDown (N:=N) (L:=L) self v)) /\
  (forall v, Store.only_allocates (OptOperator.large (N:=N) (L:=L) self v)).
Proof.
  repeat split; intros v;
    unfold SimplexOperator.rank, SimplexOperator.group, SimplexOperator.options_of,
      SimplexOperator.buildOperator, LongestPathOperator.topDown,
      LongestPathOperator.options_of, LongestPathOperator.buildOperator,
      OptOperator.large, OptOperator.options_of, OptOperator.buildOperator;
    only_allocates.
Qed.

Lemma quad_setters_only_allocate (self : ref) :
  (forall v, Store.only_allocates (Quad.curve (N:=N) (L:=L) self v)) /\
  (forall v, Store.only_allocates (Quad.vertical (N:=N) (L:=L) self v)) /\
  (forall v, Store.only_allocates (Quad.vertWeak (N:=N) (L:=L) self v)) /\
  (forall v, Store.only_allocates (Quad.vertStrong (N:=N) (L:=L) self v)) /\
  (forall v, Store.only_allocates (Quad.linkCurve (N:=N) (L:=L) self v)) /\
  (forall v, Store.only_allocates (Quad.nodeCurve (N:=N) (L:=L) self v)) /\
  (forall v, Store.only_allocates (Quad.component (N:=N) (L:=L) self v)).
Proof.
  repeat split; intros v;
    unfold Quad.curve, Quad.vertical, Quad.vertWeak, Quad.vertStrong, Quad.linkCurve,
      Quad.nodeCurve, Quad.component,
      Quad.options_of, Quad.buildOperator;
    only_allocates.
Qed.

Ltac setter_unfold :=
  unfold Sugiyama.layering, Sugiyama.decross, Sugiyama.coord, Sugiyama.size,
    Sugiyama.nodeSize, Sugiyama.sugiNodeSize, Sugiyama.options_of, Sugiyama.buildOperator,
    SimplexOperator.rank, SimplexOperator.group, SimplexOperator.options_of,
    SimplexOperator.buildOperator, LongestPathOperator.topDown,
    LongestPathOperator.options_of, LongestPathOperator.buildOperator,
    OptOperator.large, OptOperator.options_of, OptOperator.buildOperator,
    Quad.curve, Quad.vertical, Quad.vertWeak, Quad.vertStrong, Quad.linkCurve,
    Quad.nodeCurve, Quad.component, Quad.options_of, Quad.buildOperator,
    Quad.createConstAccessor;
  store_step.

Ltac rewrite_checks :=
  repeat match goal with
  | E : Quad.negative _ = false |- _ => rewrite E
  | E : Qle_bool _ _ = false |- _ => rewrite E
  end.

(** The setter at hand, on an operator [self] of its kind. *)
Ltac independent_setter h Hself :=
  exists (length h); eexists;
  split; [setter_unfold; rewrite Hself; simpl; rewrite_checks; simpl; reflexivity|];
  split; [apply lookup_ge_None_2; lia|];
  split; [setter_unfold; rewrite alloc_new; simpl; reflexivity|];
  split; [intros ? ? ?; apply alloc_old; eassumption|];
  setter_unfold; rewrite ?(alloc_old _ _ _ _ Hself), ?Hself; simpl;
  try match goal with |- context [if ?c then _ else _] => destruct c end;
  eexists; split; reflexivity.

(** C8: every setter returns a new operator that carries the new value and
    leaves every existing operator as it was, so that the getter of the
    original still returns its previous value: the six setters of the
    sugiyama operator, [rank] and [group] of the simplex layering,
    [topDown] of longest path, [large] of opt, and the seven setters of
    quad, where [curve], [vertical] and [component] are called with values
    they accept.  The setters of the stratify operator build an operator
    from their argument and the accessors of the original, which is a
    value that nothing can write to.  No setter, whatever it is called
    with, writes to an existing object. *)
Theorem setters_build_independent_operators h :
  (forall (self : ref) o, h !! self = Some (Options.SugiyamaOp o) ->
     (forall l, Store.independent Sugiyama.layering self l l h) /\
     (forall d, Store.independent Sugiyama.decross self d d h) /\
     (forall c, Store.independent Sugiyama.coord self c c h) /\
     (forall sz, Store.independent Sugiyama.size self sz sz h) /\
     (forall sz, Store.independent Sugiyama.nodeSize self sz (Some sz) h) /\
     (forall sz, Store.independent Sugiyama.sugiNodeSize self sz sz h)) /\
  (forall (self : ref) o, h !! self = Some (Options.SimplexOp o) ->
     (forall r, Store.independent SimplexOperator.rank self r r h) /\
     (forall g, Store.independent SimplexOperator.group self g g h)) /\
  (forall (self : ref) o, h !! self = Some (Options.LongestPathOp o) ->
     forall v, Store.independent LongestPathOperator.topDown self v v h) /\
  (forall (self : ref) o, h !! self = Some (Options.OptOp o) ->
     forall v, Store.independent OptOperator.large self v v h) /\
  (forall (self : ref) o, h !! self = Some (Options.QuadOp o) ->
     (forall a b, (0 <= a)%Q -> (0 <= b)%Q ->
        Store.independent Quad.curve self (a, b) (Some (a, b)) h) /\
     (forall a b, (0 <= a)%Q -> (0 <= b)%Q ->
        Store.independent Quad.vertical self (a, b) (Some (a, b)) h) /\
     (forall v, (0 < v)%Q -> Store.independent Quad.component self v v h) /\
     (forall acc, Store.independent Quad.vertWeak self acc acc h) /\
     (forall acc, Store.independent Quad.vertStrong self acc acc h) /\
     (forall acc, Store.independent Quad.linkCurve self acc acc h) /\
     (forall acc, Store.independent Quad.nodeCurve self acc acc h)) /\
  (forall (L1 L2 : Type) (op : StratifyOperator.Operator (N:=N) L1)
          (idGet : N -> nat -> res string)
          (ids : N -> nat -> res (option (list string)))
          (data : N -> nat -> res (option (list (string * L2)))),
     (StratifyOperator.idOp (StratifyOperator.id op idGet) = idGet /\
      StratifyOperator.parentIdsOp (StratifyOperator.id op idGet)
        = StratifyOperator.parentIdsOp op /\
      StratifyOperator.parentDataOp (StratifyOperator.id op idGet)
        = StratifyOperator.parentDataOp op) /\
     (StratifyOperator.parentIdsOp (StratifyOperator.parentIds op ids) = ids /\
      StratifyOperator.idOp (StratifyOperator.parentIds op ids) = StratifyOperator.idOp op /\
      StratifyOperator.parentDataOp (StratifyOperator.parentIds op ids)
        = StratifyOperator.wrapParentIds ids) /\
     (StratifyOperator.parentDataOp (StratifyOperator.parentData op data) = data /\
      StratifyOperator.idOp (StratifyOperator.parentData op data) = StratifyOperator.idOp op /\
      StratifyOperator.parentIdsOp (StratifyOperator.parentData op data)
        = StratifyOperator.wrapParentData data)) /\
  (forall self : ref,
     (forall v, Store.only_allocates (Sugiyama.layering (N:=N) (L:=L) self v)) /\
     (forall v, Store.only_allocates (Sugiyama.decross (N:=N) (L:=L) self v)) /\
     (forall v, Store.only_allocates (Sugiyama.coord (N:=N) (L:=L) self v)) /\
     (forall v, Store.only_allocates (Sugiyama.size (N:=N) (L:=L) self v)) /\
     (forall v, Store.only_allocates (Sugiyama.nodeSize (N:=N) (L:=L) self v)) /\
     (forall v, Store.only_allocates (Sugiyama.sugiNodeSize (N:=N) (L:=L) self v)) /\
     (forall v, Store.only_allocates (SimplexOperator.rank (N:=N) (L:=L) self v)) /\
     (forall v, Store.only_allocates (SimplexOperator.group (N:=N) (L:=L) self v)) /\
     (forall v, Store.only_allocates (LongestPathOperator.topDown (N:=N) (L:=L) self v)) /\
     (forall v, Store.only_allocates (OptOperator.large (N:=N) (L:=L) self v)) /\
     (forall v, Store.only_allocates (Quad.curve (N:=N) (L:=L) self v)) /\
     (forall v, Store.only_allocates (Quad.vertical (N:=N) (L:=L) self v)) /\
     (forall v, Store.only_allocates (Quad.vertWeak (N:=N) (L:=L) self v)) /\
     (forall v, Store.only_allocates (Quad.vertStrong (N:=N) (L:=L) self v)) /\
     (forall v, Store.only_allocates (Quad.linkCurve (N:=N) (L:=L) self v)) /\
     (forall v, Store.only_allocates (Quad.nodeCurve (N:=N) (L:=L) self v)) /\
     (forall v, Store.only_allocates (Quad.component (N:=N) (L:=L) self v))).
Proof.
  split; [|split; [|split; [|split; [|split; [|split]]]]].
  - intros self o Hself. repeat split; intros v; independent_setter h Hself.
  - intros self o Hself. repeat split; intros v; independent_setter h Hself.
  - intros self o Hself v. independent_setter h Hself.
  - intros self o Hself v. independent_setter h Hself.
  - intros self o Hself. split; [|split; [|split; [|repeat split]]].
    + intros a b Ha Hb. apply negative_false in Ha, Hb. independent_setter h Hself.
    + intros a b Ha Hb. apply negative_false in Ha, Hb. independent_setter h Hself.
    + intros v Hv.
      assert (E : Qle_bool v 0 = false).
      { destruct (Qle_bool v 0) eqn:E; [|reflexivity].
        apply Qle_bool_iff in E. exfalso. exact (Qlt_not_le _ _ Hv E). }
      independent_setter h Hself.
    + intros acc. independent_setter h Hself.
    + intros acc. independent_setter h Hself.
    + intros acc. independent_setter h Hself.
    + intros acc. independent_setter h Hself.
  - intros L1 L2 op idGet ids data. repeat split.
  - intros self.
    destruct (sugiyama_setters_only_allocate self) as (S1 & S2 & S3 & S4 & S5 & S6).
    destruct (layering_setters_only_allocate self) as (L1 & L2 & L3 & L4).
    destruct (quad_setters_only_allocate self) as (Q1 & Q2 & Q3 & Q4 & Q5 & Q6 & Q7).
    repeat split; assumption.
Qed.

End SetterTheorems.

(** ** The default sugiyama operator *)
Section SugiyamaFacts.
Context {N L : Type}.
Implicit Types (h : Store.store N L).

(** C1: the operator built by [sugiyama()] has the coordinate operator
    made by [simplex()] of coord/simplex.ts as its coord operator; that
    operator is not a quad operator. *)
Theorem sugiyama_default_coord_is_simplex {X : Type} h :
  exists op h',
    Sugiyama.sugiyama (@nil X) h = Ok (op, h') /\
    exists crd,
      Sugiyama.coord op None h' = Ok (Got crd, h') /\
      Sugiyama.is_coord_simplex h' crd /\
      ~ Sugiyama.is_quad h' crd.
Proof.
  eexists _, _. split.
  - unfold Sugiyama.sugiyama, SimplexOperator.simplex, SimplexOperator.buildOperator,
      Sugiyama.twoLayer, Sugiyama.coordSimplex, Sugiyama.buildOperator.
    store_step. reflexivity.
  - eexists. split; [|split].
    + unfold Sugiyama.coord, Sugiyama.options_of. store_step.
      rewrite alloc_new. simpl. reflexivity.
    + unfold Sugiyama.is_coord_simplex. apply alloc_old, alloc_new.
    + intros [opts Hq]. rewrite (alloc_old _ _ _ _ (alloc_new _ _)) in Hq. discriminate.
Qed.

(** C2: [defaultNodeSize] returns (1, 1) for a node and (0, 1) for
    [undefined], so the wrapped accessor gives a dummy node width 0 and
    height 1, not height 0. *)
Theorem default_node_size_values (node : Dag.DagNode N) (link : Options.DagLink L) :
  Sugiyama.defaultNodeSize (Some node) = (1%Q, 1%Q) /\
  Sugiyama.defaultNodeSize (N:=N) None = (0%Q, 1%Q) /\
  ~ (snd (Sugiyama.defaultNodeSize (N:=N) None) == 0)%Q /\
  Options.sugi_size (Sugiyama.wrapNodeSizeAccessor (N:=N) (L:=L) Sugiyama.defaultNodeSize)
    {| Options.sugi_data := Options.SugiReal node |} = (1%Q, 1%Q) /\
  Options.sugi_size (Sugiyama.wrapNodeSizeAccessor (N:=N) (L:=L) Sugiyama.defaultNodeSize)
    {| Options.sugi_data := Options.SugiDummy link |} = (0%Q, 1%Q).
Proof. repeat split. intros H. discriminate. Qed.

End SugiyamaFacts.

(** ** The theorems at concrete inputs *)

Ltac in_range3 :=
  let node := fresh "node" in
  let H := fresh "H" in
  intros node H; simpl in H;
  destruct node as [|[|[|node]]]; [| | |lia]; simpl;
  repeat first [apply list_elem_of_here | apply list_elem_of_further].

Lemma dag3_wf : Dag.wf Examples.dag3.
Proof.
  intros node child count Hin. unfold Dag.children in Hin.
  destruct node as [|[|[|node]]]; simpl in Hin;
    repeat (apply elem_of_cons in Hin as [Hin|Hin]; [injection Hin as -> ->; simpl; lia|]);
    inversion Hin.
Defined.

Lemma dag3_root : Dag.is_root Examples.dag3 0.
Proof.
  split; [simpl; lia|]. intros par count Hin. unfold Dag.children in Hin.
  destruct par as [|[|[|par]]]; simpl in Hin;
    repeat (apply elem_of_cons in Hin as [Hin|Hin]; [discriminate|]);
    inversion Hin.
Defined.

Lemma dag3_leaf : Dag.is_leaf Examples.dag3 2.
Proof. split; [simpl; lia | reflexivity]. Defined.

Lemma walk3_children_first : LongestPath.children_first Examples.walk3 Examples.dag3.
Proof.
  intros pre node suf child count Heq Hin. simpl in Heq. unfold Dag.children in Hin.
  destruct pre as [|a [|b [|c pre]]]; simpl in Heq; injection Heq; intros; subst;
    simpl in Hin;
    try (destruct pre; discriminate);
    repeat (apply elem_of_cons in Hin as [Hin|Hin];
            [injection Hin as -> ->;
             repeat first [apply list_elem_of_here | apply list_elem_of_further]|]);
    inversion Hin.
Defined.

(** C9 at two data elements with the same id. *)
Lemma stratify_rejects_witness :
  Stratify.duplicate_id Examples.id_of Examples.twins /\
  throws (Stratify.stratify Examples.id_of Examples.parents_of
            (fun _ => true) (fun _ _ => true) Examples.twins).
Proof.
  assert (Hdup : Stratify.duplicate_id Examples.id_of Examples.twins).
  { exists 0%nat, 1%nat, ("a", []), ("a", []), "a".
    split; [lia|]. repeat split; reflexivity. }
  split; [exact Hdup|].
  exact (proj1 (stratify_rejects_duplicate_and_unknown_parent
                  Examples.id_of Examples.parents_of (fun _ => true) (fun _ _ => true)
                  Examples.twins (or_introl Hdup))).
Defined.

(** C3 on [dense_layers]. *)
Lemma opt_size_gate_witness :
  100 < Opt.numEdges Examples.dense_layers /\
  Opt.size_error (OptModel.optCall (fun _ l => l) {| Options.large := Options.Small |}
                    Examples.dense_layers).
Proof.
  assert (He : 100 < Opt.numEdges Examples.dense_layers) by (vm_compute; reflexivity).
  split; [exact He|].
  exact (proj2 (proj1 (opt_size_gate (fun _ l => l) Examples.dense_layers)) (or_intror He)).
Defined.

(** C4 on the dag [0 -> 1 -> 2], [0 => 2], at the assignment that gives a
    variable the length of its name. *)
Lemma simplex_objective_witness :
  Dag.wf Examples.dag3 /\
  Simplex.objective "opt"
    (Simplex.variables (Simplex.model (Simplex.program Examples.all_ranked Examples.dag3)))
    (fun name => Z.of_nat (String.length name))
  = - Simplex.total_span Examples.dag3
        (fun i => Z.of_nat (String.length (Simplex.n i))).
Proof.
  split; [exact dag3_wf|].
  exact (proj1 (proj2 (simplex_objective_is_negated_span Examples.all_ranked Examples.dag3
                         (fun name => Z.of_nat (String.length name)) dag3_wf))).
Defined.

(** C5 with a solver that finds nothing and every node ranked. *)
Lemma simplex_failure_witness :
  Simplex.constrained Examples.all_ranked Examples.dag3 /\
  Simplex.simplexCall Examples.no_solution Examples.all_ranked Examples.dag3
    = Throw IllDefinedConstraints.
Proof.
  assert (Hc : Simplex.constrained Examples.all_ranked Examples.dag3).
  { exists 0%nat, {| Dag.data := tt; Dag.ichildrenCounts := [(1%nat, 1); (2%nat, 2)] |}.
    split; [reflexivity|]. left. discriminate. }
  split; [exact Hc|].
  exact (proj1 (simplex_failure_branch Examples.no_solution Examples.all_ranked Examples.dag3)
           (ex_intro _ Infeasible eq_refl) Hc).
Defined.

(** C7 on the operator made by [quad()], with [curve([2, 3])]. *)
Lemma quad_curve_witness :
  exists opts op h',
    Examples.operators !! 5%nat = Some (Options.QuadOp opts) /\
    Quad.curve 5%nat (Some (2%Q, 3%Q)) Examples.operators = Ok (Built op, h') /\
    Quad.curve op None h' = Ok (Got (Some (2%Q, 3%Q)), h').
Proof.
  assert (H2 : (0 <= 2)%Q) by (unfold Qle; simpl; lia).
  assert (H3 : (0 <= 3)%Q) by (unfold Qle; simpl; lia).
  eexists.
  destruct (quad_curve_round_trip Examples.operators 5%nat _ 2%Q 3%Q eq_refl H2 H3)
    as (op & h' & Hset & _ & _ & Hget).
  exists op, h'. split; [reflexivity|]. split; [exact Hset | exact Hget].
Defined.

(** C8 on the operators made by [sugiyama()], [opt()] and [quad()]. *)
Lemma setters_witness :
  exists so oo qo,
    Examples.operators !! 3%nat = Some (Options.SugiyamaOp so) /\
    Examples.operators !! 4%nat = Some (Options.OptOp oo) /\
    Examples.operators !! 5%nat = Some (Options.QuadOp qo) /\
    (exists op h',
       Sugiyama.size 3%nat (Some (Some (4%Q, 3%Q))) Examples.operators = Ok (Built op, h') /\
       Sugiyama.size op None h' = Ok (Got (Some (4%Q, 3%Q)), h') /\
       Sugiyama.size 3%nat None h' = Ok (Got None, h')) /\
    (exists op h',
       OptOperator.large 4%nat (Some Options.Large) Examples.operators = Ok (Built op, h') /\
       OptOperator.large op None h' = Ok (Got Options.Large, h') /\
       OptOperator.large 4%nat None h' = Ok (Got Options.Small, h')) /\
    (exists op h',
       Quad.component 5%nat (Some 2%Q) Examples.operators = Ok (Built op, h') /\
       Quad.component op None h' = Ok (Got 2%Q, h') /\
       Quad.component 5%nat None h' = Ok (Got 1%Q, h')).
Proof.
  eexists _, _, _.
  destruct (setters_build_independent_operators (N:=unit) (L:=unit) Examples.operators)
    as (Hsugi & _ & _ & Hopt & Hquad & _).
  destruct (Hsugi 3%nat _ eq_refl) as (_ & _ & _ & Hsize & _).
  destruct (Hsize (Some (4%Q, 3%Q))) as (op1 & h1 & S1 & _ & S2 & _ & old1 & S3 & S4).
  destruct (Hopt 4%nat _ eq_refl Options.Large) as (op2 & h2 & O1 & _ & O2 & _ & old2 & O3 & O4).
  destruct (Hquad 5%nat _ eq_refl) as (_ & _ & Hcomp & _).
  destruct (Hcomp 2%Q ltac:(reflexivity)) as (op3 & h3 & Q1 & _ & Q2 & _ & old3 & Q3 & Q4).
  split; [reflexivity|]. split; [reflexivity|]. split; [reflexivity|].
  split; [|split].
  - exists op1, h1. split; [exact S1|]. split; [exact S2|].
    injection S3 as <-. exact S4.
  - exists op2, h2. split; [exact O1|]. split; [exact O2|].
    injection O3 as <-. exact O4.
  - exists op3, h3. split; [exact Q1|]. split; [exact Q2|].
    injection Q3 as <-. exact Q4.
Defined.

(** ** The embedding at work *)

Example stratify_twins :
  Stratify.stratify Examples.id_of Examples.parents_of (fun _ => true) (fun _ _ => true)
    Examples.twins = Throw (DuplicateId "a").
Proof. reflexivity. Qed.

Example stratify_orphan :
  Stratify.stratify Examples.id_of Examples.parents_of (fun _ => true) (fun _ _ => true)
    [("a", []); ("b", ["a"; "z"])] = Throw (MissingId "z").
Proof. reflexivity. Qed.

Example stratify_chain :
  Stratify.stratify Examples.id_of Examples.parents_of (fun _ => true) (fun _ _ => true)
    [("a", []); ("b", ["a"]); ("c", ["b"; "a"])]
  = Ok {| Stratify.nodes :=
            [ {| Stratify.data := ("a", []);
                 Stratify.dataChildren := [(1%nat, tt); (2%nat, tt)] |};
              {| Stratify.data := ("b", ["a"]); Stratify.dataChildren := [(2%nat, tt)] |};
              {| Stratify.data := ("c", ["b"; "a"]); Stratify.dataChildren := [] |} ];
          Stratify.handle := Stratify.RootNode (Some 0%nat) |}.
Proof. reflexivity. Qed.

Example longest_path_top_down :
  map (fun i => LongestPath.longestPathCall Examples.walk3 {| Options.topDown := true |}
                  Examples.dag3 ∅ !! i) [0; 1; 2]%nat
  = [Some (Num 0); Some (Num 1); Some (Num 2)].
Proof. vm_compute. reflexivity. Qed.

Example longest_path_bottom_up :
  map (fun i => LongestPath.longestPathCall Examples.walk3 {| Options.topDown := false |}
                  Examples.dag3 ∅ !! i) [0; 1; 2]%nat
  = [Some (Num 0); Some (Num 1); Some (Num 2)].
Proof. vm_compute. reflexivity. Qed.

Example simplex_coefficients :
  map (Simplex.opt_coeff
         (Simplex.variables (Simplex.model (Simplex.program Examples.all_ranked Examples.dag3))))
      [0; 1; 2]%nat
  = [3; 0; -3].
Proof. vm_compute. reflexivity. Qed.

Example simplex_internal_error :
  Simplex.simplexCall Examples.no_solution
    {| Options.rank := Simplex.defaultAccessor; Options.group := Simplex.defaultAccessor |}
    Examples.dag3 = Throw AssertionFailed.
Proof. vm_compute. reflexivity. Qed.

Example dense_layers_size :
  Opt.numVars Examples.dense_layers = 100 /\ Opt.numEdges Examples.dense_layers = 110.
Proof. split; vm_compute; reflexivity. Qed.

Example dense_layers_medium :
  OptModel.optCall (fun _ l => l) {| Options.large := Options.Medium |} Examples.dense_layers
  = Ok Examples.dense_layers.
Proof. vm_compute. reflexivity. Qed.

Example quad_negative_curve :
  Quad.curve 5%nat (Some ((-1)%Q, 3%Q)) Examples.operators = Throw NegativeWeights.
Proof. reflexivity. Qed.

(* ====================================================================== *)
(** * Further properties of the embedded code *)
(* ====================================================================== *)

(** ** stratify: what is built, and which error is raised *)
Section StratifyMore.
Context {N L : Type}.
Variable idOp : N -> nat -> res string.
Variable parentDataOp : N -> nat -> res (option (list (string * L))).
Variable valid_id : string -> bool.
Variable verifyDag_ok : list (@Stratify.LayoutDagNode N L) -> list nat -> bool.

Local Abbreviation fill_mapping := (Stratify.fill_mapping idOp parentDataOp valid_id).
Local Abbreviation stratify := (Stratify.stratify idOp parentDataOp valid_id verifyDag_ok).
Local Abbreviation Mapping := (@Stratify.Mapping L).
Local Abbreviation Nodes := (list (@Stratify.LayoutDagNode N L)).
Local Abbreviation has_id := (StratifySpec.has_id idOp).
Local Abbreviation names_parent := (StratifySpec.names_parent parentDataOp).
Local Abbreviation parentless := (StratifySpec.parentless parentDataOp).

(** The first loop appends one entry per data element, in order. *)
Lemma fill_mapping_appends data : forall i (m m' : Mapping),
  fill_mapping data i m = Ok m' ->
  exists entries : Mapping,
    m' = m ++ entries /\ length entries = length data /\
    forall k d, data !! k = Some d ->
      exists id p, entries !! k = Some (id, ((i + k)%nat, default [] p)) /\
                   idOp d (i + k)%nat = Ok id /\ parentDataOp d (i + k)%nat = Ok p.
Proof.
  induction data as [|d rest IH]; intros i m m' H.
  - simpl in H. injection H as <-. exists []. rewrite app_nil_r.
    split; [reflexivity|]. split; [reflexivity|]. intros k d Hk. discriminate.
  - apply fill_mapping_cons in H as (id & pd & Hid & Hpd & _ & H).
    destruct (IH _ _ _ H) as (entries & -> & Hlen & Hent).
    exists ((id, (i, default [] pd)) :: entries). split; [rewrite <- app_assoc; reflexivity|].
    split; [simpl; rewrite Hlen; reflexivity|].
    intros k dk Hk. destruct k as [|k]; simpl in Hk.
    + injection Hk as <-. rewrite Nat.add_0_r. exists id, pd. auto.
    + destruct (Hent k dk Hk) as (id' & p & He & Hi & Hp).
      replace (i + S k)%nat with (S i + k)%nat by lia.
      exists id', p. auto.
Qed.

Lemma mapping_elem_get (m : Mapping) id v :
  (id, v) ∈ m -> exists v', Stratify.mapping_get m id = Some v'.
Proof.
  induction m as [|[k w] m IH]; intros Hin; [inversion Hin|]. simpl.
  destruct (String.eqb k id) eqn:E; [eauto|].
  apply elem_of_cons in Hin as [Heq|Hin]; [|auto].
  injection Heq as -> ->. rewrite String.eqb_refl in E. discriminate.
Qed.

(** After the first loop, looking an id up finds the data element that
    produced it. *)
Lemma mapping_get_data data (m : Mapping) s k pd :
  fill_mapping data 0 [] = Ok m ->
  Stratify.mapping_get m s = Some (k, pd) <->
  exists d p, data !! k = Some d /\ idOp d k = Ok s /\
              parentDataOp d k = Ok p /\ pd = default [] p.
Proof.
  intros Hfill.
  destruct (fill_mapping_appends _ _ _ _ Hfill) as (entries & Hm & Hlen & Hent).
  simpl in Hm. subst entries.
  assert (Hfwd : forall s k pd, Stratify.mapping_get m s = Some (k, pd) ->
            exists d p, data !! k = Some d /\ idOp d k = Ok s /\
                        parentDataOp d k = Ok p /\ pd = default [] p).
  { clear s k pd. intros s k pd Hget. apply mapping_get_elem in Hget.
    apply list_elem_of_lookup in Hget as [k' Hk'].
    destruct (lookup_lt_is_Some_2 data k') as [d Hd].
    { rewrite <- Hlen. eapply lookup_lt_Some. exact Hk'. }
    destruct (Hent k' d Hd) as (id & p & He & Hi & Hp). simpl in He, Hi, Hp.
    pose proof (eq_trans (eq_sym Hk') He) as Heq. injection Heq as -> -> ->.
    exists d, p. auto. }
  split; [apply Hfwd|].
  intros (d & p & Hd & Hi & Hp & ->).
  destruct (Hent k d Hd) as (id & p' & He & Hi' & Hp'). simpl in He, Hi', Hp'.
  rewrite Hi in Hi'. injection Hi' as <-. rewrite Hp in Hp'. injection Hp' as <-.
  destruct (mapping_elem_get m s (k, default [] p)) as [[k' pd'] Hget].
  { apply list_elem_of_lookup. eauto. }
  rewrite Hget. destruct (Hfwd _ _ _ Hget) as (d' & p' & Hd' & Hi' & Hp' & ->).
  assert (k' = k).
  { eapply (fill_mapping_distinct idOp parentDataOp valid_id data 0%nat); eauto. }
  subst k'. rewrite Hd in Hd'. injection Hd' as <-.
  rewrite Hp in Hp'. injection Hp' as <-. reflexivity.
Qed.

Lemma children_of_push (ns : Nodes) par x i :
  (par < length ns)%nat ->
  StratifySpec.children_of (Stratify.push_child ns par x) i =
  if decide (i = par) then StratifySpec.children_of ns i ++ [x]
  else StratifySpec.children_of ns i.
Proof.
  intros Hpar. unfold Stratify.push_child, StratifySpec.children_of.
  destruct (lookup_lt_is_Some_2 ns par Hpar) as [p Hp]. rewrite Hp.
  case_decide as E.
  - subst i. rewrite list_lookup_insert_eq by exact Hpar. rewrite Hp. reflexivity.
  - rewrite list_lookup_insert_ne by congruence. reflexivity.
Qed.

Lemma data_push (ns : Nodes) par x :
  Stratify.data <$> Stratify.push_child ns par x = Stratify.data <$> ns.
Proof.
  unfold Stratify.push_child. destruct (ns !! par) as [p|] eqn:Hp; [|reflexivity].
  rewrite list_fmap_insert. simpl. apply list_insert_id.
  rewrite list_lookup_fmap, Hp. reflexivity.
Qed.

(** The inner loop pushes the node to each parent it names, and changes
    nothing else. *)
Lemma link_parents_children (mapping : Mapping) node pdata : forall (ns ns' : Nodes),
  (forall pid par x, Stratify.mapping_get mapping pid = Some (par, x) ->
                     (par < length ns)%nat) ->
  Stratify.link_parents mapping node pdata ns = Ok ns' ->
  Stratify.data <$> ns' = Stratify.data <$> ns /\
  forall par c ld,
    (c, ld) ∈ StratifySpec.children_of ns' par <->
    (c, ld) ∈ StratifySpec.children_of ns par \/
    (c = node /\ exists pid x, (pid, ld) ∈ pdata /\
                               Stratify.mapping_get mapping pid = Some (par, x)).
Proof.
  induction pdata as [|[pid0 ld0] rest IH]; intros ns ns' Hb H.
  - simpl in H. injection H as <-. split; [reflexivity|].
    intros par c ld. split; [auto|]. intros [Hc|(_ & pid & x & Hin & _)]; [exact Hc|].
    inversion Hin.
  - simpl in H. destruct (Stratify.mapping_get mapping pid0) as [[par0 x0]|] eqn:E;
      [|discriminate].
    pose proof (Hb _ _ _ E) as Hpar0.
    destruct (IH (Stratify.push_child ns par0 (node, ld0)) ns') as [Hdata Hch].
    { intros pid par x Hget. unfold Stratify.push_child.
      destruct (ns !! par0); [rewrite length_insert|]; eapply Hb; exact Hget. }
    { exact H. }
    split; [rewrite Hdata; apply data_push|].
    intros par c ld. rewrite Hch, children_of_push by exact Hpar0. split.
    + intros [Hc|(-> & pid & x & Hin & Hget)].
      * case_decide as Ep; [|left; exact Hc].
        apply elem_of_app in Hc as [Hc|Hc]; [left; exact Hc|].
        apply list_elem_of_singleton in Hc. injection Hc as -> ->. subst par.
        right. split; [reflexivity|]. exists pid0, x0. split; [left | exact E].
      * right. split; [reflexivity|]. exists pid, x. split; [right; exact Hin | exact Hget].
    + intros [Hc|(-> & pid & x & Hin & Hget)].
      * left. case_decide; [apply elem_of_app; left|]; exact Hc.
      * apply elem_of_cons in Hin as [Heq|Hin].
        -- injection Heq as -> ->. rewrite E in Hget. injection Hget as -> ->.
           left. rewrite decide_True by reflexivity. apply elem_of_app. right. left.
        -- right. split; [reflexivity|]. eauto.
Qed.

(** The second loop links every entry to its parents and collects the
    entries without parents as roots. *)
Lemma link_all_children (mapping : Mapping) todo : forall (ns ns' : Nodes) roots roots',
  (forall pid par x, Stratify.mapping_get mapping pid = Some (par, x) ->
                     (par < length ns)%nat) ->
  Stratify.link_all mapping todo ns roots = Ok (ns', roots') ->
  Stratify.data <$> ns' = Stratify.data <$> ns /\
  roots' = roots ++ StratifySpec.new_roots todo /\
  forall par c ld,
    (c, ld) ∈ StratifySpec.children_of ns' par <->
    (c, ld) ∈ StratifySpec.children_of ns par \/
    exists id pdata pid x, (id, (c, pdata)) ∈ todo /\ (pid, ld) ∈ pdata /\
                           Stratify.mapping_get mapping pid = Some (par, x).
Proof.
  induction todo as [|[id0 [node0 pdata0]] rest IH]; intros ns ns' roots roots' Hb H.
  - simpl in H. injection H as <- <-. split; [reflexivity|].
    split; [rewrite app_nil_r; reflexivity|].
    intros par c ld. split; [auto|]. intros [Hc|(id & pd & pid & x & Hin & _)]; [exact Hc|].
    inversion Hin.
  - simpl in H. bind_ok H. rename a into ns1.
    destruct (link_parents_children mapping node0 pdata0 ns ns1 Hb Hbind) as [Hd1 Hc1].
    destruct (IH ns1 ns' (match pdata0 with [] => roots ++ [node0] | _ => roots end) roots')
      as (Hd & Hr & Hc).
    { intros pid par x Hget.
      replace (length ns1) with (length ns); [eapply Hb; exact Hget|].
      rewrite <- (length_fmap Stratify.data ns), <- Hd1, length_fmap. reflexivity. }
    { exact H. }
    split; [congruence|]. split.
    + rewrite Hr. unfold StratifySpec.new_roots. simpl.
      destruct pdata0; simpl; [rewrite <- app_assoc|]; reflexivity.
    + intros par c ld. rewrite Hc, Hc1. split.
      * intros [[Hin|(-> & pid & x & Hin & Hget)]|(id & pd & pid & x & Hin & Hp & Hget)].
        -- left; exact Hin.
        -- right. exists id0, pdata0, pid, x. split; [left|]. split; assumption.
        -- right. exists id, pd, pid, x. split; [right; exact Hin|]. split; assumption.
      * intros [Hin|(id & pd & pid & x & Hin & Hp & Hget)]; [left; left; exact Hin|].
        apply elem_of_cons in Hin as [Heq|Hin].
        -- injection Heq as -> -> ->. left. right. split; [reflexivity|]. eauto.
        -- right. exists id, pd, pid, x. auto.
Qed.

(** What a successful call went through. *)
Lemma stratify_ok_inv data dag :
  stratify data = Ok dag ->
  exists (mapping : Mapping) roots,
    fill_mapping data 0 [] = Ok mapping /\
    Stratify.link_all mapping mapping
      (map (fun d => {| Stratify.data := d; Stratify.dataChildren := [] |}) data) []
      = Ok (Stratify.nodes dag, roots) /\
    verifyDag_ok (Stratify.nodes dag) roots = true /\
    Stratify.handle dag = (if (1 <? length roots)%nat then Stratify.LayoutDagRoot roots
                           else Stratify.RootNode (head roots)).
Proof.
  intros H. unfold Stratify.stratify in H.
  destruct data as [|d0 rest] eqn:Edata; [discriminate|]. rewrite <- Edata in *.
  bind_ok H. rename a into mapping. bind_ok H. destruct a as [ns' roots].
  bind_ok H. unfold Stratify.verifyDag in Hbind1.
  destruct (verifyDag_ok ns' roots) eqn:Ev; [|discriminate].
  injection H as <-. exists mapping, roots. simpl. auto.
Qed.

Lemma mapping_bound data (mapping : Mapping) :
  fill_mapping data 0 [] = Ok mapping ->
  forall pid par x, Stratify.mapping_get mapping pid = Some (par, x) ->
    (par < length (map (fun d => {| Stratify.data := d;
                                     Stratify.dataChildren := @nil (nat * L) |}) data))%nat.
Proof.
  intros Hfill pid par x Hget. rewrite length_map.
  apply (mapping_get_data data mapping pid par x Hfill) in Hget as (d & _ & Hd & _).
  eapply lookup_lt_Some. exact Hd.
Qed.

(** The node objects [stratify] has created when it returns carry the data
    elements, in order. *)
Lemma stratify_nodes_data data dag :
  stratify data = Ok dag -> Stratify.data <$> Stratify.nodes dag = data.
Proof.
  intros H. apply stratify_ok_inv in H as (mapping & roots & Hfill & Hlink & _ & _).
  destruct (link_all_children mapping mapping _ _ _ _ (mapping_bound data mapping Hfill) Hlink)
    as (Hdata & _ & _).
  rewrite Hdata. rewrite <- list_fmap_compose. apply list_fmap_id.
Qed.

(** Among them, node [j] is a child of node [i] exactly when element [j]
    names the id of element [i] as a parent. *)
Lemma stratify_children_of data dag :
  stratify data = Ok dag ->
  forall i j ld,
    (j, ld) ∈ StratifySpec.children_of (Stratify.nodes dag) i <->
    exists pid, has_id data i pid /\ names_parent data j pid ld.
Proof.
  intros H. apply stratify_ok_inv in H as (mapping & roots & Hfill & Hlink & _ & _).
  destruct (link_all_children mapping mapping _ _ _ _ (mapping_bound data mapping Hfill) Hlink)
    as (_ & _ & Hch).
  intros i j ld. rewrite Hch. split.
  - intros [Hin|(id & pd & pid & x & Hin & Hp & Hget)].
    + unfold StratifySpec.children_of in Hin. rewrite list_lookup_fmap in Hin.
      destruct (data !! i); simpl in Hin; inversion Hin.
    + exists pid.
      apply (mapping_get_data data mapping pid i x Hfill) in Hget
        as (d & p & Hd & Hi & _ & _).
      split; [exists d; auto|].
      destruct (mapping_elem_get mapping id (j, pd) Hin) as [[j' pd'] Hget'].
      destruct (fill_mapping_appends _ _ _ _ Hfill) as (entries & Hm & Hlen & Hent).
      simpl in Hm. subst entries.
      apply list_elem_of_lookup in Hin as [k Hk].
      destruct (lookup_lt_is_Some_2 data k) as [dk Hdk].
      { rewrite <- Hlen. eapply lookup_lt_Some. exact Hk. }
      destruct (Hent k dk Hdk) as (id1 & p1 & He & Hi1 & Hp1). simpl in He, Hi1, Hp1.
      pose proof (eq_trans (eq_sym Hk) He) as Heq. injection Heq as -> -> ->.
      exists dk, p1. auto.
  - intros (pid & (d & Hd & Hi) & (dj & p & Hdj & Hp & Hin)). right.
    destruct (fill_mapping_appends _ _ _ _ Hfill) as (entries & Hm & Hlen & Hent).
    simpl in Hm. subst entries.
    destruct (Hent j dj Hdj) as (idj & pj & He & _ & Hpj). simpl in He, Hpj.
    rewrite Hp in Hpj. injection Hpj as <-.
    destruct (Hent i d Hd) as (idi & pi & Hei & Hii & Hpi). simpl in Hei, Hii, Hpi.
    exists idj, (default [] p), pid, (default [] pi).
    split; [apply list_elem_of_lookup; eauto|]. split; [exact Hin|].
    apply (mapping_get_data data mapping pid i _ Hfill). exists d, pi. auto.
Qed.

(** X1: When [stratify] returns, it has created one node object per data
    element, in order, whether or not the node can be reached from the
    roots it returns; among these nodes, node [j] is among the children of
    node [i] exactly when element [j] names the id of element [i] as a
    parent, and the link carries the datum given with that parent id. *)
Theorem stratify_links_follow_parent_ids data dag :
  stratify data = Ok dag ->
  Stratify.data <$> Stratify.nodes dag = data /\
  forall i j ld,
    (j, ld) ∈ StratifySpec.children_of (Stratify.nodes dag) i <->
    exists pid, has_id data i pid /\ names_parent data j pid ld.
Proof.
  intros H. split.
  - exact (stratify_nodes_data data dag H).
  - exact (stratify_children_of data dag H).
Qed.

(** After the first loop, the entries are the data elements. *)
Lemma mapping_entry_data data (m : Mapping) id j pd :
  fill_mapping data 0 [] = Ok m ->
  (id, (j, pd)) ∈ m <->
  exists d p, data !! j = Some d /\ idOp d j = Ok id /\
              parentDataOp d j = Ok p /\ pd = default [] p.
Proof.
  intros Hfill.
  destruct (fill_mapping_appends _ _ _ _ Hfill) as (entries & Hm & Hlen & Hent).
  simpl in Hm. subst entries. split.
  - intros Hin. apply list_elem_of_lookup in Hin as [k Hk].
    destruct (lookup_lt_is_Some_2 data k) as [dk Hdk].
    { rewrite <- Hlen. eapply lookup_lt_Some. exact Hk. }
    destruct (Hent k dk Hdk) as (id1 & p1 & He & Hi1 & Hp1). simpl in He, Hi1, Hp1.
    pose proof (eq_trans (eq_sym Hk) He) as Heq. injection Heq as -> -> ->.
    exists dk, p1. auto.
  - intros (d & p & Hd & Hi & Hp & ->).
    destruct (Hent j d Hd) as (id1 & p1 & He & Hi1 & Hp1). simpl in He, Hi1, Hp1.
    rewrite Hi in Hi1. injection Hi1 as <-. rewrite Hp in Hp1. injection Hp1 as <-.
    apply list_elem_of_lookup. exists j. exact He.
Qed.

Lemma new_roots_elem (todo : Mapping) r :
  r ∈ StratifySpec.new_roots todo <-> exists id, (id, (r, [])) ∈ todo.
Proof.
  unfold StratifySpec.new_roots. rewrite list_elem_of_In, in_flat_map. split.
  - intros ([id [node pdata]] & Hin & Hr). apply list_elem_of_In in Hin.
    destruct pdata; [|inversion Hr].
    destruct Hr as [->|[]]. exists id. exact Hin.
  - intros [id Hin]. exists (id, (r, [])). split; [apply list_elem_of_In, Hin | left; reflexivity].
Qed.

Lemma new_roots_sublist (todo : Mapping) :
  sublist (StratifySpec.new_roots todo) (map (fun e => e.2.1) todo).
Proof.
  induction todo as [|[id [node pdata]] rest IH]; [constructor|].
  unfold StratifySpec.new_roots. simpl. destruct pdata; simpl.
  - apply sublist_skip, IH.
  - apply sublist_cons, IH.
Qed.

(** X2: On success the roots handed to [verifyDag] are exactly the data
    elements that name no parent, in data order; the dag returned is the
    root itself when there is one, and a [LayoutDagRoot] over the roots
    when there are several. *)
Theorem stratify_roots_are_parentless data dag :
  stratify data = Ok dag ->
  exists roots,
    (forall r, r ∈ roots <-> parentless data r) /\
    sublist roots (seq 0 (length data)) /\
    verifyDag_ok (Stratify.nodes dag) roots = true /\
    Stratify.handle dag = (if (1 <? length roots)%nat then Stratify.LayoutDagRoot roots
                           else Stratify.RootNode (head roots)).
Proof.
  intros H. apply stratify_ok_inv in H as (mapping & roots & Hfill & Hlink & Hv & Hh).
  destruct (link_all_children mapping mapping _ _ _ _ (mapping_bound data mapping Hfill) Hlink)
    as (_ & Hr & _).
  simpl in Hr. subst roots. eexists. split; [|split; [|split; [exact Hv | exact Hh]]].
  - intros r. rewrite new_roots_elem. split.
    + intros [id Hin].
      apply (mapping_entry_data data mapping id r [] Hfill) in Hin as (d & p & Hd & _ & Hp & Hnil).
      exists d, p. auto.
    + intros (d & p & Hd & Hp & Hnil).
      destruct (fill_mapping_appends _ _ _ _ Hfill) as (entries & _ & _ & Hent).
      destruct (Hent r d Hd) as (id & p' & _ & Hid & _). simpl in Hid.
      exists id. apply (mapping_entry_data data mapping id r [] Hfill).
      exists d, p. auto.
  - replace (seq 0 (length data)) with (map (fun e : string * (nat * list (string * L)) => e.2.1) mapping);
      [apply new_roots_sublist|].
    destruct (fill_mapping_appends _ _ _ _ Hfill) as (entries & Hm & Hlen & Hent).
    simpl in Hm. subst entries.
    apply list_eq. intros k. rewrite list_lookup_fmap.
    destruct (decide (k < length data)%nat) as [Hk|Hk].
    + destruct (lookup_lt_is_Some_2 data k Hk) as [d Hd].
      destruct (Hent k d Hd) as (id & p & He & _ & _). simpl in He.
      rewrite lookup_seq_lt by exact Hk.
      pose proof He as He'. unfold Stratify.Mapping in *. rewrite He'. reflexivity.
    + rewrite lookup_seq_ge by lia.
      rewrite (lookup_ge_None_2 mapping k); [reflexivity|]. rewrite Hlen. lia.
Qed.

(** Why the first loop can fail. *)
Lemma fill_mapping_throws data : forall i (m : Mapping) e,
  (forall k d, data !! k = Some d ->
     (exists s, idOp d (i + k)%nat = Ok s) /\ (exists p, parentDataOp d (i + k)%nat = Ok p)) ->
  fill_mapping data i m = Throw e ->
  (exists s k d, e = InvalidId s /\ data !! k = Some d /\
                 idOp d (i + k)%nat = Ok s /\ valid_id s = false) \/
  (exists s, e = DuplicateId s /\
     ((Stratify.mapping_has m s = true /\
       exists k d, data !! k = Some d /\ idOp d (i + k)%nat = Ok s) \/
      (exists j k dj dk, (j < k)%nat /\ data !! j = Some dj /\ data !! k = Some dk /\
                         idOp dj (i + j)%nat = Ok s /\ idOp dk (i + k)%nat = Ok s))).
Proof.
  induction data as [|d rest IH]; intros i m e Hpure H; [discriminate|].
  destruct (Hpure 0%nat d eq_refl) as [[id Hid] [p Hp]]. rewrite Nat.add_0_r in Hid, Hp.
  simpl in H. rewrite Hid in H. simpl in H. unfold Stratify.verifyId in H.
  destruct (valid_id id) eqn:Ev; simpl in H.
  - rewrite Hp in H. simpl in H.
    destruct (Stratify.mapping_has m id) eqn:Eh.
    + injection H as <-. right. exists id. split; [reflexivity|]. left.
      split; [exact Eh|]. exists 0%nat, d. rewrite Nat.add_0_r. auto.
    + apply IH in H.
      * destruct H as [(s & k & dk & -> & Hk & Hs & Hv)
                      |(s & -> & [[Hh (k & dk & Hk & Hs)]
                                  |(j & k & dj & dk & Hjk & Hj & Hk & Hsj & Hsk)])].
        -- left. exists s, (S k), dk.
           replace (i + S k)%nat with (S i + k)%nat by lia. auto.
        -- right. exists s. split; [reflexivity|].
           rewrite mapping_has_app in Hh. apply orb_true_iff in Hh as [Hh|Hh].
           ++ left. split; [exact Hh|]. exists (S k), dk.
              replace (i + S k)%nat with (S i + k)%nat by lia. auto.
           ++ apply String.eqb_eq in Hh. subst s. right.
              exists 0%nat, (S k), d, dk. rewrite Nat.add_0_r.
              replace (i + S k)%nat with (S i + k)%nat by lia.
              split; [lia|]. auto.
        -- right. exists s. split; [reflexivity|]. right.
           exists (S j), (S k), dj, dk.
           replace (i + S j)%nat with (S i + j)%nat by lia.
           replace (i + S k)%nat with (S i + k)%nat by lia.
           split; [lia|]. auto.
      * intros k dk Hk. replace (S i + k)%nat with (i + S k)%nat by lia.
        apply (Hpure (S k) dk). exact Hk.
  - injection H as <-. left. exists id, 0%nat, d. rewrite Nat.add_0_r. auto.
Qed.

(** Why the second loop can fail. *)
Lemma link_parents_throws (mapping : Mapping) node pdata : forall (ns : Nodes) e,
  Stratify.link_parents mapping node pdata ns = Throw e ->
  exists pid ld, e = MissingId pid /\ (pid, ld) ∈ pdata /\
                 Stratify.mapping_get mapping pid = None.
Proof.
  induction pdata as [|[pid0 ld0] rest IH]; intros ns e H; [discriminate|].
  simpl in H. destruct (Stratify.mapping_get mapping pid0) as [[par x]|] eqn:E.
  - apply IH in H as (pid & ld & -> & Hin & Hget).
    exists pid, ld. split; [reflexivity|]. split; [right; exact Hin | exact Hget].
  - injection H as <-. exists pid0, ld0. split; [reflexivity|]. split; [left | exact E].
Qed.

Lemma link_all_throws (mapping : Mapping) todo : forall (ns : Nodes) roots e,
  Stratify.link_all mapping todo ns roots = Throw e ->
  exists pid ld id node pdata,
    e = MissingId pid /\ (id, (node, pdata)) ∈ todo /\ (pid, ld) ∈ pdata /\
    Stratify.mapping_get mapping pid = None.
Proof.
  induction todo as [|[id0 [node0 pdata0]] rest IH]; intros ns roots e H; [discriminate|].
  simpl in H.
  destruct (Stratify.link_parents mapping node0 pdata0 ns) as [ns1|e1] eqn:E; simpl in H.
  - apply IH in H as (pid & ld & id & node & pdata & -> & Hin & Hp & Hget).
    exists pid, ld, id, node, pdata. split; [reflexivity|]. split; [right; exact Hin|]. auto.
  - injection H as <-. apply link_parents_throws in E as (pid & ld & -> & Hin & Hget).
    exists pid, ld, id0, node0, pdata0. split; [reflexivity|]. split; [left|]. auto.
Qed.

(** X3: When the accessors themselves do not raise, every error of [stratify]
    has its cause in the data: empty data, an id that [verifyId] rejects, an
    id produced twice, a parent id that no element has, or a graph that
    [verifyDag] rejects. *)
Theorem stratify_errors_have_causes data e :
  StratifySpec.accessors_return idOp parentDataOp data ->
  stratify data = Throw e ->
  (e = EmptyData /\ data = []) \/
  (exists s i, e = InvalidId s /\ has_id data i s /\ valid_id s = false) \/
  (exists s i j, e = DuplicateId s /\ i <> j /\ has_id data i s /\ has_id data j s) \/
  (exists pid j ld, e = MissingId pid /\ names_parent data j pid ld /\
                    forall i, ~ has_id data i pid) \/
  e = InvalidDag.
Proof.
  intros Hpure H. unfold Stratify.stratify in H.
  destruct data as [|d0 rest] eqn:Edata.
  { injection H as <-. left. auto. }
  rewrite <- Edata in *. right.
  destruct (fill_mapping data 0 []) as [mapping|e1] eqn:Efill; simpl in H.
  - destruct (Stratify.link_all mapping mapping _ []) as [[ns' roots]|e2] eqn:Elink;
      simpl in H.
    + unfold Stratify.verifyDag in H. destruct (verifyDag_ok ns' roots); simpl in H;
        [discriminate|]. injection H as <-. auto.
    + injection H as <-.
      apply link_all_throws in Elink as (pid & ld & id & node & pdata & -> & Hin & Hp & Hget).
      right. right. left. exists pid, node, ld. split; [reflexivity|]. split.
      * apply (mapping_entry_data data mapping id node pdata Efill) in Hin
          as (d & p & Hd & _ & Hpd & ->).
        exists d, p. auto.
      * intros i (d & Hd & Hi).
        destruct (fill_mapping_ids idOp parentDataOp valid_id data 0%nat [] mapping i d pid
                    Efill Hd Hi) as [_ Hhas].
        unfold Stratify.mapping_has in Hhas. rewrite Hget in Hhas. discriminate.
  - injection H as <-.
    apply fill_mapping_throws in Efill.
    + destruct Efill as [(s & k & d & -> & Hk & Hs & Hv)
                        |(s & -> & [[Hh _]|(j & k & dj & dk & Hjk & Hj & Hk & Hsj & Hsk)])].
      * left. exists s, k. split; [reflexivity|]. split; [exists d; auto | exact Hv].
      * discriminate.
      * right. left. exists s, j, k. split; [reflexivity|]. split; [lia|].
        split; [exists dj | exists dk]; auto.
    + intros k d Hk. apply (Hpure k d Hk).
Qed.

End StratifyMore.

(** ** Longest path layering: the result is a layering *)
Section LayeringFacts.
Context {N : Type}.
Variable idescendants : Dag.Dag N -> Dag.Style -> list nat.
Implicit Types (dag : Dag.Dag N) (value : gmap nat num).

Local Abbreviation longestPathCall := (LongestPath.longestPathCall idescendants).

Lemma links_from_elem dag : forall i k child count,
  (child, count) ∈ Dag.children dag k -> ((i + k)%nat, child, count) ∈ Dag.links_from i dag.
Proof.
  induction dag as [|n dag IH]; intros i k child count H.
  - unfold Dag.children in H. destruct k; simpl in H; inversion H.
  - rewrite links_from_cons. apply elem_of_app. destruct k as [|k].
    + left. unfold Dag.children in H. simpl in H. rewrite Nat.add_0_r.
      apply list_elem_of_fmap. exists (child, count). split; [reflexivity | exact H].
    + right. replace (i + S k)%nat with (S i + k)%nat by lia. apply IH. exact H.
Qed.

Lemma links_children dag par child count :
  (par, child, count) ∈ Dag.links dag <-> (child, count) ∈ Dag.children dag par.
Proof.
  split; [apply elem_of_links|]. intros H. apply (links_from_elem dag 0 par). exact H.
Qed.

(** [getParentCounts] lists, for each node, the links that enter it. *)
Lemma getParentCounts_elem dag node par count :
  (par, count) ∈ default [] (Dag.getParentCounts dag !! node) <->
  (node, count) ∈ Dag.children dag par.
Proof.
  rewrite <- links_children. unfold Dag.getParentCounts.
  assert (Hgen : forall ls (acc : gmap nat (list (nat * Z))),
    (par, count) ∈ default [] (fold_left
        (fun parents '(par, child, count) =>
           <[child := default [] (parents !! child) ++ [(par, count)]]> parents)
        ls acc !! node) <->
    (par, count) ∈ default [] (acc !! node) \/ (par, node, count) ∈ ls).
  { induction ls as [|[[p c] cnt] ls IH]; intros acc; simpl.
    - split; [auto|]. intros [H|H]; [exact H | inversion H].
    - rewrite IH. destruct (decide (c = node)) as [->|Hne].
      + rewrite lookup_insert_eq. simpl. rewrite elem_of_app, list_elem_of_singleton.
        rewrite elem_of_cons. split.
        * intros [[H|H]|H]; auto. injection H as -> ->. auto.
        * intros [H|[H|H]]; auto. injection H as -> ->. auto.
      + rewrite lookup_insert_ne by exact Hne. rewrite elem_of_cons. split.
        * intros [H|H]; auto.
        * intros [H|[H|H]]; auto. injection H as -> -> ->. congruence. }
  rewrite Hgen, lookup_empty. simpl. split; [|auto].
  intros [H|H]; [inversion H | exact H].
Qed.

(** [Math.max(a, ...xs)] over numbers: an upper bound that is attained. *)
Lemma fold_num_max_spec xs : forall a,
  Forall (fun x => exists z, x = Num z) xs ->
  exists r, fold_left num_max xs (Num a) = Num r /\ a <= r /\
            (forall z, Num z ∈ xs -> z <= r) /\ (r = a \/ Num r ∈ xs).
Proof.
  induction xs as [|x xs IH]; intros a Hall; simpl.
  - exists a. split; [reflexivity|]. split; [lia|]. split; [|auto].
    intros z Hz. inversion Hz.
  - inversion Hall as [|? ? [z ->] Hall']; subst. simpl.
    destruct (IH (Z.max a z) Hall') as (r & Hr & Hle & Hub & Hatt).
    exists r. split; [exact Hr|]. split; [lia|]. split.
    + intros z' Hz'. apply elem_of_cons in Hz' as [Heq|Hz']; [|auto].
      injection Heq as ->. lia.
    + destruct Hatt as [->|Hin]; [|right; right; exact Hin].
      destruct (Z.max_spec a z) as [[_ ->]|[_ ->]]; [right; left | left; reflexivity].
Qed.

Lemma visit_down_ok dag seen value node :
  Layering.down_ok dag seen value ->
  node ∉ seen ->
  (forall par count, (node, count) ∈ Dag.children dag par -> par ∈ seen) ->
  Layering.down_ok dag (seen ++ [node])
    (LongestPath.visit_down (Dag.getParentCounts dag) value node).
Proof.
  intros Hinv Hnew Hpar. unfold LongestPath.visit_down.
  set (ps := default [] (Dag.getParentCounts dag !! node)).
  set (xs := map (fun '(par, count) => num_add (value !! par) (LongestPath.span count)) ps).
  assert (Hps : forall par count, (par, count) ∈ ps <-> (node, count) ∈ Dag.children dag par)
    by (intros; apply getParentCounts_elem).
  assert (Hxs : forall par count, (par, count) ∈ ps ->
            exists a, value !! par = Some (Num a) /\
                      num_add (value !! par) (LongestPath.span count)
                        = Num (a + LongestPath.span count)).
  { intros par count Hin. apply Hps in Hin.
    destruct (Hinv par (Hpar _ _ Hin)) as (a & Ha & _). exists a. rewrite Ha. auto. }
  destruct (fold_num_max_spec xs 0) as (r & Hr & Hr0 & Hub & Hatt).
  { apply Forall_forall. intros x Hx. apply list_elem_of_fmap in Hx as ([par count] & -> & Hin).
    destruct (Hxs par count Hin) as (a & _ & ->). eauto. }
  fold (math_max0 xs) in Hr. rewrite Hr.
  intros n Hn. destruct (decide (n = node)) as [->|Hne].
  - exists r. rewrite lookup_insert_eq. split; [reflexivity|]. split; [exact Hr0|]. split.
    + intros par count Hin. pose proof (Hpar _ _ Hin) as Hseen.
      split; [apply elem_of_app; left; exact Hseen|].
      apply Hps in Hin. destruct (Hxs par count Hin) as (a & Ha & Hadd).
      exists a. rewrite lookup_insert_ne by (intros ->; contradiction).
      split; [exact Ha|]. apply Hub. rewrite <- Hadd.
      apply list_elem_of_fmap. exists (par, count). auto.
    + destruct Hatt as [->|Hin]; [left; reflexivity|]. right.
      apply list_elem_of_fmap in Hin as ([par count] & Heq & Hin).
      destruct (Hxs par count Hin) as (a & Ha & Hadd). rewrite Hadd in Heq.
      injection Heq as ->. exists par, count, a.
      split; [apply Hps, Hin|].
      rewrite lookup_insert_ne; [auto|]. intros ->. apply Hnew, Hpar with count, Hps, Hin.
  - apply elem_of_app in Hn as [Hn|Hn]; [|apply list_elem_of_singleton in Hn; congruence].
    destruct (Hinv n Hn) as (z & Hz & Hz0 & Hup & Htight).
    exists z. rewrite lookup_insert_ne by congruence.
    split; [exact Hz|]. split; [exact Hz0|]. split.
    + intros par count Hin. destruct (Hup par count Hin) as (Hseen & a & Ha & Hle).
      split; [apply elem_of_app; left; exact Hseen|]. exists a.
      rewrite lookup_insert_ne by (intros ->; contradiction). auto.
    + destruct Htight as [->|(par & count & a & Hin & Ha & ->)]; [left; reflexivity|].
      right. exists par, count, a. split; [exact Hin|].
      destruct (Hup par count Hin) as (Hseen & _).
      rewrite lookup_insert_ne by (intros ->; contradiction). auto.
Qed.

Lemma top_down_ok dag value order :
  NoDup order ->
  (forall pre node suf par count, order = pre ++ node :: suf ->
     (node, count) ∈ Dag.children dag par -> par ∈ pre) ->
  Layering.down_ok dag order
    (fold_left (LongestPath.visit_down (Dag.getParentCounts dag)) order value).
Proof.
  induction order as [|node order IH] using rev_ind; intros Hnd Hpre.
  - intros n Hn. inversion Hn.
  - rewrite fold_left_app. simpl. apply NoDup_app in Hnd as (Hnd & Hdisj & _).
    apply visit_down_ok.
    + apply IH; [exact Hnd|]. intros pre n suf par count Heq.
      apply (Hpre pre n (suf ++ [node])). rewrite Heq, <- app_assoc. reflexivity.
    + intros Hin. apply (Hdisj node Hin). left.
    + intros par count. apply (Hpre order node []). reflexivity.
Qed.

(** X6: Top-down longest path: when the traversal visits every node once,
    parents first, the values assigned form a layering, and every layer is
    0 or forced by a parent: no node could be placed higher. *)
Theorem longest_path_top_down_layering dag value :
  Dag.wf dag ->
  LongestPath.reaches_all idescendants dag Dag.before ->
  NoDup (idescendants dag Dag.before) ->
  Layering.parents_first idescendants dag ->
  let result := longestPathCall {| Options.topDown := true |} dag value in
  Layering.valid_layering dag result /\ Layering.tight_layering dag result.
Proof.
  intros Hwf Hall Hnd Hpf result.
  pose proof (top_down_ok dag value _ Hnd Hpf) as Hinv.
  assert (Hres : result = fold_left (LongestPath.visit_down (Dag.getParentCounts dag))
                            (idescendants dag Dag.before) value) by reflexivity.
  rewrite <- Hres in Hinv. clearbody result. split; [split|].
  - intros n Hn. destruct (Hinv n (Hall n Hn)) as (z & Hz & Hz0 & _). eauto.
  - intros par child count Hin.
    destruct (Hinv child (Hall child (Hwf _ _ _ Hin))) as (b & Hb & _ & Hup & _).
    destruct (Hup par count Hin) as (_ & a & Ha & Hle). eauto.
  - intros n z Hn Hz.
    destruct (Hinv n (Hall n Hn)) as (z' & Hz' & _ & _ & Htight).
    rewrite Hz in Hz'. injection Hz' as <-. exact Htight.
Qed.

Lemma visit_up_layering dag seen st node :
  Layering.up_ok dag seen st ->
  node ∉ seen ->
  (forall child count, (child, count) ∈ Dag.children dag node -> child ∈ seen) ->
  Layering.up_ok dag (seen ++ [node]) (LongestPath.visit_up dag st node).
Proof.
  intros (M & HM & HM0 & Hseen) Hnew Hch. destruct st as [value mh]. simpl in *. subst mh.
  set (xs := map (fun '(child, count) => num_add (value !! child) (LongestPath.span count))
                 (Dag.children dag node)).
  assert (Hxs : forall child count, (child, count) ∈ Dag.children dag node ->
            exists a, value !! child = Some (Num a) /\ 0 <= a /\
                      num_add (value !! child) (LongestPath.span count)
                        = Num (a + LongestPath.span count)).
  { intros child count Hin.
    destruct (Hseen child (Hch _ _ Hin)) as (a & Ha & Hb & _). exists a. rewrite Ha. auto with lia. }
  destruct (fold_num_max_spec xs 0) as (r & Hr & Hr0 & Hub & _).
  { apply Forall_forall. intros x Hx. apply list_elem_of_fmap in Hx as ([c cnt] & -> & Hin).
    destruct (Hxs c cnt Hin) as (a & _ & _ & ->). eauto. }
  fold (math_max0 xs) in Hr.
  exists (Z.max M r). unfold LongestPath.visit_up. fold xs. rewrite Hr. simpl.
  split; [reflexivity|]. split; [lia|].
  intros n Hn. destruct (decide (n = node)) as [->|Hne].
  - exists r. rewrite lookup_insert_eq. split; [reflexivity|]. split; [lia|].
    intros child count Hin. pose proof (Hch _ _ Hin) as Hs.
    split; [apply elem_of_app; left; exact Hs|].
    destruct (Hxs child count Hin) as (a & Ha & _ & Hadd). exists a.
    rewrite lookup_insert_ne by (intros ->; contradiction).
    split; [exact Ha|]. apply Hub. rewrite <- Hadd.
    apply list_elem_of_fmap. exists (child, count). auto.
  - apply elem_of_app in Hn as [Hn|Hn]; [|apply list_elem_of_singleton in Hn; congruence].
    destruct (Hseen n Hn) as (z & Hz & Hb & Hdown).
    exists z. rewrite lookup_insert_ne by congruence.
    split; [exact Hz|]. split; [lia|].
    intros child count Hin. destruct (Hdown child count Hin) as (Hs & a & Ha & Hle).
    split; [apply elem_of_app; left; exact Hs|]. exists a.
    rewrite lookup_insert_ne by (intros ->; contradiction). auto.
Qed.

Lemma bottom_up_layering dag value order :
  NoDup order ->
  (forall pre node suf child count, order = pre ++ node :: suf ->
     (child, count) ∈ Dag.children dag node -> child ∈ pre) ->
  Layering.up_ok dag order (fold_left (LongestPath.visit_up dag) order (value, Num 0)).
Proof.
  induction order as [|node order IH] using rev_ind; intros Hnd Hpost.
  - simpl. exists 0. split; [reflexivity|]. split; [lia|]. intros n Hn. inversion Hn.
  - rewrite fold_left_app. simpl. apply NoDup_app in Hnd as (Hnd & Hdisj & _).
    apply visit_up_layering.
    + apply IH; [exact Hnd|]. intros pre n suf c cnt Heq.
      apply (Hpost pre n (suf ++ [node])). rewrite Heq, <- app_assoc. reflexivity.
    + intros Hin. apply (Hdisj node Hin). left.
    + intros c cnt. apply (Hpost order node []). reflexivity.
Qed.

(** X7: Bottom-up longest path: when the traversal visits every node once,
    children first, the values assigned form a layering. *)
Theorem longest_path_bottom_up_layering dag value :
  Dag.wf dag ->
  LongestPath.reaches_all idescendants dag Dag.after ->
  NoDup (idescendants dag Dag.after) ->
  LongestPath.children_first idescendants dag ->
  Layering.valid_layering dag (longestPathCall {| Options.topDown := false |} dag value).
Proof.
  intros Hwf Hall Hnd Hpost. unfold LongestPath.longestPathCall. simpl.
  pose proof (bottom_up_layering dag value _ Hnd Hpost) as Hinv.
  destruct (fold_left (LongestPath.visit_up dag) (idescendants dag Dag.after)
              (value, Num 0)) as [value' mh].
  destruct Hinv as (M & HM & HM0 & Hseen). simpl in *. subst mh.
  assert (Hlen : forall par child count, (child, count) ∈ Dag.children dag par ->
                   (par < length dag)%nat).
  { intros par child count Hin. unfold Dag.children in Hin.
    destruct (dag !! par) eqn:E; [eapply lookup_lt_Some; exact E | inversion Hin]. }
  split.
  - intros n Hn. rewrite flip_all. case_decide; [|lia].
    destruct (Hseen n (Hall n Hn)) as (z & -> & Hb & _).
    exists (M - z). simpl. split; [reflexivity | lia].
  - intros par child count Hin.
    pose proof (Hlen _ _ _ Hin) as Hp. pose proof (Hwf _ _ _ Hin) as Hc.
    rewrite !flip_all. repeat case_decide; try lia.
    destruct (Hseen par (Hall par Hp)) as (z & Hz & Hb & Hdown).
    destruct (Hdown child count Hin) as (_ & a & Ha & Hle).
    rewrite Hz, Ha. simpl. exists (M - z), (M - a). split; [reflexivity|].
    split; [reflexivity | lia].
Qed.

Lemma visit_up_tight dag seen st node :
  Layering.up_ok dag seen st ->
  Layering.up_tight dag seen st ->
  node ∉ seen ->
  (forall child count, (child, count) ∈ Dag.children dag node -> child ∈ seen) ->
  Layering.up_tight dag (seen ++ [node]) (LongestPath.visit_up dag st node).
Proof.
  intros (M & HM & HM0 & Hseen) Htight Hnew Hch. destruct st as [value mh].
  unfold Layering.up_tight in *. simpl in *. subst mh.
  set (xs := map (fun '(child, count) => num_add (value !! child) (LongestPath.span count))
                 (Dag.children dag node)).
  assert (Hxs : forall child count, (child, count) ∈ Dag.children dag node ->
            exists a, value !! child = Some (Num a) /\
                      num_add (value !! child) (LongestPath.span count)
                        = Num (a + LongestPath.span count)).
  { intros child count Hin.
    destruct (Hseen child (Hch _ _ Hin)) as (a & Ha & _). exists a. rewrite Ha. auto. }
  destruct (fold_num_max_spec xs 0) as (r & Hr & _ & _ & Hatt).
  { apply Forall_forall. intros x Hx. apply list_elem_of_fmap in Hx as ([c cnt] & -> & Hin).
    destruct (Hxs c cnt Hin) as (a & _ & ->). eauto. }
  fold (math_max0 xs) in Hr. fold xs. rewrite Hr. simpl.
  intros n z Hn Hz. destruct (decide (n = node)) as [->|Hne].
  - rewrite lookup_insert_eq in Hz. injection Hz as <-.
    destruct Hatt as [->|Hin]; [left; reflexivity|]. right.
    apply list_elem_of_fmap in Hin as ([c cnt] & Heq & Hin).
    destruct (Hxs c cnt Hin) as (a & Ha & Hadd). rewrite Hadd in Heq. injection Heq as ->.
    exists c, cnt, a. split; [exact Hin|]. split; [|reflexivity].
    rewrite lookup_insert_ne; [exact Ha|]. intros ->. exact (Hnew (Hch _ _ Hin)).
  - rewrite lookup_insert_ne in Hz by congruence.
    apply elem_of_app in Hn as [Hn|Hn]; [|apply list_elem_of_singleton in Hn; congruence].
    destruct (Htight n z Hn Hz) as [->|(c & cnt & a & Hin & Ha & ->)]; [left; reflexivity|].
    right. exists c, cnt, a. split; [exact Hin|]. split; [|reflexivity].
    rewrite lookup_insert_ne; [exact Ha|]. intros Heq. rewrite <- Heq in Hin.
    destruct (Hseen n Hn) as (z' & _ & _ & Hdown).
    destruct (Hdown node cnt Hin) as [Hs _]. exact (Hnew Hs).
Qed.

Lemma bottom_up_tight dag value order :
  NoDup order ->
  (forall pre node suf child count, order = pre ++ node :: suf ->
     (child, count) ∈ Dag.children dag node -> child ∈ pre) ->
  Layering.up_tight dag order (fold_left (LongestPath.visit_up dag) order (value, Num 0)).
Proof.
  induction order as [|node order IH] using rev_ind; intros Hnd Hpost.
  - intros n z Hn. inversion Hn.
  - rewrite fold_left_app. simpl. apply NoDup_app in Hnd as (Hnd & Hdisj & _).
    assert (Hpre : forall pre n suf c cnt, order = pre ++ n :: suf ->
              (c, cnt) ∈ Dag.children dag n -> c ∈ pre).
    { intros pre n suf c cnt Heq.
      apply (Hpost pre n (suf ++ [node])). rewrite Heq, <- app_assoc. reflexivity. }
    apply visit_up_tight.
    + apply bottom_up_layering; assumption.
    + apply IH; assumption.
    + intros Hin. apply (Hdisj node Hin). left.
    + intros c cnt. apply (Hpost order node []). reflexivity.
Qed.

(** C6: top-down, every node without parents gets layer 0; bottom-up,
    every node without children gets the largest layer of the dag.  The
    layers are spaced by the spans of the links, 2 for a multi-link and 1
    otherwise: top-down a node is at least the span below each of its
    parents, and on layer 0 or exactly the span below one of them;
    bottom-up a node is at least the span above each of its children, and
    on the largest layer or exactly the span above one of them. *)
Theorem longest_path_roots_and_leaves dag value :
  (LongestPath.reaches_all idescendants dag Dag.before ->
   forall r, Dag.is_root dag r ->
     longestPathCall {| Options.topDown := true |} dag value !! r = Some (Num 0))
  /\
  (LongestPath.reaches_all idescendants dag Dag.after ->
   LongestPath.children_first idescendants dag ->
   exists maxLayer,
     (forall l, Dag.is_leaf dag l ->
        longestPathCall {| Options.topDown := false |} dag value !! l
          = Some (Num maxLayer)) /\
     (forall n, (n < length dag)%nat ->
        exists k, longestPathCall {| Options.topDown := false |} dag value !! n
                    = Some (Num k) /\ 0 <= k <= maxLayer))
  /\
  (Dag.wf dag ->
   LongestPath.reaches_all idescendants dag Dag.before ->
   NoDup (idescendants dag Dag.before) ->
   Layering.parents_first idescendants dag ->
   Layering.valid_layering dag (longestPathCall {| Options.topDown := true |} dag value) /\
   Layering.tight_layering dag (longestPathCall {| Options.topDown := true |} dag value))
  /\
  (Dag.wf dag ->
   LongestPath.reaches_all idescendants dag Dag.after ->
   NoDup (idescendants dag Dag.after) ->
   LongestPath.children_first idescendants dag ->
   exists maxLayer,
     (forall l, Dag.is_leaf dag l ->
        longestPathCall {| Options.topDown := false |} dag value !! l
          = Some (Num maxLayer)) /\
     Layering.valid_layering dag (longestPathCall {| Options.topDown := false |} dag value) /\
     Layering.tight_from_below dag maxLayer
       (longestPathCall {| Options.topDown := false |} dag value)).
Proof.
  assert (Hlen : forall par child count, (child, count) ∈ Dag.children dag par ->
                   (par < length dag)%nat).
  { intros par child count Hin. unfold Dag.children in Hin.
    destruct (dag !! par) eqn:E; [eapply lookup_lt_Some; exact E | inversion Hin]. }
  split; [|split; [|split]].
  - intros Hall r Hroot. unfold LongestPath.longestPathCall. simpl.
    apply visit_down_root; [exact Hroot|]. left. apply Hall, Hroot.
  - intros Hall Hpost. unfold LongestPath.longestPathCall. simpl.
    pose proof (bottom_up_ok dag value _ Hpost) as Hinv.
    destruct (fold_left (LongestPath.visit_up dag) (idescendants dag Dag.after)
                (value, Num 0)) as [value' mh].
    destruct Hinv as (M & HM & HM0 & Hseen). simpl in *. subst mh.
    exists M. split.
    + intros l [Hl Hleaf]. rewrite flip_all.
      case_decide; [|lia].
      destruct (Hseen l (Hall l Hl)) as (z & -> & _ & Hz).
      rewrite (Hz Hleaf). simpl. do 2 f_equal. lia.
    + intros n Hn. rewrite flip_all. case_decide; [|lia].
      destruct (Hseen n (Hall n Hn)) as (z & -> & Hb & _).
      exists (M - z). simpl. split; [reflexivity | lia].
  - intros Hwf Hall Hnd Hpf.
    pose proof (top_down_ok dag value _ Hnd Hpf) as Hinv.
    unfold LongestPath.longestPathCall. simpl. split; [split|].
    + intros n Hn. destruct (Hinv n (Hall n Hn)) as (z & Hz & Hz0 & _). eauto.
    + intros par child count Hin.
      destruct (Hinv child (Hall child (Hwf _ _ _ Hin))) as (b & Hb & _ & Hup & _).
      destruct (Hup par count Hin) as (_ & a & Ha & Hle). eauto.
    + intros n z Hn Hz.
      destruct (Hinv n (Hall n Hn)) as (z' & Hz' & _ & _ & Htight).
      rewrite Hz in Hz'. injection Hz' as <-. exact Htight.
  - intros Hwf Hall Hnd Hpost. unfold LongestPath.longestPathCall. simpl.
    pose proof (bottom_up_layering dag value _ Hnd Hpost) as Hinv.
    pose proof (bottom_up_tight dag value _ Hnd Hpost) as Htight.
    pose proof (bottom_up_ok dag value _ Hpost) as Hleaves.
    destruct (fold_left (LongestPath.visit_up dag) (idescendants dag Dag.after)
                (value, Num 0)) as [value' mh].
    destruct Hinv as (M & HM & HM0 & Hseen).
    destruct Hleaves as (M' & HM' & _ & Hleaves).
    unfold Layering.up_tight in Htight. simpl in *. subst mh. injection HM' as <-.
    exists M. split; [|split; [split|]].
    + intros l [Hl Hleaf]. rewrite flip_all. case_decide; [|lia].
      destruct (Hleaves l (Hall l Hl)) as (z & -> & _ & Hz).
      rewrite (Hz Hleaf). simpl. do 2 f_equal. lia.
    + intros n Hn. rewrite flip_all. case_decide; [|lia].
      destruct (Hseen n (Hall n Hn)) as (z & -> & Hb & _).
      exists (M - z). simpl. split; [reflexivity | lia].
    + intros par child count Hin.
      pose proof (Hlen _ _ _ Hin) as Hp. pose proof (Hwf _ _ _ Hin) as Hc.
      rewrite !flip_all. repeat case_decide; try lia.
      destruct (Hseen par (Hall par Hp)) as (z & Hz & Hb & Hdown).
      destruct (Hdown child count Hin) as (_ & a & Ha & Hle).
      rewrite Hz, Ha. simpl. exists (M - z), (M - a). split; [reflexivity|].
      split; [reflexivity | lia].
    + intros n z Hn. rewrite flip_all. case_decide; [|lia].
      destruct (Hseen n (Hall n Hn)) as (h & Hh & Hb & _).
      rewrite Hh. simpl. intros [= <-].
      destruct (Htight n h (Hall n Hn) Hh) as [->|(c & cnt & a & Hin & Ha & ->)];
        [left; lia|].
      right. exists c, cnt, (M - a). split; [exact Hin|].
      pose proof (Hwf _ _ _ Hin) as Hc.
      rewrite flip_all. case_decide; [|lia]. rewrite Ha. simpl.
      split; [reflexivity | lia].
Qed.

End LayeringFacts.

(** ** The stratify operator: parent ids and parent data *)
Section StratifyOperatorFacts.
Context {N : Type}.

(** X4: The two wrappers undo each other up to what they drop: the ids of
    wrapped ids are the ids ([undefined] read as no parent), and the data of
    wrapped data are the ids with [undefined] as link datum.  So
    [parentIds(ids).parentData()] and [parentData(data).parentIds()] name the
    same parents as [ids] and [data]. *)
Theorem stratify_wrappers_round_trip {L : Type}
    (op : StratifyOperator.Operator (N:=N) L)
    (ids : N -> nat -> res (option (list string)))
    (pdata : N -> nat -> res (option (list (string * L)))) (d : N) (i : nat) :
  StratifyOperator.wrapParentData
    (StratifyOperator.parentDataOp (StratifyOperator.parentIds op ids)) d i
  = (do l <- ids d i; Ok (Some (default [] l))) /\
  StratifyOperator.wrapParentIds
    (StratifyOperator.parentIdsOp (StratifyOperator.parentData op pdata)) d i
  = (do p <- pdata d i; Ok (Some (map (fun x => (fst x, tt)) (default [] p)))) /\
  StratifyOperator.parentIdsOp (StratifyOperator.parentIds op ids) = ids /\
  StratifyOperator.parentDataOp (StratifyOperator.parentData op pdata) = pdata /\
  StratifyOperator.idOp (StratifyOperator.parentIds op ids) = StratifyOperator.idOp op /\
  StratifyOperator.idOp (StratifyOperator.parentData op pdata) = StratifyOperator.idOp op.
Proof.
  split; [|split; [|repeat split]].
  - simpl. unfold StratifyOperator.wrapParentData, StratifyOperator.wrapParentIds.
    destruct (ids d i) as [l|e]; simpl; [|reflexivity].
    rewrite map_map. simpl. rewrite map_id. reflexivity.
  - simpl. unfold StratifyOperator.wrapParentData, StratifyOperator.wrapParentIds.
    destruct (pdata d i) as [p|e]; simpl; [|reflexivity].
    rewrite map_map. reflexivity.
Qed.

(** X5: An operator built by [parentIds(ids)]: on success node [j] is among the
    children of node [i] exactly when [ids] of element [j] contains the id
    of element [i]; the link carries no datum. *)
Theorem stratify_parent_ids_links {L : Type}
    (valid_id : string -> bool)
    (verifyDag_ok : list (@Stratify.LayoutDagNode N unit) -> list nat -> bool)
    (op : StratifyOperator.Operator (N:=N) L)
    (ids : N -> nat -> res (option (list string))) data dag :
  StratifyOperator.call valid_id verifyDag_ok (StratifyOperator.parentIds op ids) data
    = Ok dag ->
  Stratify.data <$> Stratify.nodes dag = data /\
  forall i j ld,
    (j, ld) ∈ StratifySpec.children_of (Stratify.nodes dag) i <->
    exists pid d l,
      StratifySpec.has_id (StratifyOperator.idOp op) data i pid /\
      data !! j = Some d /\ ids d j = Ok l /\ pid ∈ default [] l.
Proof.
  unfold StratifyOperator.call. simpl. intros H.
  pose proof (stratify_nodes_data _ _ _ _ _ _ H) as Hdata.
  pose proof (stratify_children_of _ _ _ _ _ _ H) as Hch.
  split; [exact Hdata|]. intros i j ld. rewrite Hch. split.
  - intros (pid & Hid & d & p & Hd & Hp & Hin). exists pid, d.
    unfold StratifyOperator.wrapParentIds in Hp.
    destruct (ids d j) as [l|e]; [|discriminate]. simpl in Hp. injection Hp as <-.
    exists l. split; [exact Hid|]. split; [exact Hd|]. split; [reflexivity|].
    simpl in Hin. apply list_elem_of_fmap in Hin as (pid' & Heq & Hin).
    injection Heq as -> _. exact Hin.
  - intros (pid & d & l & Hid & Hd & Hl & Hin). exists pid. split; [exact Hid|].
    exists d, (Some (map (fun id => (id, tt)) (default [] l))).
    split; [exact Hd|]. split.
    + unfold StratifyOperator.wrapParentIds. rewrite Hl. reflexivity.
    + simpl. apply list_elem_of_fmap. exists pid. split; [destruct ld; reflexivity | exact Hin].
Qed.

End StratifyOperatorFacts.

(** ** Simplex layering: the rows of the program *)
Ltac not_a_digit :=
  let d := fresh "d" in
  intros d; unfold pretty_N_char; repeat case_match; discriminate.

Section NameFacts.

Lemma pretty_N_go_avoids (c : ascii) (x : N) : forall s,
  (forall d, pretty_N_char d <> c) ->
  SimplexSpec.avoids c s -> SimplexSpec.avoids c (pretty_N_go x s).
Proof.
  induction (N.lt_wf_0 x) as [x _ IH]; intros s Hc Hs.
  destruct (decide (x = 0)%N) as [->|Hx].
  - rewrite pretty_N_go_0. exact Hs.
  - rewrite pretty_N_go_step by lia. apply IH.
    + apply N.div_lt; lia.
    + exact Hc.
    + split; [apply Hc | exact Hs].
Qed.

(** The decimal form of a number has digits only. *)
Lemma pretty_avoids (c : ascii) (i : nat) :
  (forall d, pretty_N_char d <> c) -> SimplexSpec.avoids c (pretty i).
Proof.
  intros Hc. unfold pretty, pretty_nat, pretty, pretty_N.
  case_decide.
  - simpl. split; [exact (Hc 0%N) | exact I].
  - apply pretty_N_go_avoids; [exact Hc | exact I].
Qed.

Lemma n_no_space (i : nat) : SimplexSpec.avoids " " (Simplex.n i).
Proof. apply pretty_avoids. not_a_digit. Qed.

Lemma append_cancel_l (p s s' : string) : p +:+ s = p +:+ s' -> s = s'.
Proof. induction p as [|c p IH]; simpl; [auto|]. intros [= H]. auto. Qed.

(** Two strings without [c], each followed by [c], are read back from the
    concatenation. *)
Lemma separated_inj (c : ascii) (a a' r r' : string) :
  SimplexSpec.avoids c a -> SimplexSpec.avoids c a' ->
  a +:+ String c r = a' +:+ String c r' -> a = a' /\ r = r'.
Proof.
  revert a'. induction a as [|c1 a IH]; intros [|c2 a'] Ha Ha'; simpl.
  - intros [= ->]. auto.
  - intros [= Hc _]. destruct Ha' as [Hc' _]. congruence.
  - intros [= Hc _]. destruct Ha as [Hc' _]. congruence.
  - intros [= -> H]. destruct Ha as [_ Ha], Ha' as [_ Ha'].
    destruct (IH a' Ha Ha' H) as [-> ->]. auto.
Qed.

(** Constraint names are equal only for the same prefix and the same pair
    of nodes, as long as the prefixes have no colon. *)
Lemma name_inj prefix prefix' a b a' b' :
  SimplexSpec.avoids ":" prefix -> SimplexSpec.avoids ":" prefix' ->
  SimplexSpec.name prefix a b = SimplexSpec.name prefix' a' b' ->
  prefix = prefix' /\ a = a' /\ b = b'.
Proof.
  unfold SimplexSpec.name. intros Hp Hp' H.
  apply (separated_inj ":" prefix prefix' _ _ Hp Hp') in H as [-> H].
  injection H as H.
  apply separated_inj in H as [Ha Hb]; try apply n_no_space.
  injection Hb as Hb.
  split; [reflexivity|].
  split; [exact (inj Simplex.n _ _ Ha) | exact (inj Simplex.n _ _ Hb)].
Qed.

Lemma name_not_opt prefix a b : SimplexSpec.name prefix a b <> "opt".
Proof. apply constraint_name_not_opt. Qed.

End NameFacts.

Ltac colon_free := simpl; repeat split; discriminate.

Section RowFacts.
Variable x : string -> Z.
Implicit Types (vars : gmap string (gmap string Z)) (m : Simplex.Model) (L : string).

Lemma row_delete L vars k v :
  vars !! k = Some v ->
  SimplexSpec.row L vars x = SimplexSpec.row L (delete k vars) x + default 0 (v !! L) * x k.
Proof.
  intros Hk. unfold SimplexSpec.row, Simplex.objective.
  rewrite (map_fold_delete_L _ _ k v vars); [reflexivity | | exact Hk].
  intros. lia.
Qed.

Lemma row_insert_fresh L vars k v :
  vars !! k = None ->
  SimplexSpec.row L (<[k := v]> vars) x = SimplexSpec.row L vars x + default 0 (v !! L) * x k.
Proof.
  intros Hk. unfold SimplexSpec.row, Simplex.objective.
  rewrite map_fold_insert_L; [reflexivity | | exact Hk].
  intros. lia.
Qed.

Lemma row_alter L vars k v (f : gmap string Z -> gmap string Z) :
  vars !! k = Some v ->
  SimplexSpec.row L (alter f k vars) x =
  SimplexSpec.row L vars x - default 0 (v !! L) * x k + default 0 (f v !! L) * x k.
Proof.
  intros Hk. rewrite (row_delete L (alter f k vars) k (f v)).
  - rewrite delete_alter_eq, (row_delete L vars k v Hk). lia.
  - rewrite lookup_alter_eq, Hk. reflexivity.
Qed.

(** A constraint no variable mentions has left-hand side 0. *)
Lemma row_unset L vars : SimplexSpec.unset L vars -> SimplexSpec.row L vars x = 0.
Proof.
  induction vars as [|k v vars Hk IH] using map_ind; intros Hun.
  - reflexivity.
  - rewrite (row_insert_fresh L vars k v Hk), IH.
    + rewrite (Hun k v) by apply lookup_insert_eq. simpl. lia.
    + intros k' var Hk'. apply (Hun k'). rewrite lookup_insert_ne; [exact Hk'|].
      intros ->. congruence.
Qed.

(** An update of one variable that leaves its coefficient for [L] alone. *)
Lemma alter_frame L vars k (f : gmap string Z -> gmap string Z) :
  (forall v, f v !! L = v !! L) ->
  SimplexSpec.row L (alter f k vars) x = SimplexSpec.row L vars x /\
  (SimplexSpec.unset L vars -> SimplexSpec.unset L (alter f k vars)).
Proof.
  intros Hf. split.
  - destruct (vars !! k) as [v|] eqn:Hk.
    + rewrite (row_alter L vars k v f Hk), Hf. lia.
    + rewrite alter_id' by exact Hk. reflexivity.
  - intros Hun k' var Hk'. destruct (decide (k = k')) as [->|Hne].
    + rewrite lookup_alter_eq in Hk'. destruct (vars !! k') as [v|] eqn:E; [|discriminate].
      injection Hk' as <-. rewrite Hf. apply (Hun k' v E).
    + rewrite lookup_alter_ne in Hk' by exact Hne. apply (Hun k' var Hk').
Qed.


Lemma step_keeps_vars (s : SimplexSpec.Step) m k :
  is_Some (Simplex.variables m !! k) ->
  is_Some (Simplex.variables (SimplexSpec.step m s) !! k).
Proof.
  intros H. destruct s as [p a b d|node d]; simpl;
    unfold Simplex.before, Simplex.add_opt; simpl; repeat apply lookup_alter_is_Some; exact H.
Qed.

Lemma run_keeps_vars steps : forall m k,
  is_Some (Simplex.variables m !! k) ->
  is_Some (Simplex.variables (SimplexSpec.run steps m) !! k).
Proof.
  induction steps as [|s steps IH]; intros m k H; simpl; [exact H|].
  apply IH, step_keeps_vars, H.
Qed.

(** A step that does not write [L] leaves its row and its bounds alone. *)
Lemma step_frame (s : SimplexSpec.Step) m L :
  L ∉ SimplexSpec.names [s] -> L <> "opt" ->
  SimplexSpec.row L (Simplex.variables (SimplexSpec.step m s)) x
    = SimplexSpec.row L (Simplex.variables m) x /\
  Simplex.constraints (SimplexSpec.step m s) !! L = Simplex.constraints m !! L /\
  (SimplexSpec.unset L (Simplex.variables m) ->
   SimplexSpec.unset L (Simplex.variables (SimplexSpec.step m s))).
Proof.
  intros Hname Hopt. destruct s as [p a b d|node d]; simpl.
  - assert (Hne : SimplexSpec.name p a b <> L).
    { intros <-. apply Hname. simpl. left. }
    unfold Simplex.before. fold (SimplexSpec.name p a b). simpl.
    destruct (alter_frame L (Simplex.variables m) (Simplex.n a)
                (fun fvar => <[SimplexSpec.name p a b := -1]> fvar)) as [R1 U1].
    { intros v. apply lookup_insert_ne. exact Hne. }
    destruct (alter_frame L (alter (fun fvar => <[SimplexSpec.name p a b := -1]> fvar)
                               (Simplex.n a) (Simplex.variables m)) (Simplex.n b)
                (fun svar => <[SimplexSpec.name p a b := 1]> svar)) as [R2 U2].
    { intros v. apply lookup_insert_ne. exact Hne. }
    split; [congruence|]. split; [apply lookup_insert_ne; exact Hne | auto].
  - unfold Simplex.add_opt. simpl.
    destruct (alter_frame L (Simplex.variables m) (Simplex.n node)
                (fun var => <["opt" := default 0 (var !! "opt") + d]> var)) as [R U].
    { intros v. apply lookup_insert_ne. congruence. }
    auto.
Qed.

Lemma names_cons s steps :
  SimplexSpec.names (s :: steps) = SimplexSpec.names [s] ++ SimplexSpec.names steps.
Proof. unfold SimplexSpec.names. simpl. rewrite app_nil_r. reflexivity. Qed.

Lemma names_app steps steps' :
  SimplexSpec.names (steps ++ steps') = SimplexSpec.names steps ++ SimplexSpec.names steps'.
Proof. unfold SimplexSpec.names. apply flat_map_app. Qed.

Lemma run_app steps steps' m :
  SimplexSpec.run (steps ++ steps') m = SimplexSpec.run steps' (SimplexSpec.run steps m).
Proof. apply fold_left_app. Qed.

Lemma run_frame steps L : forall m,
  L ∉ SimplexSpec.names steps -> L <> "opt" ->
  SimplexSpec.row L (Simplex.variables (SimplexSpec.run steps m)) x
    = SimplexSpec.row L (Simplex.variables m) x /\
  Simplex.constraints (SimplexSpec.run steps m) !! L = Simplex.constraints m !! L /\
  (SimplexSpec.unset L (Simplex.variables m) ->
   SimplexSpec.unset L (Simplex.variables (SimplexSpec.run steps m))).
Proof.
  induction steps as [|s steps IH]; intros m Hname Hopt; simpl; [auto|].
  rewrite names_cons in Hname. apply not_elem_of_app in Hname as [Hs Hrest].
  destruct (step_frame s m L Hs Hopt) as (R1 & C1 & U1).
  destruct (IH (SimplexSpec.step m s) Hrest Hopt) as (R2 & C2 & U2).
  split; [congruence|]. split; [congruence | auto].
Qed.

(** What [before] writes for a fresh name on two different nodes. *)
Lemma before_row prefix a b d m :
  a <> b ->
  is_Some (Simplex.variables m !! Simplex.n a) ->
  is_Some (Simplex.variables m !! Simplex.n b) ->
  SimplexSpec.unset (SimplexSpec.name prefix a b) (Simplex.variables m) ->
  SimplexSpec.row (SimplexSpec.name prefix a b)
    (Simplex.variables (Simplex.before prefix a b d m)) x
    = x (Simplex.n b) - x (Simplex.n a) /\
  Simplex.constraints (Simplex.before prefix a b d m) !! SimplexSpec.name prefix a b
    = Some {| Simplex.min := Some d; Simplex.max := None |}.
Proof.
  intros Hab [va Ha] [vb Hb] Hun. unfold Simplex.before.
  fold (SimplexSpec.name prefix a b). set (L := SimplexSpec.name prefix a b) in *. simpl.
  split; [|apply lookup_insert_eq].
  assert (Hn : Simplex.n a <> Simplex.n b).
  { intros H. apply Hab. exact (inj Simplex.n _ _ H). }
  rewrite (row_alter L _ (Simplex.n b) vb).
  - rewrite (row_alter L _ (Simplex.n a) va _ Ha).
    rewrite (row_unset L _ Hun), (Hun _ _ Ha), (Hun _ _ Hb), !lookup_insert_eq. simpl. lia.
  - rewrite lookup_alter_ne by exact Hn. exact Hb.
Qed.

(** The step [Before] that alone writes its name, on a model that does not
    mention the name yet, leaves exactly its row behind. *)
Lemma run_target pre post prefix a b d m :
  let L := SimplexSpec.name prefix a b in
  L ∉ SimplexSpec.names pre -> L ∉ SimplexSpec.names post ->
  a <> b ->
  is_Some (Simplex.variables m !! Simplex.n a) ->
  is_Some (Simplex.variables m !! Simplex.n b) ->
  SimplexSpec.unset L (Simplex.variables m) ->
  let m' := SimplexSpec.run (pre ++ SimplexSpec.Before prefix a b d :: post) m in
  SimplexSpec.row L (Simplex.variables m') x = x (Simplex.n b) - x (Simplex.n a) /\
  Simplex.constraints m' !! L = Some {| Simplex.min := Some d; Simplex.max := None |}.
Proof.
  intros L Hpre Hpost Hab Ha Hb Hun m'. subst m'. rewrite run_app. simpl.
  assert (Hopt : L <> "opt") by apply name_not_opt.
  destruct (run_frame pre L m Hpre Hopt) as (_ & _ & U1).
  destruct (before_row prefix a b d (SimplexSpec.run pre m) Hab
              (run_keeps_vars pre m _ Ha) (run_keeps_vars pre m _ Hb) (U1 Hun)) as [R C].
  destruct (run_frame post L (Simplex.before prefix a b d (SimplexSpec.run pre m)) Hpost Hopt)
    as (R2 & C2 & _).
  fold L in R, C. split; congruence.
Qed.

End RowFacts.

Section ProgramFacts.
Context {N : Type}.
Implicit Types (options : Options.Simplex N) (dag : Dag.Dag N).

Lemma fold_left_flat_map {A B C : Type} (f : A -> B -> A) (g : C -> list B) (l : list C) :
  forall m, fold_left f (flat_map g l) m = fold_left (fun m c => fold_left f (g c) m) l m.
Proof.
  induction l as [|c l IH]; intros m; simpl; [reflexivity|].
  rewrite fold_left_app. apply IH.
Qed.

Lemma fold_left_ext_eq {A B : Type} (f g : A -> B -> A) (l : list B) :
  (forall a b, f a b = g a b) -> forall m, fold_left f l m = fold_left g l m.
Proof.
  intros Hfg. induction l as [|b l IH]; intros m; simpl; [reflexivity|].
  rewrite Hfg. apply IH.
Qed.

Lemma add_link_run m l : Simplex.add_link m l = SimplexSpec.run (SimplexSpec.link_steps l) m.
Proof. destruct l as [[node child] count]. reflexivity. Qed.

Lemma add_rank_run m p : Simplex.add_rank m p = SimplexSpec.run (SimplexSpec.rank_steps p) m.
Proof.
  destruct p as [[frank fnode] [srank snode]]. simpl.
  destruct (negb (Qle_bool srank frank)); reflexivity.
Qed.

Lemma add_group_run m g : Simplex.add_group m g = SimplexSpec.run (SimplexSpec.group_steps g) m.
Proof.
  unfold Simplex.add_group, SimplexSpec.group_steps, SimplexSpec.run.
  rewrite fold_left_flat_map. apply fold_left_ext_eq.
  intros a [first second]. reflexivity.
Qed.

(** The model handed to the solver is the model of the first loop after
    the elementary updates of the later loops. *)
Lemma program_run options dag :
  Simplex.model (Simplex.program options dag)
  = SimplexSpec.run (SimplexSpec.steps options dag)
      (Simplex.model (SimplexSpec.collected options dag)).
Proof.
  unfold Simplex.program, SimplexSpec.steps. fold (SimplexSpec.collected options dag).
  cbv zeta. simpl. rewrite !run_app. unfold SimplexSpec.run.
  rewrite !fold_left_flat_map.
  rewrite (fold_left_ext_eq Simplex.add_link _ _ add_link_run).
  rewrite (fold_left_ext_eq Simplex.add_rank _ _ add_rank_run).
  rewrite (fold_left_ext_eq Simplex.add_group _ _ add_group_run).
  reflexivity.
Qed.

Lemma names_before L prefix a b d steps :
  L ∈ SimplexSpec.names (SimplexSpec.Before prefix a b d :: steps) ->
  L = SimplexSpec.name prefix a b \/ L ∈ SimplexSpec.names steps.
Proof.
  rewrite names_cons. intros H. apply elem_of_app in H as [H|H]; [left | right; exact H].
  apply list_elem_of_singleton in H. exact H.
Qed.

Lemma names_add_opt L node d steps :
  L ∈ SimplexSpec.names (SimplexSpec.AddOpt node d :: steps) -> L ∈ SimplexSpec.names steps.
Proof. rewrite names_cons. intros H. exact H. Qed.

Lemma link_names L ls :
  L ∈ SimplexSpec.names (flat_map SimplexSpec.link_steps ls) ->
  exists a b c, (a, b, c) ∈ ls /\ L = SimplexSpec.name "link" a b.
Proof.
  induction ls as [|[[a b] c] ls IH]; intros H.
  - inversion H.
  - change (L ∈ SimplexSpec.names
              (SimplexSpec.Before "link" a b (if 1 <? c then 2 else 1) ::
               SimplexSpec.AddOpt a c :: SimplexSpec.AddOpt b (- c) ::
               flat_map SimplexSpec.link_steps ls)) in H.
    apply names_before in H as [->|H].
    + exists a, b, c. split; [left | reflexivity].
    + apply names_add_opt, names_add_opt in H.
      destruct (IH H) as (a' & b' & c' & Hin & ->).
      exists a', b', c'. split; [right; exact Hin | reflexivity].
Qed.

Lemma equal_names L prefix a b steps :
  L ∈ SimplexSpec.names (SimplexSpec.equal_steps prefix a b ++ steps) ->
  L = SimplexSpec.name (prefix +:+ " before") a b \/
  L = SimplexSpec.name (prefix +:+ " after") b a \/
  L ∈ SimplexSpec.names steps.
Proof.
  intros H.
  change (L ∈ SimplexSpec.names
            (SimplexSpec.Before (prefix +:+ " before") a b 0 ::
             SimplexSpec.Before (prefix +:+ " after") b a 0 :: steps)) in H.
  apply names_before in H as [->|H]; [auto|].
  apply names_before in H as [->|H]; auto.
Qed.

Lemma rank_names L bs :
  L ∈ SimplexSpec.names (flat_map SimplexSpec.rank_steps bs) ->
  exists a b, L = SimplexSpec.name "rank" a b \/
              L = SimplexSpec.name "rank before" a b \/
              L = SimplexSpec.name "rank after" a b.
Proof.
  induction bs as [|[[frank fnode] [srank snode]] bs IH]; intros H.
  - inversion H.
  - change (L ∈ SimplexSpec.names
              ((if negb (Qle_bool srank frank)
                then [SimplexSpec.Before "rank" fnode snode 1]
                else SimplexSpec.equal_steps "rank" fnode snode)
               ++ flat_map SimplexSpec.rank_steps bs)) in H.
    destruct (negb (Qle_bool srank frank)).
    + apply names_before in H as [->|H]; [eauto | auto].
    + apply equal_names in H as [->|[->|H]]; [eauto | eauto | auto].
Qed.

Lemma group_names L gs :
  L ∈ SimplexSpec.names (flat_map SimplexSpec.group_steps gs) ->
  exists a b, L = SimplexSpec.name "group before" a b \/
              L = SimplexSpec.name "group after" a b.
Proof.
  induction gs as [|[g nodes] gs IH]; intros H.
  - inversion H.
  - change (L ∈ SimplexSpec.names
              (flat_map (fun '(first, second) => SimplexSpec.equal_steps "group" first second)
                 (bigrams nodes) ++ flat_map SimplexSpec.group_steps gs)) in H.
    induction (bigrams nodes) as [|[first second] ps IHp].
    + apply IH, H.
    + change (L ∈ SimplexSpec.names
                (SimplexSpec.equal_steps "group" first second ++
                 (flat_map (fun '(first, second) => SimplexSpec.equal_steps "group" first second)
                    ps ++ flat_map SimplexSpec.group_steps gs))) in H.
      apply equal_names in H as [->|[->|H]]; [eauto | eauto | auto].
Qed.

(** After the first loop every variable is [{ opt: 0 }]. *)
Lemma add_nodes_shape options (nodes : list (Dag.DagNode N)) : forall st i,
  (forall k v, Simplex.variables (Simplex.model st) !! k = Some v -> v = {["opt" := 0]}) ->
  forall k v,
    Simplex.variables (Simplex.model (Simplex.add_nodes options st i nodes)) !! k = Some v ->
    v = {["opt" := 0]}.
Proof.
  induction nodes as [|node nodes IH]; intros st i Hst; simpl; [exact Hst|].
  apply IH. unfold Simplex.add_node. simpl. intros k v Hk.
  destruct (decide (Simplex.n i = k)) as [<-|Hne].
  - rewrite lookup_insert_eq in Hk. congruence.
  - rewrite lookup_insert_ne in Hk by exact Hne. eapply Hst, Hk.
Qed.

(** The first loop creates the variables and the integer marks of the
    nodes it visits, and no others. *)
Lemma add_nodes_domain options (nodes : list (Dag.DagNode N)) : forall st i k,
  (is_Some (Simplex.variables (Simplex.model (Simplex.add_nodes options st i nodes)) !! k) <->
   is_Some (Simplex.variables (Simplex.model st) !! k) \/
   exists j, (i <= j < i + length nodes)%nat /\ k = Simplex.n j) /\
  (forall v, Simplex.ints (Simplex.model (Simplex.add_nodes options st i nodes)) !! k = Some v <->
   (Simplex.ints (Simplex.model st) !! k = Some v /\
    ~ exists j, (i <= j < i + length nodes)%nat /\ k = Simplex.n j) \/
   (v = 1 /\ exists j, (i <= j < i + length nodes)%nat /\ k = Simplex.n j)) /\
  Simplex.constraints (Simplex.model (Simplex.add_nodes options st i nodes))
  = Simplex.constraints (Simplex.model st).
Proof.
  induction nodes as [|node nodes IH]; intros st i k; simpl.
  - split; [|split; [|reflexivity]].
    + split; [auto|]. intros [H|(j & Hj & _)]; [exact H | lia].
    + intros v. split.
      * intros H. left. split; [exact H|]. intros (j & Hj & _). lia.
      * intros [[H _]|[_ (j & Hj & _)]]; [exact H | lia].
  - destruct (IH (Simplex.add_node options st i node) (S i) k) as (Hv & Hi & Hc).
    split; [|split].
    + rewrite Hv. unfold Simplex.add_node. simpl. rewrite lookup_insert_is_Some. split.
      * intros [[Hk|[_ Hk]]|(j & Hj & ->)].
        -- right. exists i. split; [lia | congruence].
        -- left. exact Hk.
        -- right. exists j. split; [lia | reflexivity].
      * intros [Hk|(j & Hj & ->)].
        -- destruct (decide (Simplex.n i = k)); [left; left; assumption | left; right; auto].
        -- destruct (decide (j = i)) as [->|Hne].
           ++ left. left. reflexivity.
           ++ right. exists j. split; [lia | reflexivity].
    + intros v. rewrite Hi. unfold Simplex.add_node. simpl. split.
      * intros [[Hk Hnot]|[-> (j & Hj & ->)]].
        -- destruct (decide (Simplex.n i = k)) as [<-|Hne].
           ++ rewrite lookup_insert_eq in Hk. injection Hk as <-.
              right. split; [reflexivity|]. exists i. split; [lia | reflexivity].
           ++ rewrite lookup_insert_ne in Hk by exact Hne. left. split; [exact Hk|].
              intros (j & Hj & ->). destruct (decide (j = i)) as [->|Hji]; [congruence|].
              apply Hnot. exists j. split; [lia | reflexivity].
        -- right. split; [reflexivity|]. exists j. split; [lia | reflexivity].
      * intros [[Hk Hnot]|[-> (j & Hj & ->)]].
        -- left. split.
           ++ rewrite lookup_insert_ne; [exact Hk|]. intros <-. apply Hnot.
              exists i. split; [lia | reflexivity].
           ++ intros (j & Hj & ->). apply Hnot. exists j. split; [lia | reflexivity].
        -- destruct (decide (j = i)) as [->|Hji].
           ++ left. split; [apply lookup_insert_eq|].
              intros (j' & Hj' & Heq). apply (inj Simplex.n) in Heq. lia.
           ++ right. split; [reflexivity|]. exists j. split; [lia | reflexivity].
    + rewrite Hc. reflexivity.
Qed.

Lemma collected_vars options dag j :
  (j < length dag)%nat ->
  is_Some (Simplex.variables (Simplex.model (SimplexSpec.collected options dag)) !! Simplex.n j).
Proof.
  intros Hj. unfold SimplexSpec.collected.
  apply (add_nodes_domain options dag _ 0%nat (Simplex.n j)).
  right. exists j. split; [lia | reflexivity].
Qed.

Lemma collected_unset options dag L :
  L <> "opt" ->
  SimplexSpec.unset L (Simplex.variables (Simplex.model (SimplexSpec.collected options dag))).
Proof.
  intros HL k v Hk. unfold SimplexSpec.collected in Hk.
  apply add_nodes_shape in Hk as ->.
  - apply lookup_singleton_ne. congruence.
  - simpl. intros k' v' H. rewrite lookup_empty in H. discriminate.
Qed.

(** The constraint of a link and its row. *)
Lemma link_constraint_row options dag (x : string -> Z) node child count :
  Dag.wf dag -> SimplexSpec.simple dag ->
  (node, child, count) ∈ Dag.links dag ->
  let m := Simplex.model (Simplex.program options dag) in
  let cons := SimplexSpec.name "link" node child in
  Simplex.constraints m !! cons
    = Some {| Simplex.min := Some (if 1 <? count then 2 else 1); Simplex.max := None |} /\
  SimplexSpec.row cons (Simplex.variables m) x = x (Simplex.n child) - x (Simplex.n node).
Proof.
  intros Hwf [Hnd Hself] Hin m cons. subst m cons. rewrite program_run.
  destruct (links_in_range dag node child count Hwf Hin) as [Hn Hc].
  assert (Hne : node <> child).
  { intros ->. apply elem_of_links in Hin. exact (Hself _ _ Hin). }
  apply list_elem_of_split in Hin as (l1 & l2 & Hl).
  set (st := SimplexSpec.collected options dag).
  set (later := flat_map SimplexSpec.rank_steps
                  (bigrams (Simplex.sort_ranks (Simplex.ranks st))) ++
                flat_map SimplexSpec.group_steps (Simplex.groups st)).
  assert (Hsteps : SimplexSpec.steps options dag =
            flat_map SimplexSpec.link_steps l1 ++
            SimplexSpec.Before "link" node child (if 1 <? count then 2 else 1) ::
            (SimplexSpec.AddOpt node count :: SimplexSpec.AddOpt child (- count) ::
             flat_map SimplexSpec.link_steps l2 ++ later)).
  { unfold SimplexSpec.steps. fold st. fold later. rewrite Hl, flat_map_app, <- app_assoc.
    reflexivity. }
  rewrite Hsteps.
  rewrite Hl, fmap_app, fmap_cons in Hnd.
  apply NoDup_app in Hnd as (_ & Hl1 & Hl2). apply NoDup_cons in Hl2 as [Hl2 _].
  pose proof (Hl1' := fun H => Hl1 (node, child) H (list_elem_of_here _ _)).
  assert (Hlater : SimplexSpec.name "link" node child ∉ SimplexSpec.names later).
  { unfold later. rewrite names_app. intros H. apply elem_of_app in H as [H|H].
    - apply rank_names in H as (a & b & [H|[H|H]]);
        apply name_inj in H as (H & _); try colon_free; discriminate H.
    - apply group_names in H as (a & b & [H|H]);
        apply name_inj in H as (H & _); try colon_free; discriminate H. }
  clearbody later.
  destruct (run_target x (flat_map SimplexSpec.link_steps l1)
    (SimplexSpec.AddOpt node count :: SimplexSpec.AddOpt child (- count) ::
     flat_map SimplexSpec.link_steps l2 ++ later)
    "link" node child (if 1 <? count then 2 else 1) (Simplex.model st)) as [R C].
  - intros H. apply link_names in H as (a & b & c & Hab & Heq).
    apply name_inj in Heq as (_ & <- & <-); try colon_free. apply Hl1'.
    apply list_elem_of_fmap. exists (node, child, c). split; [reflexivity | exact Hab].
  - intros H. apply names_add_opt, names_add_opt in H. rewrite names_app in H.
    apply elem_of_app in H as [H|H]; [|exact (Hlater H)].
    apply link_names in H as (a & b & c & Hab & Heq).
    apply name_inj in Heq as (_ & <- & <-); try colon_free. apply Hl2.
    apply list_elem_of_fmap. exists (node, child, c). split; [reflexivity | exact Hab].
  - exact Hne.
  - apply collected_vars, Hn.
  - apply collected_vars, Hc.
  - apply collected_unset, name_not_opt.
  - split; [exact C | exact R].
Qed.

(** X8: The constraint of a link. *)
Theorem simplex_link_constraints options dag (x : string -> Z) node child count :
  Dag.wf dag -> SimplexSpec.simple dag ->
  (node, child, count) ∈ Dag.links dag ->
  let m := Simplex.model (Simplex.program options dag) in
  let cons := SimplexSpec.name "link" node child in
  Simplex.constraints m !! cons
    = Some {| Simplex.min := Some (if 1 <? count then 2 else 1); Simplex.max := None |} /\
  SimplexSpec.row cons (Simplex.variables m) x = x (Simplex.n child) - x (Simplex.n node).
Proof. exact (link_constraint_row options dag x node child count). Qed.

End ProgramFacts.

Section RankFacts.
Context {N : Type}.
Implicit Types (options : Options.Simplex N) (dag : Dag.Dag N).

Local Abbreviation rank_le := (fun p q : Q * nat => (fst p <= fst q)%Q).

Lemma insert_rank_perm (p : Q * nat) sorted : Simplex.insert_rank p sorted ≡ₚ p :: sorted.
Proof.
  induction sorted as [|q sorted IH]; simpl; [reflexivity|].
  destruct (Qle_bool (fst q) (fst p)); [|reflexivity].
  rewrite IH. apply Permutation_swap.
Qed.

Lemma sort_ranks_perm rs : Simplex.sort_ranks rs ≡ₚ rs.
Proof.
  unfold Simplex.sort_ranks.
  assert (H : forall acc, fold_left (fun sorted p => Simplex.insert_rank p sorted) rs acc
                          ≡ₚ acc ++ rs).
  { induction rs as [|p rs IH]; intros acc; simpl.
    - rewrite app_nil_r. reflexivity.
    - rewrite IH, insert_rank_perm. simpl. apply Permutation_middle. }
  apply (H []).
Qed.

Lemma insert_rank_sorted (p : Q * nat) sorted :
  StronglySorted rank_le sorted -> StronglySorted rank_le (Simplex.insert_rank p sorted).
Proof.
  induction sorted as [|q sorted IH]; intros Hs; simpl.
  - repeat constructor.
  - apply StronglySorted_inv in Hs as [Hs Hq].
    destruct (Qle_bool (fst q) (fst p)) eqn:E.
    + constructor; [apply IH, Hs|].
      rewrite insert_rank_perm. constructor; [|exact Hq].
      apply Qle_bool_iff. exact E.
    + assert (Hpq : (fst p <= fst q)%Q).
      { destruct (Qlt_le_dec (fst p) (fst q)) as [H|H]; [apply Qlt_le_weak, H|].
        apply Qle_bool_iff in H. congruence. }
      constructor; [constructor; assumption|].
      constructor; [exact Hpq|].
      eapply Forall_impl; [exact Hq|]. intros r Hr. simpl in *.
      eapply Qle_trans; eassumption.
Qed.

Lemma sort_ranks_sorted rs : StronglySorted rank_le (Simplex.sort_ranks rs).
Proof.
  unfold Simplex.sort_ranks.
  assert (H : forall acc, StronglySorted rank_le acc ->
            StronglySorted rank_le
              (fold_left (fun sorted p => Simplex.insert_rank p sorted) rs acc)).
  { induction rs as [|p rs IH]; intros acc Hacc; simpl; [exact Hacc|].
    apply IH, insert_rank_sorted, Hacc. }
  apply H. constructor.
Qed.

(** The first loop collects the rank of every node that has one, with the
    node, each node once. *)
Lemma add_nodes_ranks_spec options (nodes : list (Dag.DagNode N)) : forall st i,
  (forall r j, (r, j) ∈ Simplex.ranks (Simplex.add_nodes options st i nodes) <->
     (r, j) ∈ Simplex.ranks st \/
     exists k node, nodes !! k = Some node /\ j = (i + k)%nat /\
                    Options.rank options node = Some r) /\
  (NoDup (Simplex.ranks st).*2 ->
   (forall j, j ∈ (Simplex.ranks st).*2 -> (j < i)%nat) ->
   NoDup (Simplex.ranks (Simplex.add_nodes options st i nodes)).*2).
Proof.
  induction nodes as [|node nodes IH]; intros st i; simpl.
  - split; [|auto]. intros r j. split; [auto|].
    intros [H|(k & node & H & _)]; [exact H | discriminate H].
  - destruct (IH (Simplex.add_node options st i node) (S i)) as [Hin Hnd]. split.
    + intros r j. rewrite Hin. unfold Simplex.add_node. simpl. split.
      * intros [H|(k & nd & Hk & -> & Hr)].
        -- destruct (Options.rank options node) as [r'|] eqn:E; [|auto].
           apply elem_of_app in H as [H|H]; [auto|].
           apply list_elem_of_singleton in H. injection H as -> ->.
           right. exists 0%nat, node. split; [reflexivity|]. split; [lia | exact E].
        -- right. exists (S k), nd. split; [exact Hk|]. split; [lia | exact Hr].
      * intros [H|(k & nd & Hk & -> & Hr)].
        -- left. destruct (Options.rank options node); [|exact H].
           apply elem_of_app. left. exact H.
        -- destruct k as [|k]; simpl in Hk.
           ++ injection Hk as ->. left. rewrite Hr. apply elem_of_app. right.
              rewrite Nat.add_0_r. left.
           ++ right. exists k, nd. split; [exact Hk|]. split; [lia | exact Hr].
    + intros Hno Hlt. apply Hnd; unfold Simplex.add_node; simpl.
      * destruct (Options.rank options node); [|exact Hno].
        rewrite fmap_app. apply NoDup_app. split; [exact Hno|]. split.
        -- intros j Hj Hj'. apply list_elem_of_singleton in Hj'. simpl in Hj'.
           apply Hlt in Hj. lia.
        -- apply NoDup_singleton.
      * intros j Hj. destruct (Options.rank options node).
        -- rewrite fmap_app in Hj. apply elem_of_app in Hj as [Hj|Hj].
           ++ apply Hlt in Hj. lia.
           ++ apply list_elem_of_singleton in Hj. simpl in Hj. lia.
        -- apply Hlt in Hj. lia.
Qed.

Lemma collected_ranks options dag :
  (forall r j, (r, j) ∈ Simplex.ranks (SimplexSpec.collected options dag) <->
     exists node, dag !! j = Some node /\ Options.rank options node = Some r) /\
  NoDup (Simplex.ranks (SimplexSpec.collected options dag)).*2.
Proof.
  unfold SimplexSpec.collected.
  destruct (add_nodes_ranks_spec options dag
    {| Simplex.model := {| Simplex.variables := ∅; Simplex.constraints := ∅;
                           Simplex.ints := ∅ |};
       Simplex.ranks := []; Simplex.groups := [] |} 0%nat) as [Hin Hnd].
  split.
  - intros r j. rewrite Hin. simpl. split.
    + intros [H|(k & node & Hk & -> & Hr)]; [inversion H|]. exists node. auto.
    + intros (node & Hj & Hr). right. exists j, node. auto.
  - apply Hnd; simpl; [constructor|]. intros j Hj. inversion Hj.
Qed.

End RankFacts.

Section ChainFacts.
Context {A : Type}.
Variable nd : A -> nat.
Variable f : A * A -> list SimplexSpec.Step.

Local Abbreviation mentions nodes L :=
  (exists prefix a b, SimplexSpec.avoids ":" prefix /\ L = SimplexSpec.name prefix a b /\
                      a ∈ nodes /\ b ∈ nodes).

Hypothesis f_names : forall p q L, L ∈ SimplexSpec.names (f (p, q)) ->
  exists prefix, SimplexSpec.avoids ":" prefix /\
    (L = SimplexSpec.name prefix (nd p) (nd q) \/ L = SimplexSpec.name prefix (nd q) (nd p)).
Hypothesis f_nodup : forall p q, nd p <> nd q -> NoDup (SimplexSpec.names (f (p, q))).

Lemma bigrams_cons (p q : A) l : bigrams (p :: q :: l) = (p, q) :: bigrams (q :: l).
Proof. reflexivity. Qed.

Lemma chain_mentions l L :
  L ∈ SimplexSpec.names (flat_map f (bigrams l)) -> mentions (nd <$> l) L.
Proof.
  induction l as [|p l IH]; [intros H; inversion H|].
  destruct l as [|q l]; [intros H; inversion H|].
  rewrite bigrams_cons. cbn [flat_map]. rewrite names_app. intros H.
  apply elem_of_app in H as [H|H].
  - apply f_names in H as (prefix & Hp & [->| ->]).
    + exists prefix, (nd p), (nd q). split; [exact Hp|]. split; [reflexivity|].
      split; [left | right; left].
    + exists prefix, (nd q), (nd p). split; [exact Hp|]. split; [reflexivity|].
      split; [right; left | left].
  - destruct (IH H) as (prefix & a & b & Hp & -> & Ha & Hb).
    exists prefix, a, b. split; [exact Hp|]. split; [reflexivity|].
    split; right; assumption.
Qed.

Lemma chain_nodup l :
  NoDup (nd <$> l) -> NoDup (SimplexSpec.names (flat_map f (bigrams l))).
Proof.
  induction l as [|p l IH]; [intros _; constructor|].
  destruct l as [|q l]; [intros _; constructor|].
  rewrite bigrams_cons. cbn [flat_map]. rewrite names_app. intros Hnd.
  rewrite fmap_cons in Hnd. apply NoDup_cons in Hnd as [Hp Hnd].
  apply NoDup_app. split; [|split].
  - apply f_nodup. intros Heq. apply Hp. rewrite Heq. left.
  - intros L HL HL'. apply chain_mentions in HL' as (prefix' & a & b & Hp' & -> & Ha & Hb).
    apply f_names in HL as (prefix & Hpre & [HL|HL]);
      apply name_inj in HL as (_ & Ea & Eb); auto; subst a b; apply Hp; assumption.
  - apply IH, Hnd.
Qed.

End ChainFacts.

Section PartFacts.
Context {N : Type}.
Implicit Types (options : Options.Simplex N) (dag : Dag.Dag N).

Lemma names_split s1 s2 prefix a b d :
  NoDup (SimplexSpec.names (s1 ++ SimplexSpec.Before prefix a b d :: s2)) ->
  (SimplexSpec.name prefix a b ∉ SimplexSpec.names s1) /\
  (SimplexSpec.name prefix a b ∉ SimplexSpec.names s2).
Proof.
  rewrite names_app, names_cons. intros H.
  apply NoDup_app in H as (_ & H1 & H2).
  change (SimplexSpec.names [SimplexSpec.Before prefix a b d])
    with [SimplexSpec.name prefix a b] in *.
  apply NoDup_cons in H2 as [H2 _]. split; [|exact H2].
  intros H. apply (H1 _ H). left.
Qed.

(** A constraint written once, among the steps of one loop whose names the
    other loops do not use, binds every assignment the solver may return. *)
Lemma satisfies_in_part options dag (x : string -> Z) s1 s2 s3 prefix a b d :
  SimplexSpec.steps options dag = s1 ++ s2 ++ s3 ->
  SimplexSpec.Before prefix a b d ∈ s2 ->
  NoDup (SimplexSpec.names s2) ->
  SimplexSpec.name prefix a b ∉ SimplexSpec.names s1 ->
  SimplexSpec.name prefix a b ∉ SimplexSpec.names s3 ->
  a <> b -> (a < length dag)%nat -> (b < length dag)%nat ->
  SimplexSpec.satisfies (Simplex.model (Simplex.program options dag)) x ->
  d <= x (Simplex.n b) - x (Simplex.n a).
Proof.
  intros Hsteps Hin Hnd H1 H3 Hab Ha Hb Hsat.
  apply list_elem_of_split in Hin as (l1 & l2 & ->).
  apply names_split in Hnd as [Hl1 Hl2].
  rewrite program_run, Hsteps in Hsat.
  replace (s1 ++ (l1 ++ SimplexSpec.Before prefix a b d :: l2) ++ s3)
    with ((s1 ++ l1) ++ SimplexSpec.Before prefix a b d :: (l2 ++ s3)) in Hsat
    by (rewrite <- !app_assoc; reflexivity).
  destruct (run_target x (s1 ++ l1) (l2 ++ s3) prefix a b d
              (Simplex.model (SimplexSpec.collected options dag))) as [R C].
  - rewrite names_app. intros H. apply elem_of_app in H as [H|H]; auto.
  - rewrite names_app. intros H. apply elem_of_app in H as [H|H]; auto.
  - exact Hab.
  - apply collected_vars, Ha.
  - apply collected_vars, Hb.
  - apply collected_unset, name_not_opt.
  - destruct (Hsat _ _ C) as [Hmin _]. rewrite <- R. apply Hmin. reflexivity.
Qed.

End PartFacts.

Section RankConstraints.
Context {N : Type}.
Variable x : string -> Z.
Implicit Types (options : Options.Simplex N) (dag : Dag.Dag N).

Lemma rank_steps_names (p q : Q * nat) L :
  L ∈ SimplexSpec.names (SimplexSpec.rank_steps (p, q)) ->
  exists prefix, SimplexSpec.avoids ":" prefix /\
    (L = SimplexSpec.name prefix (snd p) (snd q) \/
     L = SimplexSpec.name prefix (snd q) (snd p)).
Proof.
  destruct p as [frank fnode], q as [srank snode]. unfold SimplexSpec.rank_steps.
  destruct (negb (Qle_bool srank frank)); intros H.
  - apply names_before in H as [->|H]; [|inversion H].
    exists "rank". split; [colon_free | left; reflexivity].
  - rewrite <- (app_nil_r (SimplexSpec.equal_steps _ _ _)) in H.
    apply equal_names in H as [->|[->|H]]; [| |inversion H].
    + exists "rank before". split; [colon_free | left; reflexivity].
    + exists "rank after". split; [colon_free | right; reflexivity].
Qed.

Lemma avoids_app (c : ascii) (s s' : string) :
  SimplexSpec.avoids c s -> SimplexSpec.avoids c s' -> SimplexSpec.avoids c (s +:+ s').
Proof.
  induction s as [|c' s IH]; simpl; [auto|]. intros [Hc Hs] Hs'. split; [exact Hc | auto].
Qed.

Lemma equal_steps_nodup prefix a b :
  SimplexSpec.avoids ":" prefix ->
  NoDup (SimplexSpec.names (SimplexSpec.equal_steps prefix a b)).
Proof.
  intros Hp.
  change (NoDup [SimplexSpec.name (prefix +:+ " before") a b;
                 SimplexSpec.name (prefix +:+ " after") b a]).
  apply NoDup_cons. split; [|apply NoDup_singleton].
  intros H. apply list_elem_of_singleton in H.
  apply name_inj in H as (H & _).
  - apply append_cancel_l in H. discriminate H.
  - apply avoids_app; [exact Hp | colon_free].
  - apply avoids_app; [exact Hp | colon_free].
Qed.

Lemma rank_steps_nodup (p q : Q * nat) :
  snd p <> snd q -> NoDup (SimplexSpec.names (SimplexSpec.rank_steps (p, q))).
Proof.
  intros _. destruct p as [frank fnode], q as [srank snode]. unfold SimplexSpec.rank_steps.
  destruct (negb (Qle_bool srank frank)).
  - apply NoDup_singleton.
  - apply equal_steps_nodup. colon_free.
Qed.

Lemma bigrams_elem {A : Type} (l : list A) p q :
  (p, q) ∈ bigrams l -> exists l1 l2, l = l1 ++ p :: q :: l2.
Proof.
  induction l as [|a l IH]; [intros H; inversion H|].
  destruct l as [|b l]; [intros H; inversion H|].
  rewrite bigrams_cons. intros H. apply elem_of_cons in H as [H|H].
  - injection H as -> ->. exists [], l. reflexivity.
  - destruct (IH H) as (l1 & l2 & ->). exists (a :: l1), l2. reflexivity.
Qed.

(** The rank loop: what a returned assignment obeys for two neighbours of
    the sorted ranks. *)
Lemma rank_adjacent options dag frank fnode srank snode :
  SimplexSpec.satisfies (Simplex.model (Simplex.program options dag)) x ->
  ((frank, fnode), (srank, snode))
    ∈ bigrams (Simplex.sort_ranks (Simplex.ranks (SimplexSpec.collected options dag))) ->
  ((frank < srank)%Q -> x (Simplex.n fnode) + 1 <= x (Simplex.n snode)) /\
  (~ (frank < srank)%Q -> x (Simplex.n fnode) = x (Simplex.n snode)).
Proof.
  intros Hsat Hin.
  set (st := SimplexSpec.collected options dag) in *.
  set (sorted := Simplex.sort_ranks (Simplex.ranks st)) in *.
  destruct (collected_ranks options dag) as [Hranks Hnd]. fold st in Hranks, Hnd.
  assert (Hperm : sorted ≡ₚ Simplex.ranks st) by apply sort_ranks_perm.
  assert (Hnd' : NoDup sorted.*2) by (rewrite Hperm; exact Hnd).
  assert (Hlt : forall r j, (r, j) ∈ sorted -> (j < length dag)%nat).
  { intros r j Hj. rewrite Hperm in Hj. apply Hranks in Hj as (node & Hj & _).
    eapply lookup_lt_Some, Hj. }
  destruct (bigrams_elem _ _ _ Hin) as (l1 & l2 & Hl).
  assert (Hne : fnode <> snode).
  { rewrite Hl, fmap_app, !fmap_cons in Hnd'. simpl in Hnd'.
    apply NoDup_app in Hnd' as (_ & _ & Hnd'). apply NoDup_cons in Hnd' as [Hnd' _].
    intros ->. apply Hnd'. left. }
  assert (Hf : (fnode < length dag)%nat).
  { apply (Hlt frank). rewrite Hl. apply elem_of_app. right. left. }
  assert (Hs : (snode < length dag)%nat).
  { apply (Hlt srank). rewrite Hl. apply elem_of_app. right. right. left. }
  assert (Hstep : forall prefix a b d,
            SimplexSpec.Before prefix a b d
              ∈ SimplexSpec.rank_steps ((frank, fnode), (srank, snode)) ->
            a <> b -> (a < length dag)%nat -> (b < length dag)%nat ->
            (prefix = "rank" \/ prefix = "rank before" \/ prefix = "rank after") ->
            d <= x (Simplex.n b) - x (Simplex.n a)).
  { intros prefix a b d Hstep Hab Ha Hb Hprefix.
    apply (satisfies_in_part options dag x
             (flat_map SimplexSpec.link_steps (Dag.links dag))
             (flat_map SimplexSpec.rank_steps (bigrams sorted))
             (flat_map SimplexSpec.group_steps (Simplex.groups st)) prefix a b d);
      try assumption.
    - reflexivity.
    - apply list_elem_of_In, in_flat_map. eexists. split; apply list_elem_of_In; eassumption.
    - apply (chain_nodup snd); [exact rank_steps_names | exact rank_steps_nodup | exact Hnd'].
    - intros H. apply link_names in H as (a' & b' & c' & _ & H).
      apply name_inj in H as (H & _); try colon_free;
        destruct Hprefix as [->|[->| ->]]; try colon_free; discriminate H.
    - intros H. apply group_names in H as (a' & b' & [H|H]);
        apply name_inj in H as (H & _); try colon_free;
        destruct Hprefix as [->|[->| ->]]; try colon_free; discriminate H. }
  unfold SimplexSpec.rank_steps in Hstep.
  destruct (Qlt_le_dec frank srank) as [Hlt'|Hle].
  - assert (E : negb (Qle_bool srank frank) = true).
    { apply negb_true_iff. destruct (Qle_bool srank frank) eqn:E; [|reflexivity].
      apply Qle_bool_iff in E. exfalso. exact (Qlt_not_le _ _ Hlt' E). }
    rewrite E in Hstep. split; [|intros Hn; contradiction].
    intros _. pose proof (Hstep "rank" fnode snode 1 (list_elem_of_here _ _) Hne Hf Hs) as H.
    specialize (H (or_introl eq_refl)). lia.
  - assert (E : negb (Qle_bool srank frank) = false).
    { apply negb_false_iff, Qle_bool_iff, Hle. }
    rewrite E in Hstep. split.
    + intros Hlt'. exfalso. exact (Qlt_not_le _ _ Hlt' Hle).
    + intros _.
      pose proof (Hstep "rank before" fnode snode 0 (list_elem_of_here _ _) Hne Hf Hs
                    (or_intror (or_introl eq_refl))) as H1.
      pose proof (Hstep "rank after" snode fnode 0
                    (list_elem_of_further _ _ _ (list_elem_of_here _ _))
                    (not_eq_sym Hne) Hs Hf (or_intror (or_intror eq_refl))) as H2.
      lia.
Qed.

Local Abbreviation ordered :=
  (fun p q : Q * nat =>
     (fst p <= fst q)%Q /\
     ((fst p < fst q)%Q -> x (Simplex.n (snd p)) < x (Simplex.n (snd q))) /\
     ((fst p == fst q)%Q -> x (Simplex.n (snd p)) = x (Simplex.n (snd q))) /\
     x (Simplex.n (snd p)) <= x (Simplex.n (snd q))).

Lemma ordered_trans (p q r : Q * nat) :
  ordered p q -> ordered q r -> ordered p r.
Proof.
  intros (Hpq & Hlt1 & Heq1 & Hle1) (Hqr & Hlt2 & Heq2 & Hle2). simpl in *.
  split; [eapply Qle_trans; eassumption|]. split; [|split].
  - intros Hlt. destruct (Qlt_le_dec (fst p) (fst q)) as [H|H].
    + specialize (Hlt1 H). lia.
    + assert (Hpq' : (fst p == fst q)%Q) by (apply Qle_antisym; assumption).
      rewrite (Heq1 Hpq'). apply Hlt2. rewrite <- Hpq'. exact Hlt.
  - intros Heq.
    assert (Hpq' : (fst p == fst q)%Q).
    { apply Qle_antisym; [exact Hpq|]. rewrite Heq. exact Hqr. }
    rewrite (Heq1 Hpq'). apply Heq2. rewrite <- Hpq'. exact Heq.
  - lia.
Qed.

Lemma sorted_chain (l : list (Q * nat)) :
  StronglySorted (fun p q : Q * nat => (fst p <= fst q)%Q) l ->
  (forall p q, (p, q) ∈ bigrams l ->
     ((fst p < fst q)%Q -> x (Simplex.n (snd p)) + 1 <= x (Simplex.n (snd q))) /\
     (~ (fst p < fst q)%Q -> x (Simplex.n (snd p)) = x (Simplex.n (snd q)))) ->
  ForallOrdPairs ordered l.
Proof.
  induction l as [|p l IH]; intros Hs Hadj; [constructor|].
  apply StronglySorted_inv in Hs as [Hs Hp].
  assert (IH' : ForallOrdPairs ordered l).
  { apply IH; [exact Hs|]. intros a b Hab. apply Hadj.
    destruct l as [|q l]; [inversion Hab|]. rewrite bigrams_cons. right. exact Hab. }
  constructor; [|exact IH'].
  destruct l as [|q l]; [constructor|].
  assert (Hpq : ordered p q).
  { destruct (Hadj p q) as [H1 H2]; [rewrite bigrams_cons; left|].
    apply Forall_cons in Hp as [Hpq _]. simpl in Hpq.
    split; [exact Hpq|]. split; [|split].
    - intros H. specialize (H1 H). lia.
    - intros H. apply H2. intros H'. rewrite H in H'. exact (Qlt_irrefl _ H').
    - destruct (Qlt_le_dec (fst p) (fst q)) as [H|H].
      + specialize (H1 H). lia.
      + rewrite H2; [lia|]. intros H'. exact (Qlt_not_le _ _ H' H). }
  constructor; [exact Hpq|].
  inversion IH' as [|? ? Hq _]; subst.
  eapply Forall_impl; [exact Hq|]. intros r Hr. exact (ordered_trans p q r Hpq Hr).
Qed.

(** X9: Rank constraints: in every assignment that meets the constraints of
    the program, a node of lower rank lies on a strictly lower layer, and
    nodes of equal rank lie on the same layer. *)
Theorem simplex_solution_respects_ranks options dag a b na nb (ra rb : Q) :
  Dag.wf dag ->
  dag !! a = Some na -> dag !! b = Some nb ->
  Options.rank options na = Some ra -> Options.rank options nb = Some rb ->
  SimplexSpec.satisfies (Simplex.model (Simplex.program options dag)) x ->
  ((ra < rb)%Q -> x (Simplex.n a) < x (Simplex.n b)) /\
  ((ra == rb)%Q -> x (Simplex.n a) = x (Simplex.n b)).
Proof.
  intros _ Ha Hb Hra Hrb Hsat.
  set (sorted := Simplex.sort_ranks (Simplex.ranks (SimplexSpec.collected options dag))).
  destruct (collected_ranks options dag) as [Hranks _].
  assert (Hperm : sorted ≡ₚ Simplex.ranks (SimplexSpec.collected options dag))
    by apply sort_ranks_perm.
  assert (Hina : (ra, a) ∈ sorted).
  { rewrite Hperm. apply Hranks. exists na. auto. }
  assert (Hinb : (rb, b) ∈ sorted).
  { rewrite Hperm. apply Hranks. exists nb. auto. }
  assert (Hord : ForallOrdPairs ordered sorted).
  { apply sorted_chain; [apply sort_ranks_sorted|].
    intros [frank fnode] [srank snode] Hpq.
    exact (rank_adjacent options dag frank fnode srank snode Hsat Hpq). }
  apply list_elem_of_In in Hina, Hinb.
  destruct (ForallOrdPairs_In Hord _ _ Hina Hinb) as [Heq|[H|H]].
  - injection Heq as -> ->. split; [intros H; exfalso; exact (Qlt_irrefl _ H) | reflexivity].
  - destruct H as (_ & Hlt & Heq & _). simpl in *. auto.
  - destruct H as (Hle & _ & Heq & _). simpl in *. split.
    + intros Hlt. exfalso. exact (Qlt_not_le _ _ Hlt Hle).
    + intros H. symmetry. apply Heq. symmetry. exact H.
Qed.

End RankConstraints.

Section GroupConstraints.
Context {N : Type}.
Variable x : string -> Z.
Implicit Types (options : Options.Simplex N) (dag : Dag.Dag N).
Implicit Types (gs : list (string * list nat)).

Local Abbreviation member gs g a := (exists ms, (g, ms) ∈ gs /\ a ∈ ms).
Local Abbreviation mentions nodes L :=
  (exists prefix a b, SimplexSpec.avoids ":" prefix /\ L = SimplexSpec.name prefix a b /\
                      a ∈ nodes /\ b ∈ nodes).
Local Abbreviation group_pair :=
  (fun '(first, second) => SimplexSpec.equal_steps "group" first second).

Lemma groups_push_member gs g i g' a :
  member (Simplex.groups_push gs g i) g' a <-> member gs g' a \/ (g' = g /\ a = i).
Proof.
  induction gs as [|[k existing] gs IH]; simpl.
  - split.
    + intros (ms & Hin & Ha). apply list_elem_of_singleton in Hin. injection Hin as -> ->.
      apply list_elem_of_singleton in Ha. auto.
    + intros [(ms & Hin & _)|[-> ->]]; [inversion Hin|].
      exists [i]. split; left.
  - destruct (String.eqb k g) eqn:E.
    + apply String.eqb_eq in E as ->. split.
      * intros (ms & Hin & Ha). apply elem_of_cons in Hin as [Hin|Hin].
        -- injection Hin as -> ->. apply elem_of_app in Ha as [Ha|Ha].
           ++ left. exists existing. split; [left | exact Ha].
           ++ apply list_elem_of_singleton in Ha. auto.
        -- left. exists ms. split; [right; exact Hin | exact Ha].
      * intros [(ms & Hin & Ha)|[-> ->]].
        -- apply elem_of_cons in Hin as [Hin|Hin].
           ++ injection Hin as -> ->. exists (existing ++ [i]).
              split; [left | apply elem_of_app; left; exact Ha].
           ++ exists ms. split; [right; exact Hin | exact Ha].
        -- exists (existing ++ [i]). split; [left | apply elem_of_app; right; left].
    + split.
      * intros (ms & Hin & Ha). apply elem_of_cons in Hin as [Hin|Hin].
        -- injection Hin as -> ->. left. exists existing. split; [left | exact Ha].
        -- destruct (proj1 IH) as [(ms' & Hin' & Ha')|Heq]; [eauto | | auto].
           left. exists ms'. split; [right; exact Hin' | exact Ha'].
      * intros [(ms & Hin & Ha)|Heq].
        -- apply elem_of_cons in Hin as [Hin|Hin].
           ++ injection Hin as -> ->. exists existing. split; [left | exact Ha].
           ++ destruct (proj2 IH) as (ms' & Hin' & Ha'); [left; eauto|].
              exists ms'. split; [right; exact Hin' | exact Ha'].
        -- destruct (proj2 IH) as (ms' & Hin' & Ha'); [right; exact Heq|].
           exists ms'. split; [right; exact Hin' | exact Ha'].
Qed.

Lemma groups_push_keys gs g i k :
  k ∈ (Simplex.groups_push gs g i).*1 <-> k ∈ gs.*1 \/ k = g.
Proof.
  induction gs as [|[k' existing] gs IH]; simpl.
  - split.
    + intros H. apply list_elem_of_singleton in H. auto.
    + intros [H| ->]; [inversion H | left].
  - destruct (String.eqb k' g) eqn:E; simpl.
    + apply String.eqb_eq in E as ->. rewrite elem_of_cons. tauto.
    + rewrite !elem_of_cons, IH. tauto.
Qed.

Lemma groups_push_nodup gs g i :
  NoDup gs.*1 -> NoDup (Simplex.groups_push gs g i).*1.
Proof.
  induction gs as [|[k existing] gs IH]; simpl; intros Hnd.
  - apply NoDup_singleton.
  - apply NoDup_cons in Hnd as [Hk Hnd]. destruct (String.eqb k g) eqn:E; simpl.
    + apply NoDup_cons. auto.
    + apply NoDup_cons. split; [|auto].
      rewrite groups_push_keys. intros [H| ->]; [auto|].
      rewrite String.eqb_refl in E. discriminate.
Qed.

Lemma groups_push_concat gs g i :
  concat (Simplex.groups_push gs g i).*2 ≡ₚ i :: concat gs.*2.
Proof.
  induction gs as [|[k existing] gs IH]; simpl; [reflexivity|].
  destruct (String.eqb k g); simpl.
  - rewrite <- app_assoc. simpl. symmetry. apply Permutation_middle.
  - rewrite IH. symmetry. apply Permutation_middle.
Qed.

(** The first loop puts every node that has a group into the list of that
    group, each node once, and keeps one list per group. *)
Lemma add_nodes_groups_spec options (nodes : list (Dag.DagNode N)) : forall st i,
  (forall g a, member (Simplex.groups (Simplex.add_nodes options st i nodes)) g a <->
     member (Simplex.groups st) g a \/
     exists k node, nodes !! k = Some node /\ a = (i + k)%nat /\
                    Options.group options node = Some g) /\
  (NoDup (Simplex.groups st).*1 ->
   NoDup (Simplex.groups (Simplex.add_nodes options st i nodes)).*1) /\
  (NoDup (concat (Simplex.groups st).*2) ->
   (forall a, a ∈ concat (Simplex.groups st).*2 -> (a < i)%nat) ->
   NoDup (concat (Simplex.groups (Simplex.add_nodes options st i nodes)).*2)).
Proof.
  induction nodes as [|node nodes IH]; intros st i; simpl.
  - split; [|auto]. intros g a. split; [auto|].
    intros [H|(k & node & H & _)]; [exact H | discriminate H].
  - destruct (IH (Simplex.add_node options st i node) (S i)) as (Hin & Hkeys & Hnd).
    split; [|split].
    + intros g a. rewrite Hin. unfold Simplex.add_node. simpl. split.
      * intros [H|(k & nd & Hk & -> & Hg)].
        -- destruct (Options.group options node) as [g'|] eqn:E; [|auto].
           apply groups_push_member in H as [H|[-> ->]]; [auto|].
           right. exists 0%nat, node. split; [reflexivity|]. split; [lia | exact E].
        -- right. exists (S k), nd. split; [exact Hk|]. split; [lia | exact Hg].
      * intros [H|(k & nd & Hk & -> & Hg)].
        -- left. destruct (Options.group options node); [|exact H].
           apply groups_push_member. left. exact H.
        -- destruct k as [|k]; simpl in Hk.
           ++ injection Hk as ->. left. rewrite Hg. apply groups_push_member. right.
              split; [reflexivity | lia].
           ++ right. exists k, nd. split; [exact Hk|]. split; [lia | exact Hg].
    + intros Hno. apply Hkeys. unfold Simplex.add_node. simpl.
      destruct (Options.group options node); [apply groups_push_nodup|]; exact Hno.
    + intros Hno Hlt. apply Hnd; unfold Simplex.add_node; simpl.
      * destruct (Options.group options node); [|exact Hno].
        rewrite groups_push_concat. apply NoDup_cons. split; [|exact Hno].
        intros H. apply Hlt in H. lia.
      * intros a Ha. destruct (Options.group options node).
        -- rewrite groups_push_concat in Ha. apply elem_of_cons in Ha as [->|Ha]; [lia|].
           apply Hlt in Ha. lia.
        -- apply Hlt in Ha. lia.
Qed.

Lemma collected_groups options dag :
  (forall g a, member (Simplex.groups (SimplexSpec.collected options dag)) g a <->
     exists node, dag !! a = Some node /\ Options.group options node = Some g) /\
  NoDup (Simplex.groups (SimplexSpec.collected options dag)).*1 /\
  NoDup (concat (Simplex.groups (SimplexSpec.collected options dag)).*2).
Proof.
  unfold SimplexSpec.collected.
  destruct (add_nodes_groups_spec options dag
    {| Simplex.model := {| Simplex.variables := ∅; Simplex.constraints := ∅;
                           Simplex.ints := ∅ |};
       Simplex.ranks := []; Simplex.groups := [] |} 0%nat) as (Hin & Hkeys & Hnd).
  split; [|split].
  - intros g a. rewrite Hin. simpl. split.
    + intros [(ms & H & _)|(k & node & Hk & -> & Hg)]; [inversion H|]. exists node. auto.
    + intros (node & Ha & Hg). right. exists a, node. auto.
  - apply Hkeys. constructor.
  - apply Hnd; simpl; [constructor|]. intros a Ha. inversion Ha.
Qed.

Lemma group_pair_names (p q : nat) L :
  L ∈ SimplexSpec.names (group_pair (p, q)) ->
  exists prefix, SimplexSpec.avoids ":" prefix /\
    (L = SimplexSpec.name prefix (id p) (id q) \/ L = SimplexSpec.name prefix (id q) (id p)).
Proof.
  intros H. change (L ∈ SimplexSpec.names (SimplexSpec.equal_steps "group" p q ++ [])) in H.
  apply equal_names in H as [->|[->|H]]; [| |inversion H].
  - exists "group before". split; [colon_free | left; reflexivity].
  - exists "group after". split; [colon_free | right; reflexivity].
Qed.

Lemma group_pair_nodup (p q : nat) :
  id p <> id q -> NoDup (SimplexSpec.names (group_pair (p, q))).
Proof. intros _. apply (equal_steps_nodup "group"). colon_free. Qed.

Lemma groups_mentions gs L :
  L ∈ SimplexSpec.names (flat_map SimplexSpec.group_steps gs) -> mentions (concat gs.*2) L.
Proof.
  induction gs as [|[g ms] gs IH]; [intros H; inversion H|].
  cbn [flat_map]. rewrite names_app. intros H. apply elem_of_app in H as [H|H].
  - apply (chain_mentions id group_pair group_pair_names) in H
      as (prefix & a & b & Hp & -> & Ha & Hb).
    rewrite list_fmap_id in Ha, Hb.
    exists prefix, a, b. split; [exact Hp|]. split; [reflexivity|].
    simpl. split; apply elem_of_app; left; assumption.
  - destruct (IH H) as (prefix & a & b & Hp & -> & Ha & Hb).
    exists prefix, a, b. split; [exact Hp|]. split; [reflexivity|].
    simpl. split; apply elem_of_app; right; assumption.
Qed.

Lemma groups_nodup gs :
  NoDup (concat gs.*2) -> NoDup (SimplexSpec.names (flat_map SimplexSpec.group_steps gs)).
Proof.
  induction gs as [|[g ms] gs IH]; [intros _; constructor|].
  cbn [flat_map]. rewrite names_app. simpl. intros Hnd.
  apply NoDup_app in Hnd as (Hms & Hdisj & Hrest).
  apply NoDup_app. split; [|split].
  - apply (chain_nodup id group_pair group_pair_names group_pair_nodup).
    rewrite list_fmap_id. exact Hms.
  - intros L HL HL'.
    apply (chain_mentions id group_pair group_pair_names) in HL
      as (prefix & a & b & Hp & -> & Ha & _).
    rewrite list_fmap_id in Ha.
    apply groups_mentions in HL' as (prefix' & a' & b' & Hp' & Heq & Ha' & _).
    apply name_inj in Heq as (_ & <- & _); auto.
    exact (Hdisj a Ha Ha').
  - apply IH, Hrest.
Qed.

Lemma unique_entry gs g ms ms' :
  NoDup gs.*1 -> (g, ms) ∈ gs -> (g, ms') ∈ gs -> ms = ms'.
Proof.
  induction gs as [|[k v] gs IH]; intros Hnd H H'; [inversion H|].
  simpl in Hnd. apply NoDup_cons in Hnd as [Hk Hnd].
  apply elem_of_cons in H as [H|H]; apply elem_of_cons in H' as [H'|H'].
  - congruence.
  - injection H as -> ->. exfalso. apply Hk.
    apply list_elem_of_fmap. exists (k, ms'). auto.
  - injection H' as -> ->. exfalso. apply Hk.
    apply list_elem_of_fmap. exists (k, ms). auto.
  - auto.
Qed.

Lemma chain_equal (ms : list nat) :
  (forall a b, (a, b) ∈ bigrams ms -> x (Simplex.n a) = x (Simplex.n b)) ->
  forall a b, a ∈ ms -> b ∈ ms -> x (Simplex.n a) = x (Simplex.n b).
Proof.
  intros Hadj.
  assert (H : forall a, a ∈ ms -> x (Simplex.n a) = x (Simplex.n (default 0%nat (head ms)))).
  { induction ms as [|p ms IH]; intros a Ha; [inversion Ha|].
    apply elem_of_cons in Ha as [->|Ha]; [reflexivity|]. simpl.
    destruct ms as [|q ms]; [inversion Ha|].
    rewrite (Hadj p q) by (rewrite bigrams_cons; left).
    apply IH; [|exact Ha]. intros a' b' H'. apply Hadj. rewrite bigrams_cons. right. exact H'. }
  intros a b Ha Hb. rewrite (H a Ha), (H b Hb). reflexivity.
Qed.

(** The group loop: what a returned assignment obeys for two neighbours of
    a group. *)
Lemma group_adjacent options dag g ms a b :
  SimplexSpec.satisfies (Simplex.model (Simplex.program options dag)) x ->
  (g, ms) ∈ Simplex.groups (SimplexSpec.collected options dag) ->
  (a, b) ∈ bigrams ms ->
  x (Simplex.n a) = x (Simplex.n b).
Proof.
  intros Hsat Hg Hab.
  set (st := SimplexSpec.collected options dag) in *.
  destruct (collected_groups options dag) as (Hmem & Hkeys & Hnd). fold st in Hmem, Hkeys, Hnd.
  destruct (bigrams_elem _ _ _ Hab) as (l1 & l2 & Hl).
  assert (Hms : forall c, c ∈ ms -> c ∈ concat (Simplex.groups st).*2).
  { intros c Hc. apply list_elem_of_In, in_concat. exists ms.
    split; apply list_elem_of_In; [|exact Hc].
    apply list_elem_of_fmap. exists (g, ms). auto. }
  assert (Hlt : forall c, c ∈ ms -> (c < length dag)%nat).
  { intros c Hc. destruct (proj1 (Hmem g c)) as (node & Hnode & _); [eauto|].
    eapply lookup_lt_Some, Hnode. }
  assert (Hne : a <> b).
  { apply list_elem_of_split in Hg as (g1 & g2 & Hgs).
    rewrite Hgs, fmap_app, fmap_cons, concat_app in Hnd. simpl in Hnd.
    apply NoDup_app in Hnd as (_ & _ & Hnd). apply NoDup_app in Hnd as (Hnd & _).
    rewrite Hl in Hnd. apply NoDup_app in Hnd as (_ & _ & Hnd).
    apply NoDup_cons in Hnd as [Hnd _]. intros ->. apply Hnd. left. }
  assert (Ha : a ∈ ms) by (rewrite Hl; apply elem_of_app; right; left).
  assert (Hb : b ∈ ms) by (rewrite Hl; apply elem_of_app; right; right; left).
  assert (Hstep : forall prefix c e,
            SimplexSpec.Before prefix c e 0 ∈ SimplexSpec.equal_steps "group" a b ->
            c <> e -> (c < length dag)%nat -> (e < length dag)%nat ->
            (prefix = "group before" \/ prefix = "group after") ->
            0 <= x (Simplex.n e) - x (Simplex.n c)).
  { intros prefix c e Hstep Hce Hc He Hprefix.
    apply (satisfies_in_part options dag x
             (flat_map SimplexSpec.link_steps (Dag.links dag) ++
              flat_map SimplexSpec.rank_steps (bigrams (Simplex.sort_ranks (Simplex.ranks st))))
             (flat_map SimplexSpec.group_steps (Simplex.groups st)) [] prefix c e 0);
      try assumption.
    - unfold SimplexSpec.steps. fold st. rewrite app_nil_r, app_assoc. reflexivity.
    - apply list_elem_of_In, in_flat_map. exists (g, ms).
      split; [apply list_elem_of_In, Hg|].
      unfold SimplexSpec.group_steps. simpl. apply in_flat_map. exists (a, b).
      split; apply list_elem_of_In; assumption.
    - apply groups_nodup, Hnd.
    - rewrite names_app. intros H. apply elem_of_app in H as [H|H].
      + apply link_names in H as (a' & b' & c' & _ & H).
        apply name_inj in H as (H & _); try colon_free;
          destruct Hprefix as [->| ->]; try colon_free; discriminate H.
      + apply rank_names in H as (a' & b' & [H|[H|H]]);
          apply name_inj in H as (H & _); try colon_free;
          destruct Hprefix as [->| ->]; try colon_free; discriminate H.
    - intros H. inversion H. }
  pose proof (Hstep "group before" a b (list_elem_of_here _ _) Hne (Hlt a Ha) (Hlt b Hb)
                (or_introl eq_refl)) as H1.
  pose proof (Hstep "group after" b a (list_elem_of_further _ _ _ (list_elem_of_here _ _))
                (not_eq_sym Hne) (Hlt b Hb) (Hlt a Ha) (or_intror eq_refl)) as H2.
  lia.
Qed.

(** X10: Group constraints: in every assignment that meets the constraints of
    the program, the nodes of one group lie on the same layer. *)
Theorem simplex_solution_respects_groups options dag a b na nb (g : string) :
  Dag.wf dag ->
  dag !! a = Some na -> dag !! b = Some nb ->
  Options.group options na = Some g -> Options.group options nb = Some g ->
  SimplexSpec.satisfies (Simplex.model (Simplex.program options dag)) x ->
  x (Simplex.n a) = x (Simplex.n b).
Proof.
  intros _ Ha Hb Hga Hgb Hsat.
  destruct (collected_groups options dag) as (Hmem & Hkeys & _).
  destruct (proj2 (Hmem g a)) as (ms & Hin & Hams); [eauto|].
  destruct (proj2 (Hmem g b)) as (ms' & Hin' & Hbms); [eauto|].
  rewrite <- (unique_entry _ g ms ms' Hkeys Hin Hin') in Hbms.
  apply (chain_equal ms); [|exact Hams | exact Hbms].
  intros c e Hce. exact (group_adjacent options dag g ms c e Hsat Hin Hce).
Qed.

End GroupConstraints.

Section ProgramDomain.
Context {N : Type}.
Implicit Types (options : Options.Simplex N) (dag : Dag.Dag N).

Lemma step_domain (s : SimplexSpec.Step) m k :
  (is_Some (Simplex.variables (SimplexSpec.step m s) !! k) <->
   is_Some (Simplex.variables m !! k)) /\
  Simplex.ints (SimplexSpec.step m s) = Simplex.ints m.
Proof.
  destruct s as [p a b d|node d]; simpl; unfold Simplex.before, Simplex.add_opt; simpl;
    rewrite ?lookup_alter_is_Some; split; reflexivity.
Qed.

Lemma run_domain steps : forall m k,
  (is_Some (Simplex.variables (SimplexSpec.run steps m) !! k) <->
   is_Some (Simplex.variables m !! k)) /\
  Simplex.ints (SimplexSpec.run steps m) = Simplex.ints m.
Proof.
  induction steps as [|s steps IH]; intros m k; simpl; [split; reflexivity|].
  destruct (IH (SimplexSpec.step m s) k) as [Hv Hi].
  destruct (step_domain s m k) as [Hv' Hi'].
  rewrite Hv, Hv', Hi, Hi'. split; reflexivity.
Qed.

(** X11: The variables of the program are the nodes: the model has exactly one
    variable per node, named by the node's index, and marks exactly these
    as integers. *)
Theorem simplex_variables_are_the_nodes options dag (k : string) :
  Dag.wf dag ->
  let m := Simplex.model (Simplex.program options dag) in
  (is_Some (Simplex.variables m !! k) <->
   exists j, (j < length dag)%nat /\ k = Simplex.n j) /\
  (forall v, Simplex.ints m !! k = Some v <->
   v = 1 /\ exists j, (j < length dag)%nat /\ k = Simplex.n j).
Proof.
  intros _ m. subst m. rewrite program_run.
  destruct (run_domain (SimplexSpec.steps options dag)
              (Simplex.model (SimplexSpec.collected options dag)) k) as [Hv Hi].
  rewrite Hv, Hi. unfold SimplexSpec.collected.
  destruct (add_nodes_domain options dag
    {| Simplex.model := {| Simplex.variables := ∅; Simplex.constraints := ∅;
                           Simplex.ints := ∅ |};
       Simplex.ranks := []; Simplex.groups := [] |} 0%nat k) as (Dv & Di & _).
  split.
  - rewrite Dv. simpl. rewrite lookup_empty. split.
    + intros [[v H]|(j & Hj & ->)]; [discriminate H|]. exists j. split; [lia | reflexivity].
    + intros (j & Hj & ->). right. exists j. split; [lia | reflexivity].
  - intros v. rewrite Di. simpl. rewrite lookup_empty. split.
    + intros [[H _]|[-> (j & Hj & ->)]]; [discriminate H|].
      split; [reflexivity|]. exists j. split; [lia | reflexivity].
    + intros [-> (j & Hj & ->)]. right. split; [reflexivity|].
      exists j. split; [lia | reflexivity].
Qed.

End ProgramDomain.

Section ProgramSolutions.
Context {N : Type}.
Variable x : string -> Z.
Implicit Types (options : Options.Simplex N) (dag : Dag.Dag N).

Lemma step_constraints (s : SimplexSpec.Step) m L c :
  Simplex.constraints (SimplexSpec.step m s) !! L = Some c ->
  L ∈ SimplexSpec.names [s] \/ Simplex.constraints m !! L = Some c.
Proof.
  destruct s as [p a b d|node d]; simpl; [|auto].
  unfold Simplex.before. fold (SimplexSpec.name p a b). simpl. intros H.
  destruct (decide (SimplexSpec.name p a b = L)) as [<-|Hne].
  - left. left.
  - rewrite lookup_insert_ne in H by exact Hne. auto.
Qed.

Lemma run_constraints steps : forall m L c,
  Simplex.constraints (SimplexSpec.run steps m) !! L = Some c ->
  L ∈ SimplexSpec.names steps \/ Simplex.constraints m !! L = Some c.
Proof.
  induction steps as [|s steps IH]; intros m L c H; simpl in H; [auto|].
  rewrite names_cons. apply IH in H as [H|H].
  - left. apply elem_of_app. auto.
  - apply step_constraints in H as [H|H]; [|auto]. left. apply elem_of_app. auto.
Qed.

Lemma collected_constraints options dag :
  Simplex.constraints (Simplex.model (SimplexSpec.collected options dag)) = ∅.
Proof.
  unfold SimplexSpec.collected.
  destruct (add_nodes_domain options dag
    {| Simplex.model := {| Simplex.variables := ∅; Simplex.constraints := ∅;
                           Simplex.ints := ∅ |};
       Simplex.ranks := []; Simplex.groups := [] |} 0%nat "opt") as (_ & _ & Hc).
  exact Hc.
Qed.

(** X12: Without ranks and groups the constraints of the program are those of
    the links: an assignment meets them exactly when every child lies at
    least one layer below its parent, two for a multi-link. *)
Theorem simplex_constraints_are_the_links options dag :
  Dag.wf dag -> SimplexSpec.simple dag ->
  (forall node, node ∈ dag ->
     Options.rank options node = None /\ Options.group options node = None) ->
  (SimplexSpec.satisfies (Simplex.model (Simplex.program options dag)) x <->
   forall node child count, (node, child, count) ∈ Dag.links dag ->
     x (Simplex.n node) + LongestPath.span count <= x (Simplex.n child)).
Proof.
  intros Hwf Hsimple Hnone. split.
  - intros Hsat node child count Hin.
    destruct (link_constraint_row options dag x node child count Hwf Hsimple Hin)
      as [Hc Hrow].
    destruct (Hsat _ _ Hc) as [Hmin _]. specialize (Hmin _ eq_refl).
    cbv zeta in Hrow. rewrite Hrow in Hmin. unfold LongestPath.span. lia.
  - intros Hlinks L c Hc.
    assert (Hsteps : SimplexSpec.steps options dag
                     = flat_map SimplexSpec.link_steps (Dag.links dag)).
    { unfold SimplexSpec.steps.
      assert (Hr : Simplex.ranks (SimplexSpec.collected options dag) = []).
      { apply add_nodes_ranks. split; [reflexivity|]. intros node Hn. apply Hnone, Hn. }
      assert (Hg : Simplex.groups (SimplexSpec.collected options dag) = []).
      { apply add_nodes_groups. split; [reflexivity|]. intros node Hn. apply Hnone, Hn. }
      rewrite Hr, Hg. simpl. rewrite app_nil_r. reflexivity. }
    pose proof Hc as Hc'. rewrite program_run, Hsteps in Hc'.
    apply run_constraints in Hc' as [Hname|Hempty].
    + apply link_names in Hname as (node & child & count & Hin & ->).
      destruct (link_constraint_row options dag x node child count Hwf Hsimple Hin)
        as [Hc'' Hrow].
      cbv zeta in Hc'', Hrow. rewrite Hc'' in Hc. injection Hc as <-.
      split; [|intros d Hd; discriminate Hd].
      intros d Hd. simpl in Hd. injection Hd as <-. rewrite Hrow. specialize (Hlinks _ _ _ Hin).
      unfold LongestPath.span in Hlinks. lia.
    + rewrite collected_constraints, lookup_empty in Hempty. discriminate Hempty.
Qed.

End ProgramSolutions.

Section SimplexCallFacts.
Context {N : Type}.
Variable solve : string -> string -> gmap string (gmap string Z) ->
                 gmap string Simplex.Constraint -> gmap string Z -> res (gmap string Z).
Implicit Types (options : Options.Simplex N) (dag : Dag.Dag N).

(** X13: [simplexCall] with a solver whose answers meet the constraints they were
    given: the layers written to the nodes put every child at least one
    layer below its parent, two for a multi-link; a node the solver left
    out is on layer 0. *)
Theorem simplex_call_is_layering options dag (values : list Z) :
  Dag.wf dag -> SimplexSpec.simple dag ->
  (forall assignment,
     solve "opt" "max"
       (Simplex.variables (Simplex.model (Simplex.program options dag)))
       (Simplex.constraints (Simplex.model (Simplex.program options dag)))
       (Simplex.ints (Simplex.model (Simplex.program options dag))) = Ok assignment ->
     SimplexSpec.satisfies (Simplex.model (Simplex.program options dag))
       (fun name => default 0 (assignment !! name))) ->
  Simplex.simplexCall solve options dag = Ok values ->
  length values = length dag /\
  forall node child count, (node, child, count) ∈ Dag.links dag ->
    exists a b, values !! node = Some a /\ values !! child = Some b /\
                a + LongestPath.span count <= b.
Proof.
  intros Hwf Hsimple Hsound Hcall. unfold Simplex.simplexCall in Hcall. cbv zeta in Hcall.
  destruct (solve "opt" "max" _ _ _) as [assignment|e] eqn:Hsolve.
  - injection Hcall as <-. split; [apply length_imap|].
    intros node child count Hin.
    destruct (links_in_range dag node child count Hwf Hin) as [Hn Hc].
    destruct (lookup_lt_is_Some_2 dag node Hn) as [nd Hnd].
    destruct (lookup_lt_is_Some_2 dag child Hc) as [cd Hcd].
    exists (default 0 (assignment !! Simplex.n node)),
           (default 0 (assignment !! Simplex.n child)).
    split; [rewrite list_lookup_imap, Hnd; reflexivity|].
    split; [rewrite list_lookup_imap, Hcd; reflexivity|].
    specialize (Hsound assignment eq_refl).
    destruct (link_constraint_row options dag
                (fun name => default 0 (assignment !! name)) node child count Hwf Hsimple Hin)
      as [Hcons Hrow].
    destruct (Hsound _ _ Hcons) as [Hmin _]. specialize (Hmin _ eq_refl).
    cbv zeta in Hrow. rewrite Hrow in Hmin. unfold LongestPath.span. lia.
  - destruct (assert _); discriminate Hcall.
Qed.

End SimplexCallFacts.

(** ** The quadratic coordinate operator: the other settings *)
Section QuadMore.
Context {N L : Type}.
Implicit Types (h : Store.store N L) (opts : Options.Quad N L).

Lemma negative_true (a : Q) : (a < 0)%Q -> Quad.negative a = true.
Proof.
  intros H. unfold Quad.negative. apply negb_true_iff.
  destruct (Qle_bool 0 a) eqn:E; [|reflexivity].
  apply Qle_bool_iff in E. exfalso. exact (Qlt_not_le _ _ H E).
Qed.

Ltac quad_run H :=
  unfold Quad.curve, Quad.vertical, Quad.vertWeak, Quad.vertStrong, Quad.linkCurve,
    Quad.nodeCurve, Quad.component, Quad.quad, Quad.options_of, Quad.buildOperator,
    Quad.createConstAccessor;
  store_step; rewrite ?H, ?alloc_new; simpl.

(** X15: [vertical([a, b])] raises the weights error when [a] or [b] is negative;
    otherwise it builds an operator whose [vertical()] is [[a, b]] and whose
    curve accessors and component weight are those of the original. *)
Theorem quad_vertical_round_trip h (self : ref) opts (a b : Q) :
  h !! self = Some (Options.QuadOp opts) ->
  ((a < 0)%Q \/ (b < 0)%Q -> Quad.vertical self (Some (a, b)) h = Throw NegativeWeights) /\
  ((0 <= a)%Q -> (0 <= b)%Q ->
   exists op h',
     Quad.vertical self (Some (a, b)) h = Ok (Built op, h') /\
     Quad.vertical op None h' = Ok (Got (Some (a, b)), h') /\
     Quad.linkCurve op None h' = Ok (Got (Options.linkCurve opts), h') /\
     Quad.nodeCurve op None h' = Ok (Got (Options.nodeCurve opts), h') /\
     Quad.component op None h' = Ok (Got (Options.comp opts), h')).
Proof.
  intros Hself. split.
  - intros Hneg. quad_run Hself.
    destruct Hneg as [Hneg|Hneg]; rewrite (negative_true _ Hneg);
      [|rewrite orb_true_r]; reflexivity.
  - intros Ha Hb. eexists (length h), _. split.
    + quad_run Hself. rewrite (negative_false a Ha), (negative_false b Hb). simpl.
      reflexivity.
    + repeat split; quad_run Hself; reflexivity.
Qed.

(** X16: [component(v)] raises its error exactly on [v <= 0]; otherwise it builds
    an operator whose [component()] is [v] and whose four accessors are
    those of the original. *)
Theorem quad_component_round_trip h (self : ref) opts (v : Q) :
  h !! self = Some (Options.QuadOp opts) ->
  ((v <= 0)%Q -> Quad.component self (Some v) h = Throw NonPositiveWeight) /\
  ((0 < v)%Q ->
   exists op h',
     Quad.component self (Some v) h = Ok (Built op, h') /\
     Quad.component op None h' = Ok (Got v, h') /\
     Quad.vertWeak op None h' = Ok (Got (Options.vertWeak opts), h') /\
     Quad.vertStrong op None h' = Ok (Got (Options.vertStrong opts), h') /\
     Quad.linkCurve op None h' = Ok (Got (Options.linkCurve opts), h') /\
     Quad.nodeCurve op None h' = Ok (Got (Options.nodeCurve opts), h')).
Proof.
  intros Hself. split.
  - intros Hv. quad_run Hself. apply Qle_bool_iff in Hv. rewrite Hv. reflexivity.
  - intros Hv. eexists (length h), _.
    assert (E : Qle_bool v 0 = false).
    { destruct (Qle_bool v 0) eqn:E; [|reflexivity].
      apply Qle_bool_iff in E. exfalso. exact (Qlt_not_le _ _ Hv E). }
    split.
    + quad_run Hself. rewrite E. reflexivity.
    + repeat split; quad_run Hself; reflexivity.
Qed.

(** X17: An accessor without a numeric [value] is kept as it is by its setter,
    and makes the getter of its pair answer [null]: [curve()] after
    [linkCurve(acc)] or [nodeCurve(acc)], [vertical()] after [vertWeak(acc)]
    or [vertStrong(acc)]. *)
Theorem quad_pair_is_null_for_accessor h (self : ref) opts
    (lacc : Options.Accessor (Options.DagLink L))
    (nacc : Options.Accessor (Dag.DagNode N)) :
  h !! self = Some (Options.QuadOp opts) ->
  Options.value lacc = None -> Options.value nacc = None ->
  (exists op h', Quad.linkCurve self (Some lacc) h = Ok (Built op, h') /\
     Quad.linkCurve op None h' = Ok (Got lacc, h') /\
     Quad.curve op None h' = Ok (Got None, h')) /\
  (exists op h', Quad.nodeCurve self (Some nacc) h = Ok (Built op, h') /\
     Quad.nodeCurve op None h' = Ok (Got nacc, h') /\
     Quad.curve op None h' = Ok (Got None, h')) /\
  (exists op h', Quad.vertWeak self (Some lacc) h = Ok (Built op, h') /\
     Quad.vertWeak op None h' = Ok (Got lacc, h') /\
     Quad.vertical op None h' = Ok (Got None, h')) /\
  (exists op h', Quad.vertStrong self (Some lacc) h = Ok (Built op, h') /\
     Quad.vertStrong op None h' = Ok (Got lacc, h') /\
     Quad.vertical op None h' = Ok (Got None, h')).
Proof.
  intros Hself Hl Hn.
  repeat split; eexists (length h), _; (split; [quad_run Hself; reflexivity|]);
    (split; [quad_run Hself; reflexivity|]);
    quad_run Hself; unfold Quad.isConstAccessor; rewrite ?Hl, ?Hn; simpl;
    rewrite ?andb_false_r; reflexivity.
Qed.

(** X18: [curve] and [vertical] set different options: applied in either order
    they build operators with the same options. *)
Theorem quad_curve_vertical_commute h (self : ref) opts (a b c d : Q) :
  h !! self = Some (Options.QuadOp opts) ->
  (0 <= a)%Q -> (0 <= b)%Q -> (0 <= c)%Q -> (0 <= d)%Q ->
  exists op1 h1 op2 h2 op3 h3 op4 h4,
    Quad.curve self (Some (a, b)) h = Ok (Built op1, h1) /\
    Quad.vertical op1 (Some (c, d)) h1 = Ok (Built op2, h2) /\
    Quad.vertical self (Some (c, d)) h = Ok (Built op3, h3) /\
    Quad.curve op3 (Some (a, b)) h3 = Ok (Built op4, h4) /\
    h2 !! op2 = h4 !! op4 /\
    Quad.curve op2 None h2 = Ok (Got (Some (a, b)), h2) /\
    Quad.vertical op2 None h2 = Ok (Got (Some (c, d)), h2).
Proof.
  intros Hself Ha Hb Hc Hd.
  eexists (length h), _, (length (h ++ [_])), _, (length h), _, (length (h ++ [_])), _.
  split; [|split; [|split; [|split; [|split; [|split]]]]].
  - quad_run Hself. rewrite (negative_false a Ha), (negative_false b Hb). simpl. reflexivity.
  - quad_run Hself. rewrite (negative_false c Hc), (negative_false d Hd). simpl. reflexivity.
  - quad_run Hself. rewrite (negative_false c Hc), (negative_false d Hd). simpl. reflexivity.
  - quad_run Hself. rewrite (negative_false a Ha), (negative_false b Hb). simpl. reflexivity.
  - rewrite !alloc_new. reflexivity.
  - quad_run Hself. reflexivity.
  - quad_run Hself. reflexivity.
Qed.

End QuadMore.

(** ** coord/quad.ts: cached weight accessors *)
Section QuadCacheFacts.
Context {L : Type}.

(** X19: The cached link accessor of an accessor that is not constant: a
    weight it returns has passed the guard [val < 0], so it is not negative
    (it may be [NaN]), and it is returned again, with the cache as it is,
    for every link with the same source and target, whatever the accessor
    says of that link; the error is raised exactly for a pair not in the
    cache whose accessor value is negative. *)
Theorem quad_link_weights_are_cached_by_endpoints
    (accessor : QuadCache.Accessor (Options.DagLink L)) (link : Options.DagLink L)
    (cache : QuadCache.LinkCache) :
  QuadCache.value accessor = None ->
  QuadCache.weights_ok cache ->
  (forall v cache',
     QuadCache.cacheLinkWeightAccessor accessor link cache = QuadCache.Weighed (v, cache') ->
     jsnum_negative v = false /\ QuadCache.weights_ok cache' /\
     forall other,
       Options.source other = Options.source link ->
       Options.target other = Options.target link ->
       QuadCache.cacheLinkWeightAccessor accessor other cache'
         = QuadCache.Weighed (v, cache')) /\
  (QuadCache.cacheLinkWeightAccessor accessor link cache = QuadCache.NegativeLinkWeight <->
   cache !! (Options.source link, Options.target link) = None /\
   jsnum_negative (QuadCache.call accessor link) = true) /\
  QuadCache.cacheLinkWeightAccessor accessor link cache <> QuadCache.NegativeNodeWeight.
Proof.
  intros Hacc Hok. unfold QuadCache.cacheLinkWeightAccessor, QuadCache.isConstAccessor.
  rewrite Hacc. cbv zeta.
  destruct (cache !! (Options.source link, Options.target link)) as [cached|] eqn:E.
  - split; [|split; [|discriminate]].
    + intros v cache' [= <- <-]. split; [exact (Hok _ _ E)|]. split; [exact Hok|].
      intros other -> ->. rewrite E. reflexivity.
    + split; [discriminate | intros [H _]; discriminate].
  - destruct (jsnum_negative (QuadCache.call accessor link)) eqn:En.
    + split; [|split; [|discriminate]].
      * intros v cache' H. discriminate.
      * split; [|reflexivity]. intros _. split; reflexivity.
    + split; [|split; [|discriminate]].
      * intros v cache' [= <- <-]. split; [exact En|]. split.
        -- intros k v Hk. destruct (decide ((Options.source link, Options.target link) = k))
             as [<-|Hne].
           ++ rewrite lookup_insert_eq in Hk. injection Hk as <-. exact En.
           ++ rewrite lookup_insert_ne in Hk by exact Hne. exact (Hok _ _ Hk).
        -- intros other -> ->. rewrite lookup_insert_eq. reflexivity.
      * split; [discriminate|]. intros [_ H]. discriminate H.
Qed.

(** X20: The cached node accessor of an accessor that is not constant: a
    weight it returns has passed the guard [val < 0], so it is not negative
    (it may be [NaN]), and it is returned again for the same node with the
    cache as it is; the error is raised exactly for a node not in the cache
    whose accessor value is negative.  A constant accessor is used as it
    is: its value is returned unchecked and nothing is cached. *)
Theorem quad_node_weights_are_cached (accessor : QuadCache.Accessor nat) (node : nat)
    (cache : QuadCache.NodeCache) :
  QuadCache.weights_ok cache ->
  (QuadCache.value accessor = None ->
   (forall v cache',
      QuadCache.cacheNodeWeightAccessor accessor node cache = QuadCache.Weighed (v, cache') ->
      jsnum_negative v = false /\ QuadCache.weights_ok cache' /\
      QuadCache.cacheNodeWeightAccessor accessor node cache' = QuadCache.Weighed (v, cache')) /\
   (QuadCache.cacheNodeWeightAccessor accessor node cache = QuadCache.NegativeNodeWeight <->
    cache !! node = None /\ jsnum_negative (QuadCache.call accessor node) = true)) /\
  (forall c, QuadCache.value accessor = Some c ->
   QuadCache.cacheNodeWeightAccessor accessor node cache
     = QuadCache.Weighed (QuadCache.call accessor node, cache)).
Proof.
  intros Hok. unfold QuadCache.cacheNodeWeightAccessor, QuadCache.isConstAccessor. split.
  - intros Hacc. rewrite Hacc.
    destruct (cache !! node) as [cached|] eqn:E.
    + split.
      * intros v cache' [= <- <-]. split; [exact (Hok _ _ E)|]. split; [exact Hok|].
        rewrite E. reflexivity.
      * split; [discriminate | intros [H _]; discriminate].
    + cbv zeta. destruct (jsnum_negative (QuadCache.call accessor node)) eqn:En.
      * split; [intros v cache' H; discriminate|].
        split; [|reflexivity]. intros _. split; reflexivity.
      * split.
        -- intros v cache' [= <- <-]. split; [exact En|]. split.
           ++ intros k v Hk. destruct (decide (node = k)) as [<-|Hne].
              ** rewrite lookup_insert_eq in Hk. injection Hk as <-. exact En.
              ** rewrite lookup_insert_ne in Hk by exact Hne. exact (Hok _ _ Hk).
           ++ rewrite lookup_insert_eq. reflexivity.
        -- split; [discriminate|]. intros [_ H]. discriminate H.
  - intros c Hacc. rewrite Hacc. reflexivity.
Qed.

End QuadCacheFacts.

(** ** The sugiyama operator: node sizes *)
Section NodeSizeFacts.
Context {N L : Type}.
Implicit Types (h : Store.store N L) (so : Options.Sugiyama N L).

Ltac sugi_run H :=
  unfold Sugiyama.layering, Sugiyama.decross, Sugiyama.coord, Sugiyama.size,
    Sugiyama.nodeSize, Sugiyama.sugiNodeSize, Sugiyama.options_of, Sugiyama.buildOperator;
  store_step; rewrite ?H, ?alloc_new; simpl.

(** X21: [nodeSize(sz)] builds an operator whose [nodeSize()] is [sz] and whose
    [sugiNodeSize()] wraps it: [sz(node)] on a real node, [sz(undefined)] on
    a dummy node, with [sz] as its [wrapped] property; the other options
    are those of the original. *)
Theorem sugiyama_node_size_sets_wrapped h (self : ref) so
    (sz : Options.NodeSizeAccessor N) :
  h !! self = Some (Options.SugiyamaOp so) ->
  exists op h' acc,
    Sugiyama.nodeSize self (Some sz) h = Ok (Built op, h') /\
    Sugiyama.nodeSize op None h' = Ok (Got (Some sz), h') /\
    Sugiyama.sugiNodeSize op None h' = Ok (Got acc, h') /\
    Options.wrapped acc = Some sz /\
    (forall node, Options.sugi_size acc {| Options.sugi_data := Options.SugiReal node |}
                  = sz (Some node)) /\
    (forall link, Options.sugi_size acc {| Options.sugi_data := Options.SugiDummy link |}
                  = sz None) /\
    Sugiyama.layering op None h' = Ok (Got (Options.layering so), h') /\
    Sugiyama.decross op None h' = Ok (Got (Options.decross so), h') /\
    Sugiyama.coord op None h' = Ok (Got (Options.coord so), h') /\
    Sugiyama.size op None h' = Ok (Got (Options.size so), h').
Proof.
  intros Hself. eexists (length h), _, _.
  split; [sugi_run Hself; reflexivity|].
  split; [sugi_run Hself; reflexivity|].
  split; [sugi_run Hself; reflexivity|].
  repeat split; sugi_run Hself; reflexivity.
Qed.

End NodeSizeFacts.

(** ** The optimal decrossing operator: loosening the size check *)
Section OptMore.
Variable solveAndSort : OptModel.Model -> Opt.Layers -> Opt.Layers.

Local Abbreviation optCall := (OptModel.optCall solveAndSort).

(** X14: Loosening the setting changes nothing but the size errors: what
    "small" gives when it raises no size error, the sorted layers or an
    error of building the model, "medium" gives too; what "medium" gives
    then, "large" gives too, and "large" gives what comes after the check.
    When both checks would fail, the error is the one of the first check. *)
Theorem opt_looser_setting_same_result (layers : Opt.Layers) :
  (~ Opt.size_error (optCall {| Options.large := Options.Small |} layers) ->
   optCall {| Options.large := Options.Medium |} layers
   = optCall {| Options.large := Options.Small |} layers) /\
  (~ Opt.size_error (optCall {| Options.large := Options.Medium |} layers) ->
   optCall {| Options.large := Options.Large |} layers
   = optCall {| Options.large := Options.Medium |} layers) /\
  optCall {| Options.large := Options.Large |} layers
    = OptModel.solveLayers solveAndSort layers /\
  (1200 < Opt.numVars layers ->
   optCall {| Options.large := Options.Small |} layers = Throw TooLargeCrash /\
   optCall {| Options.large := Options.Medium |} layers = Throw TooLargeCrash).
Proof.
  unfold OptModel.optCall, Opt.checkLarge, Opt.size_error. simpl.
  split; [|split; [|split]].
  - destruct (1200 <? Opt.numVars layers); simpl; [intros H; destruct H; auto|].
    destruct ((400 <? Opt.numVars layers) || (100 <? Opt.numEdges layers)); simpl;
      [intros H; destruct H; auto | reflexivity].
  - destruct (1200 <? Opt.numVars layers); simpl; [intros H; destruct H; auto | reflexivity].
  - reflexivity.
  - intros H. apply Z.ltb_lt in H. rewrite H. simpl. auto.
Qed.

End OptMore.

(** ** sugiyama: cached node sizes and vertical coordinates *)
Section CacheFacts.
Context {Node : Type} `{EqDecision Node} {World : Type}.
Variable nodeSize : Node -> World -> (jsnum * jsnum) * World.
Implicit Types (cache : Steps.Cache (Node:=Node)) (st : Steps.Cache (Node:=Node) * World).

Lemma cache_get_set cache node val node' :
  Steps.cache_get (Steps.cache_set cache node val) node' =
  match Steps.cache_get cache node' with
  | Some v => Some v
  | None => if decide (node = node') then Some val else None
  end.
Proof.
  unfold Steps.cache_set. induction cache as [|[k v] cache IH]; simpl.
  - reflexivity.
  - destruct (decide (k = node')); [reflexivity | exact IH].
Qed.

(** X22: Memoization: once [cached(node)] has returned, calling it again returns
    the same pair without calling the accessor (the cache and the world stay
    as they are), [cachedX] and [cachedY] return its two components, and
    the entries of the other nodes are still there. *)
Theorem cached_node_size_memoizes (check : bool) node st val st' :
  Steps.cached nodeSize check node st = Steps.Sized (val, st') ->
  Steps.cached nodeSize check node st' = Steps.Sized (val, st') /\
  Steps.cachedX nodeSize check node st' = Steps.Sized (fst val, st') /\
  Steps.cachedY nodeSize check node st' = Steps.Sized (snd val, st') /\
  (forall other v, Steps.cache_get (fst st) other = Some v ->
                   Steps.cache_get (fst st') other = Some v).
Proof.
  intros Hcall.
  assert (Hget : Steps.cache_get (fst st') node = Some val /\
                 forall other v, Steps.cache_get (fst st) other = Some v ->
                                 Steps.cache_get (fst st') other = Some v).
  { destruct st as [cache w]. unfold Steps.cached in Hcall.
    destruct (Steps.cache_get cache node) as [v|] eqn:E.
    - injection Hcall as <- <-. simpl. auto.
    - destruct (nodeSize node w) as [[width height] w'].
      destruct (check && (jsnum_negative width || jsnum_negative height)); [discriminate|].
      injection Hcall as <- <-. simpl. split.
      + rewrite cache_get_set, E. destruct (decide (node = node)); congruence.
      + intros other v Hother. rewrite cache_get_set, Hother. reflexivity. }
  destruct Hget as [Hget Hkeep].
  assert (Hagain : Steps.cached nodeSize check node st' = Steps.Sized (val, st')).
  { destruct st' as [cache' w']. unfold Steps.cached. simpl in Hget. rewrite Hget.
    reflexivity. }
  unfold Steps.cachedX, Steps.cachedY. rewrite Hagain. auto.
Qed.

(** X23: The check: with [check] on, a call either returns a width and a
    height that have passed the check [width < 0 || height < 0], so neither
    is negative (either may be [NaN]), and keeps the cache free of negative
    sizes, or raises the error for a node that is not cached and whose
    accessor gave a negative width or height; with [check] off it never
    raises. *)
Theorem cached_node_size_checks node st :
  Steps.cache_ok (fst st) ->
  match Steps.cached nodeSize true node st with
  | Steps.Sized (val, st') =>
      jsnum_negative (fst val) = false /\ jsnum_negative (snd val) = false /\
      Steps.cache_ok (fst st')
  | Steps.NegativeSize width height =>
      (jsnum_negative width = true \/ jsnum_negative height = true) /\
      Steps.cache_get (fst st) node = None /\
      fst (nodeSize node (snd st)) = (width, height)
  end /\
  exists val st', Steps.cached nodeSize false node st = Steps.Sized (val, st').
Proof.
  intros Hok. destruct st as [cache w]. simpl in Hok. unfold Steps.cached. split.
  - destruct (Steps.cache_get cache node) as [[width height]|] eqn:E.
    + destruct (Hok _ _ _ E). auto.
    + destruct (nodeSize node w) as [[width height] w'] eqn:Hsize. simpl.
      destruct (jsnum_negative width) eqn:Ew; simpl.
      * split; [|rewrite Hsize; auto]. left. exact Ew.
      * destruct (jsnum_negative height) eqn:Eh; simpl.
        -- split; [|rewrite Hsize; auto]. right. exact Eh.
        -- split; [exact Ew|]. split; [exact Eh|].
           intros node' width' height'. rewrite cache_get_set.
           destruct (Steps.cache_get cache node') as [v|] eqn:E'.
           ++ intros [= ->]. exact (Hok _ _ _ E').
           ++ destruct (decide (node = node')); [|discriminate].
              intros [= <- <-]. auto.
  - destruct (Steps.cache_get cache node) as [val|]; [eauto|].
    destruct (nodeSize node w) as [[width height] w']. simpl. eauto.
Qed.

End CacheFacts.

Section VerticalFacts.
Context {Node : Type}.
Variable size : Node -> Q.
Implicit Types (layers : list (list Node)) (layer : list Node).


End VerticalFacts.

Section VerticalOrder.
Context {Node Num : Type}.
Variable zero : Num.
Variable add : Num -> Num -> Num.
Variable half : Num -> Num.
Variable max_of : list Num -> Num.
Variable le : Num -> Num -> Prop.
Variable size : Node -> Num.
Implicit Types (layers : list (list Node)) (layer : list Node) (a b c : Num).

(** [0 <= a]: [a] is not negative and is a number. *)
Local Abbreviation nonneg a := (le zero a).

(** What the order needs of the numbers: [<=] is an order on the numbers
    that are not negative, a sum is not below its first term and grows
    with its second, a half is between 0 and the whole, and the greatest
    of some numbers that are not negative is not negative.  Sums and
    halves rounded to the nearest number meet all of these, also where a
    sum is too large and becomes [Infinity]; exact ones do as well. *)
Hypothesis zero_nonneg : nonneg zero.
Hypothesis le_refl : forall a, nonneg a -> le a a.
Hypothesis le_trans : forall a b c, le a b -> le b c -> le a c.
Hypothesis add_ge : forall a b, nonneg a -> nonneg b -> le a (add a b).
Hypothesis add_mono : forall a b c, nonneg a -> nonneg b -> le b c -> le (add a b) (add a c).
Hypothesis half_le : forall a, nonneg a -> nonneg (half a) /\ le (half a) a.
Hypothesis max_nonneg :
  forall xs, xs <> [] -> (forall x, x ∈ xs -> nonneg x) -> nonneg (max_of xs).

Local Abbreviation coordVertical_from := (Steps.Rounded.coordVertical_from add half max_of).
Local Abbreviation coordVertical := (Steps.Rounded.coordVertical zero add half max_of).

Lemma at_position_tail {A : Type} (l : list A) (ls : list (list A)) k p :
  Steps.at_position (l :: ls) (S k) p = Steps.at_position ls k p.
Proof. reflexivity. Qed.

(** From the height [h]: every [y] and the total height are at least [h],
    and the [y] of a layer is at most that of every later layer. *)
Lemma coordVertical_order layers : forall h yss total,
  (forall layer, layer ∈ layers -> layer <> []) ->
  (forall layer node, layer ∈ layers -> node ∈ layer -> nonneg (size node)) ->
  nonneg h ->
  coordVertical_from h layers size = (yss, total) ->
  le h total /\
  (forall k p node, Steps.at_position layers k p = Some node ->
     exists y, Steps.at_position yss k p = Some y) /\
  (forall k p y, Steps.at_position yss k p = Some y -> le h y /\ le y total) /\
  (forall k p q ya yb,
     Steps.at_position yss k p = Some ya -> Steps.at_position yss k q = Some yb ->
     ya = yb) /\
  (forall i j p q ya yb, (i <= j)%nat ->
     Steps.at_position yss i p = Some ya -> Steps.at_position yss j q = Some yb ->
     le ya yb).
Proof.
  induction layers as [|layer layers IH]; intros h yss total Hne Hnn Hh Hrun.
  - injection Hrun as <- <-. split; [auto|]. split; [|split; [|split]].
    + intros [|k] p node H; discriminate H.
    + intros [|k] p y H; discriminate H.
    + intros [|k] p q ya yb H; discriminate H.
    + intros [|i] j p q ya yb _ H; discriminate H.
  - simpl in Hrun.
    set (m := max_of (map size layer)) in Hrun.
    assert (Hm : nonneg m).
    { apply max_nonneg.
      - intros E. apply fmap_nil_inv in E. exact (Hne layer (list_elem_of_here _ _) E).
      - intros x Hx. apply list_elem_of_fmap in Hx as (node & -> & Hin).
        exact (Hnn layer node (list_elem_of_here _ _) Hin). }
    destruct (half_le m Hm) as [Hhalf0 Hhalf].
    assert (Hlo : le h (add h (half m))) by auto.
    assert (Hhi : le (add h (half m)) (add h m)) by auto.
    assert (Hy0 : nonneg (add h (half m))) by eauto.
    assert (Hh' : nonneg (add h m)) by eauto.
    destruct (coordVertical_from (add h m) layers size) as [yss' total'] eqn:Hrest.
    injection Hrun as <- <-.
    destruct (IH (add h m) yss' total'
                (fun l Hl => Hne l (list_elem_of_further _ _ _ Hl))
                (fun l node Hl => Hnn l node (list_elem_of_further _ _ _ Hl))
                Hh' Hrest) as (Htotal & Hall & Hbounds & Hsame & Horder).
    assert (Hfirst : forall p y, Steps.at_position
                (map (fun _ : Node => add h (half m)) layer :: yss') 0 p = Some y ->
              y = add h (half m)).
    { intros p y H. unfold Steps.at_position in H. simpl in H.
      rewrite list_lookup_fmap in H. destruct (layer !! p); [|discriminate H].
      injection H as <-. reflexivity. }
    split; [eauto|]. split; [|split; [|split]].
    + intros [|k] p node Hpos.
      * unfold Steps.at_position in *. simpl in *. rewrite list_lookup_fmap, Hpos. eauto.
      * rewrite at_position_tail in *. eauto.
    + intros [|k] p y Hpos.
      * apply Hfirst in Hpos as ->. eauto.
      * rewrite at_position_tail in Hpos. destruct (Hbounds k p y Hpos). eauto.
    + intros [|k] p q ya yb Ha Hb.
      * apply Hfirst in Ha as ->. apply Hfirst in Hb as ->. reflexivity.
      * rewrite at_position_tail in Ha, Hb. eauto.
    + intros [|i] [|j] p q ya yb Hij Ha Hb; try lia.
      * apply Hfirst in Ha as ->. apply Hfirst in Hb as ->. auto.
      * apply Hfirst in Ha as ->. rewrite at_position_tail in Hb.
        destruct (Hbounds j q yb Hb). eauto.
      * rewrite at_position_tail in Ha, Hb. eapply Horder; [|eassumption..]. lia.
Qed.

(** X24: Layers that each have a node, with sizes that are not negative,
    and numbers whose sums and halves may be rounded: [coordVertical]
    gives every node a [y] between 0 and the total height it returns, the
    nodes of a layer the same [y], and the nodes of a layer a [y] that is
    at most the [y] of the nodes of every later layer.  Nothing is said of
    the boxes around the nodes, which rounding can make overlap. *)
Theorem coord_vertical_layers_in_order layers yss total :
  (forall layer, layer ∈ layers -> layer <> []) ->
  (forall layer node, layer ∈ layers -> node ∈ layer -> nonneg (size node)) ->
  coordVertical layers size = (yss, total) ->
  nonneg total /\
  (forall k p node, Steps.at_position layers k p = Some node ->
     exists y, Steps.at_position yss k p = Some y /\ nonneg y /\ le y total) /\
  (forall k p q ya yb,
     Steps.at_position yss k p = Some ya -> Steps.at_position yss k q = Some yb ->
     ya = yb) /\
  (forall i j p q ya yb, (i <= j)%nat ->
     Steps.at_position yss i p = Some ya -> Steps.at_position yss j q = Some yb ->
     le ya yb).
Proof.
  intros Hne Hnn Hrun.
  destruct (coordVertical_order layers zero yss total Hne Hnn zero_nonneg Hrun)
    as (Htotal & Hall & Hbounds & Hsame & Horder).
  split; [exact Htotal|]. split; [|split; [exact Hsame | exact Horder]].
  intros k p node Hpos. destruct (Hall k p node Hpos) as (y & Hy).
  exists y. split; [exact Hy|]. exact (Hbounds k p y Hy).
Qed.
End VerticalOrder.

(** ** The optimal decrossing operator: the integer program *)
Ltac bind_done H :=
  match type of H with
  | OptModel.bind ?o _ = OptModel.Done _ =>
      let E := fresh "E" in
      destruct o eqn:E; simpl in H; [|discriminate H|discriminate H]
  end.

Section OptModelFacts.

Lemma foldM_invariant {A B : Type} (P : A -> Prop) (f : A -> B -> OptModel.outcome A)
    (l : list B) :
  (forall a b a', b ∈ l -> f a b = OptModel.Done a' -> P a -> P a') ->
  forall a a', OptModel.foldM f l a = OptModel.Done a' -> P a -> P a'.
Proof.
  induction l as [|b l IH]; intros Hf a a' H Ha; simpl in H.
  - injection H as <-. exact Ha.
  - destruct (f a b) as [a1| |] eqn:E; simpl in H; try discriminate.
    apply (IH (fun a0 b0 a0' Hb => Hf a0 b0 a0' (list_elem_of_further _ _ _ Hb)) a1 a' H).
    exact (Hf a b a1 (list_elem_of_here _ _) E Ha).
Qed.

Lemma foldM_app {A B : Type} (f : A -> B -> OptModel.outcome A) (l l' : list B) (a : A) :
  OptModel.foldM f (l ++ l') a = OptModel.bind (OptModel.foldM f l a) (OptModel.foldM f l').
Proof.
  revert a. induction l as [|b l IH]; intros a; simpl; [reflexivity|].
  destruct (f a b); simpl; [apply IH | reflexivity | reflexivity].
Qed.

(** The pairs and triples of a layer, by recursion on the layer. *)
Lemma pairs_all {A : Type} (layer : list A) :
  OptModel.pairs layer
  = concat (imap (fun i n1 => map (fun n2 => (n1, n2)) (drop (i + 1) layer)) layer).
Proof.
  unfold OptModel.pairs.
  destruct (decide (layer = [])) as [->|Hne]; [reflexivity|].
  assert (Hlast : exists init last, layer = init ++ [last]).
  { destruct (rev layer) as [|last init] eqn:E.
    - apply (f_equal (@rev A)) in E. rewrite rev_involutive in E. contradiction.
    - exists (rev init), last. apply (f_equal (@rev A)) in E.
      rewrite rev_involutive in E. exact E. }
  destruct Hlast as (init & last & ->).
  rewrite length_app. simpl. replace (length init + 1 - 1)%nat with (length init) by lia.
  rewrite take_app_length. rewrite imap_app, concat_app. simpl.
  rewrite (drop_ge (init ++ [last])) by (rewrite length_app; simpl; lia).
  simpl. rewrite !app_nil_r. reflexivity.
Qed.

Lemma pairs_cons {A : Type} (a : A) (layer : list A) :
  OptModel.pairs (a :: layer) = map (fun b => (a, b)) layer ++ OptModel.pairs layer.
Proof. rewrite !pairs_all. reflexivity. Qed.

Lemma triples_cons {A : Type} (a : A) (layer : list A) :
  OptModel.triples (a :: layer)
  = map (fun '(b, c) => (a, b, c)) (OptModel.pairs layer) ++ OptModel.triples layer.
Proof.
  destruct layer as [|b layer]; [reflexivity|].
  unfold OptModel.triples.
  replace (length (a :: b :: layer) - 1)%nat with (S (length layer)) by (simpl; lia).
  replace (length (b :: layer) - 1)%nat with (length layer) by (simpl; lia).
  rewrite firstn_cons, imap_cons. cbn [concat]. f_equal.
  rewrite pairs_all. generalize (b :: layer) as l. intros l.
  assert (H : forall (k : nat) (l' : list A),
             concat (imap (fun j n2 => map (fun n3 => (a, n2, n3)) (drop (k + j + 1) l)) l')
             = map (fun '(b0, c) => (a, b0, c))
                 (concat (imap (fun i n1 => map (fun n2 => (n1, n2)) (drop (k + i + 1) l)) l'))).
  { intros k l'. revert k. induction l' as [|x l' IH]; intros k; [reflexivity|].
    rewrite !imap_cons. cbn [concat]. rewrite map_app, map_map. f_equal.
    specialize (IH (S k)).
    erewrite (imap_ext _ (fun j n2 => map (fun n3 => (a, n2, n3)) (drop (S k + j + 1) l))).
    - rewrite IH. f_equal. f_equal. apply imap_ext. intros i y _. simpl.
      replace (k + S i + 1)%nat with (S (k + i + 1)) by lia. reflexivity.
    - intros i y _. simpl. replace (k + S i + 1)%nat with (S (k + i + 1)) by lia. reflexivity. }
  etransitivity; [|exact (H 0%nat l)].
  f_equal. apply imap_ext. intros j y _. simpl.
  replace (j + 2)%nat with (S (j + 1)) by lia. reflexivity.
Qed.

Lemma pairs_length {A : Type} (layer : list A) :
  (2 * length (OptModel.pairs layer) = length layer * (length layer - 1))%nat.
Proof.
  induction layer as [|a layer IH]; [reflexivity|].
  rewrite pairs_cons, length_app, length_map. simpl length.
  destruct layer as [|b layer]; [reflexivity|]. simpl length in *. nia.
Qed.

Lemma pairs_seq_elem (k : nat) : forall i a b,
  (a, b) ∈ OptModel.pairs (seq i k) <-> (i <= a /\ a < b /\ b < i + k)%nat.
Proof.
  induction k as [|k IH]; intros i a b.
  - split; [intros H; inversion H | lia].
  - cbn [seq]. rewrite pairs_cons, elem_of_app, IH, list_elem_of_fmap. split.
    + intros [(c & Heq & Hc)|H]; [|lia].
      injection Heq as -> ->. apply elem_of_seq in Hc. lia.
    + intros (Hi & Hab & Hb). destruct (decide (a = i)) as [->|Hne]; [|right; lia].
      left. exists b. split; [reflexivity|]. apply elem_of_seq. lia.
Qed.

Lemma pairs_seq_nodup (k : nat) : forall i, NoDup (OptModel.pairs (seq i k)).
Proof.
  induction k as [|k IH]; intros i; [constructor|].
  cbn [seq]. rewrite pairs_cons. apply NoDup_app. split; [|split].
  - apply NoDup_fmap_2; [intros x y [= ->]; reflexivity | apply NoDup_seq].
  - intros [a b] Hin Hin'. apply list_elem_of_fmap in Hin as (c & [= -> ->] & _).
    apply pairs_seq_elem in Hin'. lia.
  - apply IH.
Qed.

Lemma triples_seq_elem (k : nat) : forall i a b c,
  (a, b, c) ∈ OptModel.triples (seq i k) -> (i <= a /\ a < b /\ b < c /\ c < i + k)%nat.
Proof.
  induction k as [|k IH]; intros i a b c H.
  - inversion H.
  - cbn [seq] in H. rewrite triples_cons in H. apply elem_of_app in H as [H|H].
    + apply list_elem_of_fmap in H as ([b' c'] & [= -> -> ->] & H).
      apply pairs_seq_elem in H. lia.
    + apply IH in H. lia.
Qed.

Lemma number_ids (layer : list Opt.LayerNode) (i : nat) :
  map fst (imap (fun k node => ((i + k)%nat, Opt.ichildren node)) layer)
  = seq i (length layer).
Proof.
  revert i. induction layer as [|node layer IH]; intros i; [reflexivity|].
  rewrite imap_cons. cbn [map length seq fst]. rewrite Nat.add_0_r. f_equal.
  rewrite <- (IH (S i)). f_equal. apply imap_ext. intros k x _. simpl.
  f_equal. lia.
Qed.

(** The ids of the layers are consecutive ranges. *)
Lemma number_lookup (layers : Opt.Layers) : forall i l layer,
  OptModel.number i layers !! l = Some layer ->
  exists off, map fst layer = seq off (length layer) /\
              (i <= off)%nat /\ (off + length layer <= i + length (concat layers))%nat.
Proof.
  induction layers as [|first layers IH]; intros i l layer H; [discriminate H|].
  cbn [concat]. rewrite length_app. cbn [OptModel.number] in H.
  destruct l as [|l]; simpl in H.
  - injection H as <-. exists i. rewrite number_ids, length_imap. split; [reflexivity | lia].
  - apply IH in H as (off & Hids & Hlo & Hhi). exists off. split; [exact Hids | lia].
Qed.

Lemma all_pairs_elem (layers : Opt.Layers) : forall i a b,
  (a, b) ∈ OptModel.all_pairs (OptModel.number i layers) <->
  (a < b)%nat /\ exists l layer, OptModel.number i layers !! l = Some layer /\
                                 a ∈ map fst layer /\ b ∈ map fst layer.
Proof.
  induction layers as [|first layers IH]; intros i a b.
  - split; [intros H; inversion H | intros (_ & l & layer & H & _); discriminate H].
  - unfold OptModel.all_pairs. cbn [OptModel.number flat_map].
    fold (OptModel.all_pairs (OptModel.number (i + length first) layers)).
    rewrite elem_of_app, IH, number_ids, pairs_seq_elem. split.
    + intros [H|(Hab & l & layer & Hl & Ha & Hb)].
      * split; [lia|]. exists 0%nat, (imap (fun k node => ((i + k)%nat, Opt.ichildren node)) first).
        split; [reflexivity|]. rewrite number_ids. split; apply elem_of_seq; lia.
      * split; [exact Hab|]. exists (S l), layer. auto.
    + intros (Hab & [|l] & layer & Hl & Ha & Hb); simpl in Hl.
      * injection Hl as <-. rewrite number_ids in Ha, Hb.
        apply elem_of_seq in Ha, Hb. left. lia.
      * right. split; [exact Hab|]. exists l, layer. auto.
Qed.

Lemma all_pairs_bounds (layers : Opt.Layers) i a b :
  (a, b) ∈ OptModel.all_pairs (OptModel.number i layers) ->
  (i <= a /\ a < b /\ b < i + length (concat layers))%nat.
Proof.
  intros H. apply all_pairs_elem in H as (Hab & l & layer & Hl & Ha & Hb).
  apply number_lookup in Hl as (off & Hids & Hlo & Hhi).
  rewrite Hids in Ha, Hb. apply elem_of_seq in Ha, Hb. lia.
Qed.

Lemma all_pairs_nodup (layers : Opt.Layers) : forall i,
  NoDup (OptModel.all_pairs (OptModel.number i layers)).
Proof.
  induction layers as [|first layers IH]; intros i; [constructor|].
  unfold OptModel.all_pairs. cbn [OptModel.number flat_map].
  fold (OptModel.all_pairs (OptModel.number (i + length first) layers)).
  rewrite number_ids. apply NoDup_app. split; [apply pairs_seq_nodup|]. split; [|apply IH].
  intros [a b] Hin Hin'. apply pairs_seq_elem in Hin. apply all_pairs_bounds in Hin'. lia.
Qed.

Lemma all_pairs_length (layers : Opt.Layers) : forall i,
  Z.of_nat (length (OptModel.all_pairs (OptModel.number i layers))) = Opt.pair_vars layers.
Proof.
  induction layers as [|first layers IH]; intros i; [reflexivity|].
  unfold OptModel.all_pairs. cbn [OptModel.number flat_map].
  fold (OptModel.all_pairs (OptModel.number (i + length first) layers)).
  rewrite length_app, Nat2Z.inj_add, IH, number_ids. simpl. f_equal.
  pose proof (pairs_length (seq i (length first))) as H. rewrite length_seq in H.
  apply Z.div_unique_exact; [lia|].
  destruct (length first) as [|k]; [simpl in *; lia|]. nia.
Qed.

Lemma id_of_lt total node : (node < total)%nat -> OptModel.id_of total node = OptModel.Done node.
Proof. intros H. unfold OptModel.id_of. apply Nat.ltb_lt in H. rewrite H. reflexivity. Qed.

Lemma key_pair total a b :
  (a < b)%nat -> (b < total)%nat ->
  OptModel.key total [a; b] = OptModel.Done (OptModel.pair_name a b) /\
  OptModel.key total [b; a] = OptModel.Done (OptModel.pair_name a b).
Proof.
  intros Hab Hb. unfold OptModel.key. simpl.
  rewrite (id_of_lt total a) by lia. rewrite (id_of_lt total b) by lia. simpl.
  unfold OptModel.sort_ids. simpl.
  assert (E1 : (a <=? b)%nat = true) by (apply Nat.leb_le; lia).
  assert (E2 : (b <=? a)%nat = false) by (apply Nat.leb_gt; lia).
  rewrite E1, E2. split; reflexivity.
Qed.

Lemma key_triple total a b c :
  (a < b)%nat -> (b < c)%nat -> (c < total)%nat ->
  OptModel.key total [a; b; c]
  = OptModel.Done (pretty a +:+ " => " +:+ pretty b +:+ " => " +:+ pretty c).
Proof.
  intros Hab Hbc Hc. unfold OptModel.key. simpl.
  rewrite (id_of_lt total a) by lia. rewrite (id_of_lt total b) by lia.
  rewrite (id_of_lt total c) by lia. simpl.
  unfold OptModel.sort_ids. simpl.
  assert (E1 : (a <=? b)%nat = true) by (apply Nat.leb_le; lia).
  assert (E2 : (a <=? c)%nat = true) by (apply Nat.leb_le; lia).
  assert (E3 : (b <=? c)%nat = true) by (apply Nat.leb_le; lia).
  rewrite E1. simpl. rewrite E2, E3. reflexivity.
Qed.

Lemma pair_name_inj a b a' b' :
  OptModel.pair_name a b = OptModel.pair_name a' b' -> a = a' /\ b = b'.
Proof.
  unfold OptModel.pair_name. intros H.
  apply (separated_inj " ") in H as [Ha Hb]; try apply n_no_space.
  split; [exact (inj pretty _ _ Ha)|].
  injection Hb as Hb. exact (inj pretty _ _ Hb).
Qed.

(** *** The integer variables *)

Local Abbreviation mark := (fun (acc : gmap string Q) (p : nat * nat) =>
  <[OptModel.pair_name (fst p) (snd p) := 1%Q]> acc).

Lemma set_coeff_ints name cons coeff model model' :
  OptModel.set_coeff name cons coeff model = OptModel.Done model' ->
  OptModel.ints model' = OptModel.ints model.
Proof.
  unfold OptModel.set_coeff. destruct (OptModel.variables model !! name); [|discriminate].
  intros [= <-]. reflexivity.
Qed.

Lemma add_triangle_ints total model t model' :
  OptModel.add_triangle total model t = OptModel.Done model' ->
  OptModel.ints model' = OptModel.ints model.
Proof.
  destruct t as [[n1 n2] n3]. unfold OptModel.add_triangle. intros H.
  repeat bind_done H.
  repeat match goal with
  | E : OptModel.set_coeff _ _ _ _ = OptModel.Done _ |- _ =>
      apply set_coeff_ints in E
  end.
  simpl in *. congruence.
Qed.

Lemma add_slack_ints total pairp model c model' :
  OptModel.add_slack total pairp model c = OptModel.Done model' ->
  OptModel.ints model' = OptModel.ints model.
Proof.
  destruct c as [c1 c2]. unfold OptModel.add_slack. intros H.
  destruct (decide (c1 = c2)); [injection H as <-; reflexivity|].
  repeat bind_done H.
  repeat match goal with
  | E : OptModel.set_coeff _ _ _ _ = OptModel.Done _ |- _ =>
      apply set_coeff_ints in E
  end.
  simpl in *. congruence.
Qed.

Lemma cross_ints total model layer model' :
  OptModel.cross total model layer = OptModel.Done model' ->
  OptModel.ints model' = OptModel.ints model.
Proof.
  unfold OptModel.cross. intros H.
  refine (foldM_invariant (fun m => OptModel.ints m = OptModel.ints model) _ _ _ _ _ H eq_refl).
  intros a b a' _ Hstep Ha.
  destruct b as [[p1 children1] [p2 children2]]. bind_done Hstep.
  rewrite <- Ha.
  refine (foldM_invariant (fun m => OptModel.ints m = OptModel.ints a) _ _ _ _ _ Hstep eq_refl).
  intros m1 c m2 _ Hs Hm1. rewrite <- Hm1. exact (add_slack_ints _ _ _ _ _ Hs).
Qed.

Lemma add_pairs_ints total numVars (ps : list (nat * nat)) : forall model model',
  (forall a b, (a, b) ∈ ps -> (a < b)%nat /\ (b < total)%nat) ->
  OptModel.foldM (OptModel.add_pair total numVars) ps model = OptModel.Done model' ->
  OptModel.ints model' = fold_left mark ps (OptModel.ints model).
Proof.
  induction ps as [|[a b] ps IH]; intros model model' Hps H; simpl in H.
  - injection H as <-. reflexivity.
  - destruct (Hps a b (list_elem_of_here _ _)) as [Hab Hb].
    rewrite (proj1 (key_pair total a b Hab Hb)) in H. simpl in H.
    apply IH in H; [|intros a' b' Hin; apply Hps; right; exact Hin].
    rewrite H. reflexivity.
Qed.

Lemma perms_ints total numVars model (layer : list nat) model' :
  (forall a b, (a, b) ∈ OptModel.pairs layer -> (a < b)%nat /\ (b < total)%nat) ->
  OptModel.perms total numVars model layer = OptModel.Done model' ->
  OptModel.ints model' = fold_left mark (OptModel.pairs layer) (OptModel.ints model).
Proof.
  intros Hps H. unfold OptModel.perms in H. bind_done H.
  apply (add_pairs_ints total numVars _ _ _ Hps) in E. rewrite <- E.
  refine (foldM_invariant (fun m => OptModel.ints m = OptModel.ints a) _ _ _ _ _ H eq_refl).
  intros m1 t m2 _ Hs Hm1. rewrite <- Hm1. exact (add_triangle_ints _ _ _ _ Hs).
Qed.

Lemma all_perms_ints total numVars (numbered : list (list (nat * list nat))) :
  forall model model',
  (forall a b, (a, b) ∈ OptModel.all_pairs numbered -> (a < b)%nat /\ (b < total)%nat) ->
  OptModel.foldM (fun model layer => OptModel.perms total numVars model (map fst layer))
    numbered model = OptModel.Done model' ->
  OptModel.ints model' = fold_left mark (OptModel.all_pairs numbered) (OptModel.ints model).
Proof.
  induction numbered as [|layer numbered IH]; intros model model' Hps H; simpl in H.
  - injection H as <-. reflexivity.
  - bind_done H. unfold OptModel.all_pairs. cbn [flat_map]. rewrite fold_left_app.
    apply perms_ints in E.
    + rewrite <- E. apply IH; [|exact H].
      intros a' b' Hin. apply Hps. unfold OptModel.all_pairs. cbn [flat_map].
      apply elem_of_app. right. exact Hin.
    + intros a' b' Hin. apply Hps. unfold OptModel.all_pairs. cbn [flat_map].
      apply elem_of_app. left. exact Hin.
Qed.

(** Marking the pairs of a list without repetition. *)
Lemma mark_lookup (ps : list (nat * nat)) : forall acc name,
  fold_left mark ps acc !! name =
  if decide (name ∈ map (fun p => OptModel.pair_name (fst p) (snd p)) ps)
  then Some 1%Q else acc !! name.
Proof.
  induction ps as [|p ps IH]; intros acc name; cbn [fold_left map].
  - rewrite decide_False; [reflexivity|]. intros H. inversion H.
  - rewrite IH.
    destruct (decide (name ∈ map (fun p => OptModel.pair_name (fst p) (snd p)) ps)) as [H|H].
    + rewrite decide_True by (right; exact H). reflexivity.
    + destruct (decide (OptModel.pair_name (fst p) (snd p) = name)) as [<-|Hne].
      * rewrite decide_True by left. apply lookup_insert_eq.
      * rewrite lookup_insert_ne by exact Hne.
        rewrite decide_False; [reflexivity|].
        intros Hin. apply elem_of_cons in Hin as [Hin|Hin]; [congruence | contradiction].
Qed.

Lemma mark_size (ps : list (nat * nat)) : forall acc,
  NoDup ps ->
  (forall p, p ∈ ps -> acc !! OptModel.pair_name (fst p) (snd p) = None) ->
  size (fold_left mark ps acc) = (size acc + length ps)%nat.
Proof.
  induction ps as [|p ps IH]; intros acc Hnd Hfresh; simpl; [lia|].
  apply NoDup_cons in Hnd as [Hp Hnd]. rewrite IH.
  - rewrite map_size_insert_None by (apply Hfresh; left). lia.
  - exact Hnd.
  - intros q Hq. rewrite lookup_insert_ne; [apply Hfresh; right; exact Hq|].
    intros Heq. apply pair_name_inj in Heq as [Ha Hb].
    apply Hp. destruct p, q. simpl in *. subst. exact Hq.
Qed.

Lemma same_layer_pairs (layers : Opt.Layers) a b :
  (a, b) ∈ OptModel.all_pairs (OptModel.number 0 layers) <->
  (a < b)%nat /\ OptModel.same_layer layers a b.
Proof.
  rewrite all_pairs_elem. unfold OptModel.same_layer, OptModel.ids_of_layer. split.
  - intros (Hab & l & layer & Hl & Ha & Hb). split; [exact Hab|]. exists l.
    rewrite Hl. auto.
  - intros (Hab & l & Ha & Hb). split; [exact Hab|].
    destruct (OptModel.number 0 layers !! l) as [layer|] eqn:E; [|inversion Ha].
    exists l, layer. auto.
Qed.

(** X26: The integer variables of the model are the ordering variables:
    one, with the value 1 in [ints], for every two nodes of one layer, named
    by their ids in increasing order; their number is [numVars], the number
    the size check of [optCall] looks at. *)
Theorem opt_model_integer_variables (layers : Opt.Layers) (model : OptModel.Model) :
  OptModel.model layers = OptModel.Done model ->
  Z.of_nat (size (OptModel.ints model)) = Opt.numVars layers /\
  (forall a b, (a < b)%nat -> OptModel.same_layer layers a b ->
     OptModel.ints model !! OptModel.pair_name a b = Some 1%Q) /\
  (forall name v, OptModel.ints model !! name = Some v ->
     v = 1%Q /\ exists a b, (a < b)%nat /\ OptModel.same_layer layers a b /\
                            name = OptModel.pair_name a b).
Proof.
  unfold OptModel.model. cbv zeta. intros H. bind_done H.
  assert (Hints : OptModel.ints model
                  = fold_left mark (OptModel.all_pairs (OptModel.number 0 layers)) ∅).
  { apply all_perms_ints in E.
    - simpl in E. rewrite <- E.
      refine (foldM_invariant (fun m => OptModel.ints m = OptModel.ints a) _ _ _ _ _ H eq_refl).
      intros m1 layer m2 _ Hs Hm1. rewrite <- Hm1. exact (cross_ints _ _ _ _ Hs).
    - intros a' b' Hin. apply all_pairs_bounds in Hin. simpl in Hin. lia. }
  rewrite Hints. split; [|split].
  - rewrite mark_size.
    + rewrite map_size_empty, numVars_pair_vars. simpl. apply all_pairs_length.
    + apply all_pairs_nodup.
    + intros p _. apply lookup_empty.
  - intros a' b' Hab Hsame. rewrite mark_lookup, decide_True; [reflexivity|].
    apply list_elem_of_fmap. exists (a', b'). split; [reflexivity|].
    apply same_layer_pairs. auto.
  - intros name v. rewrite mark_lookup.
    destruct (decide _) as [Hin|_]; [|rewrite lookup_empty; discriminate].
    intros [= <-]. split; [reflexivity|].
    apply list_elem_of_fmap in Hin as ([a' b'] & -> & Hin).
    apply same_layer_pairs in Hin as [Hab Hsame]. exists a', b'. auto.
Qed.

(** *** Building the model does not fail *)

Local Abbreviation grows := (fun m m' : OptModel.Model =>
  forall k, is_Some (OptModel.variables m !! k) -> is_Some (OptModel.variables m' !! k)).
Local Abbreviation has_pairs := (fun (ps : list (nat * nat)) (m : OptModel.Model) =>
  forall a b, (a, b) ∈ ps ->
    is_Some (OptModel.variables m !! OptModel.pair_name a b)).

Lemma foldM_progress {A B : Type} (P : A -> Prop) (f : A -> B -> OptModel.outcome A)
    (l : list B) :
  (forall a b, b ∈ l -> P a -> exists a', f a b = OptModel.Done a' /\ P a') ->
  forall a, P a -> exists a', OptModel.foldM f l a = OptModel.Done a' /\ P a'.
Proof.
  induction l as [|b l IH]; intros Hf a Ha; simpl.
  - exists a. auto.
  - destruct (Hf a b (list_elem_of_here _ _) Ha) as (a1 & E & Ha1). rewrite E. simpl.
    apply IH; [|exact Ha1]. intros a0 b0 Hb0. apply Hf. right. exact Hb0.
Qed.

Lemma set_coeff_progress name cons coeff model :
  is_Some (OptModel.variables model !! name) ->
  exists model', OptModel.set_coeff name cons coeff model = OptModel.Done model' /\
                 grows model model'.
Proof.
  intros [var Hvar]. unfold OptModel.set_coeff. rewrite Hvar. eexists. split; [reflexivity|].
  simpl. intros k Hk. apply lookup_insert_is_Some'. right. exact Hk.
Qed.

Lemma set_constraint_grows cons c model : grows model (OptModel.set_constraint cons c model).
Proof. intros k Hk. exact Hk. Qed.

Lemma add_pairs_progress total numVars (ps : list (nat * nat)) : forall model,
  (forall a b, (a, b) ∈ ps -> (a < b)%nat /\ (b < total)%nat) ->
  exists model',
    OptModel.foldM (OptModel.add_pair total numVars) ps model = OptModel.Done model' /\
    grows model model' /\ has_pairs ps model'.
Proof.
  induction ps as [|[a b] ps IH]; intros model Hps; simpl.
  - exists model. split; [reflexivity|]. split; [auto|]. intros a b H. inversion H.
  - destruct (Hps a b (list_elem_of_here _ _)) as [Hab Hb].
    rewrite (proj1 (key_pair total a b Hab Hb)). simpl.
    match goal with
    | |- context [OptModel.foldM _ ps ?m] =>
        destruct (IH m (fun a' b' Hin => Hps a' b' (list_elem_of_further _ _ _ Hin)))
          as (model' & Hrun & Hgrow & Hhas)
    end.
    exists model'. split; [exact Hrun|]. split.
    + intros k Hk. apply Hgrow. simpl. apply lookup_insert_is_Some'. right. exact Hk.
    + intros a' b' Hin. apply elem_of_cons in Hin as [[= -> ->]|Hin]; [|apply Hhas, Hin].
      apply Hgrow. simpl. apply lookup_insert_is_Some'. left. reflexivity.
Qed.

Lemma add_triangle_progress total model a b c :
  (a < b)%nat -> (b < c)%nat -> (c < total)%nat ->
  is_Some (OptModel.variables model !! OptModel.pair_name a b) ->
  is_Some (OptModel.variables model !! OptModel.pair_name a c) ->
  is_Some (OptModel.variables model !! OptModel.pair_name b c) ->
  exists model', OptModel.add_triangle total model (a, b, c) = OptModel.Done model' /\
                 grows model model'.
Proof.
  intros Hab Hbc Hc H1 H2 H3. unfold OptModel.add_triangle.
  rewrite (proj1 (key_pair total a b Hab ltac:(lia))),
          (proj1 (key_pair total a c ltac:(lia) Hc)),
          (proj1 (key_pair total b c Hbc Hc)),
          (key_triple total a b c Hab Hbc Hc). simpl.
  set (up := (_ +:+ "+")%string). set (down := (_ +:+ "-")%string).
  set (m0 := OptModel.set_constraint up _ model).
  destruct (set_coeff_progress (OptModel.pair_name a b) up 1 m0 H1) as (m1 & E1 & G1).
  rewrite E1. simpl.
  destruct (set_coeff_progress (OptModel.pair_name a c) up (-1) m1 (G1 _ H2)) as (m2 & E2 & G2).
  rewrite E2. simpl.
  destruct (set_coeff_progress (OptModel.pair_name b c) up 1 m2 (G2 _ (G1 _ H3)))
    as (m3 & E3 & G3).
  rewrite E3. simpl.
  set (m4 := OptModel.set_constraint down _ m3).
  destruct (set_coeff_progress (OptModel.pair_name a b) down 1 m4 (G3 _ (G2 _ (G1 _ H1))))
    as (m5 & E5 & G5).
  rewrite E5. simpl.
  destruct (set_coeff_progress (OptModel.pair_name a c) down (-1) m5
              (G5 _ (G3 _ (G2 _ (G1 _ H2))))) as (m6 & E6 & G6).
  rewrite E6. simpl.
  destruct (set_coeff_progress (OptModel.pair_name b c) down 1 m6
              (G6 _ (G5 _ (G3 _ (G2 _ (G1 _ H3)))))) as (m7 & E7 & G7).
  exists m7. split; [exact E7|].
  intros k Hk. apply G7, G6, G5, G3, G2, G1. exact Hk.
Qed.

Lemma perms_progress total numVars model k i :
  (i + k <= total)%nat ->
  exists model',
    OptModel.perms total numVars model (seq i k) = OptModel.Done model' /\
    grows model model' /\ has_pairs (OptModel.pairs (seq i k)) model'.
Proof.
  intros Htotal. unfold OptModel.perms.
  destruct (add_pairs_progress total numVars (OptModel.pairs (seq i k)) model)
    as (m1 & E1 & G1 & P1).
  { intros a b Hin. apply pairs_seq_elem in Hin. lia. }
  rewrite E1. simpl.
  destruct (foldM_progress
              (fun m => grows model m /\ has_pairs (OptModel.pairs (seq i k)) m)
              (OptModel.add_triangle total) (OptModel.triples (seq i k))) with (a := m1)
    as (m2 & E2 & G2 & P2).
  - intros m [[a b] c] Hin [Gm Pm]. apply triples_seq_elem in Hin.
    destruct (add_triangle_progress total m a b c) as (m' & E & G); try lia;
      try (apply Pm, pairs_seq_elem; lia).
    exists m'. split; [exact E|]. split.
    + intros key Hkey. apply G, Gm, Hkey.
    + intros a' b' Hin'. apply G, Pm, Hin'.
  - split; assumption.
  - exists m2. auto.
Qed.

Lemma all_perms_progress total numVars (layers : Opt.Layers) : forall i model,
  (i + length (concat layers) <= total)%nat ->
  exists model',
    OptModel.foldM (fun model layer => OptModel.perms total numVars model (map fst layer))
      (OptModel.number i layers) model = OptModel.Done model' /\
    grows model model' /\
    has_pairs (OptModel.all_pairs (OptModel.number i layers)) model'.
Proof.
  induction layers as [|first layers IH]; intros i model Htotal.
  - exists model. split; [reflexivity|]. split; [auto|]. intros a b H. inversion H.
  - cbn [concat] in Htotal. rewrite length_app in Htotal.
    cbn [OptModel.number OptModel.foldM]. rewrite number_ids.
    destruct (perms_progress total numVars model (length first) i) as (m1 & E1 & G1 & P1);
      [lia|].
    rewrite E1. simpl.
    destruct (IH (i + length first)%nat m1) as (m2 & E2 & G2 & P2); [lia|].
    exists m2. split; [exact E2|]. split.
    + intros k Hk. apply G2, G1, Hk.
    + intros a b Hin. unfold OptModel.all_pairs in Hin. cbn [flat_map] in Hin.
      rewrite number_ids in Hin. apply elem_of_app in Hin as [Hin|Hin].
      * apply G2, P1, Hin.
      * apply P2, Hin.
Qed.

Lemma add_slack_progress total pairp model c1 c2 :
  is_Some (OptModel.variables model !! pairp) ->
  (c1 = c2 \/
   ((c1 < total)%nat /\ (c2 < total)%nat /\
    is_Some (OptModel.variables model
               !! OptModel.pair_name (Nat.min c1 c2) (Nat.max c1 c2)))) ->
  exists model', OptModel.add_slack total pairp model (c1, c2) = OptModel.Done model' /\
                 grows model model'.
Proof.
  intros Hp Hc. unfold OptModel.add_slack.
  destruct (decide (c1 = c2)) as [Heq|Hne]; [exists model; auto|].
  destruct Hc as [Heq|(H1 & H2 & Hpair)]; [contradiction|].
  assert (Hkey : OptModel.key total [c1; c2]
                 = OptModel.Done (OptModel.pair_name (Nat.min c1 c2) (Nat.max c1 c2))).
  { destruct (Nat.lt_ge_cases c1 c2) as [Hlt|Hge].
    - rewrite Nat.min_l, Nat.max_r by lia. apply key_pair; lia.
    - rewrite Nat.min_r, Nat.max_l by lia. apply key_pair; lia. }
  rewrite Hkey. simpl. rewrite (id_of_lt total c1 H1), (id_of_lt total c2 H2). simpl.
  set (pairc := OptModel.pair_name (Nat.min c1 c2) (Nat.max c1 c2)) in *.
  set (slack := ("slack (" +:+ pairp +:+ ") (" +:+ pairc +:+ ")")%string).
  match goal with
  | |- context [OptModel.set_coeff pairp _ 1 ?m] => set (m0 := m)
  end.
  assert (G0 : grows model m0).
  { intros k Hk. unfold m0. simpl. apply lookup_insert_is_Some'. right. exact Hk. }
  destruct (set_coeff_progress pairp (slack +:+ " +") 1 m0 (G0 _ Hp)) as (m1 & E1 & G1).
  rewrite E1. simpl.
  destruct (set_coeff_progress pairc (slack +:+ " +") (OptModel.sign c1 c2) m1
              (G1 _ (G0 _ Hpair))) as (m2 & E2 & G2).
  rewrite E2. simpl.
  match goal with
  | |- context [OptModel.set_coeff pairp _ (-1) ?m] => set (m3 := m)
  end.
  destruct (set_coeff_progress pairp (slack +:+ " -") (-1) m3 (G2 _ (G1 _ (G0 _ Hp))))
    as (m4 & E4 & G4).
  rewrite E4. simpl.
  destruct (set_coeff_progress pairc (slack +:+ " -") (- OptModel.sign c1 c2) m4
              (G4 _ (G2 _ (G1 _ (G0 _ Hpair))))) as (m5 & E5 & G5).
  exists m5. split; [exact E5|].
  intros k Hk. apply G5, G4, G2, G1, G0. exact Hk.
Qed.

Lemma pairs_fmap {A B : Type} (f : A -> B) (layer : list A) :
  OptModel.pairs (map f layer) = map (fun p => (f (fst p), f (snd p))) (OptModel.pairs layer).
Proof.
  induction layer as [|a layer IH]; [reflexivity|].
  cbn [map]. rewrite !pairs_cons, map_app, !map_map, IH. reflexivity.
Qed.

Lemma pairs_elem_of {A : Type} (layer : list A) x y :
  (x, y) ∈ OptModel.pairs layer -> x ∈ layer /\ y ∈ layer.
Proof.
  induction layer as [|a layer IH]; [intros H; inversion H|].
  rewrite pairs_cons. intros H. apply elem_of_app in H as [H|H].
  - apply list_elem_of_fmap in H as (b & [= -> ->] & Hb). split; [left | right; exact Hb].
  - destruct (IH H). split; right; assumption.
Qed.

Lemma cross_progress total (ps : list (nat * nat)) (layer : list (nat * list nat)) model :
  (forall a b, (a, b) ∈ ps -> (a < b)%nat /\ (b < total)%nat) ->
  has_pairs ps model ->
  (forall p1 children1 p2 children2,
     ((p1, children1), (p2, children2)) ∈ OptModel.pairs layer ->
     (p1, p2) ∈ ps /\
     forall c1 c2, c1 ∈ children1 -> c2 ∈ children2 ->
       c1 = c2 \/ (Nat.min c1 c2, Nat.max c1 c2) ∈ ps) ->
  exists model', OptModel.cross total model layer = OptModel.Done model' /\
                 grows model model'.
Proof.
  intros Hps Hhas Hlayer. unfold OptModel.cross.
  apply (foldM_progress (fun m => grows model m)); [|auto].
  intros m [[p1 children1] [p2 children2]] Hin Gm.
  destruct (Hlayer _ _ _ _ Hin) as [Hp Hchildren].
  destruct (Hps _ _ Hp) as [Hlt Htotal].
  rewrite (proj1 (key_pair total p1 p2 Hlt Htotal)). simpl.
  destruct (foldM_progress (fun m' => grows model m')
              (OptModel.add_slack total (OptModel.pair_name p1 p2))
              (flat_map (fun c1 => map (fun c2 => (c1, c2)) children2) children1)) with (a := m)
    as (m' & E & G); [|exact Gm|exists m'; auto].
  intros m1 [c1 c2] Hc Gm1.
  apply list_elem_of_In, in_flat_map in Hc as (c1' & Hc1 & Hc).
  apply in_map_iff in Hc as (c2' & [= -> ->] & Hc2).
  apply list_elem_of_In in Hc1, Hc2.
  destruct (add_slack_progress total (OptModel.pair_name p1 p2) m1 c1 c2) as (m2 & E2 & G2).
  - apply Gm1, Hhas, Hp.
  - destruct (Hchildren c1 c2 Hc1 Hc2) as [Heq|Hpair]; [left; exact Heq|].
    right. destruct (Hps _ _ Hpair) as [Hmin Hmax].
    split; [lia|]. split; [lia|]. apply Gm1, Hhas, Hpair.
  - exists m2. split; [exact E2|]. intros k Hk. apply G2, Gm1, Hk.
Qed.

(** X27: When the children of the nodes of every layer are nodes of the next
    layer, building the model raises nothing: every id that is asked for
    is defined and every variable that is written to exists. *)
Theorem opt_model_is_built (layers : Opt.Layers) :
  OptModel.proper layers -> exists model, OptModel.model layers = OptModel.Done model.
Proof.
  intros Hproper. unfold OptModel.model. cbv zeta.
  set (total := length (concat layers)).
  set (numbered := OptModel.number 0 layers).
  set (ps := OptModel.all_pairs numbered).
  assert (Hps : forall a b, (a, b) ∈ ps -> (a < b)%nat /\ (b < total)%nat).
  { intros a b Hin. apply all_pairs_bounds in Hin. simpl in Hin. split; lia. }
  destruct (all_perms_progress total (Opt.numVars layers) layers 0
              {| OptModel.optimize := "opt"; OptModel.opType := "min";
                 OptModel.constraints := ∅; OptModel.variables := ∅;
                 OptModel.ints := ∅ |}) as (m1 & E1 & _ & P1); [simpl; lia|].
  fold numbered in E1, P1. fold ps in P1. rewrite E1. simpl.
  destruct (foldM_progress (fun m => grows m1 m) (OptModel.cross total)
              (take (length numbered - 1) numbered)) with (a := m1) as (m2 & E2 & _);
    [|auto|exists m2; exact E2].
  intros m layer Hin Gm.
  apply list_elem_of_lookup in Hin as (l & Hl).
  apply lookup_take_Some in Hl as [Hl Hlast].
  destruct (cross_progress total ps layer m Hps) as (m' & E & G).
  - intros a b Hab. apply Gm, P1, Hab.
  - intros p1 children1 p2 children2 Hpair. split.
    + assert (H : (p1, p2) ∈ OptModel.pairs (map fst layer)).
      { rewrite pairs_fmap. apply list_elem_of_fmap.
        exists ((p1, children1), (p2, children2)). auto. }
      unfold ps, OptModel.all_pairs. apply list_elem_of_In, in_flat_map.
      exists layer. split; apply list_elem_of_In; [|exact H].
      eapply list_elem_of_lookup_2, Hl.
    + intros c1 c2 Hc1 Hc2. apply pairs_elem_of in Hpair as [Hin1 Hin2].
      pose proof (Hproper l layer p1 children1 c1 Hl Hin1 Hc1) as H1.
      pose proof (Hproper l layer p2 children2 c2 Hl Hin2 Hc2) as H2.
      destruct (decide (c1 = c2)) as [Heq|Hne]; [left; exact Heq|]. right.
      apply same_layer_pairs. split; [lia|]. exists (S l).
      destruct (Nat.lt_ge_cases c1 c2) as [Hlt|Hge].
      * rewrite Nat.min_l, Nat.max_r by lia. auto.
      * rewrite Nat.min_r, Nat.max_l by lia. auto.
  - exists m'. split; [exact E|]. intros k Hk. apply G, Gm, Hk.
Qed.

End OptModelFacts.

(** *** The triangle constraints *)
Section OptModelRows.

Lemma avoids_app_inv (c : ascii) (s s' : string) :
  SimplexSpec.avoids c (s +:+ s') -> SimplexSpec.avoids c s /\ SimplexSpec.avoids c s'.
Proof.
  induction s as [|c' s IH]; simpl; [auto|].
  intros [Hc H]. apply IH in H as [Hs Hs']. auto.
Qed.

Lemma avoids_head (c : ascii) (r s : string) : SimplexSpec.avoids c s -> s <> String c r.
Proof. intros H ->. destruct H as [H _]. congruence. Qed.

Lemma avoids_tail (c : ascii) (p r s : string) :
  SimplexSpec.avoids c s -> s <> p +:+ String c r.
Proof. intros H ->. apply avoids_app_inv in H as [_ [H _]]. congruence. Qed.

Lemma pair_name_avoids (c : ascii) (a b : nat) :
  (forall d, pretty_N_char d <> c) -> SimplexSpec.avoids c " => " ->
  SimplexSpec.avoids c (OptModel.pair_name a b).
Proof.
  intros Hd Hs. unfold OptModel.pair_name.
  apply avoids_app; [apply pretty_avoids, Hd|].
  apply avoids_app; [exact Hs | apply pretty_avoids, Hd].
Qed.

Lemma triangle_name_avoids (ch : ascii) (a b c : nat) :
  (forall d, pretty_N_char d <> ch) -> SimplexSpec.avoids ch " => " ->
  SimplexSpec.avoids ch (OptModel.triangle_name a b c).
Proof.
  intros Hd Hs. unfold OptModel.triangle_name.
  apply avoids_app; [apply pretty_avoids, Hd|].
  apply avoids_app; [exact Hs|]. apply (pair_name_avoids ch b c Hd Hs).
Qed.

Lemma triangle_name_inj a b c a' b' c' :
  OptModel.triangle_name a b c = OptModel.triangle_name a' b' c' ->
  a = a' /\ b = b' /\ c = c'.
Proof.
  unfold OptModel.triangle_name. intros H.
  apply (separated_inj " ") in H as [Ha H]; try apply n_no_space.
  injection H as H. apply pair_name_inj in H as [Hb Hc].
  split; [exact (inj pretty _ _ Ha) | auto].
Qed.

(** The names of the two constraints of a triangle are its own. *)
Lemma signed_name_inj a b c a' b' c' (s s' : ascii) :
  (s = "+" \/ s = "-")%char -> (s' = "+" \/ s' = "-")%char ->
  OptModel.triangle_name a b c +:+ String s EmptyString
  = OptModel.triangle_name a' b' c' +:+ String s' EmptyString ->
  (a = a' /\ b = b' /\ c = c') /\ s = s'.
Proof.
  assert (Hplus : forall x y z, SimplexSpec.avoids "+" (OptModel.triangle_name x y z)).
  { intros x y z. apply triangle_name_avoids; [not_a_digit | colon_free]. }
  assert (Hminus : forall x y z, SimplexSpec.avoids "-" (OptModel.triangle_name x y z)).
  { intros x y z. apply triangle_name_avoids; [not_a_digit | colon_free]. }
  intros [-> | ->] [-> | ->] H.
  - apply separated_inj in H as [H _]; [|apply Hplus..].
    split; [exact (triangle_name_inj _ _ _ _ _ _ H) | reflexivity].
  - exfalso. symmetry in H. revert H. apply avoids_tail.
    apply avoids_app; [apply Hplus | colon_free].
  - exfalso. revert H. apply avoids_tail.
    apply avoids_app; [apply Hplus | colon_free].
  - apply separated_inj in H as [H _]; [|apply Hminus..].
    split; [exact (triangle_name_inj _ _ _ _ _ _ H) | reflexivity].
Qed.

Lemma signed_name_avoids (ch s : ascii) a b c :
  (forall d, pretty_N_char d <> ch) -> SimplexSpec.avoids ch " => " -> s <> ch ->
  SimplexSpec.avoids ch (OptModel.triangle_name a b c +:+ String s EmptyString).
Proof.
  intros Hd Hs Hne. apply avoids_app; [apply triangle_name_avoids; assumption|].
  split; [exact Hne | exact I].
Qed.

Lemma signed_name_not_pair a b c (s : ascii) a' b' :
  (s = "+" \/ s = "-")%char ->
  OptModel.triangle_name a b c +:+ String s EmptyString <> OptModel.pair_name a' b'.
Proof.
  intros Hs H. symmetry in H. revert H. apply avoids_tail.
  destruct Hs as [-> | ->]; apply pair_name_avoids; solve [not_a_digit | colon_free].
Qed.

Lemma pair_names_differ a b c :
  (a < b)%nat -> (b < c)%nat ->
  OptModel.pair_name a b <> OptModel.pair_name a c /\
  OptModel.pair_name a b <> OptModel.pair_name b c /\
  OptModel.pair_name a c <> OptModel.pair_name b c.
Proof.
  intros Hab Hbc. repeat split; intros H; apply pair_name_inj in H; lia.
Qed.

(** *** How the steps change a row *)

Lemma has_row_ext m K co (row row' : string -> option Q) :
  (forall v, row v = row' v) -> OptModel.has_row m K co row -> OptModel.has_row m K co row'.
Proof. intros Heq [Hc Hrow]. split; [exact Hc|]. intros v. rewrite <- Heq. apply Hrow. Qed.

Lemma set_coeff_row name cons coeff m m' K co row :
  OptModel.set_coeff name cons coeff m = OptModel.Done m' -> cons <> K ->
  OptModel.has_row m K co row -> OptModel.has_row m' K co row.
Proof.
  unfold OptModel.set_coeff.
  destruct (OptModel.variables m !! name) as [var|] eqn:E; [|discriminate].
  intros [= <-] Hne [Hc Hrow]. split; [exact Hc|]. intros v. rewrite <- Hrow.
  unfold OptModel.coefficient. simpl.
  destruct (decide (v = name)) as [->|Hv].
  - rewrite lookup_insert_eq, E. apply lookup_insert_ne. exact Hne.
  - rewrite lookup_insert_ne by congruence. reflexivity.
Qed.

Lemma set_coeff_here name coeff m m' K co row :
  OptModel.set_coeff name K coeff m = OptModel.Done m' ->
  OptModel.has_row m K co row ->
  OptModel.has_row m' K co (fun v => if decide (v = name) then Some coeff else row v).
Proof.
  unfold OptModel.set_coeff.
  destruct (OptModel.variables m !! name) as [var|] eqn:E; [|discriminate].
  intros [= <-] [Hc Hrow]. split; [exact Hc|]. intros v.
  unfold OptModel.coefficient. simpl.
  destruct (decide (v = name)) as [->|Hv].
  - rewrite lookup_insert_eq. apply lookup_insert_eq.
  - rewrite lookup_insert_ne by congruence. apply Hrow.
Qed.

Lemma set_constraint_row cons c' m K co row :
  cons <> K -> OptModel.has_row m K co row ->
  OptModel.has_row (OptModel.set_constraint cons c' m) K co row.
Proof.
  intros Hne [Hc Hrow]. split; [|exact Hrow].
  simpl. rewrite lookup_insert_ne by exact Hne. exact Hc.
Qed.

Lemma set_constraint_here c' m K co row :
  OptModel.has_row m K co row ->
  OptModel.has_row (OptModel.set_constraint K c' m) K (Some c') row.
Proof. intros [_ Hrow]. split; [apply lookup_insert_eq | exact Hrow]. Qed.

Ltac row_step :=
  match goal with
  | H : OptModel.set_coeff _ _ _ ?m = OptModel.Done ?m' |- OptModel.has_row ?m' _ _ _ =>
      apply (set_coeff_row _ _ _ _ _ _ _ _ H)
  | |- OptModel.has_row (OptModel.set_constraint _ _ _) _ _ _ =>
      apply set_constraint_row
  end.

Lemma add_pair_row total numVars m a b m' K co row :
  (a < b)%nat -> (b < total)%nat ->
  K <> "opt" -> K <> OptModel.pair_name a b -> row (OptModel.pair_name a b) = None ->
  OptModel.add_pair total numVars m (a, b) = OptModel.Done m' ->
  OptModel.has_row m K co row -> OptModel.has_row m' K co row.
Proof.
  intros Hab Hb Ho Hp Hr H [Hc Hrow]. unfold OptModel.add_pair in H.
  rewrite (proj1 (key_pair total a b Hab Hb)) in H. simpl in H. injection H as <-.
  split; simpl.
  - rewrite lookup_insert_ne by congruence. exact Hc.
  - intros v. unfold OptModel.coefficient. simpl.
    destruct (decide (v = OptModel.pair_name a b)) as [->|Hv].
    + rewrite lookup_insert_eq, Hr, lookup_insert_ne by congruence.
      apply lookup_singleton_ne. congruence.
    + rewrite lookup_insert_ne by congruence. apply Hrow.
Qed.

(** A triangle leaves the rows of the other constraints as they are. *)
Lemma add_triangle_row total m a b c m' K co row :
  (a < b)%nat -> (b < c)%nat -> (c < total)%nat ->
  K <> OptModel.triangle_name a b c +:+ "+" ->
  K <> OptModel.triangle_name a b c +:+ "-" ->
  OptModel.add_triangle total m (a, b, c) = OptModel.Done m' ->
  OptModel.has_row m K co row -> OptModel.has_row m' K co row.
Proof.
  intros Hab Hbc Hc Hup Hdown H Hrow. unfold OptModel.add_triangle in H.
  rewrite (proj1 (key_pair total a b Hab ltac:(lia))),
          (proj1 (key_pair total a c ltac:(lia) Hc)),
          (proj1 (key_pair total b c Hbc Hc)),
          (key_triple total a b c Hab Hbc Hc) in H.
  fold (OptModel.triangle_name a b c) in H. simpl in H.
  repeat bind_done H.
  repeat (row_step; [congruence|]). exact Hrow.
Qed.

(** The triangle of [a < b < c] writes its two rows. *)
Lemma add_triangle_rows total m a b c m' :
  (a < b)%nat -> (b < c)%nat -> (c < total)%nat ->
  OptModel.add_triangle total m (a, b, c) = OptModel.Done m' ->
  OptModel.has_row m (OptModel.triangle_name a b c +:+ "+") None (fun _ => None) ->
  OptModel.has_row m (OptModel.triangle_name a b c +:+ "-") None (fun _ => None) ->
  OptModel.has_row m' (OptModel.triangle_name a b c +:+ "+")
    (Some {| OptModel.min := None; OptModel.max := Some 1%Q |}) (OptModel.triangle_row a b c) /\
  OptModel.has_row m' (OptModel.triangle_name a b c +:+ "-")
    (Some {| OptModel.min := Some 0%Q; OptModel.max := None |}) (OptModel.triangle_row a b c).
Proof.
  intros Hab Hbc Hc H Hup Hdown. unfold OptModel.add_triangle in H.
  rewrite (proj1 (key_pair total a b Hab ltac:(lia))),
          (proj1 (key_pair total a c ltac:(lia) Hc)),
          (proj1 (key_pair total b c Hbc Hc)),
          (key_triple total a b c Hab Hbc Hc) in H.
  fold (OptModel.triangle_name a b c) in H. simpl in H.
  destruct (pair_names_differ a b c Hab Hbc) as (N1 & N2 & N3).
  assert (Hne : OptModel.triangle_name a b c +:+ "+" <> OptModel.triangle_name a b c +:+ "-").
  { intros Heq. apply append_cancel_l in Heq. discriminate Heq. }
  assert (Hrow : forall v,
    (if decide (v = OptModel.pair_name b c) then Some 1%Q
     else if decide (v = OptModel.pair_name a c) then Some (-1)%Q
     else if decide (v = OptModel.pair_name a b) then Some 1%Q else None)
    = OptModel.triangle_row a b c v).
  { intros v. unfold OptModel.triangle_row.
    repeat case_decide; subst; try reflexivity; congruence. }
  repeat bind_done H. split.
  - repeat (row_step; [congruence|]).
    apply (has_row_ext _ _ _ _ _ Hrow).
    repeat match goal with
    | H : OptModel.set_coeff _ _ _ ?m = OptModel.Done ?m' |- OptModel.has_row ?m' _ _ _ =>
        apply (set_coeff_here _ _ _ _ _ _ _ H)
    end.
    eapply set_constraint_here. exact Hup.
  - apply (has_row_ext _ _ _ _ _ Hrow).
    repeat match goal with
    | H : OptModel.set_coeff _ _ _ ?m = OptModel.Done ?m' |- OptModel.has_row ?m' _ _ _ =>
        apply (set_coeff_here _ _ _ _ _ _ _ H)
    end.
    eapply set_constraint_here.
    repeat (row_step; [congruence|]). exact Hdown.
Qed.

(** *** The triples of a layer *)

Lemma triples_seq_elem_2 (k : nat) : forall i a b c,
  (i <= a /\ a < b /\ b < c /\ c < i + k)%nat -> (a, b, c) ∈ OptModel.triples (seq i k).
Proof.
  induction k as [|k IH]; intros i a b c H; [lia|].
  cbn [seq]. rewrite triples_cons. apply elem_of_app.
  destruct (decide (a = i)) as [->|Hne].
  - left. apply list_elem_of_fmap. exists (b, c). split; [reflexivity|].
    apply pairs_seq_elem. lia.
  - right. apply IH. lia.
Qed.

Lemma triples_seq_nodup (k : nat) : forall i, NoDup (OptModel.triples (seq i k)).
Proof.
  induction k as [|k IH]; intros i; [constructor|].
  cbn [seq]. rewrite triples_cons. apply NoDup_app. split; [|split].
  - apply NoDup_fmap_2; [|apply pairs_seq_nodup].
    intros [x y] [x' y'] [= -> ->]. reflexivity.
  - intros [[a b] c] Hin Hin'. apply list_elem_of_fmap in Hin as ([b' c'] & [= -> -> ->] & _).
    apply triples_seq_elem in Hin'. lia.
  - apply IH.
Qed.

(** Different layers have different ids. *)
Lemma number_disjoint (layers : Opt.Layers) : forall i l l' layer layer' x,
  OptModel.number i layers !! l = Some layer ->
  OptModel.number i layers !! l' = Some layer' ->
  x ∈ map fst layer -> x ∈ map fst layer' -> l = l'.
Proof.
  induction layers as [|first layers IH]; intros i l l' layer layer' x Hl Hl' Hx Hx';
    [discriminate Hl|].
  cbn [OptModel.number] in Hl, Hl'.
  destruct l as [|l], l' as [|l']; simpl in Hl, Hl'.
  - reflexivity.
  - exfalso. injection Hl as <-. rewrite number_ids in Hx. apply elem_of_seq in Hx.
    apply number_lookup in Hl' as (off & Hids & Hlo & _).
    rewrite Hids in Hx'. apply elem_of_seq in Hx'. lia.
  - exfalso. injection Hl' as <-. rewrite number_ids in Hx'. apply elem_of_seq in Hx'.
    apply number_lookup in Hl as (off & Hids & Hlo & _).
    rewrite Hids in Hx. apply elem_of_seq in Hx. lia.
  - f_equal. exact (IH _ _ _ _ _ _ Hl Hl' Hx Hx').
Qed.

(** *** The rows through [perms] and [cross] *)

Lemma perms_row total numVars m off k m' K co row :
  (off + k <= total)%nat ->
  K <> "opt" ->
  (forall a b, K <> OptModel.pair_name a b) ->
  (forall a b, (off <= a)%nat -> (a < b)%nat -> (b < off + k)%nat ->
     row (OptModel.pair_name a b) = None) ->
  (forall a b c, (off <= a)%nat -> (a < b)%nat -> (b < c)%nat -> (c < off + k)%nat ->
     K <> OptModel.triangle_name a b c +:+ "+" /\
     K <> OptModel.triangle_name a b c +:+ "-") ->
  OptModel.perms total numVars m (seq off k) = OptModel.Done m' ->
  OptModel.has_row m K co row -> OptModel.has_row m' K co row.
Proof.
  intros Htotal Ho Hp Hr Ht H Hrow. unfold OptModel.perms in H. bind_done H.
  refine (foldM_invariant (fun m => OptModel.has_row m K co row) _ _ _ _ _ H _).
  - intros m1 [[x y] z] m2 Hin Hstep Hm1. apply triples_seq_elem in Hin.
    destruct (Ht x y z) as [Hup Hdown]; try lia.
    apply (add_triangle_row total m1 x y z m2 K co row); auto; lia.
  - refine (foldM_invariant (fun m => OptModel.has_row m K co row) _ _ _ _ _ E Hrow).
    intros m1 [x y] m2 Hin Hstep Hm1. apply pairs_seq_elem in Hin.
    apply (add_pair_row total numVars m1 x y m2 K co row); auto; try lia.
    apply Hr; lia.
Qed.

(** [perms] on the layer of [a < b < c] writes the two rows of their
    triangle. *)
Lemma perms_triangle total numVars m off k m' a b c :
  (off + k <= total)%nat ->
  (off <= a)%nat -> (a < b)%nat -> (b < c)%nat -> (c < off + k)%nat ->
  OptModel.perms total numVars m (seq off k) = OptModel.Done m' ->
  OptModel.has_row m (OptModel.triangle_name a b c +:+ "+") None (fun _ => None) ->
  OptModel.has_row m (OptModel.triangle_name a b c +:+ "-") None (fun _ => None) ->
  OptModel.has_row m' (OptModel.triangle_name a b c +:+ "+")
    (Some {| OptModel.min := None; OptModel.max := Some 1%Q |}) (OptModel.triangle_row a b c) /\
  OptModel.has_row m' (OptModel.triangle_name a b c +:+ "-")
    (Some {| OptModel.min := Some 0%Q; OptModel.max := None |}) (OptModel.triangle_row a b c).
Proof.
  intros Htotal Ha Hab Hbc Hc H Hup Hdown. unfold OptModel.perms in H. bind_done H.
  assert (Hin : (a, b, c) ∈ OptModel.triples (seq off k))
    by (apply triples_seq_elem_2; lia).
  pose proof (triples_seq_nodup k off) as Hnodup.
  assert (Hbounds : forall x y z, (x, y, z) ∈ OptModel.triples (seq off k) ->
            (x < y)%nat /\ (y < z)%nat /\ (z < total)%nat).
  { intros x y z Hxyz. apply triples_seq_elem in Hxyz. lia. }
  apply list_elem_of_split in Hin as (before & after & Hsplit).
  rewrite Hsplit in H, Hnodup, Hbounds. clear Hsplit.
  apply NoDup_app in Hnodup as (_ & Hbefore & Hafter).
  apply NoDup_cons in Hafter as [Hafter _].
  rewrite foldM_app in H. bind_done H. cbn [OptModel.foldM] in H. bind_done H.
  assert (Hother : forall (s : ascii) x y z, (s = "+" \/ s = "-")%char ->
            (x, y, z) <> (a, b, c) ->
            OptModel.triangle_name a b c +:+ String s EmptyString
              <> OptModel.triangle_name x y z +:+ "+" /\
            OptModel.triangle_name a b c +:+ String s EmptyString
              <> OptModel.triangle_name x y z +:+ "-").
  { intros s x y z Hs Hne.
    split; intros Heq; apply signed_name_inj in Heq as [(-> & -> & ->) _]; auto. }
  assert (Hpairs : forall (s : ascii) co row, (s = "+" \/ s = "-")%char ->
            (forall x y, row (OptModel.pair_name x y) = None) ->
            OptModel.has_row m (OptModel.triangle_name a b c +:+ String s EmptyString) co row ->
            OptModel.has_row a0 (OptModel.triangle_name a b c +:+ String s EmptyString) co row).
  { intros s co row Hs Hr Hm.
    refine (foldM_invariant (fun m => OptModel.has_row m _ co row) _ _ _ _ _ E Hm).
    intros m1 [x y] m2 Hxy Hstep Hm1. apply pairs_seq_elem in Hxy.
    apply (add_pair_row total numVars m1 x y m2 _ co row); auto; try lia.
    - apply avoids_head. apply signed_name_avoids; [not_a_digit | colon_free |].
      destruct Hs as [-> | ->]; discriminate.
    - apply signed_name_not_pair, Hs. }
  assert (Hbefore' : forall (s : ascii) co row, (s = "+" \/ s = "-")%char ->
            OptModel.has_row a0 (OptModel.triangle_name a b c +:+ String s EmptyString) co row ->
            OptModel.has_row a1 (OptModel.triangle_name a b c +:+ String s EmptyString) co row).
  { intros s co row Hs Hm.
    refine (foldM_invariant (fun m => OptModel.has_row m _ co row) _ _ _ _ _ E0 Hm).
    intros m1 [[x y] z] m2 Hxyz Hstep Hm1.
    destruct (Hbounds x y z) as (Hxy & Hyz & Hz); [apply elem_of_app; left; exact Hxyz|].
    destruct (Hother s x y z Hs) as [N1 N2];
      [intros Heq; rewrite Heq in Hxyz; apply (Hbefore _ Hxyz); left|].
    apply (add_triangle_row total m1 x y z m2 _ co row); auto. }
  assert (Hafter' : forall (s : ascii) co row, (s = "+" \/ s = "-")%char ->
            OptModel.has_row a2 (OptModel.triangle_name a b c +:+ String s EmptyString) co row ->
            OptModel.has_row m' (OptModel.triangle_name a b c +:+ String s EmptyString) co row).
  { intros s co row Hs Hm.
    refine (foldM_invariant (fun m => OptModel.has_row m _ co row) _ _ _ _ _ H Hm).
    intros m1 [[x y] z] m2 Hxyz Hstep Hm1.
    destruct (Hbounds x y z) as (Hxy & Hyz & Hz);
      [apply elem_of_app; right; right; exact Hxyz|].
    destruct (Hother s x y z Hs) as [N1 N2];
      [intros Heq; rewrite Heq in Hxyz; exact (Hafter Hxyz)|].
    apply (add_triangle_row total m1 x y z m2 _ co row); auto. }
  destruct (add_triangle_rows total a1 a b c a2 Hab Hbc ltac:(lia) E1) as [Rup Rdown].
  - apply (Hbefore' "+"%char); [auto|]. apply (Hpairs "+"%char); auto.
  - apply (Hbefore' "-"%char); [auto|]. apply (Hpairs "-"%char); auto.
  - split; [apply (Hafter' "+"%char) | apply (Hafter' "-"%char)]; auto.
Qed.

(** The slack variables and their constraints leave the other rows alone. *)
Lemma add_slack_row total pairp m cc m' K co row :
  SimplexSpec.avoids "s" K -> SimplexSpec.avoids "o" K ->
  (forall r, row (String "s" r) = None) ->
  OptModel.add_slack total pairp m cc = OptModel.Done m' ->
  OptModel.has_row m K co row -> OptModel.has_row m' K co row.
Proof.
  intros Hs Ho Hr H Hrow. destruct cc as [c1 c2]. unfold OptModel.add_slack in H.
  destruct (decide (c1 = c2)); [injection H as <-; exact Hrow|].
  assert (Hslack : forall r, String "s" r <> K).
  { intros r Heq. exact (avoids_head _ _ _ Hs (eq_sym Heq)). }
  repeat bind_done H.
  repeat (row_step; [apply Hslack|]).
  destruct Hrow as [Hc Hrow]. split; [exact Hc|]. intros v.
  unfold OptModel.coefficient. cbn [OptModel.variables].
  match goal with
  | |- context [<[?slack := _]> (OptModel.variables m)] =>
      destruct (decide (v = slack)) as [->|Hv]
  end.
  - rewrite lookup_insert_eq.
    rewrite !lookup_insert_ne by apply Hslack.
    rewrite lookup_singleton_ne by (intros Heq; exact (avoids_head _ _ _ Ho (eq_sym Heq))).
    symmetry. apply Hr.
  - rewrite lookup_insert_ne by congruence. apply Hrow.
Qed.

Lemma cross_row total m layer m' K co row :
  SimplexSpec.avoids "s" K -> SimplexSpec.avoids "o" K ->
  (forall r, row (String "s" r) = None) ->
  OptModel.cross total m layer = OptModel.Done m' ->
  OptModel.has_row m K co row -> OptModel.has_row m' K co row.
Proof.
  intros Hs Ho Hr H Hrow. unfold OptModel.cross in H.
  refine (foldM_invariant (fun m => OptModel.has_row m K co row) _ _ _ _ _ H Hrow).
  intros m1 [[p1 children1] [p2 children2]] m2 _ Hstep Hm1. bind_done Hstep.
  refine (foldM_invariant (fun m => OptModel.has_row m K co row) _ _ _ _ _ Hstep Hm1).
  intros m3 cc m4 _ Hslack Hm3. exact (add_slack_row _ _ _ _ _ _ _ _ Hs Ho Hr Hslack Hm3).
Qed.

(** The rows of a triangle through the layers: nothing before the layer of
    the triangle, its rows after it. *)
Lemma all_perms_triangle total numVars (before after : list (list (nat * list nat)))
    (layer : list (nat * list nat)) m m' off k a b c :
  (forall other, other ∈ before ++ after ->
     exists off' k', map fst other = seq off' k' /\ (off' + k' <= total)%nat /\
                     forall x, x ∈ seq off' k' -> x ∉ seq off k) ->
  map fst layer = seq off k -> (off + k <= total)%nat ->
  (off <= a)%nat -> (a < b)%nat -> (b < c)%nat -> (c < off + k)%nat ->
  OptModel.foldM (fun model layer => OptModel.perms total numVars model (map fst layer))
    (before ++ layer :: after) m = OptModel.Done m' ->
  OptModel.has_row m (OptModel.triangle_name a b c +:+ "+") None (fun _ => None) ->
  OptModel.has_row m (OptModel.triangle_name a b c +:+ "-") None (fun _ => None) ->
  OptModel.has_row m' (OptModel.triangle_name a b c +:+ "+")
    (Some {| OptModel.min := None; OptModel.max := Some 1%Q |}) (OptModel.triangle_row a b c) /\
  OptModel.has_row m' (OptModel.triangle_name a b c +:+ "-")
    (Some {| OptModel.min := Some 0%Q; OptModel.max := None |}) (OptModel.triangle_row a b c).
Proof.
  intros Hothers Hids Htotal Ha Hab Hbc Hc H Hup Hdown.
  rewrite foldM_app in H. bind_done H. cbn [OptModel.foldM] in H. bind_done H.
  assert (Hkeep : forall (s : ascii) co row other m1 m2,
            (s = "+" \/ s = "-")%char -> other ∈ before ++ after ->
            (row = (fun _ => None) \/ row = OptModel.triangle_row a b c) ->
            OptModel.perms total numVars m1 (map fst other) = OptModel.Done m2 ->
            OptModel.has_row m1 (OptModel.triangle_name a b c +:+ String s EmptyString) co row ->
            OptModel.has_row m2 (OptModel.triangle_name a b c +:+ String s EmptyString) co row).
  { intros s co row other m1 m2 Hs Hin Hrow Hstep Hm1.
    destruct (Hothers other Hin) as (off' & k' & Hids' & Htotal' & Hdisjoint).
    rewrite Hids' in Hstep.
    assert (Hout : forall x, (off' <= x < off' + k')%nat -> ~ (off <= x < off + k)%nat).
    { intros x Hx Hx'. apply (Hdisjoint x); apply elem_of_seq; lia. }
    apply (perms_row total numVars m1 off' k' m2 _ co row Htotal'); [| | | |exact Hstep|exact Hm1].
    - apply avoids_head. apply signed_name_avoids; [not_a_digit | colon_free |].
      destruct Hs as [-> | ->]; discriminate.
    - intros x y. apply signed_name_not_pair, Hs.
    - intros x y Hx Hxy Hy. destruct Hrow as [-> | ->]; [reflexivity|].
      unfold OptModel.triangle_row.
      rewrite !decide_False; [reflexivity|..]; intros Heq; apply pair_name_inj in Heq;
        apply (Hout x); lia.
    - intros x y z Hx Hxy Hyz Hz.
      split; intros Heq; apply signed_name_inj in Heq as [(-> & -> & ->) _]; auto;
        apply (Hout x); lia. }
  assert (Hbefore : forall (s : ascii), (s = "+" \/ s = "-")%char ->
            OptModel.has_row m (OptModel.triangle_name a b c +:+ String s EmptyString)
              None (fun _ => None) ->
            OptModel.has_row a0 (OptModel.triangle_name a b c +:+ String s EmptyString)
              None (fun _ => None)).
  { intros s Hs Hm.
    refine (foldM_invariant (fun m => OptModel.has_row m _ None (fun _ => None)) _ _ _ _ _ E Hm).
    intros m1 other m2 Hin Hstep Hm1.
    apply (Hkeep s None _ other m1 m2 Hs); auto. apply elem_of_app. left. exact Hin. }
  assert (Hafter : forall (s : ascii) co, (s = "+" \/ s = "-")%char ->
            OptModel.has_row a1 (OptModel.triangle_name a b c +:+ String s EmptyString)
              co (OptModel.triangle_row a b c) ->
            OptModel.has_row m' (OptModel.triangle_name a b c +:+ String s EmptyString)
              co (OptModel.triangle_row a b c)).
  { intros s co Hs Hm.
    refine (foldM_invariant (fun m => OptModel.has_row m _ co _) _ _ _ _ _ H Hm).
    intros m1 other m2 Hin Hstep Hm1.
    apply (Hkeep s co _ other m1 m2 Hs); auto. apply elem_of_app. right. exact Hin. }
  rewrite Hids in E0.
  destruct (perms_triangle total numVars a0 off k a1 a b c Htotal Ha Hab Hbc Hc E0)
    as [Rup Rdown].
  - apply (Hbefore "+"%char); auto.
  - apply (Hbefore "-"%char); auto.
  - split; [apply (Hafter "+"%char) | apply (Hafter "-"%char)]; auto.
Qed.

(** X28: For any three nodes of one layer, seen by their ids [a < b < c], the
    model has the two triangle constraints: [x(a,b) - x(a,c) + x(b,c)] is
    at most 1 in the constraint [a => b => c+] and at least 0 in
    [a => b => c-], and no other variable occurs in them. *)
Theorem opt_model_triangle_constraints (layers : Opt.Layers) (model : OptModel.Model)
    (a b c : nat) :
  OptModel.model layers = OptModel.Done model ->
  (a < b)%nat -> (b < c)%nat -> OptModel.same_layer layers a c ->
  OptModel.has_row model (OptModel.triangle_name a b c +:+ "+")
    (Some {| OptModel.min := None; OptModel.max := Some 1%Q |}) (OptModel.triangle_row a b c) /\
  OptModel.has_row model (OptModel.triangle_name a b c +:+ "-")
    (Some {| OptModel.min := Some 0%Q; OptModel.max := None |}) (OptModel.triangle_row a b c).
Proof.
  intros H Hab Hbc (l & Ha & Hc). unfold OptModel.ids_of_layer in Ha, Hc.
  destruct (OptModel.number 0 layers !! l) as [layer|] eqn:Hl; [|inversion Ha].
  destruct (number_lookup layers 0 l layer Hl) as (off & Hids & _ & Htotal).
  rewrite Hids in Ha, Hc. apply elem_of_seq in Ha, Hc. simpl in Htotal.
  unfold OptModel.model in H. cbv zeta in H. bind_done H.
  set (total := length (concat layers)) in *.
  set (numbered := OptModel.number 0 layers) in *.
  set (m0 := OptModel.Build_Model _ _ _ _ _) in *.
  pose proof (take_drop_middle numbered l layer Hl) as Hsplit.
  pose proof (eq_ind_r (fun x => OptModel.foldM _ x m0 = OptModel.Done a0) E Hsplit) as E'.
  cbv beta in E'.
  assert (Hnone : forall K, OptModel.has_row m0 K None (fun _ => None)).
  { intros K. split; [apply lookup_empty|]. intros v. unfold OptModel.coefficient. simpl.
    rewrite lookup_empty. reflexivity. }
  destruct (all_perms_triangle total (Opt.numVars layers) (take l numbered)
              (drop (S l) numbered) layer m0 a0 off (length layer) a b c) as [Rup Rdown];
    try lia; try apply Hnone; try exact Hids; try exact E'.
  - intros other Hin.
    assert (Hl' : exists l', l' <> l /\ numbered !! l' = Some other).
    { apply elem_of_app in Hin as [Hin|Hin]; apply list_elem_of_lookup in Hin as (j & Hj).
      - apply lookup_take_Some in Hj as [Hj Hlt]. exists j. split; [lia | exact Hj].
      - rewrite lookup_drop in Hj. exists (S l + j)%nat. split; [lia | exact Hj]. }
    destruct Hl' as (l' & Hne & Hl').
    destruct (number_lookup layers 0 l' other Hl') as (off' & Hids' & _ & Htotal').
    exists off', (length other). split; [exact Hids'|]. split; [simpl in Htotal'; exact Htotal'|].
    intros x Hx Hx'. apply Hne. rewrite <- Hids' in Hx. rewrite <- Hids in Hx'.
    exact (number_disjoint layers 0 l' l other layer x Hl' Hl Hx Hx').
  - assert (Hcross : forall K co row,
              SimplexSpec.avoids "s" K -> SimplexSpec.avoids "o" K ->
              (forall r, row (String "s" r) = None) ->
              OptModel.has_row a0 K co row -> OptModel.has_row model K co row).
    { intros K co row Hs Ho Hr Hm.
      refine (foldM_invariant (fun m => OptModel.has_row m K co row) _ _ _ _ _ H Hm).
      intros m1 other m2 _ Hstep Hm1. exact (cross_row _ _ _ _ _ _ _ Hs Ho Hr Hstep Hm1). }
    assert (Hr : forall r, OptModel.triangle_row a b c (String "s" r) = None).
    { intros r. unfold OptModel.triangle_row.
      rewrite !decide_False; [reflexivity|..]; apply not_eq_sym, avoids_head;
        apply pair_name_avoids; solve [not_a_digit | colon_free]. }
    split; apply Hcross; auto;
      apply (signed_name_avoids _ _ a b c); solve [not_a_digit | colon_free | discriminate].
Qed.

End OptModelRows.

(** *** The objective *)
Section OptModelObjective.

Local Abbreviation objective_ok q := (fun m : OptModel.Model =>
  OptModel.optimize m = "opt" /\ OptModel.opType m = "min" /\
  (forall v, is_Some (OptModel.ints m !! v) -> SimplexSpec.avoids "s" v) /\
  (forall v var, OptModel.variables m !! v = Some var ->
     var !! "opt" = Some (match OptModel.ints m !! v with Some _ => q | None => 1%Q end))).

Lemma set_coeff_objective (q : Q) name cons coeff m m' :
  OptModel.set_coeff name cons coeff m = OptModel.Done m' -> cons <> "opt" ->
  objective_ok q m -> objective_ok q m'.
Proof.
  unfold OptModel.set_coeff.
  destruct (OptModel.variables m !! name) as [var|] eqn:E; [|discriminate].
  intros [= <-] Hne (H1 & H2 & H3 & H4). simpl. repeat split; auto.
  intros v var'. destruct (decide (v = name)) as [->|Hv].
  - rewrite lookup_insert_eq. intros [= <-]. rewrite lookup_insert_ne by exact Hne.
    apply H4, E.
  - rewrite lookup_insert_ne by congruence. apply H4.
Qed.

Lemma set_constraint_objective (q : Q) cons c m :
  objective_ok q m -> objective_ok q (OptModel.set_constraint cons c m).
Proof. intros H. exact H. Qed.

Ltac objective_step :=
  match goal with
  | H : OptModel.set_coeff _ _ _ ?m = OptModel.Done ?m' |- _ /\ _ =>
      apply (set_coeff_objective _ _ _ _ _ _ H)
  | |- context [OptModel.set_constraint ?cons ?c ?m] =>
      apply (set_constraint_objective _ cons c m)
  end.

Lemma add_pair_objective (q : Q) total numVars m a b m' :
  q = ((-1) / inject_Z (numVars + 1))%Q ->
  (a < b)%nat -> (b < total)%nat ->
  OptModel.add_pair total numVars m (a, b) = OptModel.Done m' ->
  objective_ok q m -> objective_ok q m'.
Proof.
  intros Hq Hab Hb H (H1 & H2 & H3 & H4). unfold OptModel.add_pair in H.
  rewrite (proj1 (key_pair total a b Hab Hb)) in H. simpl in H. injection H as <-.
  simpl. split; [exact H1|]. split; [exact H2|]. split.
  - intros v. destruct (decide (v = OptModel.pair_name a b)) as [->|Hv].
    + intros _. apply pair_name_avoids; [not_a_digit | colon_free].
    + rewrite lookup_insert_ne by congruence. apply H3.
  - intros v var. destruct (decide (v = OptModel.pair_name a b)) as [->|Hv].
    + rewrite !lookup_insert_eq. intros [= <-].
      rewrite lookup_insert_ne, lookup_singleton_eq, Hq; [reflexivity|].
      apply avoids_head. apply pair_name_avoids; [not_a_digit | colon_free].
    + rewrite !lookup_insert_ne by congruence. apply H4.
Qed.

Lemma add_triangle_objective (q : Q) total m a b c m' :
  (a < b)%nat -> (b < c)%nat -> (c < total)%nat ->
  OptModel.add_triangle total m (a, b, c) = OptModel.Done m' ->
  objective_ok q m -> objective_ok q m'.
Proof.
  intros Hab Hbc Hc H Hm. unfold OptModel.add_triangle in H.
  rewrite (proj1 (key_pair total a b Hab ltac:(lia))),
          (proj1 (key_pair total a c ltac:(lia) Hc)),
          (proj1 (key_pair total b c Hbc Hc)),
          (key_triple total a b c Hab Hbc Hc) in H.
  fold (OptModel.triangle_name a b c) in H. simpl in H.
  assert (Hne : forall s : ascii, s <> "o"%char ->
            OptModel.triangle_name a b c +:+ String s EmptyString <> "opt").
  { intros s Hs. apply avoids_head.
    apply signed_name_avoids; [not_a_digit | colon_free | exact Hs]. }
  repeat bind_done H.
  repeat (objective_step; [apply Hne; discriminate|]).
  repeat objective_step. exact Hm.
Qed.

Lemma add_slack_objective (q : Q) total pairp m cc m' :
  OptModel.add_slack total pairp m cc = OptModel.Done m' ->
  objective_ok q m -> objective_ok q m'.
Proof.
  intros H Hm. destruct cc as [c1 c2]. unfold OptModel.add_slack in H.
  destruct (decide (c1 = c2)); [injection H as <-; exact Hm|].
  repeat bind_done H.
  repeat (objective_step; [discriminate|]).
  repeat objective_step.
  destruct Hm as (H1 & H2 & H3 & H4). cbn [OptModel.optimize OptModel.opType
    OptModel.ints OptModel.variables].
  split; [exact H1|]. split; [exact H2|]. split; [exact H3|].
  intros v var.
  match goal with
  | |- context [<[?slack := _]> (OptModel.variables m)] =>
      destruct (decide (v = slack)) as [->|Hv]
  end.
  - rewrite lookup_insert_eq. intros [= <-].
    rewrite !lookup_insert_ne by discriminate. rewrite lookup_singleton_eq.
    match goal with
    | |- context [OptModel.ints m !! ?slack] =>
        destruct (OptModel.ints m !! slack) eqn:Hint; [|reflexivity]
    end.
    exfalso. apply mk_is_Some, H3 in Hint. destruct Hint as [Hs _]. congruence.
  - rewrite lookup_insert_ne by congruence. apply H4.
Qed.

(** X30: The model minimises the row [opt], in which every ordering variable
    has the coefficient [-1 / (numVars + 1)] and every other variable, the
    slack of two links, the coefficient 1. *)
Theorem opt_model_objective (layers : Opt.Layers) (model : OptModel.Model) :
  OptModel.model layers = OptModel.Done model ->
  OptModel.optimize model = "opt" /\ OptModel.opType model = "min" /\
  forall v var, OptModel.variables model !! v = Some var ->
    var !! "opt" = Some (match OptModel.ints model !! v with
                         | Some _ => ((-1) / inject_Z (Opt.numVars layers + 1))%Q
                         | None => 1%Q
                         end).
Proof.
  intros H. unfold OptModel.model in H. cbv zeta in H. bind_done H.
  set (total := length (concat layers)) in *.
  set (numbered := OptModel.number 0 layers) in *.
  set (m0 := OptModel.Build_Model _ _ _ _ _) in *.
  set (q := ((-1) / inject_Z (Opt.numVars layers + 1))%Q).
  assert (H0 : objective_ok q m0).
  { repeat split; simpl; intros v; rewrite lookup_empty;
      [intros [x Hx]; discriminate Hx | discriminate]. }
  assert (H1 : objective_ok q a).
  { refine (foldM_invariant (objective_ok q) _ _ _ _ _ E H0).
    intros m1 layer m2 Hin Hstep Hm1.
    apply list_elem_of_lookup in Hin as (l & Hl).
    destruct (number_lookup layers 0 l layer Hl) as (off & Hids & _ & Htotal).
    rewrite Hids in Hstep. unfold OptModel.perms in Hstep. bind_done Hstep.
    refine (foldM_invariant (objective_ok q) _ _ _ _ _ Hstep _).
    - intros m3 [[x y] z] m4 Hxyz Hs Hm3. apply triples_seq_elem in Hxyz.
      apply (add_triangle_objective q total m3 x y z m4); auto; simpl in Htotal; lia.
    - refine (foldM_invariant (objective_ok q) _ _ _ _ _ E0 Hm1).
      intros m3 [x y] m4 Hxy Hs Hm3. apply pairs_seq_elem in Hxy.
      apply (add_pair_objective q total (Opt.numVars layers) m3 x y m4); auto;
        simpl in Htotal; lia. }
  assert (H2 : objective_ok q model).
  { refine (foldM_invariant (objective_ok q) _ _ _ _ _ H H1).
    intros m1 layer m2 _ Hstep Hm1. unfold OptModel.cross in Hstep.
    refine (foldM_invariant (objective_ok q) _ _ _ _ _ Hstep Hm1).
    intros m3 [[p1 children1] [p2 children2]] m4 _ Hs Hm3. bind_done Hs.
    refine (foldM_invariant (objective_ok q) _ _ _ _ _ Hs Hm3).
    intros m5 cc m6 _ Hslack Hm5. exact (add_slack_objective _ _ _ _ _ _ Hslack Hm5). }
  destruct H2 as (R1 & R2 & _ & R4). auto.
Qed.

End OptModelObjective.

(** *** The crossing constraints *)
Section OptModelCrossings.

Lemma length_append (s t : string) :
  String.length (s +:+ t) = (String.length s + String.length t)%nat.
Proof. induction s as [|c s IH]; simpl; [reflexivity | rewrite IH; reflexivity]. Qed.

Lemma append_inj_r (s s' t t' : string) :
  String.length t = String.length t' -> s +:+ t = s' +:+ t' -> s = s' /\ t = t'.
Proof.
  intros Hlen. revert s'. induction s as [|c s IH]; intros [|c' s'] H.
  - auto.
  - exfalso. change (t = String c' (s' +:+ t')) in H. subst t.
    cbn [String.length] in Hlen. rewrite length_append in Hlen. lia.
  - exfalso. change (String c (s +:+ t) = t') in H. subst t'.
    cbn [String.length] in Hlen. rewrite length_append in Hlen. lia.
  - change (String c (s +:+ t) = String c' (s' +:+ t')) in H.
    injection H as -> H. destruct (IH s' H) as [-> ->]. auto.
Qed.

(** The name of a slack variable gives back the two pairs. *)
Lemma slack_name_inj pairp pairc pairp' pairc' :
  SimplexSpec.avoids ")" pairp -> SimplexSpec.avoids ")" pairp' ->
  SimplexSpec.avoids ")" pairc -> SimplexSpec.avoids ")" pairc' ->
  OptModel.slack_name pairp pairc = OptModel.slack_name pairp' pairc' ->
  pairp = pairp' /\ pairc = pairc'.
Proof.
  intros Hp Hp' Hc Hc' H. unfold OptModel.slack_name in H.
  apply append_cancel_l in H.
  apply (separated_inj ")" pairp pairp' _ _ Hp Hp') in H as [-> H].
  split; [reflexivity|].
  apply (append_cancel_l " (") in H.
  apply (separated_inj ")" pairc pairc' _ _ Hc Hc') in H as [-> _]. reflexivity.
Qed.

Lemma pair_name_no_paren a b : SimplexSpec.avoids ")" (OptModel.pair_name a b).
Proof. apply pair_name_avoids; [not_a_digit | colon_free]. Qed.

Lemma pair_name_not_slack a b r : OptModel.pair_name a b <> String "s" r.
Proof. apply avoids_head. apply pair_name_avoids; [not_a_digit | colon_free]. Qed.

(** The key of two nodes. *)
Lemma key_pair_inv total x y name :
  OptModel.key total [x; y] = OptModel.Done name ->
  (x < total)%nat /\ (y < total)%nat /\
  name = OptModel.pair_name (Nat.min x y) (Nat.max x y).
Proof.
  unfold OptModel.key, OptModel.id_of. simpl.
  destruct (x <? total)%nat eqn:Hx; simpl; [|discriminate].
  destruct (y <? total)%nat eqn:Hy; simpl; [|discriminate].
  apply Nat.ltb_lt in Hx, Hy. intros [= <-].
  split; [exact Hx|]. split; [exact Hy|].
  unfold OptModel.sort_ids. simpl.
  destruct (x <=? y)%nat eqn:Hle.
  - apply Nat.leb_le in Hle. rewrite Nat.min_l, Nat.max_r by lia. reflexivity.
  - apply Nat.leb_gt in Hle. rewrite Nat.min_r, Nat.max_l by lia. reflexivity.
Qed.

Lemma key_of_pair total x y :
  x <> y -> (x < total)%nat -> (y < total)%nat ->
  OptModel.key total [x; y] = OptModel.Done (OptModel.pair_name (Nat.min x y) (Nat.max x y)).
Proof.
  intros Hne Hx Hy. destruct (Nat.lt_ge_cases x y) as [Hlt|Hge].
  - rewrite Nat.min_l, Nat.max_r by lia. apply key_pair; assumption.
  - rewrite Nat.min_r, Nat.max_l by lia. apply key_pair; [lia | assumption].
Qed.

Lemma unordered_pair_inj x y x' y' :
  OptModel.pair_name (Nat.min x y) (Nat.max x y)
  = OptModel.pair_name (Nat.min x' y') (Nat.max x' y') ->
  (x = x' /\ y = y') \/ (x = y' /\ y = x').
Proof. intros H. apply pair_name_inj in H. lia. Qed.

Ltac keep_step :=
  match goal with
  | H : OptModel.set_coeff _ _ _ ?m = OptModel.Done ?m' |- OptModel.has_row ?m' _ _ _ =>
      apply (set_coeff_row _ _ _ _ _ _ _ _ H)
  | |- OptModel.has_row (OptModel.set_constraint _ _ _) _ _ _ =>
      apply set_constraint_row
  end.

Ltac here_step :=
  match goal with
  | H : OptModel.set_coeff _ _ _ ?m = OptModel.Done ?m' |- OptModel.has_row ?m' _ _ _ =>
      apply (set_coeff_here _ _ _ _ _ _ _ H)
  | |- OptModel.has_row (OptModel.set_constraint _ _ _) _ _ _ =>
      eapply set_constraint_here
  end.

(** A slack variable of another name leaves a row as it is. *)
Lemma add_slack_keeps total pairp m c1 c2 m' K co row :
  K <> "opt" ->
  (forall pairc, OptModel.key total [c1; c2] = OptModel.Done pairc ->
     OptModel.slack_name pairp pairc +:+ " +" <> K /\
     OptModel.slack_name pairp pairc +:+ " -" <> K /\
     row (OptModel.slack_name pairp pairc) = None) ->
  OptModel.add_slack total pairp m (c1, c2) = OptModel.Done m' ->
  OptModel.has_row m K co row -> OptModel.has_row m' K co row.
Proof.
  intros Ho Hnames H Hrow. unfold OptModel.add_slack in H.
  destruct (decide (c1 = c2)); [injection H as <-; exact Hrow|].
  bind_done H. destruct (Hnames a eq_refl) as (Nup & Ndown & Hr).
  unfold OptModel.slack_name in Nup, Ndown, Hr.
  repeat bind_done H.
  repeat (keep_step; [first [exact Nup | exact Ndown]|]).
  destruct Hrow as [Hc Hrow]. split; [exact Hc|]. intros v.
  unfold OptModel.coefficient. cbn [OptModel.variables].
  match goal with
  | |- context [<[?slack := _]> (OptModel.variables m)] =>
      destruct (decide (v = slack)) as [->|Hv]
  end.
  - rewrite lookup_insert_eq, Hr.
    rewrite !lookup_insert_ne by assumption.
    apply lookup_singleton_ne. congruence.
  - rewrite lookup_insert_ne by congruence. apply Hrow.
Qed.

(** The slack variable of the children [c1] and [c2] writes its two rows. *)
Lemma add_slack_writes total pairp c1 c2 m m' :
  c1 <> c2 -> (forall r, pairp <> String "s" r) ->
  OptModel.add_slack total pairp m (c1, c2) = OptModel.Done m' ->
  (forall v cons,
     v <> OptModel.slack_name pairp (OptModel.pair_name (Nat.min c1 c2) (Nat.max c1 c2)) ->
     v <> pairp -> v <> OptModel.pair_name (Nat.min c1 c2) (Nat.max c1 c2) ->
     cons = OptModel.slack_name pairp (OptModel.pair_name (Nat.min c1 c2) (Nat.max c1 c2))
              +:+ " +" \/
     cons = OptModel.slack_name pairp (OptModel.pair_name (Nat.min c1 c2) (Nat.max c1 c2))
              +:+ " -" ->
     OptModel.coefficient m v cons = None) ->
  OptModel.has_row m'
    (OptModel.slack_name pairp (OptModel.pair_name (Nat.min c1 c2) (Nat.max c1 c2)) +:+ " +")
    (Some {| OptModel.min := Some (OptModel.math_max (OptModel.sign c1 c2) 0);
             OptModel.max := None |})
    (OptModel.slack_row
       (OptModel.slack_name pairp (OptModel.pair_name (Nat.min c1 c2) (Nat.max c1 c2)))
       pairp (OptModel.pair_name (Nat.min c1 c2) (Nat.max c1 c2)) 1 (OptModel.sign c1 c2)) /\
  OptModel.has_row m'
    (OptModel.slack_name pairp (OptModel.pair_name (Nat.min c1 c2) (Nat.max c1 c2)) +:+ " -")
    (Some {| OptModel.min := Some (- OptModel.math_max (OptModel.sign c1 c2) 0)%Q;
             OptModel.max := None |})
    (OptModel.slack_row
       (OptModel.slack_name pairp (OptModel.pair_name (Nat.min c1 c2) (Nat.max c1 c2)))
       pairp (OptModel.pair_name (Nat.min c1 c2) (Nat.max c1 c2)) (-1)
       (- OptModel.sign c1 c2)%Q).
Proof.
  intros Hne Hp H Hweak. unfold OptModel.add_slack in H.
  rewrite decide_False in H by exact Hne.
  bind_done H. destruct (key_pair_inv total c1 c2 a E) as (H1 & H2 & ->).
  rewrite (id_of_lt total c1 H1), (id_of_lt total c2 H2) in H.
  cbn [OptModel.bind] in H.
  set (pairc := OptModel.pair_name (Nat.min c1 c2) (Nat.max c1 c2)) in *.
  fold (OptModel.slack_name pairp pairc) in H.
  set (slack := OptModel.slack_name pairp pairc) in *.
  set (sgn := OptModel.sign c1 c2) in *.
  assert (Hud : slack +:+ " +" <> slack +:+ " -").
  { intros Heq. apply append_cancel_l in Heq. discriminate Heq. }
  assert (Hsp : slack <> pairp) by (intros Heq; exact (Hp _ (eq_sym Heq))).
  assert (Hsc : slack <> pairc) by (intros Heq; exact (pair_name_not_slack _ _ _ (eq_sym Heq))).
  repeat bind_done H.
  set (m1 := OptModel.Build_Model _ _ _ _ _) in *.
  assert (Hm1 : forall v cons, cons = slack +:+ " +" \/ cons = slack +:+ " -" ->
            OptModel.coefficient m1 v cons
            = if decide (v = slack) then Some 1%Q else OptModel.coefficient m v cons).
  { intros v cons Hcons. unfold OptModel.coefficient, m1. cbn [OptModel.variables].
    destruct (decide (v = slack)) as [Hv|Hv].
    - rewrite Hv, lookup_insert_eq. destruct Hcons as [-> | ->].
      + rewrite lookup_insert_ne by congruence. apply lookup_insert_eq.
      + apply lookup_insert_eq.
    - rewrite lookup_insert_ne by congruence. reflexivity. }
  split.
  - apply (has_row_ext _ _ _ (fun v => if decide (v = pairc) then Some sgn
                                       else if decide (v = pairp) then Some 1%Q
                                       else OptModel.coefficient m1 v (slack +:+ " +"))).
    + intros v. unfold OptModel.slack_row. rewrite Hm1 by auto.
      repeat case_decide; try reflexivity; try congruence.
      apply Hweak; auto.
    + do 3 (keep_step; [congruence|]). do 3 here_step.
      split; [reflexivity | intros v; reflexivity].
  - apply (has_row_ext _ _ _ (fun v => if decide (v = pairc) then Some (- sgn)%Q
                                       else if decide (v = pairp) then Some (-1)%Q
                                       else OptModel.coefficient m1 v (slack +:+ " -"))).
    + intros v. unfold OptModel.slack_row. rewrite Hm1 by auto.
      repeat case_decide; try reflexivity; try congruence.
      apply Hweak; auto.
    + do 3 here_step. do 3 (keep_step; [congruence|]).
      split; [reflexivity | intros v; reflexivity].
Qed.

Lemma foldM_reach {A B : Type} (Q F : A -> Prop) (f : A -> B -> OptModel.outcome A)
    (l : list B) (b : B) :
  b ∈ l ->
  (forall a x a', x ∈ l -> f a x = OptModel.Done a' -> (Q a -> Q a') /\ (F a -> F a')) ->
  (forall a a', f a b = OptModel.Done a' -> Q a -> F a') ->
  forall a a', OptModel.foldM f l a = OptModel.Done a' -> Q a -> F a'.
Proof.
  intros Hb Hkeep Hreach a a' H Qa.
  apply list_elem_of_split in Hb as (l1 & l2 & ->).
  rewrite foldM_app in H. bind_done H. cbn [OptModel.foldM] in H. bind_done H.
  assert (Qa0 : Q a0).
  { refine (foldM_invariant Q _ _ _ _ _ E Qa). intros m x m' Hx Hstep.
    apply (Hkeep m x m'); [apply elem_of_app; left; exact Hx | exact Hstep]. }
  assert (Fa1 : F a1) by exact (Hreach _ _ E0 Qa0).
  refine (foldM_invariant F _ _ _ _ _ H Fa1). intros m x m' Hx Hstep.
  apply (Hkeep m x m'); [apply elem_of_app; right; right; exact Hx | exact Hstep].
Qed.

Lemma pairs_lookup {A : Type} (l : list A) : forall i j x y,
  (i < j)%nat -> l !! i = Some x -> l !! j = Some y -> (x, y) ∈ OptModel.pairs l.
Proof.
  induction l as [|a l IH]; intros i j x y Hij Hi Hj; [discriminate Hi|].
  rewrite pairs_cons. apply elem_of_app. destruct j as [|j]; [lia|]. simpl in Hj.
  destruct i as [|i]; simpl in Hi.
  - injection Hi as ->. left. apply list_elem_of_fmap. exists y.
    split; [reflexivity|]. eapply list_elem_of_lookup_2, Hj.
  - right. apply (IH i j); [lia | exact Hi | exact Hj].
Qed.

Lemma product_elem_of (children1 children2 : list nat) c1 c2 :
  (c1, c2) ∈ flat_map (fun c1 => map (fun c2 => (c1, c2)) children2) children1 <->
  c1 ∈ children1 /\ c2 ∈ children2.
Proof.
  rewrite list_elem_of_In, in_flat_map. split.
  - intros (x & Hx & Hin). apply in_map_iff in Hin as (y & [= -> ->] & Hy).
    split; apply list_elem_of_In; assumption.
  - intros [H1 H2]. exists c1. split; [apply list_elem_of_In, H1|].
    apply in_map_iff. exists c2. split; [reflexivity | apply list_elem_of_In, H2].
Qed.

End OptModelCrossings.

Section OptModelCrossing.
(** The slack of the links from [p1] to [c1] and from [p2] to [c2]. *)
Variables (p1 p2 c1 c2 : nat) (children1 children2 : list nat).
Hypothesis Htarget :
  (p1 < p2)%nat /\ c1 <> c2 /\ c1 ∈ children1 /\ c2 ∈ children2 /\
  ~ (c2 ∈ children1 /\ c1 ∈ children2).

Local Abbreviation pairp := (OptModel.pair_name p1 p2).
Local Abbreviation pairc := (OptModel.pair_name (Nat.min c1 c2) (Nat.max c1 c2)).
Local Abbreviation slack := (OptModel.slack_name pairp pairc).
Local Abbreviation clean := (fun m : OptModel.Model =>
  OptModel.has_row m (slack +:+ " +") None (fun _ => None) /\
  OptModel.has_row m (slack +:+ " -") None (fun _ => None)).
Local Abbreviation final := (fun m : OptModel.Model =>
  OptModel.has_row m (slack +:+ " +")
    (Some {| OptModel.min := Some (OptModel.math_max (OptModel.sign c1 c2) 0);
             OptModel.max := None |})
    (OptModel.slack_row slack pairp pairc 1 (OptModel.sign c1 c2)) /\
  OptModel.has_row m (slack +:+ " -")
    (Some {| OptModel.min := Some (- OptModel.math_max (OptModel.sign c1 c2) 0)%Q;
             OptModel.max := None |})
    (OptModel.slack_row slack pairp pairc (-1) (- OptModel.sign c1 c2)%Q)).

Lemma slack_names_differ (pairp' pairc' : string) (s s' : string) :
  SimplexSpec.avoids ")" pairp' -> SimplexSpec.avoids ")" pairc' ->
  (s = " +" \/ s = " -") -> (s' = " +" \/ s' = " -") ->
  ~ (pairp' = pairp /\ pairc' = pairc) ->
  OptModel.slack_name pairp' pairc' +:+ s' <> slack +:+ s.
Proof.
  intros Hp Hc Hs Hs' Hne Heq. apply append_inj_r in Heq as [Heq _].
  - apply slack_name_inj in Heq; auto using pair_name_no_paren.
  - destruct Hs as [-> | ->], Hs' as [-> | ->]; reflexivity.
Qed.

Lemma slack_row_none (cp cc : Q) (r : string) :
  String "s" r <> slack -> OptModel.slack_row slack pairp pairc cp cc (String "s" r) = None.
Proof.
  intros Hne. unfold OptModel.slack_row.
  rewrite !decide_False; [reflexivity | | | exact Hne];
    apply not_eq_sym, pair_name_not_slack.
Qed.

(** Another slack variable leaves the two rows as they are. *)
Lemma slack_other total pairp' x y m m' (co co' : option OptModel.Constraint)
    (row row' : string -> option Q) :
  SimplexSpec.avoids ")" pairp' ->
  ~ (pairp' = pairp /\ ((x = c1 /\ y = c2) \/ (x = c2 /\ y = c1))) ->
  (forall r, String "s" r <> slack -> row (String "s" r) = None) ->
  (forall r, String "s" r <> slack -> row' (String "s" r) = None) ->
  OptModel.add_slack total pairp' m (x, y) = OptModel.Done m' ->
  OptModel.has_row m (slack +:+ " +") co row /\ OptModel.has_row m (slack +:+ " -") co' row' ->
  OptModel.has_row m' (slack +:+ " +") co row /\ OptModel.has_row m' (slack +:+ " -") co' row'.
Proof.
  intros Hp Hne Hrow Hrow' H [Hup Hdown].
  assert (Hnames : forall pairc', OptModel.key total [x; y] = OptModel.Done pairc' ->
            SimplexSpec.avoids ")" pairc' /\ ~ (pairp' = pairp /\ pairc' = pairc)).
  { intros pairc' Hkey. apply key_pair_inv in Hkey as (_ & _ & ->).
    split; [apply pair_name_no_paren|]. intros [Hpp Hcc]. apply Hne. split; [exact Hpp|].
    apply unordered_pair_inj, Hcc. }
  split.
  - apply (add_slack_keeps total pairp' m x y m' _ co row); [discriminate| |exact H|exact Hup].
    intros pairc' Hkey. destruct (Hnames pairc' Hkey) as [Hc Hdiff].
    split; [apply slack_names_differ; auto|].
    split; [apply slack_names_differ; auto|].
    apply Hrow. intros Heq. apply slack_name_inj in Heq; auto using pair_name_no_paren.
  - apply (add_slack_keeps total pairp' m x y m' _ co' row'); [discriminate| |exact H|exact Hdown].
    intros pairc' Hkey. destruct (Hnames pairc' Hkey) as [Hc Hdiff].
    split; [apply slack_names_differ; auto|].
    split; [apply slack_names_differ; auto|].
    apply Hrow'. intros Heq. apply slack_name_inj in Heq; auto using pair_name_no_paren.
Qed.

(** The slack variable of the two links writes the two rows, whatever was
    there of them. *)
Lemma slack_same total m m' :
  OptModel.add_slack total pairp m (c1, c2) = OptModel.Done m' ->
  clean m \/ final m -> final m'.
Proof.
  destruct Htarget as (_ & Hc & _). intros H Hm.
  apply (add_slack_writes total pairp c1 c2 m m' Hc); [|exact H|].
  - intros r. apply pair_name_not_slack.
  - intros v cons Hv1 Hv2 Hv3 Hcons.
    destruct Hm as [[[_ Hup] [_ Hdown]] | [[_ Hup] [_ Hdown]]];
      destruct Hcons as [-> | ->]; rewrite ?Hup, ?Hdown; try reflexivity;
      unfold OptModel.slack_row; rewrite !decide_False by assumption; reflexivity.
Qed.

Lemma slacks_target total m m' :
  OptModel.foldM (OptModel.add_slack total pairp)
    (flat_map (fun c1 => map (fun c2 => (c1, c2)) children2) children1) m
  = OptModel.Done m' ->
  clean m \/ final m -> final m'.
Proof.
  destruct Htarget as (_ & Hc & Hc1 & Hc2 & Hswap).
  apply (foldM_reach (fun m => clean m \/ final m) (fun m => final m) _ _ (c1, c2)).
  - apply product_elem_of. auto.
  - intros m0 [x y] m0' Hxy Hstep. apply product_elem_of in Hxy as [Hx Hy].
    destruct (decide ((x, y) = (c1, c2))) as [[= -> ->]|Hne].
    + split; intros Hm; [right|]; apply (slack_same total m0 m0' Hstep); auto.
    + assert (Hdiff : ~ (pairp = pairp /\ ((x = c1 /\ y = c2) \/ (x = c2 /\ y = c1)))).
      { intros [_ [[-> ->] | [-> ->]]]; [apply Hne; reflexivity | apply Hswap; auto]. }
      assert (Hclean : clean m0 -> clean m0').
      { apply (slack_other total pairp x y m0 m0'); auto using pair_name_no_paren. }
      assert (Hfinal : final m0 -> final m0').
      { apply (slack_other total pairp x y m0 m0');
          auto using pair_name_no_paren, slack_row_none. }
      split; [intros [Hm|Hm]; [left|right]; auto | exact Hfinal].
  - intros m0 m0' Hstep Hm. exact (slack_same total m0 m0' Hstep Hm).
Qed.

(** [cross] on a layer: the rows stay, and they are written when the layer
    has the two parents. *)
Lemma cross_layer total (layer : list (nat * list nat)) m m' off :
  map fst layer = seq off (length layer) -> (off + length layer <= total)%nat ->
  (forall ch, (p1, ch) ∈ layer -> ch = children1) ->
  (forall ch, (p2, ch) ∈ layer -> ch = children2) ->
  OptModel.cross total m layer = OptModel.Done m' ->
  (clean m \/ final m -> clean m' \/ final m') /\
  (final m -> final m') /\
  (((p1, children1), (p2, children2)) ∈ OptModel.pairs layer ->
   clean m \/ final m -> final m').
Proof.
  intros Hids Htotal Hch1 Hch2 H. unfold OptModel.cross in H.
  match type of H with
  | OptModel.foldM ?f _ _ = _ =>
      assert (Hstep : forall m0 pr m0', pr ∈ OptModel.pairs layer ->
                f m0 pr = OptModel.Done m0' ->
                (clean m0 \/ final m0 -> clean m0' \/ final m0') /\
                (final m0 -> final m0') /\
                (pr = ((p1, children1), (p2, children2)) ->
                 clean m0 \/ final m0 -> final m0'))
  end.
  { intros m0 [[x chx] [y chy]] m0' Hpr Hrun.
    assert (Hxy : (x, y) ∈ OptModel.pairs (map fst layer)).
    { rewrite pairs_fmap. apply list_elem_of_fmap. exists ((x, chx), (y, chy)). auto. }
    rewrite Hids in Hxy. apply pairs_seq_elem in Hxy.
    rewrite (proj1 (key_pair total x y ltac:(lia) ltac:(lia))) in Hrun.
    cbn [OptModel.bind] in Hrun.
    apply pairs_elem_of in Hpr as [Hx Hy].
    destruct (decide ((x, y) = (p1, p2))) as [[= -> ->]|Hne].
    - apply Hch1 in Hx. apply Hch2 in Hy. subst chx chy.
      assert (Hreach : clean m0 \/ final m0 -> final m0')
        by exact (slacks_target total m0 m0' Hrun).
      split; [auto|]. split; auto.
    - assert (Hdiff : forall u v,
                ~ (OptModel.pair_name x y = pairp /\
                   ((u = c1 /\ v = c2) \/ (u = c2 /\ v = c1)))).
      { intros u v [Heq _]. apply pair_name_inj in Heq as [-> ->]. apply Hne. reflexivity. }
      assert (Hclean : clean m0 -> clean m0').
      { refine (foldM_invariant (fun m => clean m) _ _ _ _ _ Hrun).
        intros m1 [u v] m2 _ Hs.
        apply (slack_other total (OptModel.pair_name x y) u v m1 m2);
          auto using pair_name_no_paren. }
      assert (Hfinal : final m0 -> final m0').
      { refine (foldM_invariant (fun m => final m) _ _ _ _ _ Hrun).
        intros m1 [u v] m2 _ Hs.
        apply (slack_other total (OptModel.pair_name x y) u v m1 m2);
          auto using pair_name_no_paren, slack_row_none. }
      split; [intros [Hm|Hm]; [left|right]; auto|].
      split; [exact Hfinal|]. intros [= -> _ -> _]. exfalso. apply Hne. reflexivity. }
  split; [|split].
  - refine (foldM_invariant (fun m => clean m \/ final m) _ _ _ _ _ H).
    intros m0 pr m0' Hpr Hrun. apply (Hstep m0 pr m0' Hpr Hrun).
  - refine (foldM_invariant (fun m => final m) _ _ _ _ _ H).
    intros m0 pr m0' Hpr Hrun. apply (Hstep m0 pr m0' Hpr Hrun).
  - intros Hin.
    refine (foldM_reach (fun m => clean m \/ final m) (fun m => final m) _ _ _ Hin _ _ _ _ H).
    + intros m0 pr m0' Hpr Hrun. destruct (Hstep m0 pr m0' Hpr Hrun) as (K1 & K2 & _). auto.
    + intros m0 m0' Hrun. destruct (Hstep m0 _ m0' Hin Hrun) as (_ & _ & K3). auto.
Qed.

End OptModelCrossing.

Lemma nodup_fst_unique {A B : Type} (l : list (A * B)) x y1 y2 :
  NoDup (map fst l) -> (x, y1) ∈ l -> (x, y2) ∈ l -> y1 = y2.
Proof.
  induction l as [|[a b] l IH]; intros Hnodup H1 H2; [inversion H1|].
  cbn [map fst] in Hnodup. apply NoDup_cons in Hnodup as [Ha Hnodup].
  assert (Hin : forall y, (a, y) ∈ l -> False).
  { intros y Hy. apply Ha. apply list_elem_of_fmap. exists (a, y). auto. }
  apply elem_of_cons in H1 as [H1|H1], H2 as [H2|H2].
  - congruence.
  - exfalso. injection H1 as -> _. exact (Hin _ H2).
  - exfalso. injection H2 as -> _. exact (Hin _ H1).
  - exact (IH Hnodup H1 H2).
Qed.

Lemma number_length (layers : Opt.Layers) : forall i,
  length (OptModel.number i layers) = length layers.
Proof.
  induction layers as [|first layers IH]; intros i; [reflexivity|].
  cbn [OptModel.number length]. rewrite IH. reflexivity.
Qed.

(** X29: For two nodes [p1] before [p2] of a layer that is not the last, a child
    [c1] of [p1] and another child [c2] of [p2], the model has the two
    constraints of the slack variable of the two links: with [sgn] the sign
    of [c1 - c2] and [flip] the larger of [sgn] and 0,
    [slack + x(p1,p2) + sgn * x(c1,c2) >= flip] and
    [slack - x(p1,p2) - sgn * x(c1,c2) >= - flip], with no other variable
    in them.  This is so unless [c2] is also a child of [p1] and [c1] one
    of [p2]: the two pairs of links then share their slack variable. *)
Theorem opt_model_crossing_constraints (layers : Opt.Layers) (model : OptModel.Model)
    (l i j p1 p2 c1 c2 : nat) (children1 children2 : list nat) :
  OptModel.model layers = OptModel.Done model ->
  (S l < length layers)%nat ->
  OptModel.node_at layers l i = Some (p1, children1) ->
  OptModel.node_at layers l j = Some (p2, children2) ->
  (i < j)%nat ->
  c1 ∈ children1 -> c2 ∈ children2 -> c1 <> c2 ->
  ~ (c2 ∈ children1 /\ c1 ∈ children2) ->
  let pairp := OptModel.pair_name p1 p2 in
  let pairc := OptModel.pair_name (Nat.min c1 c2) (Nat.max c1 c2) in
  let slack := OptModel.slack_name pairp pairc in
  let sgn := OptModel.sign c1 c2 in
  OptModel.has_row model (slack +:+ " +")
    (Some {| OptModel.min := Some (OptModel.math_max sgn 0); OptModel.max := None |})
    (OptModel.slack_row slack pairp pairc 1 sgn) /\
  OptModel.has_row model (slack +:+ " -")
    (Some {| OptModel.min := Some (- OptModel.math_max sgn 0)%Q; OptModel.max := None |})
    (OptModel.slack_row slack pairp pairc (-1) (- sgn)%Q).
Proof.
  intros H Hl Hi Hj Hij Hc1 Hc2 Hc Hswap. cbv zeta.
  unfold OptModel.node_at in Hi, Hj.
  destruct (OptModel.number 0 layers !! l) as [layer|] eqn:Hlayer; [|discriminate Hi].
  destruct (number_lookup layers 0 l layer Hlayer) as (off & Hids & _ & Htotal).
  simpl in Htotal.
  assert (Hp : (p1 < p2)%nat).
  { apply (f_equal (fmap fst)) in Hi, Hj. rewrite <- list_lookup_fmap in Hi, Hj.
    change (fst <$> layer) with (map fst layer) in Hi, Hj. rewrite Hids in Hi, Hj.
    apply lookup_seq in Hi as [Hi _], Hj as [Hj _]. simpl in Hi, Hj. lia. }
  assert (Hnodup : NoDup (map fst layer)) by (rewrite Hids; apply NoDup_seq).
  assert (Htarget : (p1 < p2)%nat /\ c1 <> c2 /\ c1 ∈ children1 /\ c2 ∈ children2 /\
                    ~ (c2 ∈ children1 /\ c1 ∈ children2)) by auto.
  unfold OptModel.model in H. cbv zeta in H. bind_done H.
  set (total := length (concat layers)) in *.
  set (numbered := OptModel.number 0 layers) in *.
  set (m0 := OptModel.Build_Model _ _ _ _ _) in *.
  set (slack := OptModel.slack_name (OptModel.pair_name p1 p2)
                  (OptModel.pair_name (Nat.min c1 c2) (Nat.max c1 c2))).
  assert (Hclean : forall s, s = " +" \/ s = " -" ->
            OptModel.has_row a (slack +:+ s) None (fun _ => None)).
  { intros s Hs.
    refine (foldM_invariant (fun m => OptModel.has_row m (slack +:+ s) None (fun _ => None))
              _ _ _ _ _ E _).
    - intros m1 other m2 Hin Hstep Hm1.
      apply list_elem_of_lookup in Hin as (l' & Hl').
      destruct (number_lookup layers 0 l' other Hl') as (off' & Hids' & _ & Htotal').
      simpl in Htotal'. rewrite Hids' in Hstep.
      apply (perms_row total (Opt.numVars layers) m1 off' (length other) m2
               (slack +:+ s) None (fun _ => None) Htotal'); auto.
      + intros x y. apply not_eq_sym, pair_name_not_slack.
      + intros x y z _ _ _ _.
        split; apply not_eq_sym, avoids_head;
          apply (signed_name_avoids _ _ x y z);
          solve [not_a_digit | colon_free | discriminate].
    - split; [apply lookup_empty|]. intros v. unfold OptModel.coefficient. simpl.
      rewrite lookup_empty. reflexivity. }
  assert (Hin : layer ∈ take (length numbered - 1) numbered).
  { apply (list_elem_of_lookup_2 _ l). apply lookup_take_Some. split; [exact Hlayer|].
    unfold numbered. rewrite number_length. lia. }
  pose (clean := fun m : OptModel.Model =>
    OptModel.has_row m (slack +:+ " +") None (fun _ => None) /\
    OptModel.has_row m (slack +:+ " -") None (fun _ => None)).
  match goal with |- ?up /\ ?down =>
    pose (final := fun m : OptModel.Model =>
      ltac:(let t := eval pattern model in (up /\ down) in
            match t with ?f _ => exact (f m) end))
  end.
  cbv beta in final. change (final model).
  refine (foldM_reach (fun m => clean m \/ final m) final _ _ layer Hin _ _ _ _ H _);
    unfold clean, final; [| |left; auto].
  - intros m1 other m2 Hother Hstep.
    apply list_elem_of_lookup in Hother as (l' & Hl').
    apply lookup_take_Some in Hl' as [Hl' _].
    destruct (number_lookup layers 0 l' other Hl') as (off' & Hids' & _ & Htotal').
    simpl in Htotal'.
    assert (Hsame : forall p ch ch', (p, ch) ∈ layer -> (p, ch') ∈ other -> ch' = ch).
    { intros p ch ch' Hp1 Hp2.
      assert (l' = l).
      { apply (number_disjoint layers 0 l' l other layer p Hl' Hlayer).
        - apply list_elem_of_fmap. exists (p, ch'). auto.
        - apply list_elem_of_fmap. exists (p, ch). auto. }
      subst l'. rewrite Hlayer in Hl'. injection Hl' as <-.
      exact (nodup_fst_unique layer p ch' ch Hnodup Hp2 Hp1). }
    destruct (cross_layer p1 p2 c1 c2 children1 children2 Htarget total other m1 m2 off'
                Hids' Htotal') as (K1 & K2 & _); auto.
    + intros ch. apply Hsame. eapply list_elem_of_lookup_2, Hi.
    + intros ch. apply Hsame. eapply list_elem_of_lookup_2, Hj.
  - intros m1 m2 Hstep.
    destruct (cross_layer p1 p2 c1 c2 children1 children2 Htarget total layer m1 m2 off
                Hids Htotal) as (_ & _ & K3); auto.
    + intros ch Hch. apply (nodup_fst_unique layer p1 ch children1 Hnodup Hch).
      eapply list_elem_of_lookup_2, Hi.
    + intros ch Hch. apply (nodup_fst_unique layer p2 ch children2 Hnodup Hch).
      eapply list_elem_of_lookup_2, Hj.
    + apply K3. exact (pairs_lookup layer i j _ _ Hij Hi Hj).
Qed.

(** ** The further properties at sample inputs *)

(** [stratify] on the chain [a], [b <- a], [c <- b, a]. *)
Lemma stratify_links_witness :
  exists dag,
    Stratify.stratify Examples.id_of Examples.parents_of (fun _ => true) (fun _ _ => true)
      Samples.chain = Ok dag /\
    Stratify.data <$> Stratify.nodes dag = Samples.chain /\
    StratifySpec.children_of (Stratify.nodes dag) 0 = [(1%nat, tt); (2%nat, tt)].
Proof.
  eexists. split; [reflexivity|].
  split; [|reflexivity].
  exact (proj1 (stratify_links_follow_parent_ids Examples.id_of Examples.parents_of
                  (fun _ => true) (fun _ _ => true) Samples.chain _ eq_refl)).
Defined.

Lemma stratify_roots_witness :
  exists dag roots,
    Stratify.stratify Examples.id_of Examples.parents_of (fun _ => true) (fun _ _ => true)
      Samples.chain = Ok dag /\
    (forall r, r ∈ roots <-> StratifySpec.parentless Examples.parents_of Samples.chain r) /\
    Stratify.handle dag = (if (1 <? length roots)%nat then Stratify.LayoutDagRoot roots
                           else Stratify.RootNode (head roots)).
Proof.
  eexists.
  destruct (stratify_roots_are_parentless Examples.id_of Examples.parents_of
              (fun _ => true) (fun _ _ => true) Samples.chain _ eq_refl)
    as (roots & Hroots & _ & _ & Hhandle).
  exists roots. split; [reflexivity|]. split; [exact Hroots | exact Hhandle].
Defined.

Lemma chain_accessors_return (data : list (string * list string)) :
  StratifySpec.accessors_return Examples.id_of Examples.parents_of data.
Proof. intros i d _. split; eexists; reflexivity. Defined.

(** [stratify] on two elements with the id "a". *)
Lemma stratify_errors_witness :
  StratifySpec.accessors_return Examples.id_of Examples.parents_of Examples.twins /\
  Stratify.stratify Examples.id_of Examples.parents_of (fun _ => true) (fun _ _ => true)
    Examples.twins = Throw (DuplicateId "a") /\
  exists i j, i <> j /\ StratifySpec.has_id Examples.id_of Examples.twins i "a" /\
              StratifySpec.has_id Examples.id_of Examples.twins j "a".
Proof.
  split; [apply chain_accessors_return|]. split; [reflexivity|].
  destruct (stratify_errors_have_causes Examples.id_of Examples.parents_of
              (fun _ => true) (fun _ _ => true) Examples.twins (DuplicateId "a")
              (chain_accessors_return _) eq_refl)
    as [[H _]|[(s & i & H & _)|[(s & i & j & H & Hij & Hi & Hj)|[(pid & j & ld & H & _)|H]]]];
    try discriminate H.
  injection H as <-. exists i, j. auto.
Defined.

Lemma walk3_parents_first : Layering.parents_first Examples.walk3 Examples.dag3.
Proof.
  intros pre node suf par count Heq Hin. simpl in Heq. unfold Dag.children in Hin.
  destruct pre as [|a [|b [|c pre]]]; simpl in Heq; injection Heq; intros; subst;
    try (destruct pre; discriminate);
    destruct par as [|[|[|par]]]; simpl in Hin;
    repeat (apply elem_of_cons in Hin as [Hin|Hin];
            [first [discriminate Hin
                   | repeat first [apply list_elem_of_here | apply list_elem_of_further]]|]);
    inversion Hin.
Defined.

Lemma walk3_nodup (style : Dag.Style) : NoDup (Examples.walk3 Examples.dag3 style).
Proof. destruct style; apply (bool_decide_unpack _); vm_compute; exact I. Defined.

(** Top-down longest path on the dag [0 -> 1 -> 2], [0 => 2]: the layers
    are 0, 1 and 2. *)
Lemma longest_path_top_down_witness :
  Dag.wf Examples.dag3 /\
  Layering.parents_first Examples.walk3 Examples.dag3 /\
  Layering.valid_layering Examples.dag3
    (LongestPath.longestPathCall Examples.walk3 {| Options.topDown := true |}
       Examples.dag3 ∅) /\
  Layering.tight_layering Examples.dag3
    (LongestPath.longestPathCall Examples.walk3 {| Options.topDown := true |}
       Examples.dag3 ∅).
Proof.
  assert (Hb : LongestPath.reaches_all Examples.walk3 Examples.dag3 Dag.before) by in_range3.
  split; [exact dag3_wf|]. split; [exact walk3_parents_first|].
  exact (longest_path_top_down_layering Examples.walk3 Examples.dag3 ∅ dag3_wf Hb
           (walk3_nodup Dag.before) walk3_parents_first).
Defined.

Lemma longest_path_bottom_up_witness :
  Dag.wf Examples.dag3 /\
  LongestPath.children_first Examples.walk3 Examples.dag3 /\
  Layering.valid_layering Examples.dag3
    (LongestPath.longestPathCall Examples.walk3 {| Options.topDown := false |}
       Examples.dag3 ∅).
Proof.
  assert (Ha : LongestPath.reaches_all Examples.walk3 Examples.dag3 Dag.after) by in_range3.
  split; [exact dag3_wf|]. split; [exact walk3_children_first|].
  exact (longest_path_bottom_up_layering Examples.walk3 Examples.dag3 ∅ dag3_wf Ha
           (walk3_nodup Dag.after) walk3_children_first).
Defined.

(** C6 on the dag [0 -> 1 -> 2], [0 => 2]: the root on layer 0 top-down,
    the leaf on the largest layer bottom-up, and both layerings by spans. *)
Lemma longest_path_witness :
  Dag.wf Examples.dag3 /\
  LongestPath.reaches_all Examples.walk3 Examples.dag3 Dag.before /\
  LongestPath.reaches_all Examples.walk3 Examples.dag3 Dag.after /\
  NoDup (Examples.walk3 Examples.dag3 Dag.before) /\
  NoDup (Examples.walk3 Examples.dag3 Dag.after) /\
  Layering.parents_first Examples.walk3 Examples.dag3 /\
  LongestPath.children_first Examples.walk3 Examples.dag3 /\
  LongestPath.longestPathCall Examples.walk3 {| Options.topDown := true |}
    Examples.dag3 ∅ !! 0%nat = Some (Num 0) /\
  (exists maxLayer,
     LongestPath.longestPathCall Examples.walk3 {| Options.topDown := false |}
       Examples.dag3 ∅ !! 2%nat = Some (Num maxLayer)) /\
  Layering.tight_layering Examples.dag3
    (LongestPath.longestPathCall Examples.walk3 {| Options.topDown := true |}
       Examples.dag3 ∅) /\
  exists maxLayer,
    Layering.tight_from_below Examples.dag3 maxLayer
      (LongestPath.longestPathCall Examples.walk3 {| Options.topDown := false |}
         Examples.dag3 ∅).
Proof.
  assert (Hb : LongestPath.reaches_all Examples.walk3 Examples.dag3 Dag.before) by in_range3.
  assert (Ha : LongestPath.reaches_all Examples.walk3 Examples.dag3 Dag.after) by in_range3.
  destruct (longest_path_roots_and_leaves Examples.walk3 Examples.dag3 ∅)
    as (Hdown & Hup & Htd & Hbu).
  split; [exact dag3_wf|]. split; [exact Hb|]. split; [exact Ha|].
  split; [exact (walk3_nodup Dag.before)|]. split; [exact (walk3_nodup Dag.after)|].
  split; [exact walk3_parents_first|]. split; [exact walk3_children_first|].
  split; [exact (Hdown Hb 0%nat dag3_root)|]. split; [|split].
  - destruct (Hup Ha walk3_children_first) as (maxLayer & Hleaf & _).
    exists maxLayer. exact (Hleaf 2%nat dag3_leaf).
  - exact (proj2 (Htd dag3_wf Hb (walk3_nodup Dag.before) walk3_parents_first)).
  - destruct (Hbu dag3_wf Ha (walk3_nodup Dag.after) walk3_children_first)
      as (maxLayer & _ & _ & Htight).
    exists maxLayer. exact Htight.
Defined.

Lemma stratify_parent_ids_witness :
  exists dag,
    StratifyOperator.call (fun _ => true) (fun _ _ => true)
      (StratifyOperator.parentIds Samples.by_ids Samples.ids_of) Samples.chain = Ok dag /\
    Stratify.data <$> Stratify.nodes dag = Samples.chain.
Proof.
  eexists. split; [reflexivity|].
  exact (proj1 (stratify_parent_ids_links (fun _ => true) (fun _ _ => true)
                  Samples.by_ids Samples.ids_of Samples.chain _ eq_refl)).
Defined.

Lemma dag3_simple : SimplexSpec.simple Examples.dag3.
Proof.
  split; [apply (bool_decide_unpack _); vm_compute; exact I|].
  intros node count Hin. unfold Dag.children in Hin.
  destruct node as [|[|[|node]]]; simpl in Hin;
    repeat (apply elem_of_cons in Hin as [Hin|Hin]; [discriminate Hin|]);
    inversion Hin.
Defined.

(** The double link [0 => 2] of [dag3]: its constraint has [min: 2]. *)
Lemma simplex_link_witness :
  Dag.wf Examples.dag3 /\ SimplexSpec.simple Examples.dag3 /\
  (0%nat, 2%nat, 2) ∈ Dag.links Examples.dag3 /\
  Simplex.constraints (Simplex.model (Simplex.program Examples.all_ranked Examples.dag3))
    !! "link: 0 -> 2" = Some {| Simplex.min := Some 2; Simplex.max := None |}.
Proof.
  assert (Hin : (0%nat, 2%nat, 2) ∈ Dag.links Examples.dag3).
  { right. left. }
  split; [exact dag3_wf|]. split; [exact dag3_simple|]. split; [exact Hin|].
  exact (proj1 (simplex_link_constraints Examples.all_ranked Examples.dag3 (fun _ => 0)
                  0%nat 2%nat 2 dag3_wf dag3_simple Hin)).
Defined.

Lemma simplex_variables_witness :
  Dag.wf Examples.dag3 /\
  (is_Some (Simplex.variables
              (Simplex.model (Simplex.program Examples.all_ranked Examples.dag3)) !! "3") <->
   exists j, (j < 3)%nat /\ "3" = Simplex.n j).
Proof.
  split; [exact dag3_wf|].
  exact (proj1 (simplex_variables_are_the_nodes Examples.all_ranked Examples.dag3 "3" dag3_wf)).
Defined.

Lemma ranked_wf : Dag.wf Samples.ranked.
Proof.
  intros node child count Hin. unfold Dag.children in Hin.
  destruct node as [|[|[|node]]]; simpl in Hin;
    repeat (apply elem_of_cons in Hin as [Hin|Hin]; [injection Hin as -> ->; simpl; lia|]);
    inversion Hin.
Defined.

Lemma grouped_wf : Dag.wf Samples.grouped.
Proof.
  intros node child count Hin. unfold Dag.children in Hin.
  destruct node as [|[|[|node]]]; simpl in Hin;
    repeat (apply elem_of_cons in Hin as [Hin|Hin]; [injection Hin as -> ->; simpl; lia|]);
    inversion Hin.
Defined.

Ltac satisfies_by_computation :=
  apply map_Forall_to_list;
  match goal with
  | |- Forall _ ?l => let l' := eval vm_compute in l in change l with l'
  end;
  repeat (apply Forall_cons; split;
          [split; intros d Hd; simpl in Hd; [|discriminate Hd];
           injection Hd as <-; vm_compute; discriminate|]);
  apply Forall_nil_2.

Lemma ranked_satisfies :
  SimplexSpec.satisfies
    (Simplex.model (Simplex.program Samples.by_rank Samples.ranked)) Samples.two_layers.
Proof. satisfies_by_computation. Defined.

Lemma grouped_satisfies :
  SimplexSpec.satisfies
    (Simplex.model (Simplex.program Samples.by_group Samples.grouped)) Samples.two_layers.
Proof. satisfies_by_computation. Defined.

(** Ranks 0, 1, 1 with node 0 on layer 0 and the others on layer 1. *)
Lemma simplex_ranks_witness :
  Dag.wf Samples.ranked /\
  SimplexSpec.satisfies
    (Simplex.model (Simplex.program Samples.by_rank Samples.ranked)) Samples.two_layers /\
  Samples.two_layers (Simplex.n 0) < Samples.two_layers (Simplex.n 2).
Proof.
  split; [exact ranked_wf|]. split; [exact ranked_satisfies|].
  refine (proj1 (simplex_solution_respects_ranks Samples.two_layers Samples.by_rank
                   Samples.ranked 0%nat 2%nat _ _ 0%Q 1%Q ranked_wf eq_refl eq_refl
                   eq_refl eq_refl ranked_satisfies) _).
  reflexivity.
Defined.

(** Groups "g", "h", "h" with the same layers. *)
Lemma simplex_groups_witness :
  Dag.wf Samples.grouped /\
  SimplexSpec.satisfies
    (Simplex.model (Simplex.program Samples.by_group Samples.grouped)) Samples.two_layers /\
  Samples.two_layers (Simplex.n 1) = Samples.two_layers (Simplex.n 2).
Proof.
  split; [exact grouped_wf|]. split; [exact grouped_satisfies|].
  exact (simplex_solution_respects_groups Samples.two_layers Samples.by_group
           Samples.grouped 1%nat 2%nat _ _ "h" grouped_wf eq_refl eq_refl
           eq_refl eq_refl grouped_satisfies).
Defined.

(** [vertical([2, 3])] on the operator made by [quad()]. *)
Lemma quad_vertical_witness :
  exists opts op h',
    Examples.operators !! 5%nat = Some (Options.QuadOp opts) /\
    Quad.vertical 5%nat (Some (2%Q, 3%Q)) Examples.operators = Ok (Built op, h') /\
    Quad.vertical op None h' = Ok (Got (Some (2%Q, 3%Q)), h').
Proof.
  assert (H2 : (0 <= 2)%Q) by (unfold Qle; simpl; lia).
  assert (H3 : (0 <= 3)%Q) by (unfold Qle; simpl; lia).
  eexists.
  destruct (proj2 (quad_vertical_round_trip Examples.operators 5%nat _ 2%Q 3%Q eq_refl) H2 H3)
    as (op & h' & Hset & Hget & _).
  exists op, h'. split; [reflexivity|]. split; [exact Hset | exact Hget].
Defined.

(** [component(2)] on the same operator. *)
Lemma quad_component_witness :
  exists opts op h',
    Examples.operators !! 5%nat = Some (Options.QuadOp opts) /\
    Quad.component 5%nat (Some 2%Q) Examples.operators = Ok (Built op, h') /\
    Quad.component op None h' = Ok (Got 2%Q, h').
Proof.
  assert (H2 : (0 < 2)%Q) by (unfold Qlt; simpl; lia).
  eexists.
  destruct (proj2 (quad_component_round_trip Examples.operators 5%nat _ 2%Q eq_refl) H2)
    as (op & h' & Hset & Hget & _).
  exists op, h'. split; [reflexivity|]. split; [exact Hset | exact Hget].
Defined.

(** [linkCurve] with an accessor that is not constant. *)
Lemma quad_pair_witness :
  exists opts op h',
    Examples.operators !! 5%nat = Some (Options.QuadOp opts) /\
    Quad.linkCurve 5%nat (Some Samples.by_unit) Examples.operators = Ok (Built op, h') /\
    Quad.curve op None h' = Ok (Got None, h').
Proof.
  eexists.
  destruct (quad_pair_is_null_for_accessor Examples.operators 5%nat _
              Samples.by_unit Samples.by_node eq_refl eq_refl eq_refl)
    as ((op & h' & Hset & _ & Hget) & _).
  exists op, h'. split; [reflexivity|]. split; [exact Hset | exact Hget].
Defined.

(** [curve([2, 3])] and [vertical([4, 5])] in both orders. *)
Lemma quad_commute_witness :
  exists opts op1 h1 op2 h2 op3 h3 op4 h4,
    Examples.operators !! 5%nat = Some (Options.QuadOp opts) /\
    Quad.curve 5%nat (Some (2%Q, 3%Q)) Examples.operators = Ok (Built op1, h1) /\
    Quad.vertical op1 (Some (4%Q, 5%Q)) h1 = Ok (Built op2, h2) /\
    Quad.vertical 5%nat (Some (4%Q, 5%Q)) Examples.operators = Ok (Built op3, h3) /\
    Quad.curve op3 (Some (2%Q, 3%Q)) h3 = Ok (Built op4, h4) /\
    h2 !! op2 = h4 !! op4.
Proof.
  assert (H2 : (0 <= 2)%Q) by (unfold Qle; simpl; lia).
  assert (H3 : (0 <= 3)%Q) by (unfold Qle; simpl; lia).
  assert (H4 : (0 <= 4)%Q) by (unfold Qle; simpl; lia).
  assert (H5 : (0 <= 5)%Q) by (unfold Qle; simpl; lia).
  eexists.
  destruct (quad_curve_vertical_commute Examples.operators 5%nat _ 2%Q 3%Q 4%Q 5%Q
              eq_refl H2 H3 H4 H5)
    as (op1 & h1 & op2 & h2 & op3 & h3 & op4 & h4 & A & B & C & D & E & _).
  exists op1, h1, op2, h2, op3, h3, op4, h4. split; [reflexivity|]. auto.
Defined.

(** [nodeSize] on the operator made by [sugiyama()]. *)
Lemma sugiyama_node_size_witness :
  exists so op h',
    Examples.operators !! 3%nat = Some (Options.SugiyamaOp so) /\
    Sugiyama.nodeSize 3%nat (Some (fun _ => (2%Q, 3%Q))) Examples.operators
      = Ok (Built op, h') /\
    exists acc, Sugiyama.sugiNodeSize op None h' = Ok (Got acc, h') /\
                forall link, Options.sugi_size acc {| Options.sugi_data := Options.SugiDummy link |}
                             = (2%Q, 3%Q).
Proof.
  eexists.
  destruct (sugiyama_node_size_sets_wrapped Examples.operators 3%nat _
              (fun _ => (2%Q, 3%Q)) eq_refl)
    as (op & h' & acc & Hset & _ & Hget & _ & _ & Hdummy & _).
  exists op, h'. split; [reflexivity|]. split; [exact Hset|].
  exists acc. split; [exact Hget | exact Hdummy].
Defined.

(** One layer of 50 nodes is rejected under "small" and "medium" with the
    first error; one of 2 nodes passes the check under "small", and
    "medium" gives the same. *)
Lemma opt_looser_setting_witness :
  1200 < Opt.numVars Samples.wide /\
  OptModel.optCall (fun _ l => l) {| Options.large := Options.Small |} Samples.wide
    = Throw TooLargeCrash /\
  ~ Opt.size_error (OptModel.optCall (fun _ l => l) {| Options.large := Options.Small |}
                      Samples.narrow) /\
  OptModel.optCall (fun _ l => l) {| Options.large := Options.Medium |} Samples.narrow
    = OptModel.optCall (fun _ l => l) {| Options.large := Options.Small |} Samples.narrow.
Proof.
  assert (Hw : 1200 < Opt.numVars Samples.wide) by (vm_compute; reflexivity).
  assert (Hn : ~ Opt.size_error (OptModel.optCall (fun _ l => l)
                                   {| Options.large := Options.Small |} Samples.narrow)).
  { intros [H|H]; vm_compute in H; discriminate H. }
  split; [exact Hw|].
  split; [exact (proj1 (proj2 (proj2 (proj2
            (opt_looser_setting_same_result (fun _ l => l) Samples.wide))) Hw))|].
  split; [exact Hn|].
  exact (proj1 (opt_looser_setting_same_result (fun _ l => l) Samples.narrow) Hn).
Defined.

(** The first call for node 2 calls the accessor; the second returns the
    cached pair and leaves the call count at 1. *)
Lemma cached_node_size_witness :
  Steps.cached Samples.square true 2%nat ([], 0%nat)
    = Steps.Sized ((JsNum 2, JsNum 2), ([(2%nat, (JsNum 2, JsNum 2))], 1%nat)) /\
  Steps.cached Samples.square true 2%nat ([(2%nat, (JsNum 2, JsNum 2))], 1%nat)
    = Steps.Sized ((JsNum 2, JsNum 2), ([(2%nat, (JsNum 2, JsNum 2))], 1%nat)).
Proof.
  assert (H : Steps.cached Samples.square true 2%nat ([], 0%nat)
              = Steps.Sized ((JsNum 2, JsNum 2), ([(2%nat, (JsNum 2, JsNum 2))], 1%nat)))
    by reflexivity.
  split; [exact H|].
  exact (proj1 (cached_node_size_memoizes Samples.square true 2%nat _ _ _ H)).
Defined.

Lemma one_size_cache_ok : Steps.cache_ok [(5%nat, (JsNum 1, JsNum 1))].
Proof.
  intros node width height H. simpl in H.
  destruct (decide (5%nat = node)); [|discriminate H].
  injection H as <- <-. split; reflexivity.
Defined.

(** With the check on and the size of node 5 in the cache: the width [NaN]
    of node 0 passes the check and is cached, the width -1 of node 1
    raises the error. *)
Lemma cached_node_size_checks_witness :
  Steps.cache_ok [(5%nat, (JsNum 1, JsNum 1))] /\
  (exists st',
     Steps.cached Samples.odd_sizes true 0%nat ([(5%nat, (JsNum 1, JsNum 1))], 0%nat)
       = Steps.Sized ((JsNaN, JsNum 1), st') /\
     Steps.cache_ok (fst st')) /\
  Steps.cached Samples.odd_sizes true 1%nat ([(5%nat, (JsNum 1, JsNum 1))], 0%nat)
    = Steps.NegativeSize (JsNum (-1)) (JsNum 1).
Proof.
  split; [exact one_size_cache_ok|]. split.
  - pose proof (proj1 (cached_node_size_checks Samples.odd_sizes 0%nat
                         ([(5%nat, (JsNum 1, JsNum 1))], 0%nat) one_size_cache_ok)) as H.
    eexists. split; [reflexivity|]. exact (proj2 (proj2 H)).
  - reflexivity.
Defined.

Lemma rows_nonempty : forall layer, layer ∈ Samples.rows -> layer <> [].
Proof.
  intros layer H. repeat (apply elem_of_cons in H as [->|H]; [discriminate|]). inversion H.
Defined.

Lemma floor_half_le (a : nat) : (0 <= a -> 0 <= Samples.floor_half a /\ Samples.floor_half a <= a)%nat.
Proof.
  intros _. split; [lia|]. unfold Samples.floor_half. apply Nat.Div0.div_le_upper_bound. lia.
Defined.

(** Sizes 1 and 2, then 3, in whole numbers: the half of 3 is rounded to 1
    and the order holds. *)
Lemma coord_vertical_witness :
  Steps.Rounded.coordVertical 0%nat Nat.add Samples.floor_half Samples.greatest
    Samples.rows Samples.own_size = ([[1; 1]; [3]]%nat, 5%nat) /\
  forall i j p q ya yb, (i <= j)%nat ->
    Steps.at_position [[1; 1]; [3]]%nat i p = Some ya ->
    Steps.at_position [[1; 1]; [3]]%nat j q = Some yb -> (ya <= yb)%nat.
Proof.
  split; [reflexivity|].
  exact (proj2 (proj2 (proj2 (coord_vertical_layers_in_order 0%nat Nat.add
    Samples.floor_half Samples.greatest Nat.le Samples.own_size
    (Nat.le_0_l 0) (fun a _ => Nat.le_refl a) Nat.le_trans
    (fun a b _ _ => Nat.le_add_r a b) (fun a b c _ _ => proj1 (Nat.add_le_mono_l b c a))
    floor_half_le
    (fun xs _ _ => Nat.le_0_l _)
    Samples.rows _ _ rows_nonempty (fun _ node _ _ => Nat.le_0_l _) eq_refl)))).
Defined.


Lemma empty_link_cache_ok : QuadCache.weights_ok (∅ : QuadCache.LinkCache).
Proof. intros k v H. rewrite lookup_empty in H. discriminate H. Defined.

Lemma empty_node_cache_ok : QuadCache.weights_ok (∅ : QuadCache.NodeCache).
Proof. intros k v H. rewrite lookup_empty in H. discriminate H. Defined.

(** Two links from node 0 to node 1 with data 2 and 7: the second gets the
    weight of the first. *)
Lemma quad_link_cache_witness :
  QuadCache.value Samples.by_datum = None /\
  exists cache',
    QuadCache.cacheLinkWeightAccessor Samples.by_datum
      {| Options.source := 0; Options.target := 1; Options.link_data := JsNum 2 |} ∅
    = QuadCache.Weighed (JsNum 2, cache') /\
    QuadCache.cacheLinkWeightAccessor Samples.by_datum
      {| Options.source := 0; Options.target := 1; Options.link_data := JsNum 7 |} cache'
    = QuadCache.Weighed (JsNum 2, cache').
Proof.
  split; [reflexivity|]. eexists.
  assert (H : QuadCache.cacheLinkWeightAccessor Samples.by_datum
                {| Options.source := 0; Options.target := 1; Options.link_data := JsNum 2 |} ∅
              = QuadCache.Weighed (JsNum 2, <[(0%nat, 1%nat) := JsNum 2]> ∅)) by reflexivity.
  split; [exact H|].
  destruct (proj1 (quad_link_weights_are_cached_by_endpoints Samples.by_datum
              {| Options.source := 0; Options.target := 1; Options.link_data := JsNum 2 |} ∅
              eq_refl empty_link_cache_ok) _ _ H) as (_ & _ & Hagain).
  exact (Hagain {| Options.source := 0; Options.target := 1; Options.link_data := JsNum 7 |}
           eq_refl eq_refl).
Defined.

Lemma quad_node_cache_witness :
  QuadCache.weights_ok (∅ : QuadCache.NodeCache) /\
  exists cache',
    QuadCache.cacheNodeWeightAccessor Samples.by_number 3%nat ∅
      = QuadCache.Weighed (JsNum 3, cache') /\
    QuadCache.cacheNodeWeightAccessor Samples.by_number 3%nat cache'
      = QuadCache.Weighed (JsNum 3, cache').
Proof.
  split; [exact empty_node_cache_ok|]. eexists.
  assert (H : QuadCache.cacheNodeWeightAccessor Samples.by_number 3%nat ∅
              = QuadCache.Weighed (JsNum 3, <[3%nat := JsNum 3]> ∅)) by reflexivity.
  split; [exact H|].
  destruct (proj1 (proj1 (quad_node_weights_are_cached Samples.by_number 3%nat ∅
              empty_node_cache_ok) eq_refl) _ _ H) as (_ & _ & Hagain).
  exact Hagain.
Defined.

Lemma unranked_none (node : Dag.DagNode unit) :
  node ∈ Examples.dag3 ->
  Options.rank Samples.unranked node = None /\ Options.group Samples.unranked node = None.
Proof. intros _. split; reflexivity. Defined.

Lemma three_layers_links node child count :
  (node, child, count) ∈ Dag.links Examples.dag3 ->
  Samples.three_layers (Simplex.n node) + LongestPath.span count
    <= Samples.three_layers (Simplex.n child).
Proof.
  intros Hin.
  repeat (apply elem_of_cons in Hin as [Hin|Hin];
          [injection Hin as -> -> ->; vm_compute; discriminate|]).
  inversion Hin.
Defined.

(** The layers 0, 1, 2 meet the constraints of the program of [dag3]. *)
Lemma simplex_constraints_witness :
  Dag.wf Examples.dag3 /\ SimplexSpec.simple Examples.dag3 /\
  SimplexSpec.satisfies (Simplex.model (Simplex.program Samples.unranked Examples.dag3))
    Samples.three_layers.
Proof.
  split; [exact dag3_wf|]. split; [exact dag3_simple|].
  exact (proj2 (simplex_constraints_are_the_links Samples.three_layers Samples.unranked
                  Examples.dag3 dag3_wf dag3_simple unranked_none) three_layers_links).
Defined.

Lemma solved_sound (assignment : gmap string Z) :
  Samples.solved "opt" "max"
    (Simplex.variables (Simplex.model (Simplex.program Samples.unranked Examples.dag3)))
    (Simplex.constraints (Simplex.model (Simplex.program Samples.unranked Examples.dag3)))
    (Simplex.ints (Simplex.model (Simplex.program Samples.unranked Examples.dag3)))
  = Ok assignment ->
  SimplexSpec.satisfies (Simplex.model (Simplex.program Samples.unranked Examples.dag3))
    (fun name => default 0 (assignment !! name)).
Proof.
  intros H. injection H as <-. satisfies_by_computation.
Defined.

(** [simplexCall] on [dag3] with a solver that answers 1 and 2 for the
    nodes 1 and 2: the layers are 0, 1, 2. *)
Lemma simplex_call_witness :
  Dag.wf Examples.dag3 /\ SimplexSpec.simple Examples.dag3 /\
  Simplex.simplexCall Samples.solved Samples.unranked Examples.dag3 = Ok [0; 1; 2] /\
  length [0; 1; 2] = length Examples.dag3.
Proof.
  assert (H : Simplex.simplexCall Samples.solved Samples.unranked Examples.dag3
              = Ok [0; 1; 2]) by reflexivity.
  split; [exact dag3_wf|]. split; [exact dag3_simple|]. split; [exact H|].
  exact (proj1 (simplex_call_is_layering Samples.solved Samples.unranked Examples.dag3
                  [0; 1; 2] dag3_wf dag3_simple solved_sound H)).
Defined.

(** The model of two layers of two nodes has two integer variables. *)
Lemma opt_model_witness :
  exists model,
    OptModel.model Samples.crossing = OptModel.Done model /\
    Z.of_nat (size (OptModel.ints model)) = 2 /\
    OptModel.ints model !! "2 => 3" = Some 1%Q.
Proof.
  destruct (OptModel.model Samples.crossing) as [model| |] eqn:E;
    [|vm_compute in E; discriminate E|vm_compute in E; discriminate E].
  exists model. split; [reflexivity|].
  destruct (opt_model_integer_variables Samples.crossing model E) as (Hsize & Hpair & _).
  split; [exact Hsize|].
  apply (Hpair 2%nat 3%nat); [lia|]. exists 1%nat.
  split; vm_compute; [left | right; left].
Defined.

Lemma crossing_proper : OptModel.proper Samples.crossing.
Proof.
  intros l layer p children c Hl Hp Hc.
  destruct l as [|[|l]]; simpl in Hl; [| |discriminate Hl]; injection Hl as <-;
    repeat (apply elem_of_cons in Hp as [Hp|Hp];
            [injection Hp as -> ->;
             repeat (apply elem_of_cons in Hc as [->|Hc];
                     [vm_compute; repeat first [apply list_elem_of_here
                                               | apply list_elem_of_further]|]);
             inversion Hc|]);
    inversion Hp.
Defined.

Lemma opt_model_is_built_witness :
  OptModel.proper Samples.crossing /\
  exists model, OptModel.model Samples.crossing = OptModel.Done model.
Proof.
  split; [exact crossing_proper|].
  exact (opt_model_is_built Samples.crossing crossing_proper).
Defined.

(** The triangle of the three nodes below the root of the fan. *)
Lemma opt_model_triangle_witness :
  exists model,
    OptModel.model Samples.fan = OptModel.Done model /\
    OptModel.has_row model (OptModel.triangle_name 1 2 3 +:+ "+")
      (Some {| OptModel.min := None; OptModel.max := Some 1%Q |})
      (OptModel.triangle_row 1 2 3) /\
    OptModel.has_row model (OptModel.triangle_name 1 2 3 +:+ "-")
      (Some {| OptModel.min := Some 0%Q; OptModel.max := None |})
      (OptModel.triangle_row 1 2 3).
Proof.
  destruct (OptModel.model Samples.fan) as [model| |] eqn:E;
    [|vm_compute in E; discriminate E|vm_compute in E; discriminate E].
  exists model. split; [reflexivity|].
  apply (opt_model_triangle_constraints Samples.fan model 1 2 3 E); [lia | lia |].
  exists 1%nat. split; vm_compute; [left | right; right; left].
Defined.

(** The objective of the model of two layers of two nodes. *)
Lemma opt_model_objective_witness :
  exists model,
    OptModel.model Samples.crossing = OptModel.Done model /\
    OptModel.optimize model = "opt" /\ OptModel.opType model = "min" /\
    forall v var, OptModel.variables model !! v = Some var ->
      var !! "opt" = Some (match OptModel.ints model !! v with
                           | Some _ => ((-1) / inject_Z (Opt.numVars Samples.crossing + 1))%Q
                           | None => 1%Q
                           end).
Proof.
  destruct (OptModel.model Samples.crossing) as [model| |] eqn:E;
    [|vm_compute in E; discriminate E|vm_compute in E; discriminate E].
  exists model. split; [reflexivity|].
  exact (opt_model_objective Samples.crossing model E).
Defined.

(** The slack of the links from node 0 to node 3 and from node 1 to node 2,
    which cross in the given order. *)
Lemma opt_model_crossing_witness :
  exists model,
    OptModel.model Samples.crossing = OptModel.Done model /\
    OptModel.has_row model
      (OptModel.slack_name (OptModel.pair_name 0 1) (OptModel.pair_name 2 3) +:+ " +")
      (Some {| OptModel.min := Some 1%Q; OptModel.max := None |})
      (OptModel.slack_row
         (OptModel.slack_name (OptModel.pair_name 0 1) (OptModel.pair_name 2 3))
         (OptModel.pair_name 0 1) (OptModel.pair_name 2 3) 1 1) /\
    OptModel.has_row model
      (OptModel.slack_name (OptModel.pair_name 0 1) (OptModel.pair_name 2 3) +:+ " -")
      (Some {| OptModel.min := Some (-1)%Q; OptModel.max := None |})
      (OptModel.slack_row
         (OptModel.slack_name (OptModel.pair_name 0 1) (OptModel.pair_name 2 3))
         (OptModel.pair_name 0 1) (OptModel.pair_name 2 3) (-1) (-1)).
Proof.
  destruct (OptModel.model Samples.crossing) as [model| |] eqn:E;
    [|vm_compute in E; discriminate E|vm_compute in E; discriminate E].
  exists model. split; [reflexivity|].
  apply (opt_model_crossing_constraints Samples.crossing model 0 0 1 0 1 3 2
           [2; 3]%nat [2]%nat E).
  - simpl. lia.
  - reflexivity.
  - reflexivity.
  - lia.
  - right. left.
  - left.
  - lia.
  - intros [_ H]. apply elem_of_cons in H as [H|H]; [discriminate H | inversion H].
Defined.
